(** * modaltron: a shallow embedding of the Python game server

    The development follows [src/python_server/server]: one Rocq module per
    Python class, the definitions keeping the names of the methods they
    embed.

    Number model.  A finite Python [float] is the rational number ([Q]) it
    stands for; [int] values are in [Z].  Where the rounding of binary64
    arithmetic decides a result (the compressor, the probability of
    [BonusGameClear], the distances of the print manager) the operations
    are those of the module [B64], which rounds each result to the nearest
    binary64 number; elsewhere the arithmetic is exact.  [int(x)]
    truncates toward zero and [round(x)] rounds half to even, as Python 3
    does.  The functions of the [math] module that have no rational
    value ([cos], [sin], [log], [sqrt]) are collected in the class [MathLib];
    the statements hold for every instance of it. *)

From Stdlib Require Import ZArith QArith Qround Qabs Qminmax List Bool String Lia Lqa.
From Stdlib Require Import Permutation Sorted Qpower.
From Stdlib Require Qcanon.
Import ListNotations.

Open Scope Z_scope.

(** * Part I: the embedding *)

(** ** Python numeric primitives *)

Module Py.

(** [int(x)] on a float: the integer part, truncated toward zero. *)
Definition int (x : Q) : Z := Z.quot (Qnum x) (Z.pos (Qden x)).

(** [round(x)] on a float, no [ndigits]: nearest integer, ties to even. *)
Definition round (x : Q) : Z :=
  let f := Qfloor x in
  match ((x - inject_Z f) ?= (1 # 2))%Q with
  | Lt => f
  | Gt => f + 1
  | Eq => if Z.even f then f else f + 1
  end.

(** [max(a, b)] on floats. *)
Definition max (a b : Q) : Q := if Qlt_le_dec a b then b else a.

End Py.

(** ** Binary64 arithmetic

    A finite [float] is the rational number it stands for.  An operation
    on floats is the exact operation followed by [rnd], the rounding to the
    nearest binary64 number, ties to the even significand: 53 significant
    binary digits, and no digit below [2^-1074].  Results beyond the largest
    binary64 number, which Python turns into [inf], are outside the model:
    the statements bound their inputs. *)

Module B64.

Definition pow2 (e : Z) : Q := Qpower 2 e.

(** The exponent [k] with [2^k <= |x| < 2^(k+1)], for [x] other than 0. *)
Definition ilog2 (x : Q) : Z :=
  let k := Z.log2 (Z.abs (Qnum x)) - Z.log2 (Z.pos (Qden x)) in
  if Qle_bool (pow2 k) (Qabs x) then k else k - 1.

(** The exponent of the last binary digit kept. *)
Definition ulp_exp (x : Q) : Z := Z.max (ilog2 x - 52) (-1074).

Definition rnd (x : Q) : Q :=
  if Qeq_bool x 0 then 0
  else (inject_Z (Py.round (x / pow2 (ulp_exp x))) * pow2 (ulp_exp x))%Q.

(** [x + y], [x - y], [x * y] and [x / y] on floats. *)
Definition add (x y : Q) : Q := rnd (x + y).
Definition sub (x y : Q) : Q := rnd (x - y).
Definition mul (x y : Q) : Q := rnd (x * y).
Definition div (x y : Q) : Q := rnd (x / y).

(** [float(n)], and [a / b] on two [int]: the quotient, rounded once. *)
Definition of_int (n : Z) : Q := rnd (inject_Z n).
Definition div_int (a b : Z) : Q := rnd (inject_Z a / inject_Z b).

End B64.

(** ** services/compressor.py *)

Module Compressor.

Definition precision : Q := 100.

(** [Compressor.compress]: [int(0.5 + value * self.precision)], the product
    and the sum being binary64 operations. *)
Definition compress (value : Q) : Z :=
  Py.int (B64.add (1 # 2) (B64.mul value precision)).

(** [Compressor.decompress]: [value / self.precision], the quotient of two
    [int]. *)
Definition decompress (value : Z) : Q :=
  B64.div (inject_Z value) precision.

(** The compression as the specification words it:
    [cx = round(0.5 + x * 100)]. *)
Definition spec_compress (x : Q) : Z :=
  Py.round ((1 # 2) + x * 100).

End Compressor.

(** ** models/bonus/bonus_game_clear.py *)

Module BonusGameClear.

(** [BaseBonus.probability], inherited unchanged by [BonusGameClear]. *)
Definition probability : Q := 1.

(** [BonusGameClear.get_probability], on the two counts it reads from the
    game: [game.get_alive_avatars().count()] and
    [game.get_present_avatars().count()].  The quotient of the two [int],
    the two subtractions, the product and the final quotient are binary64
    operations. *)
Definition get_probability (alive_count present_count : Z) : Q :=
  if present_count =? 0 then 0
  else
    let ratio := B64.sub 1 (B64.div_int alive_count present_count) in
    if Qlt_le_dec ratio (1 # 2) then probability
    else B64.div_int (Py.round (B64.mul (B64.sub probability ratio) 10)) 10.

(** The probability as the specification words it, [s] being
    [aliveCount / presentCount]: 1.0 when [1 - s < 0.5], and otherwise
    [max(0, round(s * 10) / 10)]. *)
Definition spec_get_probability (alive_count present_count : Z) : Q :=
  let s := (inject_Z alive_count / inject_Z present_count)%Q in
  if Qlt_le_dec (1 - s) (1 # 2) then 1
  else Py.max 0 (B64.div_int (Py.round (s * 10)) 10).

End BonusGameClear.

(** ** Exceptions

    Fallible functions return a [result].  [ZeroDivisionError], [TypeError]
    and [ValueError] are Python's; [Unsupported] marks a computation whose value
    lies outside the number model (a non-integer power of 2, an attribute
    assigned by name that the model keeps as a typed field). *)

Inductive exn : Type := ZeroDivisionError | TypeError | ValueError | Unsupported.

Inductive result (A : Type) : Type :=
| Ok (a : A)
| Raise (e : exn).
Arguments Ok {A} a.
Arguments Raise {A} e.

Definition bind {A B : Type} (m : result A) (k : A -> result B) : result B :=
  match m with
  | Ok a => k a
  | Raise e => Raise e
  end.

Notation "x <- m ;; k" := (bind m (fun x => k))
  (at level 61, m at next level, right associativity).
Notation "' p <- m ;; k" := (bind m (fun p => k))
  (at level 61, p pattern, m at next level, right associativity).

(** [a / b] on floats. *)
Definition fdiv (a b : Q) : result Q :=
  if Qeq_bool b 0 then Raise ZeroDivisionError else Ok (a / b)%Q.

(** ** The [math] module

    The functions of [math] with no rational value, as parameters of the
    model ([pi] is the binary64 constant); [log] is the natural logarithm.  The laws are the two the
    statements use: [log] depends on the value of its argument only, and
    [math.log(1.0)] is [0.0]. *)

Class MathLib : Type := {
  cos : Q -> Q;
  sin : Q -> Q;
  log : Q -> Q;
  sqrt : Q -> Q;
  log_proper : forall x y : Q, (x == y)%Q -> (log x == log y)%Q;
  log_1 : (log 1 == 0)%Q
}.

(** [math.pi] *)
Definition pi : Q := 884279719003555 # 281474976710656.

(** ** collection.py

    A [Collection] keeps two parallel lists: the ids recorded at insertion
    and the items themselves.  [key] reads the attribute named by
    [self.key]. *)

Module Collection.
Section Def.
Context {K T : Type} (eqb : K -> K -> bool) (key : T -> K).

Record t : Type := mk { ids : list K; items : list T; id_counter : Z }.

Definition empty : t := mk [] [] 0.

(** [Collection.clear] *)
Definition clear (c : t) : t := mk [] [] 0.

(** [Collection.count] *)
Definition count (c : t) : Z := Z.of_nat (List.length (ids c)).

(** [id_value in self.ids] *)
Definition index_exists (c : t) (k : K) : bool := existsb (eqb k) (ids c).

(** [Collection.exists] *)
Definition exists_ (c : t) (element : T) : bool := index_exists c (key element).

(** [Collection.add], for a collection without auto-indexing. *)
Definition add (c : t) (element : T) : t * bool :=
  if exists_ c element then (c, false)
  else (mk (ids c ++ [key element]) (items c ++ [element]) (id_counter c), true).

(** [self.ids.index(id)]: position of the first occurrence. *)
Fixpoint index (k : K) (l : list K) : option nat :=
  match l with
  | [] => None
  | k' :: l' => if eqb k' k then Some O else option_map S (index k l')
  end.

Fixpoint delete {A : Type} (i : nat) (l : list A) : list A :=
  match l, i with
  | [], _ => []
  | _ :: l', O => l'
  | a :: l', S i' => a :: delete i' l'
  end.

(** [Collection._delete_index] *)
Definition delete_index (c : t) (i : nat) : t :=
  mk (delete i (ids c)) (delete i (items c)) (id_counter c).

(** [Collection.remove_by_id] *)
Definition remove_by_id (c : t) (k : K) : t * bool :=
  match index k (ids c) with
  | Some i => (delete_index c i, true)
  | None => (c, false)
  end.

(** [Collection.remove] *)
Definition remove (c : t) (element : T) : t * bool :=
  remove_by_id c (key element).

(** [Collection.get_by_id] *)
Definition get_by_id (c : t) (k : K) : option T :=
  match index k (ids c) with
  | Some i => nth_error (items c) i
  | None => None
  end.

(** [Collection.match]: the first item satisfying the predicate. *)
Definition match_ (c : t) (p : T -> bool) : option T := find p (items c).

(** [Collection.get_first] *)
Definition get_first (c : t) : option T := hd_error (items c).

(** [Collection.get_last] *)
Definition get_last (c : t) : option T := last (map Some (items c)) None.

(** [Collection.is_empty] *)
Definition is_empty (c : t) : bool := (List.length (ids c) =? 0)%nat.

Section Indexing.
Context (as_int : K -> option Z) (set_key : T -> Z -> T).

(** [Collection._set_id], [index] being [self.index]: [as_int] reads an id
    as an integer, [None] for Python's [None], and [set_key] is
    [setattr(element, self.key, id)]. *)
Definition set_id (index : bool) (c : t) (element : T) : t * T :=
  if index then
    let fresh :=
      let n := id_counter c + 1 in
      (mk (ids c) (items c) n, set_key element n) in
    match as_int (key element) with
    | Some current_id =>
        if current_id =? 0 then fresh
        else if id_counter c <? current_id
             then (mk (ids c) (items c) current_id, element)
             else (c, element)
    | None => fresh
    end
  else (c, element).

(** [Collection.add], with [_set_id]. *)
Definition add_with (index : bool) (c : t) (element : T) : t * bool :=
  let '(c, element) := set_id index c element in
  add c element.

(** [Collection(items, key, index)]: the constructor adds the items from
    the last to the first. *)
Definition of_list (index : bool) (l : list T) : t :=
  fold_left (fun c element => fst (add_with index c element)) (rev l) empty.

(** [Collection.filter]: the items kept are listed from the last to the
    first and handed to the constructor, with [self.key] and
    [self.index]. *)
Definition filter (index : bool) (c : t) (p : T -> bool) : t :=
  of_list index (List.filter p (rev (items c))).

(** The largest id of a list of items, 0 at least. *)
Definition top_id (l : list T) : Z :=
  fold_left
    (fun m element =>
       match as_int (key element) with Some id => Z.max m id | None => m end)
    l 0.

End Indexing.

End Def.
Arguments t : clear implicits.
Arguments empty {K T}.
Arguments clear {K T} c.
Arguments count {K T} c.
Arguments get_first {K T} c.
Arguments get_last {K T} c.
Arguments is_empty {K T} c.
Arguments match_ {K T} c p.
Arguments delete_index {K T} c i.
End Collection.

(** ** core/body.py, core/avatar_body.py

    [data] is a reference to the owning avatar or bonus.  Of the avatar the
    bodies read only [id] (through [equal]) and [trail_latency], an attribute
    assigned once in the constructor; of the bonus they are used to find the
    bonus again, which its id does.  The [birth] time stamp of an
    [AvatarBody], read by [is_old] alone, is left out. *)

Module Body.

Record AvatarRef : Type := { avatar_id : Z; trail_latency : Z }.

Inductive kind : Type :=
| Plain (data : option Z)                 (* [Body]; data: a bonus id, or None *)
| AvatarBody (data : AvatarRef) (num : Z). (* [AvatarBody] *)

Record t : Type := mk {
  x : Q;
  y : Q;
  radius : Q;
  cls : kind;
  id : option Z;
  islands : list (Z * Z)     (* ids of the islands the body is listed in *)
}.

(** [Body(x, y, radius, data)] *)
Definition new (x y radius : Q) (data : option Z) : t :=
  mk x y radius (Plain data) None [].

(** [BaseAvatar.equal], on the references two bodies hold. *)
Definition equal (a b : AvatarRef) : bool := avatar_id a =? avatar_id b.

(** [Body.match] and its override [AvatarBody.match], dispatched on the
    class of [self]. *)
Definition match_ (self body : t) : bool :=
  match cls self with
  | Plain _ => true
  | AvatarBody self_data self_num =>
      match cls body with
      | AvatarBody body_data body_num =>
          if equal self_data body_data
          then trail_latency self_data <? body_num - self_num
          else true
      | Plain _ => true
      end
  end.

Definition set_xy (b : t) (x' y' : Q) : t :=
  mk x' y' (radius b) (cls b) (id b) (islands b).

Definition set_id (b : t) (i : Z) : t :=
  mk (x b) (y b) (radius b) (cls b) (Some i) (islands b).

Definition set_islands (b : t) (l : list (Z * Z)) : t :=
  mk (x b) (y b) (radius b) (cls b) (id b) l.

Definition option_Z_eqb (a b : option Z) : bool :=
  match a, b with
  | Some a, Some b => a =? b
  | None, None => true
  | _, _ => false
  end.

End Body.

(** ** core/island.py *)

Module Island.

Definition pair_eqb (a b : Z * Z) : bool :=
  (fst a =? fst b) && (snd a =? snd b).

(** The island id is the string ["x:y"] of two integers, kept as the pair. *)
Record t : Type := mk {
  id : Z * Z;
  size : Q;
  from_x : Q;
  from_y : Q;
  to_x : Q;
  to_y : Q;
  bodies : Collection.t (option Z) Body.t
}.

Definition bodies_add := Collection.add Body.option_Z_eqb Body.id.
Definition bodies_remove := Collection.remove Body.option_Z_eqb Body.id.

(** [Island(id, size, x, y)] *)
Definition new (id : Z * Z) (size x y : Q) : t :=
  mk id size x y (x + size) (y + size) Collection.empty.

Definition set_bodies (i : t) (b : Collection.t (option Z) Body.t) : t :=
  mk (id i) (size i) (from_x i) (from_y i) (to_x i) (to_y i) b.

(** [Island.get_distance(...) < radius].  The distance is the square root of
    [d2 = dx^2 + dy^2], so it is below [radius] exactly when [radius] is
    positive and [d2 < radius^2]. *)
Definition distance_lt (ax ay bx by_ radius : Q) : bool :=
  let d2 := ((ax - bx) * (ax - bx) + (ay - by_) * (ay - by_))%Q in
  if Qlt_le_dec 0 radius then
    if Qlt_le_dec d2 (radius * radius) then true else false
  else false.

(** [Island.bodies_touch] *)
Definition bodies_touch (body_a body_b : Body.t) : bool :=
  let radius := (Body.radius body_a + Body.radius body_b)%Q in
  let match_ := Body.match_ body_a body_b in
  distance_lt (Body.x body_a) (Body.y body_a) (Body.x body_b) (Body.y body_b) radius
  && match_.

Definition Qltb (a b : Q) : bool := if Qlt_le_dec a b then true else false.

(** [Island.body_in_bound] *)
Definition body_in_bound (body : Body.t) (from_x from_y to_x to_y : Q) : bool :=
  Qltb from_x (Body.x body + Body.radius body) &&
  Qltb (Body.x body - Body.radius body) to_x &&
  Qltb from_y (Body.y body + Body.radius body) &&
  Qltb (Body.y body - Body.radius body) to_y.

(** [Island.get_body] *)
Definition get_body (i : t) (body : Body.t) : option Body.t :=
  if body_in_bound body (from_x i) (from_y i) (to_x i) (to_y i)
  then find (fun other => bodies_touch other body) (Collection.items (bodies i))
  else None.

(** [Island.test_body] *)
Definition test_body (i : t) (body : Body.t) : bool :=
  match get_body i body with None => true | Some _ => false end.

(** [Island.add_body]; returns the island and the body, whose [islands]
    list the call extends. *)
Definition add_body (i : t) (body : Body.t) : t * Body.t :=
  let '(bodies', added) := bodies_add (bodies i) body in
  if added
  then (set_bodies i bodies',
        if existsb (pair_eqb (id i)) (Body.islands body) then body
        else Body.set_islands body (Body.islands body ++ [id i]))
  else (i, body).

(** [Island.remove_body] *)
Definition remove_body (i : t) (body : Body.t) : t * Body.t :=
  (set_bodies i (fst (bodies_remove (bodies i) body)),
   Body.set_islands body
     (filter (fun k => negb (pair_eqb k (id i))) (Body.islands body))).

(** [Island.clear] *)
Definition clear (i : t) : t := set_bodies i (Collection.clear (bodies i)).

End Island.

(** ** models/base_avatar.py: class constants *)

Module Default.

Definition VELOCITY : Q := 16.
Definition ANGULAR_VELOCITY_BASE : Q := (28 # 10) / 1000.
Definition RADIUS : Q := 6 # 10.
Definition TRAIL_LATENCY : Z := 3.
Definition INVERSE : bool := false.
Definition INVINCIBLE : bool := false.
Definition DIRECTION_IN_LOOP : bool := true.

End Default.

(** ** The [random] module

    [random.random()] is an oracle: an infinite sequence of draws, consumed
    one at a time. *)

Module Random.

Record t : Type := mk { draws : nat -> Q; next : nat }.

(** [random.random()] *)
Definition random (r : t) : Q * t :=
  (draws r (next r), mk (draws r) (S (next r))).

End Random.

(** ** core/world.py

    An island held in [body.islands] is found again by its id among the
    islands of the world the body is removed from. *)

Module World.

Definition island_grid_size : Q := 40.

Record t : Type := mk {
  size : Q;
  islands : Collection.t (Z * Z) Island.t;
  island_size : Q;
  active : bool;
  body_count : Z
}.

Definition islands_add := Collection.add Island.pair_eqb Island.id.
Definition islands_get_by_id := Collection.get_by_id (T := Island.t) Island.pair_eqb.

(** [range(n - 1, -1, -1)] *)
Definition range_down (n : Z) : list Z :=
  map (fun k => n - 1 - Z.of_nat k) (seq 0 (Z.to_nat n)).

(** [World(size, islands)] *)
Definition new (size : Q) (islands : option Z) : result t :=
  let n := match islands with
           | Some n => n
           | None => Py.round (size / island_grid_size)
           end in
  island_size <- fdiv size (inject_Z n) ;;
  let grid :=
    fold_left
      (fun c yx =>
         let '(y, x) := yx in
         fst (islands_add c
                (Island.new (x, y) island_size
                   (inject_Z x * island_size) (inject_Z y * island_size))))
      (list_prod (range_down n) (range_down n))
      Collection.empty in
  Ok (mk size grid island_size false 0).

(** Write an island, mutated in place by the Python code, back into the
    collection that holds it. *)
Definition put_island (w : t) (i : Island.t) : t :=
  let c := islands w in
  mk (size w)
     (Collection.mk (Collection.ids c)
        (map (fun j => if Island.pair_eqb (Island.id j) (Island.id i) then i else j)
           (Collection.items c))
        (Collection.id_counter c))
     (island_size w) (active w) (body_count w).

(** [World.get_island_by_point] *)
Definition get_island_by_point (w : t) (px py : Q) : result (option Island.t) :=
  qx <- fdiv px (island_size w) ;;
  qy <- fdiv py (island_size w) ;;
  Ok (islands_get_by_id (islands w) (Py.int qx, Py.int qy)).

(** [World._add_body_by_point] *)
Definition add_body_by_point (w : t) (body : Body.t) (x y : Q)
  : result (t * Body.t) :=
  island <- get_island_by_point w x y ;;
  match island with
  | Some i => let '(i', body') := Island.add_body i body in
              Ok (put_island w i', body')
  | None => Ok (w, body)
  end.

(** [World.add_body] *)
Definition add_body (w : t) (body : Body.t) : result (t * Body.t) :=
  if negb (active w) then Ok (w, body)
  else
    let body := Body.set_id body (body_count w) in
    let w := mk (size w) (islands w) (island_size w) (active w) (body_count w + 1) in
    let r := Body.radius body in
    '(w, body) <- add_body_by_point w body (Body.x body - r) (Body.y body - r) ;;
    '(w, body) <- add_body_by_point w body (Body.x body + r) (Body.y body - r) ;;
    '(w, body) <- add_body_by_point w body (Body.x body - r) (Body.y body + r) ;;
    add_body_by_point w body (Body.x body + r) (Body.y body + r).

(** One turn of the loop of [World.remove_body], for the island with id
    [k]: [island.remove_body(body)]. *)
Definition remove_body_from (wb : t * Body.t) (k : Z * Z) : t * Body.t :=
  let '(w, body) := wb in
  match islands_get_by_id (islands w) k with
  | Some i => let '(i', body') := Island.remove_body i body in
              (put_island w i', body')
  | None => (w, body)
  end.

(** [World.remove_body]; the loop runs over a copy of [body.islands]. *)
Definition remove_body (w : t) (body : Body.t) : t * Body.t :=
  if negb (active w) then (w, body)
  else fold_left remove_body_from (Body.islands body) (w, body).

(** [World._get_body_by_point] *)
Definition get_body_by_point (w : t) (body : Body.t) (x y : Q)
  : result (option Body.t) :=
  island <- get_island_by_point w x y ;;
  Ok (match island with
      | Some i => Island.get_body i body
      | None => None
      end).

(** [a or b], on a value that is falsy only when it is None. *)
Definition or_else {A : Type} (a : result (option A)) (b : result (option A))
  : result (option A) :=
  v <- a ;;
  match v with
  | Some _ => Ok v
  | None => b
  end.

(** [World.get_body] *)
Definition get_body (w : t) (body : Body.t) : result (option Body.t) :=
  let r := Body.radius body in
  or_else (get_body_by_point w body (Body.x body - r) (Body.y body - r))
 (or_else (get_body_by_point w body (Body.x body + r) (Body.y body - r))
 (or_else (get_body_by_point w body (Body.x body - r) (Body.y body + r))
          (get_body_by_point w body (Body.x body + r) (Body.y body + r)))).

(** [World._test_body_by_point] *)
Definition test_body_by_point (w : t) (body : Body.t) (x y : Q) : result bool :=
  island <- get_island_by_point w x y ;;
  Ok (match island with
      | Some i => Island.test_body i body
      | None => false
      end).

(** [a and b] on booleans: [b] is evaluated only when [a] holds. *)
Definition and_then (a b : result bool) : result bool :=
  v <- a ;; if v then b else Ok false.

(** [World.test_body] *)
Definition test_body (w : t) (body : Body.t) : result bool :=
  let r := Body.radius body in
  and_then (test_body_by_point w body (Body.x body - r) (Body.y body - r))
 (and_then (test_body_by_point w body (Body.x body + r) (Body.y body - r))
 (and_then (test_body_by_point w body (Body.x body - r) (Body.y body + r))
           (test_body_by_point w body (Body.x body + r) (Body.y body + r)))).

(** [World._get_random_point] *)
Definition get_random_point (w : t) (margin : Q) (rnd : Random.t) : Q * Random.t :=
  let '(u, rnd) := Random.random rnd in
  ((margin + u * (size w - margin * 2))%Q, rnd).

Definition max_attempts : nat := 1000.

(** The [while] loop of [World.get_random_position]; [fuel] is
    [max_attempts - attempts]. *)
Fixpoint resample (w : t) (fuel : nat) (margin : Q) (body : Body.t)
    (rnd : Random.t) : result (Body.t * Random.t) :=
  free <- test_body w body ;;
  if free then Ok (body, rnd)
  else
    match fuel with
    | O => Ok (body, rnd)
    | S fuel' =>
        let '(x, rnd) := get_random_point w margin rnd in
        let '(y, rnd) := get_random_point w margin rnd in
        resample w fuel' margin (Body.set_xy body x y) rnd
    end.

(** [World.get_random_position] *)
Definition get_random_position (w : t) (radius border : Q) (rnd : Random.t)
  : result ((Q * Q) * Random.t) :=
  let margin := (radius + border * size w)%Q in
  let '(x, rnd) := get_random_point w margin rnd in
  let '(y, rnd) := get_random_point w margin rnd in
  let body := Body.new x y margin None in
  '(body, rnd) <- resample w max_attempts margin body rnd ;;
  Ok ((Body.x body, Body.y body), rnd).

Definition Qeqb (a b : Q) : bool := Qeq_bool a b.

(** [World.get_bound_intersect] *)
Definition get_bound_intersect (w : t) (body : Body.t) (margin : Q)
  : option (Q * Q) :=
  if Island.Qltb (Body.x body - margin) 0 then Some (0%Q, Body.y body)
  else if Island.Qltb (size w) (Body.x body + margin) then Some (size w, Body.y body)
  else if Island.Qltb (Body.y body - margin) 0 then Some (Body.x body, 0%Q)
  else if Island.Qltb (size w) (Body.y body + margin) then Some (Body.x body, size w)
  else None.

(** [World.get_opposite] *)
Definition get_opposite (w : t) (x y : Q) : Q * Q :=
  if Qeqb x 0 then (size w, y)
  else if Qeqb x (size w) then (0%Q, y)
  else if Qeqb y 0 then (x, size w)
  else if Qeqb y (size w) then (x, 0%Q)
  else (x, y).

(** [World._get_distance_to_border] *)
Definition get_distance_to_border (w : t) (border : Z) (x y : Q) : Q :=
  if border =? 0 then (size w - x)%Q
  else if border =? 1 then (size w - y)%Q
  else if border =? 2 then x
  else if border =? 3 then y
  else 0%Q.

Section Direction.
Context {M : MathLib}.

(** [World._get_hypotenuse(angle, adjacent) < margin]; the hypotenuse is
    [float('inf')], below no margin, when the cosine is within 0.001 of
    zero. *)
Definition hypotenuse_lt (angle adjacent margin : Q) : bool :=
  let cos_val := cos angle in
  if Island.Qltb (Qabs cos_val) (1 # 1000) then false
  else Island.Qltb (adjacent / cos_val) margin.

Definition Qleb (a b : Q) : bool := if Qlt_le_dec b a then false else true.

(** The body of the loop of [World._is_direction_valid] for quadrant
    [i]: [None] when the angle is not in the quadrant. *)
Definition quadrant_valid (w : t) (angle x y margin : Q) (i : Z) : option bool :=
  let quarter := (pi / 2)%Q in
  let from_angle := (quarter * inject_Z i)%Q in
  let to_angle := (quarter * inject_Z (i + 1))%Q in
  if Qleb from_angle angle && Island.Qltb angle to_angle then
    if hypotenuse_lt (angle - from_angle) (get_distance_to_border w i x y) margin
    then Some false
    else if hypotenuse_lt (to_angle - angle)
              (get_distance_to_border w ((i + 1) mod 4) x y) margin
    then Some false
    else Some true
  else None.

(** [World._is_direction_valid] *)
Definition is_direction_valid (w : t) (angle x y margin : Q) : bool :=
  match quadrant_valid w angle x y margin 0 with
  | Some b => b
  | None =>
  match quadrant_valid w angle x y margin 1 with
  | Some b => b
  | None =>
  match quadrant_valid w angle x y margin 2 with
  | Some b => b
  | None =>
  match quadrant_valid w angle x y margin 3 with
  | Some b => b
  | None => true
  end end end end.

(** [World._get_random_angle] *)
Definition get_random_angle (rnd : Random.t) : Q * Random.t :=
  let '(u, rnd) := Random.random rnd in ((u * pi * 2)%Q, rnd).

(** The [while] loop of [World.get_random_direction]; [fuel] is
    [max_attempts - attempts], with [max_attempts = 100]. *)
Fixpoint redraw_direction (w : t) (fuel : nat) (direction x y margin : Q)
    (rnd : Random.t) : Q * Random.t :=
  if is_direction_valid w direction x y margin then (direction, rnd)
  else
    match fuel with
    | O => (direction, rnd)
    | S fuel' =>
        let '(direction, rnd) := get_random_angle rnd in
        redraw_direction w fuel' direction x y margin rnd
    end.

(** [World.get_random_direction] *)
Definition get_random_direction (w : t) (x y tolerance : Q) (rnd : Random.t)
  : Q * Random.t :=
  let '(direction, rnd) := get_random_angle rnd in
  let margin := (tolerance * size w)%Q in
  redraw_direction w 100 direction x y margin rnd.

End Direction.

(** [World.clear] *)
Definition clear (w : t) : t :=
  let c := islands w in
  mk (size w)
     (Collection.mk (Collection.ids c) (map Island.clear (Collection.items c))
        (Collection.id_counter c))
     (island_size w) false 0.

(** [World.activate] *)
Definition activate (w : t) : t :=
  mk (size w) (islands w) (island_size w) true (body_count w).

End World.

(** ** models/base_bonus.py, models/bonus/*.py

    One constructor per bonus class.  [AllColor] carries the colour its
    constructor draws.  The collision body refers back to the bonus through
    [data]; the model keeps that reference as the bonus id, written into
    the body when the collection assigns it. *)

Module Bonus.

Inductive kind : Type :=
| SelfSmall | SelfSlow | SelfFast | SelfMaster
| EnemySlow | EnemyFast | EnemyBig | EnemyInverse | EnemyStraightAngle
| GameBorderless | GameClear
| AllColor (color : string).

Record t : Type := mk {
  id : option Z;
  x : Q;
  y : Q;
  type : kind;
  body : Body.t
}.

(** [BaseBonus.radius] *)
Definition radius : Q := 3.

(** [bonus_type(x, y)]: [Bonus.__init__] *)
Definition new (type : kind) (x y : Q) : t :=
  mk None x y type (Body.new x y radius None).

(** Assignment of [self.id], seen also through [self.body.data]. *)
Definition set_id (b : t) (i : Z) : t :=
  let body := body b in
  mk (Some i) (x b) (y b) (type b)
     (Body.mk (Body.x body) (Body.y body) (Body.radius body) (Body.Plain (Some i))
        (Body.id body) (Body.islands body)).

Definition set_body (b : t) (body' : Body.t) : t :=
  mk (id b) (x b) (y b) (type b) body'.

(** [duration], in milliseconds. *)
Definition duration (k : kind) : Z :=
  match k with
  | SelfSmall => 7500 | SelfSlow => 4000 | SelfFast => 4000 | SelfMaster => 2000
  | EnemySlow => 6000 | EnemyFast => 6000 | EnemyBig => 7500
  | EnemyInverse => 5000 | EnemyStraightAngle => 5000
  | GameBorderless => 8000 | GameClear => 0
  | AllColor _ => 8000
  end.

End Bonus.

(** ** managers/base_bonus_manager.py, managers/bonus_manager.py

    The manager's collection is created with [index=True].  [test_catch]
    returns, next to the new state, the bonus on which it calls
    [apply_to(avatar, self.game)], if it calls it. *)

Module BonusManager.

Definition bonus_cap : Z := 20.

Record t : Type := mk {
  bonuses : Collection.t (option Z) Bonus.t;
  world : World.t
}.

Definition bonuses_add := Collection.add Body.option_Z_eqb Bonus.id.
Definition bonuses_remove := Collection.remove Body.option_Z_eqb Bonus.id.
Definition bonuses_get_by_id :=
  Collection.get_by_id (T := Bonus.t) Body.option_Z_eqb.

(** [BonusManager(game, bonus_types, rate)], as far as the collection and
    the spatial index go: [self.world = World(game.size, 1)]. *)
Definition new (game_size : Q) : result t :=
  w <- World.new game_size (Some 1) ;;
  Ok (mk Collection.empty w).

(** [Collection._set_id] with [self.index] set. *)
Definition set_id (c : Collection.t (option Z) Bonus.t) (element : Bonus.t)
  : Collection.t (option Z) Bonus.t * Bonus.t :=
  let fresh :=
    let n := Collection.id_counter c + 1 in
    (Collection.mk (Collection.ids c) (Collection.items c) n, Bonus.set_id element n) in
  match Bonus.id element with
  | Some current_id =>
      if current_id =? 0 then fresh
      else if Collection.id_counter c <? current_id
           then (Collection.mk (Collection.ids c) (Collection.items c) current_id,
                 element)
           else (c, element)
  | None => fresh
  end.

(** Write a bonus, mutated in place, back into the collection. *)
Definition put_bonus (c : Collection.t (option Z) Bonus.t) (b : Bonus.t)
  : Collection.t (option Z) Bonus.t :=
  Collection.mk (Collection.ids c)
    (map (fun b' => if Body.option_Z_eqb (Bonus.id b') (Bonus.id b) then b else b')
       (Collection.items c))
    (Collection.id_counter c).

(** [BonusManager.add]: [BaseBonusManager.add], then the body enters the
    spatial index. *)
Definition add (m : t) (bonus : Bonus.t) : result (t * bool) :=
  let '(c, bonus) := set_id (bonuses m) bonus in
  let '(c, added) := bonuses_add c bonus in
  if added then
    '(w, body) <- World.add_body (world m) (Bonus.body bonus) ;;
    Ok (mk (put_bonus c (Bonus.set_body bonus body)) w, true)
  else Ok (mk c (world m), false).

(** [BonusManager.remove]: [BaseBonusManager.remove], then the body leaves
    the spatial index. *)
Definition remove (m : t) (bonus : Bonus.t) : t * bool :=
  let '(c, removed) := bonuses_remove (bonuses m) bonus in
  if removed then
    let '(w, _) := World.remove_body (world m) (Bonus.body bonus) in
    (mk c w, true)
  else (m, false).

(** [BonusManager.test_catch], called with [avatar.body]. *)
Definition test_catch (m : t) (avatar_body : Body.t)
  : result (t * option Bonus.t) :=
  body <- World.get_body (world m) avatar_body ;;
  match body with
  | Some (Body.mk _ _ _ (Body.Plain (Some k)) _ _) =>
      match bonuses_get_by_id (bonuses m) (Some k) with
      | Some bonus =>
          let '(m', removed) := remove m bonus in
          Ok (m', if removed then Some bonus else None)
      | None => Ok (m, None)      (* [remove] finds no such id: False *)
      end
  | _ => Ok (m, None)
  end.

(** [BonusManager.clear] *)
Definition clear (m : t) : t :=
  mk (Collection.clear (bonuses m)) (World.clear (world m)).

(** [BonusManager.start]: [self.clear()], then [self.world.activate()]. *)
Definition start (m : t) : t :=
  let m := clear m in mk (bonuses m) (World.activate (world m)).

(** [BonusManager.stop] *)
Definition stop (m : t) : t := clear m.

(** [BonusManager.set_size] *)
Definition set_size (m : t) (game_size : Q) : result t :=
  w <- World.new game_size (Some 1) ;;
  Ok (mk (bonuses m) w).

End BonusManager.

(** ** Python values

    The values that bonus effects carry: [int], [float], [bool] and [str]. *)

Module Value.

Inductive t : Type :=
| Int (z : Z)
| Float (q : Q)
| Bool (b : bool)
| Str (s : string).

(** The integer a value stands for in arithmetic ([bool] is an [int]). *)
Definition as_int (v : t) : option Z :=
  match v with
  | Int z => Some z
  | Bool b => Some (Z.b2z b)
  | _ => None
  end.

(** The number a value stands for in float arithmetic. *)
Definition as_float (v : t) : option Q :=
  match v with
  | Float q => Some q
  | Int z => Some (inject_Z z)
  | Bool b => Some (inject_Z (Z.b2z b))
  | Str _ => None
  end.

(** [a + b] *)
Definition add (a b : t) : result t :=
  match a, b with
  | Str s1, Str s2 => Ok (Str (s1 ++ s2))
  | Float x, _ =>
      match as_float b with Some y => Ok (Float (x + y)) | None => Raise TypeError end
  | _, Float y =>
      match as_float a with Some x => Ok (Float (x + y)) | None => Raise TypeError end
  | _, _ =>
      match as_int a, as_int b with
      | Some x, Some y => Ok (Int (x + y))
      | _, _ => Raise TypeError
      end
  end.

(** [bool(v)] *)
Definition truthy (v : t) : bool :=
  match v with
  | Int z => negb (z =? 0)
  | Float q => negb (Qeq_bool q 0)
  | Bool b => b
  | Str s => negb (String.eqb s "")
  end.

(** [v % 2 != 0] *)
Definition odd (v : t) : result bool :=
  match v with
  | Float q =>
      Ok (negb (Qeq_bool (q - 2 * inject_Z (Qfloor (q / 2))) 0))
  | Str _ => Raise TypeError
  | _ => match as_int v with
         | Some z => Ok (negb (z mod 2 =? 0))
         | None => Raise TypeError
         end
  end.

(** [v > 0] *)
Definition positive (v : t) : result bool :=
  match as_float v with
  | Some q => Ok (Island.Qltb 0 q)
  | None => Raise TypeError
  end.

(** [2 ** v] *)
Definition pow2 (v : t) : result Q :=
  match v with
  | Float q =>
      if Z.pos (Qden q) =? 1 then Ok (Qpower 2 (Qnum q)) else Raise Unsupported
  | Str _ => Raise TypeError
  | _ => match as_int v with
         | Some z => Ok (Qpower 2 z)
         | None => Raise TypeError
         end
  end.

End Value.

(** ** models/base_trail.py *)

Module Trail.

Record t : Type := mk { points : list (Q * Q); last : option (Q * Q) }.

Definition new : t := mk [] None.

(** [BaseTrail.add_point] *)
Definition add_point (tr : t) (x y : Q) : t := mk (points tr ++ [(x, y)]) (Some (x, y)).

(** [BaseTrail.clear] *)
Definition clear (tr : t) : t := mk [] None.

End Trail.

(** ** managers/print_manager.py: the state

    [rnd] is the sequence of the [random.random()] draws this manager
    makes.  The methods, which call into the avatar, are defined with it. *)

Module PrintManager.

Definition hole_distance : Q := 5.
Definition print_distance : Q := 60.

Record t : Type := mk {
  active : bool;
  last_x : Q;
  last_y : Q;
  distance : Q;
  rnd : Random.t
}.

Definition new (rnd : Random.t) : t := mk false 0 0 0 rnd.

End PrintManager.

(** ** models/base_avatar.py, models/avatar.py

    [player_color] is [self.player.color].  Of the events an avatar emits
    only [point] has a listener that changes the game (it enters a body
    into the world); [emitted] holds the [point] events not yet delivered
    to it, and the game delivers them.  The other events reach the
    controller, which only sends messages, and leave no trace here. *)

Module Avatar.

Record t : Type := mk {
  id : Z;
  color : string;
  player_color : string;
  x : Q;
  y : Q;
  angle : Q;
  velocity_x : Q;
  velocity_y : Q;
  angular_velocity : Q;
  alive : bool;
  printing : bool;
  score : Z;
  round_score : Z;
  ready : bool;
  present : bool;
  velocity : Q;
  radius : Q;
  angular_velocity_base : Q;
  inverse : bool;
  invincible : bool;
  direction_in_loop : bool;
  trail_latency : Z;
  trail : Trail.t;
  bonus_stack : Collection.t (option Z) Bonus.t;
  body_count : Z;
  body : Body.t;
  print_manager : PrintManager.t;
  attrs : list (string * Value.t);
  emitted : list (Q * Q)
}.

(** Assignment to one attribute. *)
Definition with_color (v : string) (a : t) : t :=
  mk (id a) v (player_color a) (x a) (y a) (angle a) (velocity_x a)
     (velocity_y a) (angular_velocity a) (alive a) (printing a) (score a)
     (round_score a) (ready a) (present a) (velocity a) (radius a)
     (angular_velocity_base a) (inverse a) (invincible a)
     (direction_in_loop a) (trail_latency a) (trail a) (bonus_stack a)
     (body_count a) (body a) (print_manager a) (attrs a) (emitted a).
Definition with_x (v : Q) (a : t) : t :=
  mk (id a) (color a) (player_color a) v (y a) (angle a) (velocity_x a)
     (velocity_y a) (angular_velocity a) (alive a) (printing a) (score a)
     (round_score a) (ready a) (present a) (velocity a) (radius a)
     (angular_velocity_base a) (inverse a) (invincible a)
     (direction_in_loop a) (trail_latency a) (trail a) (bonus_stack a)
     (body_count a) (body a) (print_manager a) (attrs a) (emitted a).
Definition with_y (v : Q) (a : t) : t :=
  mk (id a) (color a) (player_color a) (x a) v (angle a) (velocity_x a)
     (velocity_y a) (angular_velocity a) (alive a) (printing a) (score a)
     (round_score a) (ready a) (present a) (velocity a) (radius a)
     (angular_velocity_base a) (inverse a) (invincible a)
     (direction_in_loop a) (trail_latency a) (trail a) (bonus_stack a)
     (body_count a) (body a) (print_manager a) (attrs a) (emitted a).
Definition with_angle (v : Q) (a : t) : t :=
  mk (id a) (color a) (player_color a) (x a) (y a) v (velocity_x a)
     (velocity_y a) (angular_velocity a) (alive a) (printing a) (score a)
     (round_score a) (ready a) (present a) (velocity a) (radius a)
     (angular_velocity_base a) (inverse a) (invincible a)
     (direction_in_loop a) (trail_latency a) (trail a) (bonus_stack a)
     (body_count a) (body a) (print_manager a) (attrs a) (emitted a).
Definition with_velocity_x (v : Q) (a : t) : t :=
  mk (id a) (color a) (player_color a) (x a) (y a) (angle a) v (velocity_y a)
     (angular_velocity a) (alive a) (printing a) (score a) (round_score a)
     (ready a) (present a) (velocity a) (radius a) (angular_velocity_base a)
     (inverse a) (invincible a) (direction_in_loop a) (trail_latency a)
     (trail a) (bonus_stack a) (body_count a) (body a) (print_manager a)
     (attrs a) (emitted a).
Definition with_velocity_y (v : Q) (a : t) : t :=
  mk (id a) (color a) (player_color a) (x a) (y a) (angle a) (velocity_x a) v
     (angular_velocity a) (alive a) (printing a) (score a) (round_score a)
     (ready a) (present a) (velocity a) (radius a) (angular_velocity_base a)
     (inverse a) (invincible a) (direction_in_loop a) (trail_latency a)
     (trail a) (bonus_stack a) (body_count a) (body a) (print_manager a)
     (attrs a) (emitted a).
Definition with_angular_velocity (v : Q) (a : t) : t :=
  mk (id a) (color a) (player_color a) (x a) (y a) (angle a) (velocity_x a)
     (velocity_y a) v (alive a) (printing a) (score a) (round_score a)
     (ready a) (present a) (velocity a) (radius a) (angular_velocity_base a)
     (inverse a) (invincible a) (direction_in_loop a) (trail_latency a)
     (trail a) (bonus_stack a) (body_count a) (body a) (print_manager a)
     (attrs a) (emitted a).
Definition with_alive (v : bool) (a : t) : t :=
  mk (id a) (color a) (player_color a) (x a) (y a) (angle a) (velocity_x a)
     (velocity_y a) (angular_velocity a) v (printing a) (score a)
     (round_score a) (ready a) (present a) (velocity a) (radius a)
     (angular_velocity_base a) (inverse a) (invincible a)
     (direction_in_loop a) (trail_latency a) (trail a) (bonus_stack a)
     (body_count a) (body a) (print_manager a) (attrs a) (emitted a).
Definition with_printing (v : bool) (a : t) : t :=
  mk (id a) (color a) (player_color a) (x a) (y a) (angle a) (velocity_x a)
     (velocity_y a) (angular_velocity a) (alive a) v (score a) (round_score a)
     (ready a) (present a) (velocity a) (radius a) (angular_velocity_base a)
     (inverse a) (invincible a) (direction_in_loop a) (trail_latency a)
     (trail a) (bonus_stack a) (body_count a) (body a) (print_manager a)
     (attrs a) (emitted a).
Definition with_score (v : Z) (a : t) : t :=
  mk (id a) (color a) (player_color a) (x a) (y a) (angle a) (velocity_x a)
     (velocity_y a) (angular_velocity a) (alive a) (printing a) v
     (round_score a) (ready a) (present a) (velocity a) (radius a)
     (angular_velocity_base a) (inverse a) (invincible a)
     (direction_in_loop a) (trail_latency a) (trail a) (bonus_stack a)
     (body_count a) (body a) (print_manager a) (attrs a) (emitted a).
Definition with_round_score (v : Z) (a : t) : t :=
  mk (id a) (color a) (player_color a) (x a) (y a) (angle a) (velocity_x a)
     (velocity_y a) (angular_velocity a) (alive a) (printing a) (score a) v
     (ready a) (present a) (velocity a) (radius a) (angular_velocity_base a)
     (inverse a) (invincible a) (direction_in_loop a) (trail_latency a)
     (trail a) (bonus_stack a) (body_count a) (body a) (print_manager a)
     (attrs a) (emitted a).
Definition with_ready (v : bool) (a : t) : t :=
  mk (id a) (color a) (player_color a) (x a) (y a) (angle a) (velocity_x a)
     (velocity_y a) (angular_velocity a) (alive a) (printing a) (score a)
     (round_score a) v (present a) (velocity a) (radius a)
     (angular_velocity_base a) (inverse a) (invincible a)
     (direction_in_loop a) (trail_latency a) (trail a) (bonus_stack a)
     (body_count a) (body a) (print_manager a) (attrs a) (emitted a).
Definition with_present (v : bool) (a : t) : t :=
  mk (id a) (color a) (player_color a) (x a) (y a) (angle a) (velocity_x a)
     (velocity_y a) (angular_velocity a) (alive a) (printing a) (score a)
     (round_score a) (ready a) v (velocity a) (radius a)
     (angular_velocity_base a) (inverse a) (invincible a)
     (direction_in_loop a) (trail_latency a) (trail a) (bonus_stack a)
     (body_count a) (body a) (print_manager a) (attrs a) (emitted a).
Definition with_velocity (v : Q) (a : t) : t :=
  mk (id a) (color a) (player_color a) (x a) (y a) (angle a) (velocity_x a)
     (velocity_y a) (angular_velocity a) (alive a) (printing a) (score a)
     (round_score a) (ready a) (present a) v (radius a)
     (angular_velocity_base a) (inverse a) (invincible a)
     (direction_in_loop a) (trail_latency a) (trail a) (bonus_stack a)
     (body_count a) (body a) (print_manager a) (attrs a) (emitted a).
Definition with_radius (v : Q) (a : t) : t :=
  mk (id a) (color a) (player_color a) (x a) (y a) (angle a) (velocity_x a)
     (velocity_y a) (angular_velocity a) (alive a) (printing a) (score a)
     (round_score a) (ready a) (present a) (velocity a) v
     (angular_velocity_base a) (inverse a) (invincible a)
     (direction_in_loop a) (trail_latency a) (trail a) (bonus_stack a)
     (body_count a) (body a) (print_manager a) (attrs a) (emitted a).
Definition with_angular_velocity_base (v : Q) (a : t) : t :=
  mk (id a) (color a) (player_color a) (x a) (y a) (angle a) (velocity_x a)
     (velocity_y a) (angular_velocity a) (alive a) (printing a) (score a)
     (round_score a) (ready a) (present a) (velocity a) (radius a) v
     (inverse a) (invincible a) (direction_in_loop a) (trail_latency a)
     (trail a) (bonus_stack a) (body_count a) (body a) (print_manager a)
     (attrs a) (emitted a).
Definition with_inverse (v : bool) (a : t) : t :=
  mk (id a) (color a) (player_color a) (x a) (y a) (angle a) (velocity_x a)
     (velocity_y a) (angular_velocity a) (alive a) (printing a) (score a)
     (round_score a) (ready a) (present a) (velocity a) (radius a)
     (angular_velocity_base a) v (invincible a) (direction_in_loop a)
     (trail_latency a) (trail a) (bonus_stack a) (body_count a) (body a)
     (print_manager a) (attrs a) (emitted a).
Definition with_invincible (v : bool) (a : t) : t :=
  mk (id a) (color a) (player_color a) (x a) (y a) (angle a) (velocity_x a)
     (velocity_y a) (angular_velocity a) (alive a) (printing a) (score a)
     (round_score a) (ready a) (present a) (velocity a) (radius a)
     (angular_velocity_base a) (inverse a) v (direction_in_loop a)
     (trail_latency a) (trail a) (bonus_stack a) (body_count a) (body a)
     (print_manager a) (attrs a) (emitted a).
Definition with_direction_in_loop (v : bool) (a : t) : t :=
  mk (id a) (color a) (player_color a) (x a) (y a) (angle a) (velocity_x a)
     (velocity_y a) (angular_velocity a) (alive a) (printing a) (score a)
     (round_score a) (ready a) (present a) (velocity a) (radius a)
     (angular_velocity_base a) (inverse a) (invincible a) v (trail_latency a)
     (trail a) (bonus_stack a) (body_count a) (body a) (print_manager a)
     (attrs a) (emitted a).
Definition with_trail (v : Trail.t) (a : t) : t :=
  mk (id a) (color a) (player_color a) (x a) (y a) (angle a) (velocity_x a)
     (velocity_y a) (angular_velocity a) (alive a) (printing a) (score a)
     (round_score a) (ready a) (present a) (velocity a) (radius a)
     (angular_velocity_base a) (inverse a) (invincible a)
     (direction_in_loop a) (trail_latency a) v (bonus_stack a) (body_count a)
     (body a) (print_manager a) (attrs a) (emitted a).
Definition with_bonus_stack (v : Collection.t (option Z) Bonus.t) (a : t) : t :=
  mk (id a) (color a) (player_color a) (x a) (y a) (angle a) (velocity_x a)
     (velocity_y a) (angular_velocity a) (alive a) (printing a) (score a)
     (round_score a) (ready a) (present a) (velocity a) (radius a)
     (angular_velocity_base a) (inverse a) (invincible a)
     (direction_in_loop a) (trail_latency a) (trail a) v (body_count a)
     (body a) (print_manager a) (attrs a) (emitted a).
Definition with_body_count (v : Z) (a : t) : t :=
  mk (id a) (color a) (player_color a) (x a) (y a) (angle a) (velocity_x a)
     (velocity_y a) (angular_velocity a) (alive a) (printing a) (score a)
     (round_score a) (ready a) (present a) (velocity a) (radius a)
     (angular_velocity_base a) (inverse a) (invincible a)
     (direction_in_loop a) (trail_latency a) (trail a) (bonus_stack a) v
     (body a) (print_manager a) (attrs a) (emitted a).
Definition with_body (v : Body.t) (a : t) : t :=
  mk (id a) (color a) (player_color a) (x a) (y a) (angle a) (velocity_x a)
     (velocity_y a) (angular_velocity a) (alive a) (printing a) (score a)
     (round_score a) (ready a) (present a) (velocity a) (radius a)
     (angular_velocity_base a) (inverse a) (invincible a)
     (direction_in_loop a) (trail_latency a) (trail a) (bonus_stack a)
     (body_count a) v (print_manager a) (attrs a) (emitted a).
Definition with_print_manager (v : PrintManager.t) (a : t) : t :=
  mk (id a) (color a) (player_color a) (x a) (y a) (angle a) (velocity_x a)
     (velocity_y a) (angular_velocity a) (alive a) (printing a) (score a)
     (round_score a) (ready a) (present a) (velocity a) (radius a)
     (angular_velocity_base a) (inverse a) (invincible a)
     (direction_in_loop a) (trail_latency a) (trail a) (bonus_stack a)
     (body_count a) (body a) v (attrs a) (emitted a).
Definition with_attrs (v : list (string * Value.t)) (a : t) : t :=
  mk (id a) (color a) (player_color a) (x a) (y a) (angle a) (velocity_x a)
     (velocity_y a) (angular_velocity a) (alive a) (printing a) (score a)
     (round_score a) (ready a) (present a) (velocity a) (radius a)
     (angular_velocity_base a) (inverse a) (invincible a)
     (direction_in_loop a) (trail_latency a) (trail a) (bonus_stack a)
     (body_count a) (body a) (print_manager a) v (emitted a).
Definition with_emitted (v : list (Q * Q)) (a : t) : t :=
  mk (id a) (color a) (player_color a) (x a) (y a) (angle a) (velocity_x a)
     (velocity_y a) (angular_velocity a) (alive a) (printing a) (score a)
     (round_score a) (ready a) (present a) (velocity a) (radius a)
     (angular_velocity_base a) (inverse a) (invincible a)
     (direction_in_loop a) (trail_latency a) (trail a) (bonus_stack a)
     (body_count a) (body a) (print_manager a) (attrs a) v.

Section Methods.
Context {M : MathLib}.

Definition Qneb (a b : Q) : bool := negb (Qeq_bool a b).

(** [math.log(x)] *)
Definition flog (x : Q) : result Q :=
  if Island.Qltb 0 x then Ok (log x) else Raise ValueError.

(** [Avatar(player)]: [BaseAvatar.__init__], then the body, numbered 0,
    the trail, the bonus stack and the print manager. *)
Definition new (id : Z) (color : string) (rnd : Random.t) : t :=
  mk id color color 0 0 0 0 0 0 true false 0 0 false true
     Default.VELOCITY Default.RADIUS Default.ANGULAR_VELOCITY_BASE
     Default.INVERSE Default.INVINCIBLE Default.DIRECTION_IN_LOOP
     Default.TRAIL_LATENCY Trail.new Collection.empty 1
     (Body.mk 0 0 Default.RADIUS
        (Body.AvatarBody (Body.Build_AvatarRef id Default.TRAIL_LATENCY) 0)
        None [])
     (PrintManager.new rnd) [] [].

(** [BaseAvatar.equal] *)
Definition equal (a b : t) : bool := id a =? id b.

(** [Avatar.set_position]: the position, then the body follows and takes
    the current [body_count] as its number. *)
Definition set_position (a : t) (x' y' : Q) : t :=
  let a := with_y y' (with_x x' a) in
  let b := body a in
  with_body
    (Body.mk (x a) (y a) (Body.radius b)
       (match Body.cls b with
        | Body.AvatarBody data _ => Body.AvatarBody data (body_count a)
        | k => k
        end)
       (Body.id b) (Body.islands b)) a.

(** [Avatar.add_point]: [BaseAvatar.add_point] extends the trail, then
    the [point] event is emitted. *)
Definition add_point (a : t) (x' y' : Q) : t :=
  let a := with_trail (Trail.add_point (trail a) x' y') a in
  with_emitted (emitted a ++ [(x', y')]) a.

(** [Avatar.set_angular_velocity] *)
Definition set_angular_velocity (a : t) (angular_velocity' : Q) : t :=
  if Qneb (angular_velocity a) angular_velocity'
  then with_angular_velocity angular_velocity' a
  else a.

(** [BaseAvatar.update_angular_velocity(factor)]; [None] is the absent
    argument. *)
Definition update_angular_velocity (a : t) (factor : option Q) : t :=
  let sign := if inverse a then (-1)%Q else 1%Q in
  match factor with
  | None =>
      if Qeq_bool (angular_velocity a) 0 then a
      else
        let factor :=
          ((if Island.Qltb 0 (angular_velocity a) then 1 else -1) * sign)%Q in
        set_angular_velocity a (factor * angular_velocity_base a * sign)
  | Some factor =>
      set_angular_velocity a (factor * angular_velocity_base a * sign)
  end.

(** [BaseAvatar.update_base_angular_velocity] *)
Definition update_base_angular_velocity (a : t) : result t :=
  if direction_in_loop a then
    let ratio := (velocity a / Default.VELOCITY)%Q in
    inv <- fdiv 1 ratio ;;
    l <- flog inv ;;
    let a :=
      with_angular_velocity_base
        (ratio * Default.ANGULAR_VELOCITY_BASE + l / 1000) a in
    Ok (update_angular_velocity a None)
  else Ok a.

(** [BaseAvatar.update_velocities] *)
Definition update_velocities (a : t) : result t :=
  let velocity := (velocity a / 1000)%Q in
  let a := with_velocity_x (cos (angle a) * velocity) a in
  let a := with_velocity_y (sin (angle a) * velocity) a in
  update_base_angular_velocity a.

(** [Avatar.set_angle], which guards [BaseAvatar.set_angle] with the test
    that one repeats. *)
Definition set_angle (a : t) (angle' : Q) : result t :=
  if Qneb (angle a) angle' then update_velocities (with_angle angle' a)
  else Ok a.

(** [BaseAvatar.set_velocity] *)
Definition base_set_velocity (a : t) (velocity' : Q) : result t :=
  let velocity' := Py.max velocity' (Default.VELOCITY / 2) in
  if Qneb (velocity a) velocity' then update_velocities (with_velocity velocity' a)
  else Ok a.

(** [Avatar.set_velocity] *)
Definition set_velocity (a : t) (velocity' : Q) : result t :=
  if Qneb (velocity a) velocity' then base_set_velocity a velocity' else Ok a.

(** [Avatar.set_radius] *)
Definition set_radius (a : t) (radius' : Q) : t :=
  if Qneb (radius a) radius' then
    let a := with_radius (Py.max radius' (Default.RADIUS / 8)) a in
    let b := body a in
    with_body (Body.mk (Body.x b) (Body.y b) (radius a) (Body.cls b)
                 (Body.id b) (Body.islands b)) a
  else a.

(** [Avatar.set_inverse] *)
Definition set_inverse (a : t) (inverse' : bool) : t :=
  if negb (Bool.eqb (inverse a) inverse')
  then update_angular_velocity (with_inverse inverse' a) None
  else a.

(** [Avatar.set_invincible] *)
Definition set_invincible (a : t) (invincible' : bool) : t :=
  with_invincible invincible' a.

(** [Avatar.set_color] *)
Definition set_color (a : t) (color' : string) : t := with_color color' a.

(** [self.get_distance(...) > radius]: the distance is the square root
    of [d2], above [radius] exactly when [radius] is negative or
    [radius^2 < d2]. *)
Definition distance_gt (ax ay bx by_ radius : Q) : bool :=
  let d2 := ((ax - bx) * (ax - bx) + (ay - by_) * (ay - by_))%Q in
  Island.Qltb radius 0 || Island.Qltb (radius * radius) d2.

(** [Avatar.is_time_to_draw] *)
Definition is_time_to_draw (a : t) : bool :=
  match Trail.last (trail a) with
  | None => true
  | Some (last_x, last_y) => distance_gt last_x last_y (x a) (y a) (radius a)
  end.

(** [BaseAvatar.update_angle] *)
Definition update_angle (a : t) (step : Q) : result t :=
  if Qneb (angular_velocity a) 0 then
    if direction_in_loop a
    then set_angle a (angle a + angular_velocity a * step)
    else
      a <- set_angle a (angle a + angular_velocity a) ;;
      Ok (update_angular_velocity a (Some 0%Q))
  else Ok a.

(** [BaseAvatar.update_position] *)
Definition update_position (a : t) (step : Q) : t :=
  set_position a (x a + velocity_x a * step) (y a + velocity_y a * step).

(** [Avatar.update] *)
Definition update (a : t) (step : Q) : result t :=
  if alive a then
    a <- update_angle a step ;;
    let a := update_position a step in
    Ok (if printing a && is_time_to_draw a then add_point a (x a) (y a) else a)
  else Ok a.

(** [BaseAvatar.set_printing], which [Avatar.set_printing] follows with an
    event. *)
Definition set_printing (a : t) (printing' : bool) : t :=
  if negb (Bool.eqb (printing a) printing') then
    let a := with_printing printing' a in
    let a := add_point a (x a) (y a) in
    if negb (printing a) then with_trail (Trail.clear (trail a)) a else a
  else a.

(** [PrintManager.get_random_distance] *)
Definition get_random_distance (a : t) : Q * Random.t :=
  let '(u, rnd) := Random.random (PrintManager.rnd (print_manager a)) in
  (if printing a
   then B64.mul PrintManager.print_distance
          (B64.add (B64.rnd (3 # 10)) (B64.mul u (B64.rnd (7 # 10))))
   else B64.mul PrintManager.hole_distance
          (B64.add (B64.rnd (8 # 10)) (B64.mul u (1 # 2))),
   rnd).

(** [PrintManager.set_printing] *)
Definition print_manager_set_printing (a : t) (printing' : bool) : t :=
  let a := set_printing a printing' in
  let '(d, rnd) := get_random_distance a in
  let pm := print_manager a in
  with_print_manager
    (PrintManager.mk (PrintManager.active pm) (PrintManager.last_x pm)
       (PrintManager.last_y pm) d rnd) a.

(** [PrintManager.toggle_printing] *)
Definition print_manager_toggle_printing (a : t) : t :=
  print_manager_set_printing a (negb (printing a)).

(** [PrintManager.clear] *)
Definition print_manager_clear (a : t) : t :=
  with_print_manager
    (PrintManager.mk false 0 0 0 (PrintManager.rnd (print_manager a))) a.

(** [PrintManager.start] *)
Definition print_manager_start (a : t) : t :=
  let pm := print_manager a in
  if negb (PrintManager.active pm) then
    let a :=
      with_print_manager
        (PrintManager.mk true (x a) (y a) (PrintManager.distance pm)
           (PrintManager.rnd pm)) a in
    print_manager_set_printing a true
  else a.

(** [PrintManager.stop] *)
Definition print_manager_stop (a : t) : t :=
  let pm := print_manager a in
  if PrintManager.active pm then
    let a :=
      with_print_manager
        (PrintManager.mk false (PrintManager.last_x pm) (PrintManager.last_y pm)
           (PrintManager.distance pm) (PrintManager.rnd pm)) a in
    print_manager_clear (print_manager_set_printing a false)
  else a.

(** [PrintManager.test] *)
Definition print_manager_test (a : t) : t :=
  let pm := print_manager a in
  if PrintManager.active pm then
    let dx := (PrintManager.last_x pm - x a)%Q in
    let dy := (PrintManager.last_y pm - y a)%Q in
    let d := (PrintManager.distance pm - sqrt (dx * dx + dy * dy))%Q in
    let a :=
      with_print_manager
        (PrintManager.mk true (x a) (y a) d (PrintManager.rnd pm)) a in
    if Island.Qltb 0 d then a else print_manager_toggle_printing a
  else a.

(** [BaseBonusStack.clear] on the avatar's stack. *)
Definition bonus_stack_clear (a : t) : t :=
  with_bonus_stack (Collection.clear (bonus_stack a)) a.

(** [Avatar.die]: [BaseAvatar.die], then the print manager stops. *)
Definition die (a : t) : t :=
  let a := bonus_stack_clear a in
  let a := with_alive false a in
  let a := add_point a (x a) (y a) in
  print_manager_stop a.

(** [Avatar.set_round_score] *)
Definition set_round_score (a : t) (score' : Z) : t := with_round_score score' a.

(** [Avatar.set_score] *)
Definition set_score (a : t) (score' : Z) : t := with_score score' a.

(** [BaseAvatar.add_score] *)
Definition add_score (a : t) (score' : Z) : t :=
  set_round_score a (round_score a + score').

(** [BaseAvatar.resolve_score] *)
Definition resolve_score (a : t) : t :=
  let a := set_score a (score a + round_score a) in
  with_round_score 0 a.

(** [BaseAvatar.clear] *)
Definition base_clear (a : t) : t :=
  let a := bonus_stack_clear a in
  let a := with_x (radius a) a in
  let a := with_y (radius a) a in
  let a := with_angle 0 a in
  let a := with_velocity_x 0 a in
  let a := with_velocity_y 0 a in
  let a := with_angular_velocity 0 a in
  let a := with_round_score 0 a in
  let a := with_velocity Default.VELOCITY a in
  let a := with_alive true a in
  let a := with_printing false a in
  let a := with_color (player_color a) a in
  let a := with_radius Default.RADIUS a in
  let a := with_inverse Default.INVERSE a in
  let a := with_invincible Default.INVINCIBLE a in
  let a := with_direction_in_loop Default.DIRECTION_IN_LOOP a in
  with_angular_velocity_base Default.ANGULAR_VELOCITY_BASE a.

(** [Avatar.clear] *)
Definition clear (a : t) : t :=
  let a := base_clear a in
  let a := print_manager_stop a in
  with_body_count 0 a.

(** [BaseAvatar.destroy] *)
Definition destroy (a : t) : t :=
  let a := clear a in
  let a := with_present false a in
  with_alive false a.

End Methods.

End Avatar.

(** ** models/base_bonus_stack.py, models/bonus_stack.py

    [properties] is a Python [dict]: an association list in insertion
    order.  [setattr(target, name, value)] with a name the avatar classes
    do not define creates an instance attribute, kept in [attrs]. *)

Module BonusStack.

(** [math.pi / 2], the binary64 value. *)
Definition half_pi : Q := 884279719003555 # 562949953421312.

(** [get_effects] of each bonus class. *)
Definition get_effects (b : Bonus.t) : list (string * Value.t) :=
  match Bonus.type b with
  | Bonus.SelfSmall => [("radius", Value.Int (-1))]
  | Bonus.SelfSlow => [("velocity", Value.Float (- (5 # 10) * Default.VELOCITY))]
  | Bonus.SelfFast => [("velocity", Value.Float ((5 # 10) * Default.VELOCITY))]
  | Bonus.SelfMaster => [("invincible", Value.Int 1)]
  | Bonus.EnemySlow => [("velocity", Value.Float (- (75 # 100) * Default.VELOCITY))]
  | Bonus.EnemyFast => [("velocity", Value.Float ((75 # 100) * Default.VELOCITY))]
  | Bonus.EnemyBig => [("radius", Value.Int 1)]
  | Bonus.EnemyInverse => [("inverse", Value.Int 1)]
  | Bonus.EnemyStraightAngle =>
      [("directionInLoop", Value.Bool false);
       ("angularVelocityBase", Value.Float half_pi)]
  | Bonus.GameBorderless => [("borderless", Value.Int 1)]
  | Bonus.GameClear => []
  | Bonus.AllColor color => [("color", Value.Str color)]
  end%string.

Definition dict : Type := list (string * Value.t).

(** [properties.get(name)] *)
Fixpoint lookup (properties : dict) (name : string) : option Value.t :=
  match properties with
  | [] => None
  | (k, v) :: rest => if String.eqb k name then Some v else lookup rest name
  end.

(** [properties[name] = value] *)
Fixpoint assign (properties : dict) (name : string) (value : Value.t) : dict :=
  match properties with
  | [] => [(name, value)]
  | (k, v) :: rest =>
      if String.eqb k name then (k, value) :: rest
      else (k, v) :: assign rest name value
  end.

(** The names the classes [EventEmitter], [BaseAvatar] and [Avatar] define:
    instance attributes, properties and methods. *)
Definition defined_names : list string :=
  ["id"; "name"; "color"; "player"; "x"; "y"; "angle"; "velocity_x"; "velocity_y";
   "angular_velocity"; "alive"; "printing"; "score"; "round_score"; "ready";
   "present"; "_velocity"; "_radius"; "_angular_velocity_base"; "_inverse";
   "_invincible"; "_direction_in_loop"; "trail_latency"; "trail"; "bonus_stack";
   "velocity"; "radius"; "angular_velocity_base"; "inverse"; "invincible";
   "direction_in_loop"; "body_count"; "body"; "print_manager";
   "_listeners"; "_once_listeners"; "on"; "once"; "emit"; "remove_listener";
   "remove_all_listeners"; "listeners"; "listener_count";
   "DEFAULT_VELOCITY"; "DEFAULT_ANGULAR_VELOCITY_BASE"; "DEFAULT_RADIUS";
   "DEFAULT_TRAIL_LATENCY"; "DEFAULT_INVERSE"; "DEFAULT_INVINCIBLE";
   "DEFAULT_DIRECTION_IN_LOOP"; "equal"; "set_position"; "add_point";
   "update_angular_velocity"; "set_angular_velocity"; "set_angle"; "update";
   "update_angle"; "update_position"; "set_velocity"; "update_velocities";
   "update_base_angular_velocity"; "set_radius"; "set_inverse"; "set_invincible";
   "get_distance"; "die"; "set_printing"; "add_score"; "resolve_score";
   "set_round_score"; "set_score"; "set_color"; "clear"; "destroy"; "serialize";
   "is_time_to_draw"]%string.

Section Methods.
Context {M : MathLib}.

(** [BaseBonusStack.apply] on an avatar: [setattr(self.target, name, value)]. *)
Definition base_apply (a : Avatar.t) (property : string) (value : Value.t)
  : result Avatar.t :=
  if existsb (String.eqb property) defined_names then Raise Unsupported
  else Ok (Avatar.with_attrs (assign (Avatar.attrs a) property value) a).

(** [BonusStack.apply] *)
Definition apply (a : Avatar.t) (property : string) (value : Value.t)
  : result Avatar.t :=
  if String.eqb property "radius" then
    e <- Value.pow2 value ;;
    Ok (Avatar.set_radius a (Default.RADIUS * e))
  else if String.eqb property "velocity" then
    match Value.as_float value with
    | Some v => Avatar.set_velocity a v
    | None => Raise TypeError
    end
  else if String.eqb property "inverse" then
    o <- Value.odd value ;;
    Ok (Avatar.set_inverse a o)
  else if String.eqb property "invincible" then
    Ok (Avatar.set_invincible a (Value.truthy value))
  else if String.eqb property "printing" then
    p <- Value.positive value ;;
    Ok (if p then Avatar.print_manager_start a else Avatar.print_manager_stop a)
  else if String.eqb property "color" then
    match value with
    | Value.Str color => Ok (Avatar.set_color a color)
    | _ => Raise Unsupported
    end
  else base_apply a property value.

(** [BonusStack.get_default_property] *)
Definition get_default_property (a : Avatar.t) (property : string) : Value.t :=
  if String.eqb property "printing" then Value.Int 1
  else if String.eqb property "radius" then Value.Int 0
  else if String.eqb property "color" then Value.Str (Avatar.player_color a)
  else if String.eqb property "velocity" then Value.Float Default.VELOCITY
  else if String.eqb property "inverse" then Value.Int 0
  else if String.eqb property "invincible" then Value.Int 0
  else Value.Int 0.

(** [BonusStack.append] *)
Definition append (properties : dict) (property : string) (value : Value.t)
  : result dict :=
  if existsb (String.eqb property)
       ["directionInLoop"; "angularVelocityBase"; "color"]%string
  then Ok (assign properties property value)
  else
    match lookup properties property with
    | Some old => v <- Value.add old value ;; Ok (assign properties property v)
    | None => Raise Unsupported         (* KeyError; [resolve] sets the key first *)
    end.

(** The first loop of [resolve]: the effects of the bonus being removed
    reset their properties. *)
Definition reset_effects (a : Avatar.t) (bonus : option Bonus.t) : dict :=
  match bonus with
  | Some b =>
      fold_left
        (fun properties effect =>
           assign properties (fst effect) (get_default_property a (fst effect)))
        (get_effects b) []
  | None => []
  end.

(** The second loop: the effects of every active bonus are aggregated. *)
Definition aggregate (a : Avatar.t) (properties : dict) : result dict :=
  fold_left
    (fun acc effect =>
       properties <- acc ;;
       let '(prop, value) := effect in
       let properties :=
         match lookup properties prop with
         | Some _ => properties
         | None => assign properties prop (get_default_property a prop)
         end in
       append properties prop value)
    (flat_map get_effects (Collection.items (Avatar.bonus_stack a)))
    (Ok properties).

(** The third loop: every property is applied. *)
Definition apply_all (a : Avatar.t) (properties : dict) : result Avatar.t :=
  fold_left
    (fun acc entry => a <- acc ;; apply a (fst entry) (snd entry))
    properties (Ok a).

(** [BaseBonusStack.resolve] *)
Definition resolve (a : Avatar.t) (bonus : option Bonus.t) : result Avatar.t :=
  properties <- aggregate a (reset_effects a bonus) ;;
  apply_all a properties.

Definition bonuses_add := Collection.add Body.option_Z_eqb Bonus.id.
Definition bonuses_remove := Collection.remove Body.option_Z_eqb Bonus.id.

(** [BonusStack.add] *)
Definition add (a : Avatar.t) (bonus : Bonus.t) : result Avatar.t :=
  let '(c, added) := bonuses_add (Avatar.bonus_stack a) bonus in
  if added then resolve (Avatar.with_bonus_stack c a) None else Ok a.

(** [BonusStack.remove] *)
Definition remove (a : Avatar.t) (bonus : Bonus.t) : result Avatar.t :=
  let '(c, removed) := bonuses_remove (Avatar.bonus_stack a) bonus in
  if removed then resolve (Avatar.with_bonus_stack c a) (Some bonus) else Ok a.

End Methods.

End BonusStack.

(** ** models/base_game.py, models/game.py, models/game_bonus_stack.py and
    the [apply_to], [on] and [off] of models/bonus/*.py

    Avatars are objects shared by reference: [avatars] holds them, and an
    avatar is named elsewhere by its position in that list (targets of a
    bonus) or by its id ([deaths], [round_winner]).  [call_later] enters a
    callback in [timers]; it runs when the event loop fires it. *)

Module Game.

(** [bonus.target] *)
Inductive target : Type :=
| NoTarget
| OneAvatar (i : nat)
| Avatars (l : list nat)
| TheGame.

(** The callbacks handed to [call_later]. *)
Inductive callback : Type :=
| Off (bonus : Bonus.t) (target : target)   (* [bonus.off], after its duration *)
| Start                                     (* [self.start], after the warmup *)
| Stop                                      (* [self.stop], after the warmdown *)
| PrintManagerStart (i : nat).              (* [avatar.print_manager.start] *)

Record t : Type := mk {
  avatars : Collection.t Z Avatar.t;
  deaths : Collection.t Z Z;
  world : World.t;
  bonus_manager : BonusManager.t;
  bonus_stack : Collection.t (option Z) Bonus.t;
  borderless : bool;
  started : bool;
  in_round : bool;
  death_in_frame : bool;
  round_winner : option Z;
  game_winner : option Z;
  max_score : Z;
  size : Q;
  timers : list callback;
  rnd : Random.t;
  frame_task : bool
}.

(** Assignment to one attribute. *)
Definition with_avatars (v : Collection.t Z Avatar.t) (g : t) : t :=
  mk v (deaths g) (world g) (bonus_manager g) (bonus_stack g) (borderless g)
     (started g) (in_round g) (death_in_frame g) (round_winner g)
     (game_winner g) (max_score g) (size g) (timers g) (rnd g) (frame_task g).
Definition with_deaths (v : Collection.t Z Z) (g : t) : t :=
  mk (avatars g) v (world g) (bonus_manager g) (bonus_stack g) (borderless g)
     (started g) (in_round g) (death_in_frame g) (round_winner g)
     (game_winner g) (max_score g) (size g) (timers g) (rnd g) (frame_task g).
Definition with_world (v : World.t) (g : t) : t :=
  mk (avatars g) (deaths g) v (bonus_manager g) (bonus_stack g) (borderless g)
     (started g) (in_round g) (death_in_frame g) (round_winner g)
     (game_winner g) (max_score g) (size g) (timers g) (rnd g) (frame_task g).
Definition with_bonus_manager (v : BonusManager.t) (g : t) : t :=
  mk (avatars g) (deaths g) (world g) v (bonus_stack g) (borderless g)
     (started g) (in_round g) (death_in_frame g) (round_winner g)
     (game_winner g) (max_score g) (size g) (timers g) (rnd g) (frame_task g).
Definition with_bonus_stack (v : Collection.t (option Z) Bonus.t) (g : t) : t :=
  mk (avatars g) (deaths g) (world g) (bonus_manager g) v (borderless g)
     (started g) (in_round g) (death_in_frame g) (round_winner g)
     (game_winner g) (max_score g) (size g) (timers g) (rnd g) (frame_task g).
Definition with_borderless (v : bool) (g : t) : t :=
  mk (avatars g) (deaths g) (world g) (bonus_manager g) (bonus_stack g) v
     (started g) (in_round g) (death_in_frame g) (round_winner g)
     (game_winner g) (max_score g) (size g) (timers g) (rnd g) (frame_task g).
Definition with_started (v : bool) (g : t) : t :=
  mk (avatars g) (deaths g) (world g) (bonus_manager g) (bonus_stack g)
     (borderless g) v (in_round g) (death_in_frame g) (round_winner g)
     (game_winner g) (max_score g) (size g) (timers g) (rnd g) (frame_task g).
Definition with_in_round (v : bool) (g : t) : t :=
  mk (avatars g) (deaths g) (world g) (bonus_manager g) (bonus_stack g)
     (borderless g) (started g) v (death_in_frame g) (round_winner g)
     (game_winner g) (max_score g) (size g) (timers g) (rnd g) (frame_task g).
Definition with_death_in_frame (v : bool) (g : t) : t :=
  mk (avatars g) (deaths g) (world g) (bonus_manager g) (bonus_stack g)
     (borderless g) (started g) (in_round g) v (round_winner g)
     (game_winner g) (max_score g) (size g) (timers g) (rnd g) (frame_task g).
Definition with_round_winner (v : option Z) (g : t) : t :=
  mk (avatars g) (deaths g) (world g) (bonus_manager g) (bonus_stack g)
     (borderless g) (started g) (in_round g) (death_in_frame g) v
     (game_winner g) (max_score g) (size g) (timers g) (rnd g) (frame_task g).
Definition with_game_winner (v : option Z) (g : t) : t :=
  mk (avatars g) (deaths g) (world g) (bonus_manager g) (bonus_stack g)
     (borderless g) (started g) (in_round g) (death_in_frame g)
     (round_winner g) v (max_score g) (size g) (timers g) (rnd g)
     (frame_task g).
Definition with_size (v : Q) (g : t) : t :=
  mk (avatars g) (deaths g) (world g) (bonus_manager g) (bonus_stack g)
     (borderless g) (started g) (in_round g) (death_in_frame g)
     (round_winner g) (game_winner g) (max_score g) v (timers g) (rnd g)
     (frame_task g).
Definition with_timers (v : list callback) (g : t) : t :=
  mk (avatars g) (deaths g) (world g) (bonus_manager g) (bonus_stack g)
     (borderless g) (started g) (in_round g) (death_in_frame g)
     (round_winner g) (game_winner g) (max_score g) (size g) v (rnd g)
     (frame_task g).
Definition with_rnd (v : Random.t) (g : t) : t :=
  mk (avatars g) (deaths g) (world g) (bonus_manager g) (bonus_stack g)
     (borderless g) (started g) (in_round g) (death_in_frame g)
     (round_winner g) (game_winner g) (max_score g) (size g) (timers g) v
     (frame_task g).
Definition with_frame_task (v : bool) (g : t) : t :=
  mk (avatars g) (deaths g) (world g) (bonus_manager g) (bonus_stack g)
     (borderless g) (started g) (in_round g) (death_in_frame g)
     (round_winner g) (game_winner g) (max_score g) (size g) (timers g)
     (rnd g) v.

Definition per_player_size : Q := 80.
Definition spawn_margin : Q := 5 # 100.
Definition spawn_angle_margin : Q := 3 # 10.
Definition DEFAULT_BORDERLESS : bool := false.

Definition avatars_add := Collection.add Z.eqb Avatar.id.
Definition deaths_add := Collection.add Z.eqb (fun id : Z => id).

(** [l[i] = a] *)
Fixpoint replace_nth {A : Type} (i : nat) (a : A) (l : list A) : list A :=
  match l, i with
  | [], _ => []
  | _ :: l', O => a :: l'
  | b :: l', S i' => b :: replace_nth i' a l'
  end.

(** The avatar at a position, and its replacement after a mutation. *)
Definition get (g : t) (i : nat) : option Avatar.t :=
  nth_error (Collection.items (avatars g)) i.

Definition put (g : t) (i : nat) (a : Avatar.t) : t :=
  let c := avatars g in
  with_avatars
    (Collection.mk (Collection.ids c) (replace_nth i a (Collection.items c))
       (Collection.id_counter c)) g.

(** A mutation of one avatar that raises nothing. *)
Definition modify (g : t) (i : nat) (f : Avatar.t -> Avatar.t) : t :=
  match get g i with
  | Some a => put g i (f a)
  | None => g
  end.

Section Methods.
Context {M : MathLib}.

(** [BaseGame.get_size] *)
Definition get_size (players : Z) : Z :=
  let square := (per_player_size * per_player_size)%Q in
  Py.round (sqrt (square + (inject_Z (players - 1) * square / 5))).

(** [Game._on_point], for a [point] event of avatar [i]:
    [AvatarBody(x, y, avatar)] takes the avatar's radius and body count
    and increments the count; the body then enters the world. *)
Definition on_point (g : t) (i : nat) (x y : Q) : result t :=
  if started g && World.active (world g) then
    match get g i with
    | Some a =>
        let body :=
          Body.mk x y (Avatar.radius a)
            (Body.AvatarBody
               (Body.Build_AvatarRef (Avatar.id a) (Avatar.trail_latency a))
               (Avatar.body_count a))
            None [] in
        let g := put g i (Avatar.with_body_count (Avatar.body_count a + 1) a) in
        '(w, _) <- World.add_body (world g) body ;;
        Ok (with_world w g)
    | None => Ok g
    end
  else Ok g.

Fixpoint on_points (g : t) (i : nat) (points : list (Q * Q)) : result t :=
  match points with
  | [] => Ok g
  | (x, y) :: rest => g <- on_point g i x y ;; on_points g i rest
  end.

(** Delivery of the [point] events avatar [i] has emitted. *)
Definition deliver (g : t) (i : nat) : result t :=
  match get g i with
  | Some a => on_points (put g i (Avatar.with_emitted [] a)) i (Avatar.emitted a)
  | None => Ok g
  end.

(** A method call on avatar [i], with the delivery of its events. *)
Definition call (g : t) (i : nat) (f : Avatar.t -> result Avatar.t) : result t :=
  match get g i with
  | Some a => a <- f a ;; deliver (put g i a) i
  | None => Ok g
  end.

(** [GameBonusStack.get_default_property] *)
Definition get_default_property (property : string) : Value.t :=
  if String.eqb property "borderless" then Value.Bool DEFAULT_BORDERLESS
  else Value.Int 0.

(** [Game.set_borderless] *)
Definition set_borderless (g : t) (borderless' : bool) : t :=
  if negb (Bool.eqb (borderless g) borderless') then with_borderless borderless' g
  else g.

(** [GameBonusStack.apply]; the one property game bonuses name is
    [borderless]. *)
Definition stack_apply (g : t) (property : string) (value : Value.t) : result t :=
  if String.eqb property "borderless"
  then Ok (set_borderless g (Value.truthy value))
  else Raise Unsupported.

(** [BaseBonusStack.append] *)
Definition stack_append (properties : BonusStack.dict) (property : string)
    (value : Value.t) : result BonusStack.dict :=
  match BonusStack.lookup properties property with
  | Some old =>
      v <- Value.add old value ;; Ok (BonusStack.assign properties property v)
  | None => Raise Unsupported
  end.

(** [BaseBonusStack.resolve] on the game's stack. *)
Definition stack_resolve (g : t) (bonus : option Bonus.t) : result t :=
  let reset :=
    match bonus with
    | Some b =>
        fold_left
          (fun properties effect =>
             BonusStack.assign properties (fst effect)
               (get_default_property (fst effect)))
          (BonusStack.get_effects b) []
    | None => []
    end in
  properties <-
    fold_left
      (fun acc effect =>
         properties <- acc ;;
         let '(prop, value) := effect in
         let properties :=
           match BonusStack.lookup properties prop with
           | Some _ => properties
           | None => BonusStack.assign properties prop (get_default_property prop)
           end in
         stack_append properties prop value)
      (flat_map BonusStack.get_effects (Collection.items (bonus_stack g)))
      (Ok reset) ;;
  fold_left
    (fun acc entry => g <- acc ;; stack_apply g (fst entry) (snd entry))
    properties (Ok g).

(** [BaseBonusStack.add] on the game's stack. *)
Definition stack_add (g : t) (bonus : Bonus.t) : result t :=
  let '(c, added) := BonusStack.bonuses_add (bonus_stack g) bonus in
  if added then stack_resolve (with_bonus_stack c g) None else Ok g.

(** [BaseBonusStack.remove] on the game's stack. *)
Definition stack_remove (g : t) (bonus : Bonus.t) : result t :=
  let '(c, removed) := BonusStack.bonuses_remove (bonus_stack g) bonus in
  if removed then stack_resolve (with_bonus_stack c g) (Some bonus) else Ok g.

(** [Game.clear_trails] *)
Definition clear_trails (g : t) : t :=
  with_world (World.activate (World.clear (world g))) g.

(** The positions of the avatars that satisfy [p]. *)
Definition positions (g : t) (p : Avatar.t -> bool) : list nat :=
  filter (fun i => match get g i with Some a => p a | None => false end)
    (seq 0 (List.length (Collection.items (avatars g)))).

(** [get_target] of the bonus classes: [BonusSelf], [BonusEnemy],
    [BonusAll], [BonusGame]. *)
Definition get_target (g : t) (bonus : Bonus.t) (i : nat) : target :=
  match get g i with
  | None => NoTarget
  | Some avatar =>
      match Bonus.type bonus with
      | Bonus.SelfSmall | Bonus.SelfSlow | Bonus.SelfFast | Bonus.SelfMaster =>
          if Avatar.alive avatar then OneAvatar i else NoTarget
      | Bonus.EnemySlow | Bonus.EnemyFast | Bonus.EnemyBig | Bonus.EnemyInverse
      | Bonus.EnemyStraightAngle =>
          Avatars (positions g (fun a => Avatar.alive a && negb (Avatar.equal a avatar)))
      | Bonus.AllColor _ => Avatars (positions g Avatar.alive)
      | Bonus.GameBorderless | Bonus.GameClear => TheGame
      end
  end.

(** [avatar.bonus_stack.add(bonus)] for every avatar of a list. *)
Fixpoint add_to_stacks (g : t) (bonus : Bonus.t) (l : list nat) : result t :=
  match l with
  | [] => Ok g
  | i :: rest =>
      g <- call g i (fun a => BonusStack.add a bonus) ;;
      add_to_stacks g bonus rest
  end.

Fixpoint remove_from_stacks (g : t) (bonus : Bonus.t) (l : list nat) : result t :=
  match l with
  | [] => Ok g
  | i :: rest =>
      g <- call g i (fun a => BonusStack.remove a bonus) ;;
      remove_from_stacks g bonus rest
  end.

(** [bonus.on()] *)
Definition on (g : t) (bonus : Bonus.t) (tg : target) : result t :=
  match tg with
  | NoTarget => Ok g
  | OneAvatar i => add_to_stacks g bonus [i]
  | Avatars l => add_to_stacks g bonus l
  | TheGame =>
      match Bonus.type bonus with
      | Bonus.GameClear => Ok (clear_trails g)
      | _ => stack_add g bonus
      end
  end.

(** [bonus.off()] *)
Definition off (g : t) (bonus : Bonus.t) (tg : target) : result t :=
  match tg with
  | NoTarget => Ok g
  | OneAvatar i => remove_from_stacks g bonus [i]
  | Avatars l => remove_from_stacks g bonus l
  | TheGame => stack_remove g bonus
  end.

(** [Bonus.apply_to(avatar, game)] *)
Definition apply_to (g : t) (bonus : Bonus.t) (i : nat) : result t :=
  let tg := get_target g bonus i in
  let g :=
    if negb (Bonus.duration (Bonus.type bonus) =? 0)
    then with_timers (timers g ++ [Off bonus tg]) g
    else g in
  on g bonus tg.

(** [self.bonus_manager.test_catch(avatar)] *)
Definition test_catch (g : t) (i : nat) : result t :=
  match get g i with
  | Some avatar =>
      '(m, caught) <- BonusManager.test_catch (bonus_manager g) (Avatar.body avatar) ;;
      let g := with_bonus_manager m g in
      match caught with
      | Some bonus => apply_to g bonus i
      | None => Ok g
      end
  | None => Ok g
  end.

(** [Game.kill] *)
Definition kill (g : t) (i : nat) (killer : option Body.t) (score : Z) : result t :=
  g <- call g i (fun a => Ok (Avatar.die a)) ;;
  let g := modify g i (fun a => Avatar.add_score a score) in
  let g :=
    match get g i with
    | Some a => with_deaths (fst (deaths_add (deaths g) (Avatar.id a))) g
    | None => g
    end in
  Ok (with_death_in_frame true g).

(** [Game.resolve_scores] *)
Definition resolve_scores (g : t) : t :=
  let count := Collection.count (avatars g) in
  let winner :=
    if count =? 1 then match get g 0 with Some _ => Some O | None => None end
    else hd_error (positions g Avatar.alive) in
  let g :=
    match winner with
    | Some w =>
        let g := modify g w (fun a => Avatar.add_score a (Z.max (count - 1) 1)) in
        with_round_winner (option_map Avatar.id (get g w)) g
    | None => g
    end in
  fold_left (fun g i => modify g i Avatar.resolve_score)
    (seq 0 (List.length (Collection.items (avatars g)))) g.

(** [Game.on_round_end] *)
Definition on_round_end (g : t) : t := resolve_scores g.

(** [BaseGame.end_round] *)
Definition end_round (g : t) : t :=
  if in_round g then
    let g := with_in_round false g in
    let g := on_round_end g in
    with_timers (timers g ++ [Stop]) g
  else g.

(** [Game.check_round_end] *)
Definition check_round_end (g : t) : t :=
  if negb (in_round g) then g
  else if (1 <? List.length (positions g Avatar.alive))%nat then g
  else end_round g.

(** The body of the loop of [Game.update], for the avatar at [i]. *)
Definition update_avatar (score : Z) (step : Q) (g : t) (i : nat) : result t :=
  match get g i with
  | None => Ok g
  | Some avatar =>
      if Avatar.alive avatar then
        g <- call g i (fun a => Avatar.update a step) ;;
        g <-
          match get g i with
          | None => Ok g
          | Some avatar =>
              let border :=
                World.get_bound_intersect (world g) (Avatar.body avatar)
                  (if borderless g then 0%Q else Avatar.radius avatar) in
              match border with
              | Some (bx, by_) =>
                  if borderless g then
                    let '(px, py) := World.get_opposite (world g) bx by_ in
                    Ok (modify g i (fun a => Avatar.set_position a px py))
                  else kill g i None score
              | None =>
                  if negb (Avatar.invincible avatar) then
                    killer <- World.get_body (world g) (Avatar.body avatar) ;;
                    match killer with
                    | Some k => kill g i (Some k) score
                    | None => Ok g
                    end
                  else Ok g
              end
          end ;;
        match get g i with
        | None => Ok g
        | Some avatar =>
            if Avatar.alive avatar then
              g <- call g i (fun a => Ok (Avatar.print_manager_test a)) ;;
              test_catch g i
            else Ok g
        end
      else Ok g
  end.

(** The [for] loop of [Game.update]. *)
Definition update_loop (g : t) (step : Q) : result t :=
  let score := Collection.count (deaths g) in
  let g := with_death_in_frame false g in
  fold_left (fun acc i => g <- acc ;; update_avatar score step g i)
    (seq 0 (List.length (Collection.items (avatars g)))) (Ok g).

(** [Game.update] *)
Definition update (g : t) (step : Q) : result t :=
  g <- update_loop g step ;;
  Ok (if death_in_frame g then check_round_end g else g).

(** [avatar.clear()] with the delivery of its events: the print manager
    stops, and may emit, before the body count is reset. *)
Definition clear_avatar (g : t) (i : nat) : result t :=
  g <- call g i (fun a => Ok (Avatar.print_manager_stop (Avatar.base_clear a))) ;;
  Ok (modify g i (Avatar.with_body_count 0)).

(** [BaseGame.on_round_new] *)
Definition base_on_round_new (g : t) : result t :=
  let g := with_borderless DEFAULT_BORDERLESS g in
  let g := with_bonus_manager (BonusManager.clear (bonus_manager g)) g in
  fold_left
    (fun acc i =>
       g <- acc ;;
       match get g i with
       | Some a => if Avatar.present a then clear_avatar g i else Ok g
       | None => Ok g
       end)
    (seq 0 (List.length (Collection.items (avatars g)))) (Ok g).

(** The body of the loop of [Game.on_round_new]: a present avatar is
    placed, an absent one is entered in [deaths]. *)
Definition place_avatar (g : t) (i : nat) : result t :=
  match get g i with
  | None => Ok g
  | Some a =>
      if Avatar.present a then
        '(position, r) <-
          World.get_random_position (world g) (Avatar.radius a) spawn_margin (rnd g) ;;
        let g := with_rnd r g in
        g <- call g i (fun a => Ok (Avatar.set_position a (fst position) (snd position))) ;;
        match get g i with
        | None => Ok g
        | Some a =>
            let '(direction, r) :=
              World.get_random_direction (world g) (Avatar.x a) (Avatar.y a)
                spawn_angle_margin (rnd g) in
            let g := with_rnd r g in
            call g i (fun a => Avatar.set_angle a direction)
        end
      else Ok (with_deaths (fst (deaths_add (deaths g) (Avatar.id a))) g)
  end.

(** [Game.on_round_new] *)
Definition on_round_new (g : t) : result t :=
  g <- base_on_round_new g ;;
  let g := with_round_winner None g in
  let g := with_world (World.clear (world g)) g in
  let g := with_deaths (Collection.clear (deaths g)) g in
  let g := with_bonus_stack (Collection.clear (bonus_stack g)) g in
  fold_left (fun acc i => g <- acc ;; place_avatar g i)
    (seq 0 (List.length (Collection.items (avatars g)))) (Ok g).

(** [BaseGame.new_round] *)
Definition new_round (g : t) : result t :=
  let g := with_started true g in
  if negb (in_round g) then
    let g := with_in_round true g in
    g <- on_round_new g ;;
    Ok (with_timers (timers g ++ [Start]) g)
  else Ok g.

(** [Game.remove_avatar] *)
Definition remove_avatar (g : t) (i : nat) : result t :=
  match get g i with
  | None => Ok g
  | Some a =>
      g <-
        (if Collection.exists_ Z.eqb Avatar.id (avatars g) a then
           g <- call g i (fun a => Ok (Avatar.die a)) ;;
           g <- clear_avatar g i ;;
           Ok (modify g i (fun a => Avatar.with_alive false
                                      (Avatar.with_present false a)))
         else Ok g) ;;
      Ok (check_round_end g)
  end.

(** [Game.on_start] *)
Definition on_start (g : t) : t :=
  let n := List.length (Collection.items (avatars g)) in
  let g := with_timers (timers g ++ map PrintManagerStart (seq 0 n)) g in
  let g := with_world (World.activate (world g)) g in
  with_bonus_manager (BonusManager.start (bonus_manager g)) g.

(** [BaseGame.start]; [frame_task] tells whether the frame loop runs. *)
Definition start (g : t) : t :=
  if frame_task g then g else with_frame_task true (on_start g).

(** [Game.set_size] *)
Definition set_size (g : t) (size' : Z) : result t :=
  let g := with_size (inject_Z size') g in
  w <- World.new (size g) None ;;
  m <- BonusManager.set_size (bonus_manager g) (size g) ;;
  Ok (with_bonus_manager m (with_world w g)).

(** [BaseGame.on_stop] *)
Definition base_on_stop (g : t) : result t :=
  let g := with_bonus_manager (BonusManager.stop (bonus_manager g)) g in
  let size' :=
    get_size (Z.of_nat (List.length (positions g Avatar.present))) in
  if Avatar.Qneb (size g) (inject_Z size') then set_size g size' else Ok g.

(** [list.sort(key=lambda a: -a.score)]: a stable sort, the higher score
    first. *)
Fixpoint insert_by_score (a : Avatar.t) (l : list Avatar.t) : list Avatar.t :=
  match l with
  | [] => [a]
  | b :: l' =>
      if Avatar.score b <? Avatar.score a then a :: l
      else b :: insert_by_score a l'
  end.

Definition sort_avatars (l : list Avatar.t) : list Avatar.t :=
  fold_left (fun sorted a => insert_by_score a sorted) l [].

(** What [Game.is_won] returns: an avatar, [True] or [None]. *)
Inductive won : Type :=
| WonBy (a : Avatar.t)
| WonTrue
| NotWon.

(** [Game.is_won]; [Collection.filter] lists the items it keeps in
    reverse. *)
Definition is_won (g : t) : won :=
  let present := Z.of_nat (List.length (positions g Avatar.present)) in
  if present <=? 0 then WonTrue
  else if (1 <? Collection.count (avatars g)) && (present <=? 1) then WonTrue
  else
    let players :=
      rev (filter (fun a => Avatar.present a && (max_score g <=? Avatar.score a))
             (Collection.items (avatars g))) in
    match players with
    | [] => NotWon
    | [a] => WonBy a
    | _ =>
        match sort_avatars players with
        | a :: b :: _ => if Avatar.score a =? Avatar.score b then NotWon else WonBy a
        | _ => NotWon
        end
    end.

(** [Game.end].  [on_stop] alone calls it, after [stop] has dropped the
    frame task, so that the [self.stop()] of [BaseGame.end] does nothing. *)
Definition end_ (g : t) : t :=
  if started g then
    let g := with_started false g in
    let g := with_avatars (Collection.clear (avatars g)) g in
    with_world (World.clear (world g)) g
  else g.

(** [Game.on_stop] *)
Definition on_stop (g : t) : result t :=
  g <- base_on_stop g ;;
  match is_won g with
  | WonBy a => Ok (end_ (with_game_winner (Some (Avatar.id a)) g))
  | WonTrue => Ok (end_ g)
  | NotWon => new_round g
  end.

(** [BaseGame.stop] *)
Definition stop (g : t) : result t :=
  if frame_task g then on_stop (with_frame_task false g) else Ok g.

(** [Game(room)]: [BaseGame.__init__] gathers the avatars of the players
    and sizes the map, [Game.__init__] builds the world and the bonus
    manager and clears every avatar; the [point] events of that [clear]
    precede the listener and are lost. *)
Definition new (players : list Avatar.t) (max_score : Z) (rnd : Random.t)
  : result t :=
  let c := fold_left (fun c a => fst (avatars_add c a)) players Collection.empty in
  let size := inject_Z (get_size (Collection.count c)) in
  w <- World.new size None ;;
  m <- BonusManager.new size ;;
  let c :=
    Collection.mk (Collection.ids c)
      (map (fun a => Avatar.with_emitted [] (Avatar.clear a)) (Collection.items c))
      (Collection.id_counter c) in
  Ok (mk c Collection.empty w m Collection.empty DEFAULT_BORDERLESS false false
        false None None max_score size [] rnd false).

(** The event loop runs the pending callback at position [k]. *)
Definition fire (g : t) (k : nat) : result t :=
  match nth_error (timers g) k with
  | None => Ok g
  | Some c =>
      let g := with_timers (Collection.delete k (timers g)) g in
      match c with
      | Off bonus tg => off g bonus tg
      | Start => Ok (start g)
      | Stop => stop g
      | PrintManagerStart i =>
          call g i (fun a => Ok (Avatar.print_manager_start a))
      end
  end.

(** What reaches a game from outside: the controller ([new_round] once the
    players are ready, [remove_avatar] when a client leaves,
    [update_angular_velocity] on a move message, the [ready] flag before
    the game has started), the frame loop ([on_frame]), the event loop
    (a pending callback) and the bonus spawner. *)
Inductive op : Type :=
| NewRound
| Frame (step : Q)
| Fire (k : nat)
| RemoveAvatar (i : nat)
| Move (i : nat) (move : Q)
| Ready (i : nat)
| PopBonus (type : Bonus.kind) (x y : Q).

Definition exec (g : t) (o : op) : result t :=
  match o with
  | NewRound => new_round g
  | Frame step => if frame_task g then update g step else Ok g
  | Fire k => fire g k
  | RemoveAvatar i => remove_avatar g i
  | Move i move =>
      Ok (modify g i (fun a => Avatar.update_angular_velocity a (Some move)))
  | Ready i => Ok (if started g then g else modify g i (Avatar.with_ready true))
  | PopBonus type x y =>
      '(m, _) <- BonusManager.add (bonus_manager g) (Bonus.new type x y) ;;
      Ok (with_bonus_manager m g)
  end.

Fixpoint run (g : t) (ops : list op) : result t :=
  match ops with
  | [] => Ok g
  | o :: rest => g <- exec g o ;; run g rest
  end.

End Methods.

End Game.

(** ** Vocabulary of the statements and example data *)



(** A trail segment and a moving body of avatar 7, one unit apart, both of
    radius 0.6. *)
Definition segment7 (num : Z) : Body.t :=
  Body.mk 10 10 (6 # 10) (Body.AvatarBody (Body.Build_AvatarRef 7 3) num) (Some num) [].
Definition head7 (num : Z) : Body.t :=
  Body.mk 11 10 (6 # 10) (Body.AvatarBody (Body.Build_AvatarRef 7 3) num) None [].

Definition or_default {A : Type} (d : A) (r : result A) : A :=
  match r with Ok a => a | Raise _ => d end.

(** [World(80)], the world of a one-player game, activated, with one trail
    body of radius 5 at (20, 20). *)
Definition world80 : World.t :=
  Eval vm_compute in
    or_default (World.mk 0 Collection.empty 0 false 0)
      (w <- World.new 80 None ;;
       '(w, _) <- World.add_body (World.activate w)
                    (Body.mk 20 20 5 (Body.AvatarBody (Body.Build_AvatarRef 7 3) 0)
                       None []) ;;
       Ok w).


(** A collection is coherent when its id list is the list of the keys of
    its items, without repetition. *)
Definition coherent {K T : Type} (key : T -> K) (c : Collection.t K T) : Prop :=
  Collection.ids c = map key (Collection.items c) /\ NoDup (Collection.ids c).

(** Well-formed islands, worlds and bonus managers. *)
Definition island_wf (i : Island.t) : Prop := coherent Body.id (Island.bodies i).

Definition world_wf (w : World.t) : Prop :=
  coherent Island.id (World.islands w) /\
  (forall i, In i (Collection.items (World.islands w)) -> island_wf i) /\
  (World.active w = false ->
   forall i, In i (Collection.items (World.islands w)) ->
             Collection.items (Island.bodies i) = []).

(** [body], listed in the island [island_id], is the collision body of
    [bonus]. *)
Definition body_of (island_id : Z * Z) (body : Body.t) (bonus : Bonus.t) : Prop :=
  exists k,
    Bonus.id bonus = Some k /\
    Body.cls body = Body.Plain (Some k) /\
    Body.id (Bonus.body bonus) = Body.id body /\
    In island_id (Body.islands (Bonus.body bonus)).

Definition manager_wf (m : BonusManager.t) : Prop :=
  coherent Bonus.id (BonusManager.bonuses m) /\
  world_wf (BonusManager.world m) /\
  forall i body,
    In i (Collection.items (World.islands (BonusManager.world m))) ->
    In body (Collection.items (Island.bodies i)) ->
    exists bonus,
      In bonus (Collection.items (BonusManager.bonuses m)) /\
      body_of (Island.id i) body bonus.

(** The bodies the spatial index of a world lists. *)
Definition indexed (w : World.t) (body : Body.t) : Prop :=
  exists i, In i (Collection.items (World.islands w)) /\
            In body (Collection.items (Island.bodies i)).

(** The pick-up tests of one tick: [test_catch] for the body of each alive
    avatar in turn, collecting the bonuses on which [apply_to] is called. *)
Fixpoint catch_all (m : BonusManager.t) (avatar_bodies : list Body.t)
  : result (BonusManager.t * list Bonus.t) :=
  match avatar_bodies with
  | [] => Ok (m, [])
  | body :: rest =>
      '(m, caught) <- BonusManager.test_catch m body ;;
      '(m, more) <- catch_all m rest ;;
      Ok (m, match caught with Some b => b :: more | None => more end)
  end.

(** [w'] is [w] with bodies taken out of some islands, the body id [n] out
    of every island listed in [ks]. *)
Definition shrunk (n : option Z) (ks : list (Z * Z)) (w w' : World.t) : Prop :=
  world_wf w' /\
  World.active w' = World.active w /\
  forall i', In i' (Collection.items (World.islands w')) ->
    exists i, In i (Collection.items (World.islands w)) /\
              Island.id i = Island.id i' /\
              incl (Collection.items (Island.bodies i'))
                   (Collection.items (Island.bodies i)) /\
              (In (Island.id i') ks ->
               forall b, In b (Collection.items (Island.bodies i')) -> Body.id b <> n).

(** The state of the index while a body is being entered for a manager
    whose bonuses are [old]. *)
Definition entering (old : list Bonus.t) (w : World.t) (body : Body.t) : Prop :=
  world_wf w /\ World.active w = true /\
  forall i b, In i (Collection.items (World.islands w)) ->
              In b (Collection.items (Island.bodies i)) ->
              (exists bonus, In bonus old /\ body_of (Island.id i) b bonus) \/
              (Body.cls b = Body.cls body /\ Body.id b = Body.id body /\
               In (Island.id i) (Body.islands body)).

(** The states of a bonus manager: built by [BonusManager(game, ...)], then
    driven by the game ([start], [stop], [clear], [set_size]), by the
    spawner ([add] of a bonus just constructed) and by the pick-up test. *)
Inductive reachable : BonusManager.t -> Prop :=
| reach_new (game_size : Q) (m : BonusManager.t) :
    BonusManager.new game_size = Ok m -> reachable m
| reach_start (m : BonusManager.t) :
    reachable m -> reachable (BonusManager.start m)
| reach_stop (m : BonusManager.t) :
    reachable m -> reachable (BonusManager.stop m)
| reach_clear (m : BonusManager.t) :
    reachable m -> reachable (BonusManager.clear m)
| reach_set_size (m m' : BonusManager.t) (game_size : Q) :
    reachable m -> BonusManager.set_size m game_size = Ok m' -> reachable m'
| reach_add (m m' : BonusManager.t) (type : Bonus.kind) (x y : Q) (added : bool) :
    reachable m -> BonusManager.add m (Bonus.new type x y) = Ok (m', added) ->
    reachable m'
| reach_test_catch (m m' : BonusManager.t) (avatar_body : Body.t)
    (caught : option Bonus.t) :
    reachable m -> BonusManager.test_catch m avatar_body = Ok (m', caught) ->
    reachable m'.

(** The manager of a game of size 80, started, before and after a
    [SelfFast] bonus is spawned at (30, 30); and the moving bodies of two
    avatars that both overlap that bonus. *)
Definition manager80_started : BonusManager.t :=
  Eval vm_compute in
    or_default (BonusManager.mk Collection.empty world80)
      (m <- BonusManager.new 80 ;; Ok (BonusManager.start m)).

Definition manager80 : BonusManager.t :=
  Eval vm_compute in
    or_default manager80_started
      ('(m, _) <- BonusManager.add manager80_started (Bonus.new Bonus.SelfFast 30 30) ;;
       Ok m).

Definition avatar_body_1 : Body.t :=
  Body.mk 31 30 (6 # 10) (Body.AvatarBody (Body.Build_AvatarRef 1 3) 12) None [].
Definition avatar_body_2 : Body.t :=
  Body.mk 29 31 (6 # 10) (Body.AvatarBody (Body.Build_AvatarRef 2 3) 9) None [].

(** The properties bonus effects name, at their defaults. *)
Definition default_properties (a : Avatar.t) : Prop :=
  (Avatar.velocity a == Default.VELOCITY)%Q /\
  (Avatar.radius a == Default.RADIUS)%Q /\
  Avatar.inverse a = Default.INVERSE /\
  Avatar.invincible a = Default.INVINCIBLE /\
  Avatar.color a = Avatar.player_color a /\
  Avatar.direction_in_loop a = Default.DIRECTION_IN_LOOP /\
  (Avatar.angular_velocity_base a == Default.ANGULAR_VELOCITY_BASE)%Q.

(** The bonus classes whose effects name properties that the avatar stack
    knows ([BonusStack.apply] and [get_default_property] have a case for
    them). *)
Definition named_by_stack (k : Bonus.kind) : Prop :=
  match k with
  | Bonus.EnemyStraightAngle | Bonus.GameBorderless | Bonus.GameClear => False
  | _ => True
  end.

(** A stand-in for the [math] module, to run examples; no statement depends
    on the values it gives. *)
Definition coarse_math : MathLib.
Proof.
  refine {| cos := fun x => (1 - x * x / 2)%Q;
            sin := fun x => x;
            log := fun x => (x - 1)%Q;
            sqrt := fun x => inject_Z (Z.sqrt (Qfloor x)) |}.
  - intros x y H. rewrite H. reflexivity.
  - reflexivity.
Defined.

Definition zero_draws : Random.t := Random.mk (fun _ => 0%Q) 0.

(** The avatar of player 1, as constructed; a [SelfFast] and an
    [EnemyStraightAngle] bonus with the ids the manager gave them. *)
Definition avatar1 : Avatar.t := Avatar.new 1 "#ff0000" zero_draws.
Definition fast_bonus : Bonus.t := Bonus.set_id (Bonus.new Bonus.SelfFast 30 30) 1.
Definition straight_bonus : Bonus.t :=
  Bonus.set_id (Bonus.new Bonus.EnemyStraightAngle 30 30) 2.

(** ** The score ledger

    What the statements about scores read of an avatar, and of a game:
    the entries of its avatars in list order, whether a round is on, the
    ids of the avatar collection and the [deaths] collection. *)

Module Ledger.
Record t : Type := mk {
  id : Z;
  alive : bool;
  present : bool;
  score : Z;
  round_score : Z
}.
End Ledger.

Definition ledger (a : Avatar.t) : Ledger.t :=
  Ledger.mk (Avatar.id a) (Avatar.alive a) (Avatar.present a) (Avatar.score a)
    (Avatar.round_score a).

Definition ledgers (g : Game.t) : list Ledger.t :=
  map ledger (Collection.items (Game.avatars g)).

Definition frame (g : Game.t) : bool * list Z :=
  (Game.in_round g, Collection.ids (Game.avatars g)).

Definition view (g : Game.t) : list Ledger.t * (bool * list Z) * Collection.t Z Z :=
  (ledgers g, frame g, Game.deaths g).

(** The entry of an avatar that [Game.kill] has killed with the score [s]. *)
Definition credit (s : Z) (l : Ledger.t) : Ledger.t :=
  Ledger.mk (Ledger.id l) false (Ledger.present l) (Ledger.score l)
    (Ledger.round_score l + s).

(** An entry over the loop of one tick whose snapshot is [s]: unchanged,
    or killed. *)
Definition ticked (s : Z) (l l' : Ledger.t) : Prop :=
  l' = l \/ (Ledger.alive l = true /\ l' = credit s l).

Definition ticks (s : Z) (g g' : Game.t) : Prop :=
  Forall2 (ticked s) (ledgers g) (ledgers g') /\ frame g' = frame g.

(** The entry of an avatar after [Game.resolve_scores], [award] being what
    it received as the winner. *)
Definition resolved (award : Z) (l : Ledger.t) : Ledger.t :=
  Ledger.mk (Ledger.id l) (Ledger.alive l) (Ledger.present l)
    (Ledger.score l + (Ledger.round_score l + award)) 0.

(** The position [Game.resolve_scores] awards, as the code finds it. *)
Definition winner (g : Game.t) : option nat :=
  if Collection.count (Game.avatars g) =? 1
  then match Game.get g 0 with Some _ => Some O | None => None end
  else hd_error (Game.positions g Avatar.alive).

(** A game over [Game.check_round_end]: nothing changes, or the round ends
    and every avatar commits its round score, the winner with its award. *)
Definition round_end (g g' : Game.t) : Prop :=
  (view g' = view g) \/
  (Game.in_round g = true /\ Game.in_round g' = false /\
   Game.deaths g' = Game.deaths g /\
   Collection.ids (Game.avatars g') = Collection.ids (Game.avatars g) /\
   forall i,
     nth_error (ledgers g') i
     = option_map
         (fun l =>
            resolved
              (if match winner g with Some w => (w =? i)%nat | None => false end
               then Z.max (Collection.count (Game.avatars g) - 1) 1 else 0) l)
         (nth_error (ledgers g) i)).

(** The entry of an avatar after [clear()]. *)
Definition cleared (l : Ledger.t) : Ledger.t :=
  Ledger.mk (Ledger.id l) true (Ledger.present l) (Ledger.score l) 0.

(** The number of avatars that are not present. *)
Definition absent (g : Game.t) : Z :=
  Z.of_nat (List.length (filter (fun a => negb (Avatar.present a))
                           (Collection.items (Game.avatars g)))).

(** The entry of an avatar whose player has left. *)
Definition left_game (l : Ledger.t) : Ledger.t :=
  Ledger.mk (Ledger.id l) false false (Ledger.score l) 0.

(** Why an operation may reset the round score of the avatar at [i]: a
    round starts, a round ends, or the avatar leaves the game. *)
Definition reset_cause (o : Game.op) (g g' : Game.t) (i : nat) : Prop :=
  (Game.in_round g = false /\ Game.in_round g' = true) \/
  (Game.in_round g = true /\ Game.in_round g' = false) \/
  o = Game.RemoveAvatar i.

(** An entry over one operation: the score does not decrease, and the
    round score does not either unless it is reset to 0, for [cause]. *)
Definition settled (cause : Prop) (l l' : Ledger.t) : Prop :=
  Ledger.id l' = Ledger.id l /\
  (0 <= Ledger.round_score l ->
   Ledger.score l <= Ledger.score l' /\ 0 <= Ledger.round_score l' /\
   (Ledger.round_score l <= Ledger.round_score l' \/
    Ledger.round_score l' = 0 /\ cause)).

Definition op_settled (o : Game.op) (g g' : Game.t) : Prop :=
  forall i l', nth_error (ledgers g') i = Some l' ->
    exists l, nth_error (ledgers g) i = Some l /\ settled (reset_cause o g g' i) l l'.

(** No avatar has a negative round score. *)
Definition round_scores_nonneg (g : Game.t) : Prop :=
  forall i l, nth_error (ledgers g) i = Some l -> 0 <= Ledger.round_score l.

(** Example games: the avatar of a player as constructed; draws that place
    every avatar at an eighth of the field, heading a quarter of [pi] off
    the x axis; games of one, three and four players, the last with the
    first avatar placed two thirds into the field. *)
Definition player (id : Z) : Avatar.t := Avatar.new id "#ff0000" zero_draws.

Definition eighth_draws : Random.t := Random.mk (fun _ => (1 # 8)%Q) 0.

Definition solo_game : result Game.t :=
  Game.new (M := coarse_math) [player 1] 10 eighth_draws.

Definition trio_game : result Game.t :=
  Game.new (M := coarse_math) [player 1; player 2; player 3] 20 eighth_draws.

Definition quartet_draws : Random.t :=
  Random.mk (fun n => nth n [2 # 3; 2 # 3]%Q (1 # 8)%Q) 0.

Definition quartet_game : result Game.t :=
  Game.new (M := coarse_math) [player 1; player 2; player 3; player 4] 30
    quartet_draws.

(** The four-player game after the fourth player has left, a round has
    started, the first avatar has died of the border and the tick has
    killed the second one: the third is the last one alive. *)
Definition quartet_last_standing : result Game.t :=
  g <- quartet_game ;;
  g <- Game.run (M := coarse_math) g
         [Game.RemoveAvatar 3; Game.NewRound; Game.Fire 0; Game.Frame 3200] ;;
  Game.kill g 1 None 2.

(** ** Avatar mutations

    The methods that change an avatar, one constructor per method, and what
    the statements about movement read of an avatar: the relation between
    the velocity, the angle and the velocity components that
    [update_velocities] computes, and the agreement of the collision body
    with the position and the radius. *)

Inductive mutation : Type :=
| SetPosition (x y : Q)
| AddPoint (x y : Q)
| SetAngularVelocity (angular_velocity : Q)
| UpdateAngularVelocity (factor : option Q)
| SetAngle (angle : Q)
| SetVelocity (velocity : Q)
| SetRadius (radius : Q)
| SetInverse (inverse : bool)
| SetInvincible (invincible : bool)
| SetColor (color : string)
| Update (step : Q)
| SetPrinting (printing : bool)
| PrintStart
| PrintStop
| PrintTest
| Die
| AddScore (score : Z)
| ResolveScore
| SetScore (score : Z)
| SetRoundScore (score : Z)
| StackAdd (bonus : Bonus.t)
| StackRemove (bonus : Bonus.t)
| Clear
| Destroy.

Definition mutate {M : MathLib} (a : Avatar.t) (m : mutation) : result Avatar.t :=
  match m with
  | SetPosition x y => Ok (Avatar.set_position a x y)
  | AddPoint x y => Ok (Avatar.add_point a x y)
  | SetAngularVelocity v => Ok (Avatar.set_angular_velocity a v)
  | UpdateAngularVelocity f => Ok (Avatar.update_angular_velocity a f)
  | SetAngle x => Avatar.set_angle a x
  | SetVelocity v => Avatar.set_velocity a v
  | SetRadius r => Ok (Avatar.set_radius a r)
  | SetInverse b => Ok (Avatar.set_inverse a b)
  | SetInvincible b => Ok (Avatar.set_invincible a b)
  | SetColor c => Ok (Avatar.set_color a c)
  | Update step => Avatar.update a step
  | SetPrinting p => Ok (Avatar.set_printing a p)
  | PrintStart => Ok (Avatar.print_manager_start a)
  | PrintStop => Ok (Avatar.print_manager_stop a)
  | PrintTest => Ok (Avatar.print_manager_test a)
  | Die => Ok (Avatar.die a)
  | AddScore s => Ok (Avatar.add_score a s)
  | ResolveScore => Ok (Avatar.resolve_score a)
  | SetScore s => Ok (Avatar.set_score a s)
  | SetRoundScore s => Ok (Avatar.set_round_score a s)
  | StackAdd b => BonusStack.add a b
  | StackRemove b => BonusStack.remove a b
  | Clear => Ok (Avatar.clear a)
  | Destroy => Ok (Avatar.destroy a)
  end.

(** [clear()] and [destroy()], which assign the fields directly. *)
Definition resets (m : mutation) : bool :=
  match m with
  | Clear | Destroy => true
  | _ => false
  end.

(** The velocity components are those of the velocity along the angle. *)
Definition kinematic {M : MathLib} (a : Avatar.t) : Prop :=
  (Avatar.velocity_x a == cos (Avatar.angle a) * (Avatar.velocity a / 1000))%Q /\
  (Avatar.velocity_y a == sin (Avatar.angle a) * (Avatar.velocity a / 1000))%Q.

(** What movement reads and writes: angle, velocity and its components. *)
Definition motion (a : Avatar.t) : Q * Q * Q * Q :=
  (Avatar.angle a, Avatar.velocity a, Avatar.velocity_x a, Avatar.velocity_y a).

(** The collision body is where the avatar is and has its radius. *)
Definition body_synced (a : Avatar.t) : Prop :=
  Body.x (Avatar.body a) = Avatar.x a /\
  Body.y (Avatar.body a) = Avatar.y a /\
  Body.radius (Avatar.body a) = Avatar.radius a.

(** Position, radius and collision body. *)
Definition hull (a : Avatar.t) : Q * Q * Q * Body.t :=
  (Avatar.x a, Avatar.y a, Avatar.radius a, Avatar.body a).

(** A sequence of mutations, stopped by the first exception. *)
Definition mutate_all {M : MathLib} (a : Avatar.t) (ms : list mutation)
  : result Avatar.t :=
  fold_left (fun acc m => a <- acc ;; mutate a m) ms (Ok a).

(** No [clear()] and no [destroy()] in the sequence. *)
Definition no_reset (ms : list mutation) : bool :=
  forallb (fun m => negb (resets m)) ms.

(** ** The winner of a game

    The avatars [Game.is_won] considers, and what it is for one of them to
    lead the others: it occurs in the list, and every other entry has a
    strictly lower score. *)

Definition qualifies (g : Game.t) (a : Avatar.t) : bool :=
  Avatar.present a && (Game.max_score g <=? Avatar.score a).

Definition leads (a : Avatar.t) (l : list Avatar.t) : Prop :=
  exists l1 l2, l = l1 ++ a :: l2 /\
    forall b, In b (l1 ++ l2) -> Avatar.score b < Avatar.score a.

(** The game is over for lack of players: nobody is present, or one
    player at most is left of several. *)
Definition deserted (g : Game.t) : Prop :=
  let present :=
    List.length (filter Avatar.present (Collection.items (Game.avatars g))) in
  present = 0%nat \/ (1 < Collection.count (Game.avatars g) /\ (present <= 1)%nat).

(** The order of [list.sort(key=lambda a: -a.score)]. *)
Definition by_score (a b : Avatar.t) : Prop := Avatar.score b <= Avatar.score a.

(** ** Bonuses that add up

    The total of the effects named [property] that a list of bonuses
    carries, added in list order to the value [start]. *)
Definition effect_total (property : string) (start : Q) (l : list Bonus.t) : Q :=
  fold_left
    (fun total effect =>
       if String.eqb (fst effect) property
       then match Value.as_float (snd effect) with
            | Some q => (total + q)%Q
            | None => total
            end
       else total)
    (flat_map BonusStack.get_effects l) start.

(** The bonus classes that change the velocity. *)
Definition velocity_bonus (b : Bonus.t) : bool :=
  match Bonus.type b with
  | Bonus.SelfSlow | Bonus.SelfFast | Bonus.EnemySlow | Bonus.EnemyFast => true
  | _ => false
  end.

(** An [EnemySlow] bonus and [EnemyInverse] bonuses, as the bonus manager
    hands them out. *)
Definition slow_bonus : Bonus.t := Bonus.set_id (Bonus.new Bonus.EnemySlow 40 40) 3.
Definition inverse_bonus (id : Z) : Bonus.t :=
  Bonus.set_id (Bonus.new Bonus.EnemyInverse 50 50) id.

(** An [EnemyBig] bonus with the id of [fast_bonus]. *)
Definition big_bonus : Bonus.t := Bonus.set_id (Bonus.new Bonus.EnemyBig 30 30) 1.

(** ** managers/bonus_manager.py: the choice of a bonus class *)

Module BonusTypes.

(** What [get_random_bonus_type] ends with: a class, [None], or the
    [IndexError] of [bonuses[i]]. *)
Inductive outcome : Type :=
| Chosen (bonus_type : Bonus.kind)
| Nothing
| IndexError.

(** [bonus_type(0, 0).get_probability(self.game)]: the class attribute
    [probability] (1.0 in [BaseBonus], 0.1 in [BonusSelfMaster], 0.3 in
    [BonusAllColor]), except for [BonusGameClear], which reads the game. *)
Definition get_probability (g : Game.t) (bonus_type : Bonus.kind) : Q :=
  match bonus_type with
  | Bonus.GameClear =>
      BonusGameClear.get_probability
        (Z.of_nat (List.length (Game.positions g Avatar.alive)))
        (Z.of_nat (List.length (Game.positions g Avatar.present)))
  | Bonus.SelfMaster => 1 # 10
  | Bonus.AllColor _ => 3 # 10
  | _ => 1
  end.

(** The first loop: [pot] receives the running total of the positive
    probabilities, [bonuses] the classes that have one;
    [last pot 0] is [pot[-1] if pot else 0]. *)
Fixpoint fill (g : Game.t) (bonus_types : list Bonus.kind) (pot : list Q)
    (bonuses : list Bonus.kind) : list Q * list Bonus.kind :=
  match bonus_types with
  | [] => (pot, bonuses)
  | bonus_type :: rest =>
      let probability := get_probability g bonus_type in
      if Island.Qltb 0 probability
      then fill g rest (pot ++ [(probability + last pot 0%Q)%Q]) (bonuses ++ [bonus_type])
      else fill g rest pot bonuses
  end.

(** The second loop, [for i, cumulative in enumerate(pot)], from the
    index [i] on. *)
Fixpoint scan (value : Q) (pot : list Q) (i : nat) (bonuses : list Bonus.kind)
  : outcome :=
  match pot with
  | [] => Nothing
  | cumulative :: rest =>
      if Island.Qltb value cumulative
      then match nth_error bonuses i with
           | Some bonus_type => Chosen bonus_type
           | None => IndexError
           end
      else scan value rest (S i) bonuses
  end.

(** [BonusManager.get_random_bonus_type]; [u] is the number that
    [random.random()] returns. *)
Definition get_random_bonus_type (g : Game.t) (bonus_types : list Bonus.kind) (u : Q)
  : outcome :=
  match bonus_types with
  | [] => Nothing
  | _ =>
      let '(pot, bonuses) := fill g bonus_types [] [] in
      match pot with
      | [] => Nothing
      | _ => scan (u * last pot 0%Q)%Q pot 0 bonuses
      end
  end.

End BonusTypes.

(** The classes of a list that have a positive probability, the total of
    their probabilities, and the running totals from [start] on. *)
Definition positive (g : Game.t) (l : list Bonus.kind) : list Bonus.kind :=
  filter (fun t => Island.Qltb 0 (BonusTypes.get_probability g t)) l.

Definition total (g : Game.t) (l : list Bonus.kind) : Q :=
  fold_right (fun t sum => (BonusTypes.get_probability g t + sum)%Q) 0%Q l.


Fixpoint running_totals (g : Game.t) (start : Q) (l : list Bonus.kind) : list Q :=
  match l with
  | [] => []
  | t :: rest =>
      (BonusTypes.get_probability g t + start)%Q
      :: running_totals g (BonusTypes.get_probability g t + start)%Q rest
  end.

(** All twelve classes, in the order of the room configuration. *)
Definition all_bonus_types : list Bonus.kind :=
  [Bonus.SelfSmall; Bonus.SelfSlow; Bonus.SelfFast; Bonus.SelfMaster;
   Bonus.EnemySlow; Bonus.EnemyFast; Bonus.EnemyBig; Bonus.EnemyInverse;
   Bonus.EnemyStraightAngle; Bonus.GameBorderless; Bonus.AllColor "#808080";
   Bonus.GameClear].

(** ** The speed of an avatar

    The length of the velocity vector, in the unit of [velocity]:
    [sqrt(velocity_x^2 + velocity_y^2) * 1000]. *)





(** * Part II: properties *)

(** ** Numeric primitives *)

Lemma Py_int_nonneg (x : Q) : (0 <= x)%Q -> Py.int x = Qfloor x.
Proof.
  destruct x as [n d]; unfold Py.int, Qfloor, Qle; simpl; intros H.
  apply Z.quot_div_nonneg; lia.
Qed.

Lemma Py_int_nonpos (x : Q) : (x <= 0)%Q -> Py.int x = Qceiling x.
Proof.
  destruct x as [n d]; unfold Py.int, Qceiling, Qfloor, Qle; simpl; intros H.
  rewrite <- (Z.opp_involutive n) at 1.
  rewrite Z.quot_opp_l by lia.
  f_equal. apply Z.quot_div_nonneg; lia.
Qed.

#[local] Instance Py_round_comp : Proper (Qeq ==> eq) Py.round.
Proof.
  intros x y Hxy. unfold Py.round.
  rewrite (Qfloor_comp x y Hxy).
  assert (E : ((x - inject_Z (Qfloor y)) ?= (1 # 2))%Q
            = ((y - inject_Z (Qfloor y)) ?= (1 # 2))%Q).
  { apply Qcompare_comp; [rewrite Hxy|]; reflexivity. }
  rewrite E. reflexivity.
Qed.

Lemma Py_round_nonneg (x : Q) : (0 <= x)%Q -> 0 <= Py.round x.
Proof.
  intros H. unfold Py.round.
  assert (0 <= Qfloor x).
  { rewrite <- (Qfloor_Z 0). apply Qfloor_resp_le. exact H. }
  destruct (_ ?= _)%Q; [destruct (Z.even _)| |]; lia.
Qed.

(** ** Collections *)

Lemma option_Z_eqb_eq (a b : option Z) : Body.option_Z_eqb a b = true <-> a = b.
Proof.
  destruct a as [a|], b as [b|]; simpl; try (split; (discriminate || reflexivity)).
  rewrite Z.eqb_eq. split; [intros ->; reflexivity | intros H; injection H; auto].
Qed.

Lemma pair_eqb_eq (a b : Z * Z) : Island.pair_eqb a b = true <-> a = b.
Proof.
  destruct a as [a1 a2], b as [b1 b2]. unfold Island.pair_eqb. simpl.
  rewrite andb_true_iff, !Z.eqb_eq.
  split; [intros [-> ->]; reflexivity | intros H; injection H; auto].
Qed.

Section CollectionFacts.
Context {K T : Type} (eqb : K -> K -> bool) (key : T -> K).
Hypothesis eqb_eq : forall a b, eqb a b = true <-> a = b.

Lemma eqb_refl' (a : K) : eqb a a = true.
Proof. apply eqb_eq. reflexivity. Qed.

Lemma eqb_neq (a b : K) : a <> b -> eqb a b = false.
Proof.
  intros H. destruct (eqb a b) eqn:E; [|reflexivity].
  apply eqb_eq in E. contradiction.
Qed.

Lemma index_exists_In (c : Collection.t K T) (k : K) :
  Collection.index_exists eqb c k = true <-> In k (Collection.ids c).
Proof.
  unfold Collection.index_exists. rewrite existsb_exists. split.
  - intros (x & Hx & E). apply eqb_eq in E. subst. exact Hx.
  - intros H. exists k. split; [exact H | apply eqb_refl'].
Qed.

Lemma index_Some_nth (k : K) (l : list K) (i : nat) :
  Collection.index eqb k l = Some i -> nth_error l i = Some k.
Proof.
  revert i. induction l as [|a l IH]; simpl; intros i H; [discriminate|].
  destruct (eqb a k) eqn:E.
  - apply eqb_eq in E. injection H as <-. subst. reflexivity.
  - destruct (Collection.index eqb k l) as [j|]; [|discriminate].
    injection H as <-. simpl. apply IH. reflexivity.
Qed.

Lemma index_In (k : K) (l : list K) :
  In k l -> exists i, Collection.index eqb k l = Some i.
Proof.
  induction l as [|a l IH]; simpl; intros H; [contradiction|].
  destruct (eqb a k) eqn:E; [eexists; reflexivity|].
  destruct H as [-> | H]; [rewrite eqb_refl' in E; discriminate|].
  destruct (IH H) as [i ->]. eexists. reflexivity.
Qed.

Lemma index_not_In (k : K) (l : list K) :
  ~ In k l -> Collection.index eqb k l = None.
Proof.
  intros H. destruct (Collection.index eqb k l) as [i|] eqn:E; [|reflexivity].
  exfalso. apply H. apply index_Some_nth in E. eapply nth_error_In. exact E.
Qed.

Lemma In_delete {A : Type} (i : nat) (l : list A) (x : A) :
  In x (Collection.delete i l) -> In x l.
Proof.
  revert i. induction l as [|a l IH]; intros i; destruct i; simpl; auto.
  intros [H | H]; [auto | right; eauto].
Qed.

Lemma delete_map {A B : Type} (f : A -> B) (i : nat) (l : list A) :
  map f (Collection.delete i l) = Collection.delete i (map f l).
Proof.
  revert i. induction l as [|a l IH]; intros i; destruct i; simpl;
    try reflexivity.
  rewrite IH. reflexivity.
Qed.

Lemma NoDup_delete {A : Type} (i : nat) (l : list A) :
  NoDup l -> NoDup (Collection.delete i l).
Proof.
  intros H. revert i. induction H as [|a l Hn Hd IH]; intros i; destruct i;
    simpl; try constructor; auto.
  intros Hin. apply Hn. eapply In_delete. exact Hin.
Qed.

Lemma delete_nth_notin {A : Type} (i : nat) (l : list A) (x : A) :
  NoDup l -> nth_error l i = Some x -> ~ In x (Collection.delete i l).
Proof.
  intros H. revert i. induction H as [|a l Hn Hd IH]; intros i; destruct i;
    simpl; try discriminate.
  - intros E. injection E as ->. exact Hn.
  - intros E [-> | Hin].
    + apply Hn. eapply nth_error_In. exact E.
    + eapply IH; eassumption.
Qed.

Lemma In_delete_other {A : Type} (i : nat) (l : list A) (x y : A) :
  nth_error l i = Some y -> In x l -> x <> y -> In x (Collection.delete i l).
Proof.
  revert i. induction l as [|a l IH]; intros i; destruct i; simpl;
    try (intros E; discriminate E).
  - intros E. injection E as ->. intros [-> | H] Hne; [contradiction | exact H].
  - intros E [-> | H] Hne; [left; reflexivity | right; eauto].
Qed.

(** Items and keys of a coherent collection after a deletion. *)
Lemma delete_items_key (items : list T) (i : nat) (k : K) (e : T) :
  NoDup (map key items) -> nth_error (map key items) i = Some k ->
  In e (Collection.delete i items) -> key e <> k.
Proof.
  intros Hnd Hi He Hk. apply (delete_nth_notin i (map key items) k Hnd Hi).
  rewrite <- delete_map. rewrite <- Hk. apply in_map. exact He.
Qed.

Lemma delete_items_other (items : list T) (i : nat) (k : K) (e : T) :
  nth_error (map key items) i = Some k ->
  In e items -> key e <> k -> In e (Collection.delete i items).
Proof.
  revert i. induction items as [|a l IH]; intros i; destruct i; simpl;
    try (intros E; discriminate E).
  - intros E. injection E as <-. intros [-> | H] Hne; [contradiction | exact H].
  - intros E [-> | H] Hne; [left; reflexivity | right; eauto].
Qed.

Lemma coherent_empty : coherent key (@Collection.empty K T).
Proof. split; [reflexivity | constructor]. Qed.

Lemma coherent_add (c c' : Collection.t K T) (e : T) (b : bool) :
  coherent key c -> Collection.add eqb key c e = (c', b) ->
  coherent key c' /\
  (b = true -> Collection.items c' = Collection.items c ++ [e] /\
               ~ In (key e) (Collection.ids c)) /\
  (b = false -> c' = c /\ In (key e) (Collection.ids c)).
Proof.
  intros [Hc Hnd]. unfold Collection.add, Collection.exists_.
  destruct (Collection.index_exists eqb c (key e)) eqn:E; intros H;
    injection H as <- <-.
  - apply index_exists_In in E.
    split; [split; assumption|]. split; [discriminate | auto].
  - assert (Hn : ~ In (key e) (Collection.ids c)).
    { intros Hin. apply index_exists_In in Hin. congruence. }
    split; [|split; [auto | discriminate]].
    split; simpl.
    + rewrite map_app, Hc. reflexivity.
    + apply NoDup_app.
      * exact Hnd.
      * constructor; [intros [] | constructor].
      * intros x Hx [<- | []]. contradiction.
Qed.

Lemma coherent_remove_by_id (c c' : Collection.t K T) (k : K) (b : bool) :
  coherent key c -> Collection.remove_by_id eqb c k = (c', b) ->
  coherent key c' /\
  (b = true ->
   In k (Collection.ids c) /\ ~ In k (Collection.ids c') /\
   (forall e, In e (Collection.items c') <->
              In e (Collection.items c) /\ key e <> k)) /\
  (b = false -> c' = c /\ ~ In k (Collection.ids c)).
Proof.
  intros [Hc Hnd]. unfold Collection.remove_by_id.
  destruct (Collection.index eqb k (Collection.ids c)) as [i|] eqn:E; intros H;
    injection H as <- <-.
  - apply index_Some_nth in E.
    split; [|split; [intros _ | discriminate]].
    + split; cbn [Collection.delete_index Collection.ids Collection.items].
      * rewrite delete_map, Hc. reflexivity.
      * apply NoDup_delete. exact Hnd.
    + cbn [Collection.delete_index Collection.ids Collection.items].
      split; [eapply nth_error_In; exact E|].
      split; [apply delete_nth_notin; assumption|].
      intros e. rewrite Hc in E, Hnd. split.
      * intros He. split; [eapply In_delete; exact He|].
        eapply delete_items_key; eassumption.
      * intros [He Hne]. eapply delete_items_other; eassumption.
  - split; [split; assumption|]. split; [discriminate|]. intros _.
    split; [reflexivity|]. intros Hin. apply index_In in Hin.
    destruct Hin as [i Hi]. congruence.
Qed.

Lemma get_by_id_In (c : Collection.t K T) (k : K) (e : T) :
  coherent key c -> Collection.get_by_id eqb c k = Some e ->
  In e (Collection.items c) /\ key e = k.
Proof.
  intros [Hc Hnd]. unfold Collection.get_by_id.
  destruct (Collection.index eqb k (Collection.ids c)) as [i|] eqn:E;
    [|discriminate].
  intros He. split; [eapply nth_error_In; exact He|].
  apply index_Some_nth in E. rewrite Hc in E.
  rewrite nth_error_map, He in E. simpl in E. injection E. auto.
Qed.

Lemma get_by_id_None (c : Collection.t K T) (k : K) :
  coherent key c -> Collection.get_by_id eqb c k = None ->
  ~ In k (Collection.ids c).
Proof.
  intros [Hc Hnd]. unfold Collection.get_by_id. intros H Hin.
  apply index_In in Hin. destruct Hin as [i Hi]. rewrite Hi in H.
  apply index_Some_nth in Hi. rewrite Hc in Hi.
  rewrite nth_error_map, H in Hi. discriminate.
Qed.

Lemma get_by_id_Some (c : Collection.t K T) (k : K) :
  coherent key c -> In k (Collection.ids c) ->
  exists e, Collection.get_by_id eqb c k = Some e.
Proof.
  intros Hc Hin. destruct (Collection.get_by_id eqb c k) as [e|] eqn:E;
    [eexists; reflexivity|].
  exfalso. eapply get_by_id_None; eassumption.
Qed.

End CollectionFacts.

(** ** Binary64 rounding *)

Lemma pow2_pos (e : Z) : (0 < B64.pow2 e)%Q.
Proof. apply Qpower_0_lt. reflexivity. Qed.

Lemma pow2_plus (a b : Z) : (B64.pow2 (a + b) == B64.pow2 a * B64.pow2 b)%Q.
Proof. apply Qpower_plus. discriminate. Qed.

Lemma pow2_le (a b : Z) : a <= b -> (B64.pow2 a <= B64.pow2 b)%Q.
Proof. intros H. apply Qpower_le_compat_l; [exact H | discriminate]. Qed.

Lemma pow2_lt (a b : Z) : a < b -> (B64.pow2 a < B64.pow2 b)%Q.
Proof. intros H. apply Qpower_lt_compat_l; [exact H | reflexivity]. Qed.

Lemma pow2_lt_inv (a b : Z) : (B64.pow2 a < B64.pow2 b)%Q -> a < b.
Proof. intros H. apply (Qpower_lt_compat_l_inv 2); [exact H | reflexivity]. Qed.

Lemma pow2_Z (k : Z) : 0 <= k -> (B64.pow2 k == inject_Z (2 ^ k))%Q.
Proof. intros H. symmetry. apply (Zpower_Qpower 2 k H). Qed.

Lemma pow2_succ (e : Z) : (B64.pow2 (e + 1) == 2 * B64.pow2 e)%Q.
Proof. rewrite pow2_plus. change (B64.pow2 1) with 2%Q. ring. Qed.

Lemma Qabs_num_den (x : Q) :
  (Qabs x * inject_Z (Z.pos (Qden x)) == inject_Z (Z.abs (Qnum x)))%Q.
Proof.
  destruct x as [n d]. unfold Qabs, Qeq, inject_Z, Qmult. cbn [Qnum Qden].
  rewrite Pos.mul_1_r. lia.
Qed.

(** [ilog2] brackets the magnitude. *)
Lemma ilog2_spec (x : Q) :
  ~ (x == 0)%Q ->
  (B64.pow2 (B64.ilog2 x) <= Qabs x)%Q /\ (Qabs x < B64.pow2 (B64.ilog2 x + 1))%Q.
Proof.
  intros Hx.
  pose proof (Qabs_num_den x) as HX.
  set (X := Qabs x) in *. set (n := Z.abs (Qnum x)) in *.
  set (d := Z.pos (Qden x)) in *.
  assert (Hn : 0 < n).
  { unfold n. destruct x as [[|p|p] q]; cbn; try lia. exfalso. apply Hx. reflexivity. }
  assert (Hd : 0 < d) by (unfold d; lia).
  destruct (Z.log2_spec n Hn) as [Hn1 Hn2]. destruct (Z.log2_spec d Hd) as [Hd1 Hd2].
  pose proof (Z.log2_nonneg n) as Ha. pose proof (Z.log2_nonneg d) as Hb.
  set (a := Z.log2 n) in *. set (b := Z.log2 d) in *.
  assert (HD : (0 < inject_Z d)%Q).
  { change 0%Q with (inject_Z 0). rewrite <- Zlt_Qlt. exact Hd. }
  rewrite Zle_Qle, <- pow2_Z in Hn1, Hd1 by lia.
  rewrite Zlt_Qlt, <- pow2_Z in Hn2, Hd2 by lia.
  assert (Hup : (X < B64.pow2 (a - b + 1))%Q).
  { apply (Qmult_lt_r _ _ (inject_Z d) HD). rewrite HX.
    eapply Qlt_le_trans; [exact Hn2|].
    replace (Z.succ a) with ((a - b + 1) + b) by lia. rewrite pow2_plus.
    apply Qmult_le_l; [apply pow2_pos | exact Hd1]. }
  assert (Hlo : (B64.pow2 (a - b - 1) < X)%Q).
  { apply (Qmult_lt_r _ _ (inject_Z d) HD). rewrite HX.
    eapply Qlt_le_trans; [|exact Hn1].
    replace a with ((a - b - 1) + Z.succ b) at 2 by lia. rewrite pow2_plus.
    apply Qmult_lt_l; [apply pow2_pos | exact Hd2]. }
  unfold B64.ilog2. fold X. fold n. fold d. fold a. fold b.
  destruct (Qle_bool (B64.pow2 (a - b)) X) eqn:E.
  - apply Qle_bool_iff in E. split; [exact E | exact Hup].
  - split; [apply Qlt_le_weak; exact Hlo|].
    replace (a - b - 1 + 1) with (a - b) by lia.
    apply Qnot_le_lt. intros H. apply Qle_bool_iff in H. congruence.
Qed.

Lemma ilog2_unique (x : Q) (k : Z) :
  (B64.pow2 k <= Qabs x)%Q -> (Qabs x < B64.pow2 (k + 1))%Q -> B64.ilog2 x = k.
Proof.
  intros H1 H2.
  assert (Hx : ~ (x == 0)%Q).
  { intros E. rewrite E in H1. pose proof (pow2_pos k). cbn in H1. lra. }
  destruct (ilog2_spec x Hx) as [H3 H4].
  assert (A : B64.ilog2 x < k + 1).
  { apply pow2_lt_inv. eapply Qle_lt_trans; eassumption. }
  assert (B : k < B64.ilog2 x + 1).
  { apply pow2_lt_inv. eapply Qle_lt_trans; eassumption. }
  lia.
Qed.

Lemma ilog2_comp (x y : Q) : ~ (x == 0)%Q -> (x == y)%Q -> B64.ilog2 x = B64.ilog2 y.
Proof.
  intros Hx E. symmetry. destruct (ilog2_spec x Hx) as [H1 H2].
  apply ilog2_unique; rewrite <- E; assumption.
Qed.

Lemma ilog2_mono (x y : Q) :
  ~ (x == 0)%Q -> (Qabs x <= Qabs y)%Q -> B64.ilog2 x <= B64.ilog2 y.
Proof.
  intros Hx Hxy.
  destruct (ilog2_spec x Hx) as [H1 _].
  assert (Hy : ~ (y == 0)%Q).
  { intros E. rewrite E in Hxy. change (Qabs 0) with 0%Q in Hxy.
    pose proof (pow2_pos (B64.ilog2 x)). lra. }
  destruct (ilog2_spec y Hy) as [_ H2].
  assert (B64.ilog2 x < B64.ilog2 y + 1); [|lia].
  apply pow2_lt_inv. lra.
Qed.

(** ** [round]: nearest integer, ties to even *)

Lemma Z_of_Q_lt (a b : Z) : (inject_Z a < inject_Z b + 1)%Q -> a <= b.
Proof.
  intros H. change 1%Q with (inject_Z 1) in H. rewrite <- inject_Z_plus in H.
  rewrite <- Zlt_Qlt in H. lia.
Qed.

(** [round(x)] is within one half of [x]; at one half exactly it is
    even. *)
Lemma Py_round_cases (x : Q) :
  let m := inject_Z (Py.round x) in
  (m - (1 # 2) < x /\ x < m + (1 # 2))%Q \/
  (((x == m + (1 # 2))%Q \/ (x == m - (1 # 2))%Q) /\ Z.even (Py.round x) = true).
Proof.
  cbv zeta. unfold Py.round.
  pose proof (Qfloor_le x) as Hlo. pose proof (Qlt_floor x) as Hhi.
  set (f := Qfloor x) in *.
  rewrite inject_Z_plus in Hhi. change (inject_Z 1) with 1%Q in Hhi.
  destruct ((x - inject_Z f ?= 1 # 2)%Q) eqn:C.
  - apply Qeq_alt in C. right. destruct (Z.even f) eqn:Ev.
    + split; [left; lra | exact Ev].
    + split.
      * right. rewrite inject_Z_plus. change (inject_Z 1) with 1%Q. lra.
      * rewrite Z.even_add, Ev. reflexivity.
  - apply Qlt_alt in C. left. split; lra.
  - apply Qgt_alt in C. left. rewrite inject_Z_plus. change (inject_Z 1) with 1%Q.
    split; lra.
Qed.

Lemma Py_round_bounds (x : Q) :
  (inject_Z (Py.round x) - (1 # 2) <= x <= inject_Z (Py.round x) + (1 # 2))%Q.
Proof. destruct (Py_round_cases x) as [[H1 H2]|[[H|H] _]]; lra. Qed.

(** The integer less than one half away from [x] is [round(x)]. *)
Lemma Py_round_near (x : Q) (m : Z) :
  (inject_Z m - (1 # 2) < x)%Q -> (x < inject_Z m + (1 # 2))%Q -> Py.round x = m.
Proof.
  intros H1 H2. unfold Py.round.
  pose proof (Qfloor_le x) as Hlo. pose proof (Qlt_floor x) as Hhi.
  set (f := Qfloor x) in *.
  rewrite inject_Z_plus in Hhi. change (inject_Z 1) with 1%Q in Hhi.
  destruct ((x - inject_Z f ?= 1 # 2)%Q) eqn:C.
  - apply Qeq_alt in C. exfalso.
    assert (m <= f) by (apply Z_of_Q_lt; lra).
    assert (f + 1 <= m).
    { apply Z_of_Q_lt. rewrite inject_Z_plus. change (inject_Z 1) with 1%Q. lra. }
    lia.
  - apply Qlt_alt in C.
    assert (m <= f) by (apply Z_of_Q_lt; lra).
    assert (f <= m) by (apply Z_of_Q_lt; lra).
    lia.
  - apply Qgt_alt in C.
    assert (m <= f + 1).
    { apply Z_of_Q_lt. rewrite inject_Z_plus. change (inject_Z 1) with 1%Q. lra. }
    assert (f + 1 <= m).
    { apply Z_of_Q_lt. rewrite inject_Z_plus. change (inject_Z 1) with 1%Q. lra. }
    lia.
Qed.

(** At one half from two integers, [round(x)] is the even one. *)
Lemma Py_round_tie (x : Q) (m : Z) :
  (x == inject_Z m + (1 # 2))%Q \/ (x == inject_Z m - (1 # 2))%Q ->
  Z.even m = true -> Py.round x = m.
Proof.
  intros H Ev. unfold Py.round. destruct H as [H|H].
  - assert (Ef : Qfloor x = m).
    { rewrite (Qfloor_comp _ _ H).
      pose proof (Qfloor_le (inject_Z m + (1 # 2))) as Hlo.
      pose proof (Qlt_floor (inject_Z m + (1 # 2))) as Hhi.
      set (f := Qfloor _) in *.
      rewrite inject_Z_plus in Hhi. change (inject_Z 1) with 1%Q in Hhi.
      assert (f <= m) by (apply Z_of_Q_lt; lra).
      assert (m <= f) by (apply Z_of_Q_lt; lra). lia. }
    rewrite Ef.
    assert (C : (x - inject_Z m ?= 1 # 2)%Q = Eq) by (apply Qeq_alt; lra).
    rewrite C, Ev. reflexivity.
  - assert (Ef : Qfloor x = m - 1).
    { rewrite (Qfloor_comp _ _ H).
      pose proof (Qfloor_le (inject_Z m - (1 # 2))) as Hlo.
      pose proof (Qlt_floor (inject_Z m - (1 # 2))) as Hhi.
      set (f := Qfloor _) in *.
      rewrite inject_Z_plus in Hhi. change (inject_Z 1) with 1%Q in Hhi.
      assert (f + 1 <= m) by (apply Z_of_Q_lt; rewrite inject_Z_plus;
                               change (inject_Z 1) with 1%Q; lra).
      assert (m <= f + 1) by (apply Z_of_Q_lt; rewrite inject_Z_plus;
                               change (inject_Z 1) with 1%Q; lra). lia. }
    rewrite Ef.
    assert (E1 : (inject_Z (m - 1) == inject_Z m - 1)%Q).
    { unfold Z.sub. rewrite inject_Z_plus. reflexivity. }
    assert (C : (x - inject_Z (m - 1) ?= 1 # 2)%Q = Eq) by (apply Qeq_alt; lra).
    rewrite C.
    assert (Z.even (m - 1) = false).
    { rewrite Z.even_sub, Ev. reflexivity. }
    rewrite H0. lia.
Qed.

Lemma Py_round_Z (n : Z) : Py.round (inject_Z n) = n.
Proof. apply Py_round_near; lra. Qed.

Lemma Py_round_opp (x : Q) : Py.round (- x) = - Py.round x.
Proof.
  assert (E : (inject_Z (- Py.round x) == - inject_Z (Py.round x))%Q)
    by (rewrite inject_Z_opp; reflexivity).
  destruct (Py_round_cases x) as [[H1 H2]|[H Ev]].
  - apply Py_round_near; lra.
  - apply Py_round_tie.
    + destruct H as [H|H]; [right | left]; lra.
    + rewrite Z.even_opp. exact Ev.
Qed.

Lemma Py_round_mono (x y : Q) : (x <= y)%Q -> Py.round x <= Py.round y.
Proof.
  intros Hxy.
  destruct (Z_le_gt_dec (Py.round x) (Py.round y)) as [H|H]; [exact H|].
  exfalso.
  pose proof (Py_round_bounds x) as [Hx _]. pose proof (Py_round_bounds y) as [_ Hy].
  assert (H1 : Py.round y + 1 <= Py.round x) by lia.
  rewrite Zle_Qle, inject_Z_plus in H1. change (inject_Z 1) with 1%Q in H1.
  assert (E : (x == y)%Q) by lra.
  rewrite (Py_round_comp _ _ E) in H. lia.
Qed.

#[local] Instance rnd_comp : Proper (Qeq ==> eq) B64.rnd.
Proof.
  intros x y E. unfold B64.rnd.
  destruct (Qeq_bool x 0) eqn:Ex.
  - apply Qeq_bool_iff in Ex.
    assert (H : Qeq_bool y 0 = true) by (apply Qeq_bool_iff; rewrite <- E; exact Ex).
    rewrite H. reflexivity.
  - assert (Hx : ~ (x == 0)%Q) by (apply Qeq_bool_neq; exact Ex).
    assert (H : Qeq_bool y 0 = false).
    { destruct (Qeq_bool y 0) eqn:Ey; [|reflexivity].
      apply Qeq_bool_iff in Ey. exfalso. apply Hx. rewrite E. exact Ey. }
    rewrite H. unfold B64.ulp_exp. rewrite (ilog2_comp x y Hx E).
    set (p := B64.pow2 _).
    assert (E2 : (x / p == y / p)%Q) by (rewrite E; reflexivity).
    rewrite (Py_round_comp _ _ E2). reflexivity.
Qed.

Lemma rnd_nonzero (x : Q) :
  ~ (x == 0)%Q ->
  B64.rnd x
  = (inject_Z (Py.round (x / B64.pow2 (B64.ulp_exp x))) * B64.pow2 (B64.ulp_exp x))%Q.
Proof.
  intros Hx. unfold B64.rnd. destruct (Qeq_bool x 0) eqn:E; [|reflexivity].
  apply Qeq_bool_iff in E. contradiction.
Qed.

Lemma div_mul_pow2 (x : Q) (e : Z) : (x / B64.pow2 e * B64.pow2 e == x)%Q.
Proof. field. pose proof (pow2_pos e). lra. Qed.

(** The result is within half a unit in the last place. *)
Lemma rnd_error_ulp (x : Q) :
  (Qabs (B64.rnd x - x) <= B64.pow2 (B64.ulp_exp x) * (1 # 2))%Q.
Proof.
  pose proof (pow2_pos (B64.ulp_exp x)) as Hp.
  destruct (Qeq_dec x 0) as [E|Hx].
  - rewrite (rnd_comp _ _ E). change (B64.rnd 0) with 0%Q.
    apply Qabs_Qle_condition. split; lra.
  - rewrite (rnd_nonzero x Hx).
    set (p := B64.pow2 (B64.ulp_exp x)) in *.
    pose proof (Py_round_bounds (x / p)) as [H1 H2].
    set (r := inject_Z (Py.round (x / p))) in *.
    pose proof (div_mul_pow2 x (B64.ulp_exp x)) as E. fold p in E.
    assert (A : ((r - (1 # 2)) * p <= x / p * p)%Q)
      by (apply Qmult_le_compat_r; lra).
    assert (B : (x / p * p <= (r + (1 # 2)) * p)%Q)
      by (apply Qmult_le_compat_r; lra).
    rewrite E in A, B.
    apply Qabs_Qle_condition. split; lra.
Qed.

(** The relative error is at most [2^-53], the absolute error of a
    subnormal result at most [2^-1075]. *)
Lemma rnd_error (x : Q) :
  (Qabs (B64.rnd x - x) <= Qabs x * B64.pow2 (-53) + B64.pow2 (-1075))%Q.
Proof.
  pose proof (rnd_error_ulp x) as H.
  pose proof (pow2_pos (-53)) as H53. pose proof (pow2_pos (-1075)) as H1075.
  pose proof (Qabs_nonneg x) as Hax.
  destruct (Qeq_dec x 0) as [E|Hx].
  - rewrite (rnd_comp _ _ E). change (B64.rnd 0) with 0%Q.
    assert (0 <= Qabs x * B64.pow2 (-53))%Q by (apply Qmult_le_0_compat; lra).
    apply Qabs_Qle_condition. split; lra.
  - destruct (ilog2_spec x Hx) as [Hl _].
    eapply Qle_trans; [exact H|]. unfold B64.ulp_exp.
    destruct (Z.max_spec (B64.ilog2 x - 52) (-1074)) as [[_ ->]|[_ ->]].
    + assert (E : (B64.pow2 (-1074) * (1 # 2) == B64.pow2 (-1075))%Q) by reflexivity.
      rewrite E.
      assert (0 <= Qabs x * B64.pow2 (-53))%Q by (apply Qmult_le_0_compat; lra).
      lra.
    + assert (E : (B64.pow2 (B64.ilog2 x - 52) * (1 # 2)
                   == B64.pow2 (B64.ilog2 x) * B64.pow2 (-53))%Q).
      { replace (B64.ilog2 x - 52) with (B64.ilog2 x + (-53) + 1) by lia.
        rewrite pow2_succ, pow2_plus. ring. }
      rewrite E.
      assert (B64.pow2 (B64.ilog2 x) * B64.pow2 (-53) <= Qabs x * B64.pow2 (-53))%Q
        by (apply Qmult_le_compat_r; lra).
      lra.
Qed.

Lemma ilog2_opp (x : Q) : B64.ilog2 (- x) = B64.ilog2 x.
Proof.
  unfold B64.ilog2. destruct x as [n d]. unfold Qopp, Qabs. cbn [Qnum Qden].
  rewrite Z.abs_opp. reflexivity.
Qed.

Lemma rnd_opp (x : Q) : (B64.rnd (- x) == - B64.rnd x)%Q.
Proof.
  destruct (Qeq_dec x 0) as [E|Hx].
  - assert (E' : (- x == 0)%Q) by (rewrite E; reflexivity).
    rewrite (rnd_comp _ _ E), (rnd_comp _ _ E'). reflexivity.
  - assert (Hx' : ~ (- x == 0)%Q) by (intros E; apply Hx; lra).
    rewrite (rnd_nonzero x Hx), (rnd_nonzero _ Hx').
    unfold B64.ulp_exp. rewrite ilog2_opp.
    set (p := B64.pow2 _).
    assert (E : (- x / p == - (x / p))%Q).
    { field. pose proof (pow2_pos (Z.max (B64.ilog2 x - 52) (-1074))). fold p in H. lra. }
    rewrite (Py_round_comp _ _ E), Py_round_opp, inject_Z_opp. ring.
Qed.

Lemma rnd_nonneg (x : Q) : (0 <= x)%Q -> (0 <= B64.rnd x)%Q.
Proof.
  intros H. destruct (Qeq_dec x 0) as [E|Hx].
  - rewrite (rnd_comp _ _ E). discriminate.
  - rewrite (rnd_nonzero x Hx).
    pose proof (pow2_pos (B64.ulp_exp x)) as Hp.
    apply Qmult_le_0_compat; [|lra].
    change 0%Q with (inject_Z 0). rewrite <- Zle_Qle. apply Py_round_nonneg.
    apply Qle_shift_div_l; [exact Hp | lra].
Qed.

(** A power of two at or above the last place bounds the result as it
    bounds the argument. *)
Lemma rnd_le_pow2 (x : Q) (k : Z) :
  ~ (x == 0)%Q -> B64.ulp_exp x <= k -> (x <= B64.pow2 k)%Q ->
  (B64.rnd x <= B64.pow2 k)%Q.
Proof.
  intros Hx Hk H. rewrite (rnd_nonzero x Hx).
  set (e := B64.ulp_exp x) in *. pose proof (pow2_pos e) as Hp.
  assert (E : (B64.pow2 k == inject_Z (2 ^ (k - e)) * B64.pow2 e)%Q).
  { rewrite <- pow2_Z by lia. rewrite <- pow2_plus. replace (k - e + e) with k by lia.
    reflexivity. }
  rewrite E. apply Qmult_le_compat_r; [|lra].
  rewrite <- Zle_Qle. rewrite <- (Py_round_Z (2 ^ (k - e))). apply Py_round_mono.
  apply Qle_shift_div_r; [exact Hp|]. rewrite <- E. exact H.
Qed.

Lemma rnd_ge_pow2 (x : Q) (k : Z) :
  ~ (x == 0)%Q -> B64.ulp_exp x <= k -> (B64.pow2 k <= x)%Q ->
  (B64.pow2 k <= B64.rnd x)%Q.
Proof.
  intros Hx Hk H. rewrite (rnd_nonzero x Hx).
  set (e := B64.ulp_exp x) in *. pose proof (pow2_pos e) as Hp.
  assert (E : (B64.pow2 k == inject_Z (2 ^ (k - e)) * B64.pow2 e)%Q).
  { rewrite <- pow2_Z by lia. rewrite <- pow2_plus. replace (k - e + e) with k by lia.
    reflexivity. }
  rewrite E. apply Qmult_le_compat_r; [|lra].
  rewrite <- Zle_Qle. rewrite <- (Py_round_Z (2 ^ (k - e))) at 1. apply Py_round_mono.
  apply Qle_shift_div_l; [exact Hp|]. rewrite <- E. exact H.
Qed.

Lemma rnd_mono_pos (x y : Q) : (0 < x)%Q -> (x <= y)%Q -> (B64.rnd x <= B64.rnd y)%Q.
Proof.
  intros Hx Hxy.
  assert (Hx0 : ~ (x == 0)%Q) by lra. assert (Hy0 : ~ (y == 0)%Q) by lra.
  assert (Hax : (Qabs x == x)%Q) by (apply Qabs_pos; lra).
  assert (Hay : (Qabs y == y)%Q) by (apply Qabs_pos; lra).
  assert (Hl : B64.ilog2 x <= B64.ilog2 y)
    by (apply ilog2_mono; [exact Hx0 | rewrite Hax, Hay; exact Hxy]).
  destruct (Z.eq_dec (B64.ulp_exp x) (B64.ulp_exp y)) as [Ee|Ne].
  - rewrite (rnd_nonzero x Hx0), (rnd_nonzero y Hy0), Ee.
    pose proof (pow2_pos (B64.ulp_exp y)) as Hp.
    apply Qmult_le_compat_r; [|lra].
    rewrite <- Zle_Qle. apply Py_round_mono.
    apply Qmult_le_compat_r; [exact Hxy|].
    apply Qlt_le_weak, Qinv_lt_0_compat, Hp.
  - destruct (ilog2_spec x Hx0) as [_ Hxu]. destruct (ilog2_spec y Hy0) as [Hyl _].
    rewrite Hax in Hxu. rewrite Hay in Hyl.
    assert (Hlt : B64.ulp_exp x < B64.ulp_exp y).
    { unfold B64.ulp_exp in *. lia. }
    assert (Hey : B64.ulp_exp y = B64.ilog2 y - 52).
    { unfold B64.ulp_exp in *. lia. }
    assert (Hlx : B64.ilog2 x + 1 <= B64.ilog2 y).
    { unfold B64.ulp_exp in *. lia. }
    apply (Qle_trans _ (B64.pow2 (B64.ilog2 y))).
    + apply rnd_le_pow2; [exact Hx0 | lia |].
      pose proof (pow2_le _ _ Hlx). lra.
    + apply rnd_ge_pow2; [exact Hy0 | lia | exact Hyl].
Qed.

(** Rounding keeps the order. *)
Lemma rnd_mono (x y : Q) : (x <= y)%Q -> (B64.rnd x <= B64.rnd y)%Q.
Proof.
  intros Hxy.
  destruct (Qlt_le_dec 0 x) as [Hx|Hx]; [apply rnd_mono_pos; assumption|].
  destruct (Qlt_le_dec y 0) as [Hy|Hy].
  - assert (H : (B64.rnd (- y) <= B64.rnd (- x))%Q)
      by (apply rnd_mono_pos; lra).
    rewrite !rnd_opp in H. lra.
  - assert (H1 : (0 <= B64.rnd y)%Q) by (apply rnd_nonneg; exact Hy).
    assert (H2 : (0 <= B64.rnd (- x))%Q) by (apply rnd_nonneg; lra).
    rewrite rnd_opp in H2. lra.
Qed.

(** The error bound with its constants written out: [2^-53], and [2^-100]
    in place of [2^-1075]. *)
Lemma rnd_between (x : Q) :
  (0 <= x ->
   x - x * (1 # 9007199254740992) - (1 # 1267650600228229401496703205376) <= B64.rnd x /\
   B64.rnd x <= x + x * (1 # 9007199254740992) + (1 # 1267650600228229401496703205376))%Q.
Proof.
  intros Hx. pose proof (rnd_error x) as H.
  rewrite (Qabs_pos x Hx) in H.
  assert (E53 : B64.pow2 (-53) = 1 # 9007199254740992) by reflexivity.
  assert (E100 : (B64.pow2 (-1075) <= 1 # 1267650600228229401496703205376)%Q).
  { assert (E : B64.pow2 (-100) = 1 # 1267650600228229401496703205376) by reflexivity.
    rewrite <- E. apply pow2_le. lia. }
  rewrite E53 in H. apply Qabs_Qle_condition in H. split; lra.
Qed.

Lemma rnd_half : (B64.rnd (1 # 2) == 1 # 2)%Q.
Proof. vm_compute. reflexivity. Qed.

Lemma rnd_one : (B64.rnd 1 == 1)%Q.
Proof. vm_compute. reflexivity. Qed.

(** ** BonusGameClear *)

Section ClearProbability.
Variables alive_count present_count : Z.
Hypothesis alive_nonneg : 0 <= alive_count.
Hypothesis present_pos : 0 < present_count.
Hypothesis present_bound : present_count <= 2 ^ 40.

Let s : Q := (inject_Z alive_count / inject_Z present_count)%Q.

Lemma present_Q : (0 < inject_Z present_count <= 1099511627776)%Q.
Proof.
  split.
  - change 0%Q with (inject_Z 0). rewrite <- Zlt_Qlt. exact present_pos.
  - change 1099511627776%Q with (inject_Z (2 ^ 40)). rewrite <- Zle_Qle.
    exact present_bound.
Qed.

Lemma s_times_present : (s * inject_Z present_count == inject_Z alive_count)%Q.
Proof. unfold s. field. pose proof present_Q. lra. Qed.

Lemma s_nonneg : (0 <= s)%Q.
Proof.
  unfold s. apply Qle_shift_div_l; [apply present_Q|].
  rewrite Qmult_0_l. change 0%Q with (inject_Z 0). rewrite <- Zle_Qle.
  exact alive_nonneg.
Qed.

(** An integer multiple of [1 / (2 present_count)]: below a bound, it is
    below it by [2^-41] at least. *)
Lemma gap (n : Z) (x : Q) :
  (x * (2 * inject_Z present_count) == inject_Z n)%Q ->
  (0 < x -> (1 # 2199023255552) <= x)%Q.
Proof.
  intros E Hx. pose proof present_Q as [HP HB].
  assert (Hn : 0 < n).
  { rewrite Zlt_Qlt. change (inject_Z 0) with 0%Q. rewrite <- E.
    apply Qmult_lt_0_compat; lra. }
  assert (Hn1 : (1 <= inject_Z n)%Q).
  { change 1%Q with (inject_Z 1). rewrite <- Zle_Qle. lia. }
  rewrite <- E in Hn1.
  assert (H : (x * (2 * inject_Z present_count) <= x * 2199023255552)%Q).
  { apply Qmult_le_l; [exact Hx | lra]. }
  lra.
Qed.


Lemma present_nonzero : (present_count =? 0) = false.
Proof. apply Z.eqb_neq. lia. Qed.

(** More than half of the present avatars alive: the base probability. *)
Lemma get_probability_base :
  (1 - s < 1 # 2)%Q ->
  BonusGameClear.get_probability alive_count present_count = 1%Q.
Proof.
  intros Hs. unfold BonusGameClear.get_probability. rewrite present_nonzero.
  cbv zeta. unfold B64.sub, B64.div_int. fold s.
  pose proof s_times_present as HsP. pose proof present_Q as [HP HB].
  assert (Hgap : (1 # 2199023255552 <= s - (1 # 2))%Q).
  { apply (gap (2 * alive_count - present_count)); [|lra].
    unfold Z.sub. rewrite inject_Z_plus, inject_Z_mult, inject_Z_opp.
    change (inject_Z 2) with 2%Q. rewrite <- HsP. ring. }
  assert (Hs0 : (0 <= s)%Q) by lra.
  pose proof (rnd_between s Hs0) as [Hq _].
  set (q := B64.rnd s) in *.
  destruct (Qlt_le_dec (B64.rnd (1 - q)) (1 # 2)) as [_|H]; [reflexivity|].
  exfalso. destruct (Qlt_le_dec (1 - q) 0) as [Hneg|Hpos].
  - assert (H0 : (B64.rnd (1 - q) <= B64.rnd 0)%Q) by (apply rnd_mono; lra).
    change (B64.rnd 0) with 0%Q in H0. lra.
  - pose proof (rnd_between (1 - q) Hpos) as [_ Hr]. lra.
Qed.

(** At most half alive: the code rounds a number within [2^-45] of
    [10 s]. *)
Lemma get_probability_rounds :
  (1 # 2 <= 1 - s)%Q ->
  exists x : Q,
    BonusGameClear.get_probability alive_count present_count
    = B64.div_int (Py.round x) 10 /\
    (s * 10 - (1 # 35184372088832) <= x <= s * 10 + (1 # 35184372088832))%Q.
Proof.
  intros Hs. unfold BonusGameClear.get_probability. rewrite present_nonzero.
  cbv zeta. unfold B64.sub, B64.mul, B64.div_int, BonusGameClear.probability. fold s.
  pose proof s_nonneg as Hs0.
  pose proof (rnd_between s Hs0) as [Hq1 Hq2].
  assert (Hq0 : (0 <= B64.rnd s)%Q) by (apply rnd_nonneg; exact Hs0).
  assert (Hqh : (B64.rnd s <= 1 # 2)%Q).
  { rewrite <- rnd_half. apply rnd_mono. lra. }
  set (q := B64.rnd s) in *.
  assert (Hr0 : (1 # 2 <= B64.rnd (1 - q))%Q).
  { rewrite <- rnd_half at 1. apply rnd_mono. lra. }
  assert (Hr1 : (B64.rnd (1 - q) <= 1)%Q).
  { rewrite <- rnd_one at 2. apply rnd_mono. lra. }
  assert (Hrp : (0 <= 1 - q)%Q) by lra.
  pose proof (rnd_between (1 - q) Hrp) as [Hr2 Hr3].
  set (ratio := B64.rnd (1 - q)) in *.
  destruct (Qlt_le_dec ratio (1 # 2)) as [H|_]; [exfalso; lra|].
  assert (Htp : (0 <= 1 - ratio)%Q) by lra.
  pose proof (rnd_between (1 - ratio) Htp) as [Hd1 Hd2].
  assert (Hd0 : (0 <= B64.rnd (1 - ratio))%Q) by (apply rnd_nonneg; exact Htp).
  set (d := B64.rnd (1 - ratio)) in *.
  assert (Hxp : (0 <= d * 10)%Q) by lra.
  pose proof (rnd_between (d * 10) Hxp) as [Hx1 Hx2].
  exists (B64.rnd (d * 10)). split; [reflexivity|].
  set (x := B64.rnd (d * 10)) in *. split; lra.
Qed.


(** At a tie of [10 s] the result is read off the five ratios there
    are. *)
Lemma get_probability_at (c : Q) :
  (s == c)%Q ->
  BonusGameClear.get_probability alive_count present_count
  = BonusGameClear.get_probability (Qnum c) (Z.pos (Qden c)) /\
  Py.round (s * 10) = Py.round (c * 10).
Proof.
  intros E. split.
  - assert (Ed : B64.div_int alive_count present_count
                 = B64.div_int (Qnum c) (Z.pos (Qden c))).
    { unfold B64.div_int. apply rnd_comp. fold s. rewrite E.
      destruct c as [n d]. unfold Qeq, Qdiv, Qmult, Qinv, inject_Z.
      cbn [Qnum Qden]. destruct n; cbn; lia. }
    unfold BonusGameClear.get_probability. rewrite present_nonzero, Ed.
    replace (Z.pos (Qden c) =? 0) with false by (symmetry; apply Z.eqb_neq; lia).
    reflexivity.
  - apply Py_round_comp. rewrite E. reflexivity.
Qed.


Lemma get_probability_nearest :
  (1 # 2 <= 1 - s)%Q -> ~ (s == 1 # 20)%Q ->
  BonusGameClear.get_probability alive_count present_count
  = B64.div_int (Py.round (s * 10)) 10.
Proof.
  intros Hs Hne.
  destruct (get_probability_rounds Hs) as (x & Ex & Hx1 & Hx2).
  pose proof s_times_present as HsP. pose proof s_nonneg as Hs0.
  destruct (Py_round_cases (s * 10)) as [[H1 H2]|[Ht Ev]].
  - rewrite Ex. f_equal. set (m := Py.round (s * 10)) in *.
    assert (G1 : (1 # 2199023255552 <= s * 10 - (inject_Z m - (1 # 2)))%Q).
    { apply (gap (20 * alive_count - 2 * m * present_count + present_count)); [|lra].
      unfold Z.sub. rewrite !inject_Z_plus, inject_Z_opp, !inject_Z_mult.
      change (inject_Z 2) with 2%Q. change (inject_Z 20) with 20%Q.
      rewrite <- HsP. ring. }
    assert (G2 : (1 # 2199023255552 <= inject_Z m + (1 # 2) - s * 10)%Q).
    { apply (gap (2 * m * present_count + present_count - 20 * alive_count)); [|lra].
      unfold Z.sub. rewrite !inject_Z_plus, inject_Z_opp, !inject_Z_mult.
      change (inject_Z 2) with 2%Q. change (inject_Z 20) with 20%Q.
      rewrite <- HsP. ring. }
    apply Py_round_near; lra.
  - assert (Hm0 : 0 <= Py.round (s * 10)) by (apply Py_round_nonneg; lra).
    assert (Hm5 : Py.round (s * 10) <= 5).
    { apply Z_of_Q_lt. change (inject_Z 5) with 5%Q. destruct Ht as [Ht|Ht]; lra. }
    set (m := Py.round (s * 10)) in *.
    assert (Hm : m = 0 \/ m = 1 \/ m = 2 \/ m = 3 \/ m = 4 \/ m = 5) by lia.
    destruct Hm as [Hm|[Hm|[Hm|[Hm|[Hm|Hm]]]]]; rewrite Hm in Ht, Ev |- *;
      try discriminate Ev; change (inject_Z 0) with 0%Q in Ht;
      change (inject_Z 2) with 2%Q in Ht; change (inject_Z 4) with 4%Q in Ht.
    + exfalso. destruct Ht as [Ht|Ht]; [apply Hne|]; lra.
    + destruct Ht as [Ht|Ht].
      * assert (Es : (s == 1 # 4)%Q) by lra.
        rewrite (proj1 (get_probability_at (1 # 4) Es)). vm_compute. reflexivity.
      * assert (Es : (s == 3 # 20)%Q) by lra.
        rewrite (proj1 (get_probability_at (3 # 20) Es)). vm_compute. reflexivity.
    + destruct Ht as [Ht|Ht].
      * assert (Es : (s == 9 # 20)%Q) by lra.
        rewrite (proj1 (get_probability_at (9 # 20) Es)). vm_compute. reflexivity.
      * assert (Es : (s == 7 # 20)%Q) by lra.
        rewrite (proj1 (get_probability_at (7 # 20) Es)). vm_compute. reflexivity.
Qed.

(** C7, as amended.  With [0 < presentCount <= 2^40] and [s] the exact
    quotient [aliveCount / presentCount]: [get_probability] is the base
    probability 1.0 when [1 - s < 0.5]; otherwise it is [round(10 s) / 10],
    the claimed value, unless [s] is 1/20; at [s = 1/20] the binary64
    value of [(1.0 - (1 - s)) * 10] lies above the tie 0.5, and the result
    is 0.1 where [round(10 s)] is 0. *)
Theorem get_probability_spec :
  ((1 - s < 1 # 2)%Q ->
   BonusGameClear.get_probability alive_count present_count = 1%Q) /\
  ((1 # 2 <= 1 - s)%Q -> ~ (s == 1 # 20)%Q ->
   BonusGameClear.get_probability alive_count present_count
   = B64.div_int (Py.round (s * 10)) 10) /\
  (~ (s == 1 # 20)%Q ->
   (BonusGameClear.get_probability alive_count present_count
    == BonusGameClear.spec_get_probability alive_count present_count)%Q) /\
  ((s == 1 # 20)%Q ->
   BonusGameClear.get_probability alive_count present_count = B64.rnd (1 # 10) /\
   (BonusGameClear.spec_get_probability alive_count present_count == 0)%Q).
Proof.
  split; [exact get_probability_base|]. split; [exact get_probability_nearest|]. split.
  - intros Hne. unfold BonusGameClear.spec_get_probability. cbv zeta. fold s.
    destruct (Qlt_le_dec (1 - s) (1 # 2)) as [H|H].
    + rewrite (get_probability_base H). reflexivity.
    + rewrite (get_probability_nearest H Hne).
      assert (Hv : (0 <= B64.div_int (Py.round (s * 10)) 10)%Q).
      { unfold B64.div_int. apply rnd_nonneg.
        apply Qle_shift_div_l; [reflexivity|]. rewrite Qmult_0_l.
        change 0%Q with (inject_Z 0). rewrite <- Zle_Qle. apply Py_round_nonneg.
        pose proof s_nonneg. lra. }
      unfold Py.max. destruct (Qlt_le_dec 0 _) as [_|H0]; [reflexivity | lra].
  - intros Es. split.
    + rewrite (proj1 (get_probability_at (1 # 20) Es)). vm_compute. reflexivity.
    + unfold BonusGameClear.spec_get_probability. cbv zeta. fold s.
      destruct (Qlt_le_dec (1 - s) (1 # 2)) as [H|H]; [exfalso; lra|].
      assert (Ez : (s * 10 == 1 # 2)%Q) by lra.
      rewrite (Py_round_comp _ _ Ez). vm_compute. reflexivity.
Qed.

End ClearProbability.

Lemma get_probability_spec_witness :
  BonusGameClear.get_probability 1 4 = B64.rnd (2 # 10) /\
  (BonusGameClear.get_probability 1 4
   == BonusGameClear.spec_get_probability 1 4)%Q.
Proof.
  assert (H0 : 0 <= 1) by lia. assert (H1 : 0 < 4) by lia.
  assert (H2 : 4 <= 2 ^ 40) by (vm_compute; discriminate).
  destruct (get_probability_spec 1 4 H0 H1 H2) as (_ & Hn & He & _).
  split.
  - rewrite Hn; [vm_compute; reflexivity | vm_compute; discriminate |].
    intros E. vm_compute in E. discriminate E.
  - apply He. intros E. vm_compute in E. discriminate E.
Defined.

(** C7, counterexample.  With 20 present avatars of which 1 is alive the
    claimed value is [max(0, round(0.5) / 10) = 0]; the code computes
    [round(0.5000000000000004) / 10], the float 0.1.  With counts beyond
    [2^52] the same happens next to the tie: [2^48] alive of
    [20 * 2^48 + 1]. *)
Lemma get_probability_lifts_tie :
  BonusGameClear.get_probability 1 20 = B64.rnd (1 # 10) /\
  (BonusGameClear.spec_get_probability 1 20 == 0)%Q /\
  ~ (BonusGameClear.get_probability 1 20
     == BonusGameClear.spec_get_probability 1 20)%Q /\
  BonusGameClear.get_probability (2 ^ 48) (20 * 2 ^ 48 + 1) = B64.rnd (1 # 10) /\
  (BonusGameClear.spec_get_probability (2 ^ 48) (20 * 2 ^ 48 + 1) == 0)%Q.
Proof.
  split; [vm_compute; reflexivity|]. split; [vm_compute; reflexivity|].
  split; [vm_compute; discriminate|].
  split; vm_compute; reflexivity.
Qed.

Lemma rnd_between_neg (x : Q) :
  (x <= 0 ->
   x + x * (1 # 9007199254740992) - (1 # 1267650600228229401496703205376) <= B64.rnd x /\
   B64.rnd x <= x - x * (1 # 9007199254740992) + (1 # 1267650600228229401496703205376))%Q.
Proof.
  intros Hx. assert (H : (0 <= - x)%Q) by lra.
  pose proof (rnd_between (- x) H) as [H1 H2]. rewrite rnd_opp in H1, H2.
  split; lra.
Qed.

(** ** Compressor *)

Lemma floor_bounds (x : Q) : (x - 1 < inject_Z (Qfloor x) <= x)%Q.
Proof.
  pose proof (Qfloor_le x) as Hlo. pose proof (Qlt_floor x) as Hhi.
  rewrite inject_Z_plus in Hhi. change (inject_Z 1) with 1%Q in Hhi. split; lra.
Qed.

(** C8, as amended.  [compress] truncates [0.5 + 100 x], computed in
    binary64, toward zero; for [-0.005 <= x <= 2^40] decompressing the
    compressed value recovers [x] to within 1/100. *)
Theorem compress_roundtrip (x : Q) :
  (- (1 # 200) <= x)%Q -> (x <= 1099511627776)%Q ->
  Compressor.compress x = Py.int (B64.rnd ((1 # 2) + B64.rnd (x * 100))) /\
  (Qabs (Compressor.decompress (Compressor.compress x) - x) <= 1 # 100)%Q.
Proof.
  intros Hlo Hhi. split; [reflexivity|].
  unfold Compressor.decompress, Compressor.compress, Compressor.precision,
    B64.add, B64.mul, B64.div.
  assert (Ht : (- (1 # 2) <= B64.rnd (x * 100))%Q).
  { assert (E : (B64.rnd (- (1 # 2)) == - (1 # 2))%Q) by (vm_compute; reflexivity).
    rewrite <- E. apply rnd_mono. lra. }
  assert (Htb : (x * 100 - x * (1 # 90071992547409) - (1 # 1000000000000)
                 <= B64.rnd (x * 100)
                 <= x * 100 + x * (1 # 90071992547409) + (1 # 1000000000000))%Q).
  { destruct (Qlt_le_dec x 0) as [Hn|Hp].
    - assert (H : (x * 100 <= 0)%Q) by lra.
      pose proof (rnd_between_neg _ H) as [H1 H2]. split; lra.
    - assert (H : (0 <= x * 100)%Q) by lra.
      pose proof (rnd_between _ H) as [H1 H2]. split; lra. }
  set (t := B64.rnd (x * 100)) in *.
  assert (Hup : (0 <= (1 # 2) + t)%Q) by lra.
  pose proof (rnd_between _ Hup) as [Hu1 Hu2].
  assert (Hu0 : (0 <= B64.rnd ((1 # 2) + t))%Q) by (apply rnd_nonneg; exact Hup).
  set (u := B64.rnd ((1 # 2) + t)) in *.
  rewrite (Py_int_nonneg u Hu0).
  pose proof (floor_bounds u) as [Hn1 Hn2].
  set (n := inject_Z (Qfloor u)) in *.
  assert (Hn0 : (0 <= n)%Q).
  { unfold n. change 0%Q with (inject_Z 0). rewrite <- Zle_Qle.
    rewrite <- (Qfloor_Z 0). apply Qfloor_resp_le. exact Hu0. }
  assert (Hdp : (0 <= n / 100)%Q) by (apply Qle_shift_div_l; [reflexivity | lra]).
  pose proof (rnd_between _ Hdp) as [Hr1 Hr2].
  assert (Ed : (n / 100 == n * (1 # 100))%Q) by field.
  set (d := (n / 100)%Q) in *.
  apply Qabs_Qle_condition. split; lra.
Qed.

Lemma compress_roundtrip_witness :
  Compressor.compress (B64.rnd (1234 # 1000)) = 123 /\
  (Qabs (Compressor.decompress (Compressor.compress (B64.rnd (1234 # 1000)))
         - B64.rnd (1234 # 1000)) <= 1 # 100)%Q.
Proof.
  assert (H1 : (- (1 # 200) <= B64.rnd (1234 # 1000))%Q) by (vm_compute; discriminate).
  assert (H2 : (B64.rnd (1234 # 1000) <= 1099511627776)%Q) by (vm_compute; discriminate).
  split; [vm_compute; reflexivity|].
  exact (proj2 (compress_roundtrip (B64.rnd (1234 # 1000)) H1 H2)).
Defined.

(** C8, counterexample.  At the float 0.003 the code yields [int(0.8) = 0]
    where the claimed [round(0.5 + 100 x)] is [round(0.8) = 1]; at the
    negative angle -0.0149 the code yields [int(-0.99) = 0], which
    decompresses to 0, more than 1/100 away; and at the float
    67889989545171.19, where [100 x] is rounded to a multiple of 1/2, the
    round trip is off by 1/64. *)
Lemma compress_is_not_round :
  Compressor.compress (B64.rnd (3 # 1000))
  <> Compressor.spec_compress (B64.rnd (3 # 1000)) /\
  ~ (Qabs (Compressor.decompress (Compressor.compress (B64.rnd (- (149 # 10000))))
           - B64.rnd (- (149 # 10000))) <= 1 # 100)%Q /\
  (B64.rnd (1086239832722739 # 16) == 1086239832722739 # 16)%Q /\
  ~ (Qabs (Compressor.decompress (Compressor.compress (1086239832722739 # 16))
           - (1086239832722739 # 16)) <= 1 # 100)%Q.
Proof.
  split; [vm_compute; discriminate|].
  split; [vm_compute; intro H; apply H; reflexivity|].
  split; [vm_compute; reflexivity|].
  vm_compute; intro H; apply H; reflexivity.
Qed.

Lemma Qfloor_between (x : Q) (n : Z) :
  (inject_Z n <= x)%Q -> (x < inject_Z n + 1)%Q -> Qfloor x = n.
Proof.
  intros H1 H2. pose proof (floor_bounds x) as [H3 H4].
  assert (Qfloor x <= n) by (apply Z_of_Q_lt; lra).
  assert (n <= Qfloor x) by (apply Z_of_Q_lt; lra).
  lia.
Qed.

Lemma Qceiling_between (x : Q) (n : Z) :
  (inject_Z n - 1 < x)%Q -> (x <= inject_Z n)%Q -> Qceiling x = n.
Proof.
  intros H1 H2. unfold Qceiling.
  assert (E : Qfloor (- x) = - n).
  { apply Qfloor_between; rewrite inject_Z_opp; lra. }
  rewrite E. lia.
Qed.

(** ** Bodies and islands *)

Lemma match_false_iff (self other : Body.t) :
  Body.match_ self other = false <->
  exists sd sn od on,
    Body.cls self = Body.AvatarBody sd sn /\
    Body.cls other = Body.AvatarBody od on /\
    Body.avatar_id sd = Body.avatar_id od /\
    on - sn <= Body.trail_latency sd.
Proof.
  unfold Body.match_, Body.equal. split.
  - destruct (Body.cls self) as [d | sd sn]; [discriminate|].
    destruct (Body.cls other) as [d | od on]; [discriminate|].
    destruct (Z.eqb_spec (Body.avatar_id sd) (Body.avatar_id od)) as [E | _];
      [|discriminate].
    intros H. apply Z.ltb_ge in H. exists sd, sn, od, on. auto.
  - intros (sd & sn & od & on & Hs & Ho & E & Hle).
    rewrite Hs, Ho, E, Z.eqb_refl. apply Z.ltb_ge. exact Hle.
Qed.

Lemma island_get_body_touch (i : Island.t) (body other : Body.t) :
  Island.get_body i body = Some other ->
  In other (Collection.items (Island.bodies i)) /\
  Island.bodies_touch other body = true.
Proof.
  unfold Island.get_body.
  destruct (Island.body_in_bound _ _ _ _ _); [|discriminate].
  intros H. apply find_some in H. exact H.
Qed.

(** C2.  [match] answers false exactly for an AvatarBody of the same avatar
    whose number exceeds this one's by at most the trail latency.  A trail
    segment is the receiver and the avatar's moving body the argument
    ([Island.get_body] calls [bodies_touch(other, body)]): with the default
    latency 3, the moving body numbered [n] never touches an own segment
    numbered [n - 3] or later, touches an own segment numbered [n - 4] or
    earlier exactly when the distance permits, and always matches the bodies
    of other avatars and of bonuses. *)
Theorem avatar_body_match (self other : Body.t) :
  (Body.match_ self other = false <->
   exists sd sn od on,
     Body.cls self = Body.AvatarBody sd sn /\
     Body.cls other = Body.AvatarBody od on /\
     Body.avatar_id sd = Body.avatar_id od /\
     on - sn <= Body.trail_latency sd) /\
  (forall owner k n,
     Body.cls self = Body.AvatarBody owner k ->
     Body.cls other = Body.AvatarBody owner n ->
     Body.trail_latency owner = Default.TRAIL_LATENCY ->
     (n - 3 <= k -> Island.bodies_touch self other = false) /\
     (n - 3 <= k -> forall i, Island.get_body i other <> Some self) /\
     (k <= n - 4 ->
      Island.bodies_touch self other =
      Island.distance_lt (Body.x self) (Body.y self) (Body.x other) (Body.y other)
        (Body.radius self + Body.radius other))) /\
  (forall sd sn od on,
     Body.cls self = Body.AvatarBody sd sn ->
     Body.cls other = Body.AvatarBody od on ->
     Body.avatar_id sd <> Body.avatar_id od ->
     Body.match_ self other = true) /\
  (forall d, Body.cls other = Body.Plain d -> Body.match_ self other = true) /\
  (forall d, Body.cls self = Body.Plain d -> Body.match_ self other = true).
Proof.
  split; [apply match_false_iff|]. split; [|split; [|split]].
  - intros owner k n Hs Ho HL.
    assert (Hm : Body.match_ self other = (3 <? n - k)).
    { unfold Body.match_, Body.equal. rewrite Hs, Ho, Z.eqb_refl, HL. reflexivity. }
    assert (Hno : n - 3 <= k -> Island.bodies_touch self other = false).
    { intros Hk. unfold Island.bodies_touch. rewrite Hm.
      replace (3 <? n - k) with false by (symmetry; apply Z.ltb_ge; lia).
      apply andb_false_r. }
    split; [exact Hno|]. split.
    + intros Hk i Hget. apply island_get_body_touch in Hget.
      destruct Hget as [_ Ht]. rewrite (Hno Hk) in Ht. discriminate.
    + intros Hk. unfold Island.bodies_touch. rewrite Hm.
      replace (3 <? n - k) with true by (symmetry; apply Z.ltb_lt; lia).
      apply andb_true_r.
  - intros sd sn od on Hs Ho Hne. unfold Body.match_, Body.equal.
    rewrite Hs, Ho. destruct (Z.eqb_spec (Body.avatar_id sd) (Body.avatar_id od));
      [contradiction | reflexivity].
  - intros d Ho. unfold Body.match_. rewrite Ho.
    destruct (Body.cls self); reflexivity.
  - intros d Hs. unfold Body.match_. rewrite Hs. reflexivity.
Qed.

Lemma avatar_body_match_witness :
  Island.bodies_touch (segment7 5) (head7 8) = false /\
  Island.bodies_touch (segment7 4) (head7 8) = true.
Proof.
  destruct (avatar_body_match (segment7 5) (head7 8)) as (_ & H5 & _).
  destruct (avatar_body_match (segment7 4) (head7 8)) as (_ & H4 & _).
  destruct (H5 _ 5 8 eq_refl eq_refl eq_refl) as (Hno & _ & _).
  destruct (H4 _ 4 8 eq_refl eq_refl eq_refl) as (_ & _ & Hyes).
  split.
  - apply Hno. lia.
  - rewrite Hyes by lia. reflexivity.
Defined.

(** ** World: sampling a free position *)

Section RandomPosition.
Variable w : World.t.
Hypothesis island_size_nonzero : ~ (World.island_size w == 0)%Q.

Lemma get_island_by_point_ok (px py : Q) :
  exists o, World.get_island_by_point w px py = Ok o.
Proof.
  unfold World.get_island_by_point, fdiv.
  destruct (Qeq_bool (World.island_size w) 0) eqn:E.
  - apply Qeq_bool_iff in E. contradiction.
  - simpl. eexists. reflexivity.
Qed.




Variables (margin : Q) (draws : nat -> Q) (start : nat).




End RandomPosition.

(** A world built by [World(size, islands)] with a non-zero size has a
    non-zero island size, so its point queries never divide by zero. *)
Lemma new_island_size_nonzero (size : Q) (n : option Z) (w : World.t) :
  World.new size n = Ok w -> ~ (size == 0)%Q -> ~ (World.island_size w == 0)%Q.
Proof.
  unfold World.new, fdiv.
  set (k := match n with Some n => n | None => Py.round (size / World.island_grid_size) end).
  destruct (Qeq_bool (inject_Z k) 0) eqn:E; cbn [bind]; [discriminate|].
  intros H Hs. injection H as <-. cbn [World.island_size].
  apply Qeq_bool_neq in E. intros Hz. apply Hs.
  rewrite <- (Qmult_div_r size (inject_Z k)) by exact E.
  rewrite Hz. ring.
Qed.



(** ** Bonus manager *)

Lemma NoDup_map_eq {A B : Type} (f : A -> B) (l : list A) (a b : A) :
  NoDup (map f l) -> In a l -> In b l -> f a = f b -> a = b.
Proof.
  induction l as [|x l IH]; simpl; intros Hnd Ha Hb E; [contradiction|].
  apply NoDup_cons_iff in Hnd. destruct Hnd as [Hx Hnd].
  destruct Ha as [-> | Ha], Hb as [-> | Hb]; auto.
  - exfalso. apply Hx. rewrite E. apply in_map. exact Hb.
  - exfalso. apply Hx. rewrite <- E. apply in_map. exact Ha.
Qed.

Lemma put_island_spec (w : World.t) (i' : Island.t) :
  Collection.ids (World.islands (World.put_island w i')) = Collection.ids (World.islands w) /\
  World.active (World.put_island w i') = World.active w /\
  (forall j, In j (Collection.items (World.islands w)) -> Island.id j = Island.id i' ->
     map Island.id (Collection.items (World.islands (World.put_island w i')))
     = map Island.id (Collection.items (World.islands w))) /\
  (forall j', In j' (Collection.items (World.islands (World.put_island w i'))) ->
     (j' = i' /\ exists j, In j (Collection.items (World.islands w)) /\ Island.id j = Island.id i') \/
     (In j' (Collection.items (World.islands w)) /\ Island.id j' <> Island.id i')).
Proof.
  unfold World.put_island. cbn [World.islands World.active Collection.ids Collection.items].
  split; [reflexivity|]. split; [reflexivity|]. split.
  - intros _ _ _. rewrite map_map. apply map_ext_in. intros j Hj.
    destruct (Island.pair_eqb (Island.id j) (Island.id i')) eqn:E; [|reflexivity].
    apply pair_eqb_eq in E. auto.
  - intros j' Hj'. apply in_map_iff in Hj'. destruct Hj' as (j & <- & Hj).
    destruct (Island.pair_eqb (Island.id j) (Island.id i')) eqn:E.
    + apply pair_eqb_eq in E. left. split; [reflexivity|]. exists j. auto.
    + right. split; [exact Hj|]. intros H. apply pair_eqb_eq in H. congruence.
Qed.

Lemma island_remove_body_spec (i i' : Island.t) (body body' : Body.t) :
  island_wf i -> Island.remove_body i body = (i', body') ->
  Island.id i' = Island.id i /\ island_wf i' /\
  Body.id body' = Body.id body /\
  incl (Collection.items (Island.bodies i')) (Collection.items (Island.bodies i)) /\
  (forall b, In b (Collection.items (Island.bodies i')) -> Body.id b <> Body.id body).
Proof.
  intros Hwf. unfold Island.remove_body, Island.bodies_remove, Collection.remove.
  destruct (Collection.remove_by_id Body.option_Z_eqb (Island.bodies i) (Body.id body))
    as [c' r] eqn:E.
  intros H. injection H as <- <-. cbn [fst Island.set_bodies Island.id Island.bodies Body.set_islands Body.id].
  destruct (coherent_remove_by_id Body.option_Z_eqb Body.id option_Z_eqb_eq _ _ _ _ Hwf E)
    as (Hc' & Ht & Hf).
  split; [reflexivity|]. split; [exact Hc'|]. split; [reflexivity|].
  destruct r.
  - destruct (Ht eq_refl) as (_ & _ & Hit). split.
    + intros b Hb. apply Hit in Hb. tauto.
    + intros b Hb. apply Hit in Hb. tauto.
  - destruct (Hf eq_refl) as [-> Hn]. split; [apply incl_refl|].
    intros b Hb Hid. apply Hn. destruct Hwf as [Hc _]. rewrite Hc, <- Hid.
    apply in_map. exact Hb.
Qed.

Lemma shrunk_refl (n : option Z) (w : World.t) : world_wf w -> shrunk n [] w w.
Proof.
  intros Hw. split; [exact Hw|]. split; [reflexivity|].
  intros i Hi. exists i. split; [exact Hi|]. split; [reflexivity|].
  split; [apply incl_refl | intros []].
Qed.

Lemma shrunk_trans (n : option Z) (ks1 ks2 : list (Z * Z)) (w w1 w2 : World.t) :
  shrunk n ks1 w w1 -> shrunk n ks2 w1 w2 -> shrunk n (ks1 ++ ks2) w w2.
Proof.
  intros (_ & Ha1 & H1) (Hw2 & Ha2 & H2).
  split; [exact Hw2|]. split; [congruence|].
  intros i2 Hi2. destruct (H2 i2 Hi2) as (i1 & Hi1 & E1 & Hincl2 & Hn2).
  destruct (H1 i1 Hi1) as (i & Hi & E & Hincl1 & Hn1).
  exists i. split; [exact Hi|]. split; [congruence|].
  split; [eapply incl_tran; eassumption|].
  intros Hin b Hb. apply in_app_or in Hin. destruct Hin as [Hin | Hin].
  - apply (Hn1 ltac:(rewrite E1; exact Hin) b). apply Hincl2. exact Hb.
  - apply (Hn2 Hin b Hb).
Qed.

Lemma world_wf_put_island (w : World.t) (i i' : Island.t) :
  world_wf w -> In i (Collection.items (World.islands w)) ->
  Island.id i' = Island.id i -> island_wf i' ->
  incl (Collection.items (Island.bodies i')) (Collection.items (Island.bodies i)) ->
  world_wf (World.put_island w i').
Proof.
  intros (Hc & Hi & He) Hin Hid Hwf Hincl.
  destruct (put_island_spec w i') as (Hids & Hact & Hmap & Hitems).
  split; [|split].
  - destruct Hc as [Hc Hnd]. split.
    + rewrite Hids, (Hmap i Hin (eq_sym Hid)). exact Hc.
    + rewrite Hids. exact Hnd.
  - intros j' Hj'. destruct (Hitems j' Hj') as [[-> _] | [Hj _]]; auto.
  - rewrite Hact. intros Hf j' Hj'.
    destruct (Hitems j' Hj') as [[-> _] | [Hj _]]; [|auto].
    specialize (He Hf i Hin). rewrite He in Hincl.
    destruct (Collection.items (Island.bodies i')) as [|b l]; [reflexivity|].
    exfalso. apply (Hincl b). left. reflexivity.
Qed.

Lemma remove_step_shrunk (w w1 : World.t) (body body1 : Body.t) (k : Z * Z) :
  world_wf w -> World.remove_body_from (w, body) k = (w1, body1) ->
  shrunk (Body.id body) [k] w w1 /\ Body.id body1 = Body.id body.
Proof.
  intros Hw. unfold World.remove_body_from, World.islands_get_by_id.
  destruct (Collection.get_by_id Island.pair_eqb (World.islands w) k) as [i|] eqn:E.
  - pose proof Hw as (Hc & Hi & He).
    destruct (get_by_id_In Island.pair_eqb Island.id pair_eqb_eq _ _ _ Hc E) as [Hin Hk].
    destruct (Island.remove_body i body) as [i' body'] eqn:Er.
    intros H. injection H as <- <-.
    destruct (island_remove_body_spec i i' body body' (Hi i Hin) Er)
      as (Hid & Hwf' & Hbid & Hincl & Hgone).
    split; [|exact Hbid].
    destruct (put_island_spec w i') as (Hids & Hact & Hmap & Hitems).
    split; [apply (world_wf_put_island w i i'); assumption|].
    split; [exact Hact|].
    intros j' Hj'. destruct (Hitems j' Hj') as [[-> _] | [Hj Hne]].
    + exists i. repeat split; auto.
    + exists j'. split; [exact Hj|]. split; [reflexivity|].
      split; [apply incl_refl|]. intros [Hk' | []]. exfalso. congruence.
  - intros H. injection H as <- <-. split; [|reflexivity].
    split; [exact Hw|]. split; [reflexivity|].
    intros i Hi. exists i. split; [exact Hi|]. split; [reflexivity|].
    split; [apply incl_refl|]. intros [Hk | []].
    exfalso. destruct Hw as (Hcoh & _).
    apply (get_by_id_None Island.pair_eqb Island.id pair_eqb_eq _ _ Hcoh E).
    rewrite (proj1 Hcoh), Hk. apply in_map. exact Hi.
Qed.

Lemma remove_fold_shrunk (ks : list (Z * Z)) (w w' : World.t) (body body' : Body.t) :
  world_wf w -> fold_left World.remove_body_from ks (w, body) = (w', body') ->
  shrunk (Body.id body) ks w w'.
Proof.
  revert w body. induction ks as [|k ks IH]; intros w body Hw; cbn [fold_left].
  - intros H. injection H as <- <-. apply shrunk_refl. exact Hw.
  - destruct (World.remove_body_from (w, body) k) as [w1 body1] eqn:E1.
    intros H.
    destruct (remove_step_shrunk _ _ _ _ _ Hw E1) as [Hs1 Hb1].
    apply (shrunk_trans _ [k] ks w w1 w'); [exact Hs1|].
    rewrite <- Hb1. apply (IH w1 body1); [apply Hs1 | exact H].
Qed.

Lemma get_body_by_point_indexed (w : World.t) (probe b : Body.t) (x y : Q) :
  World.get_body_by_point w probe x y = Ok (Some b) ->
  indexed w b /\ Island.bodies_touch b probe = true.
Proof.
  unfold World.get_body_by_point, World.get_island_by_point.
  destruct (fdiv x (World.island_size w)) as [qx|]; [|discriminate].
  destruct (fdiv y (World.island_size w)) as [qy|]; [|discriminate].
  cbn [bind]. unfold World.islands_get_by_id, Collection.get_by_id.
  destruct (Collection.index _ _ _) as [n|]; [|discriminate].
  destruct (nth_error _ n) as [i|] eqn:E; [|discriminate].
  intros H. injection H as H. apply island_get_body_touch in H.
  destruct H as [Hin Ht]. split; [|exact Ht].
  exists i. split; [eapply nth_error_In; exact E | exact Hin].
Qed.

Lemma or_else_Some {A : Type} (a b : result (option A)) (v : A) :
  World.or_else a b = Ok (Some v) -> a = Ok (Some v) \/ b = Ok (Some v).
Proof.
  unfold World.or_else. destruct a as [[x|]|]; cbn [bind]; auto.
Qed.

Lemma get_body_indexed (w : World.t) (probe b : Body.t) :
  World.get_body w probe = Ok (Some b) ->
  indexed w b /\ Island.bodies_touch b probe = true.
Proof.
  unfold World.get_body. intros H.
  repeat (apply or_else_Some in H; destruct H as [H | H]);
    eapply get_body_by_point_indexed; exact H.
Qed.

Lemma remove_spec (m m' : BonusManager.t) (bonus : Bonus.t) (r : bool) :
  manager_wf m -> In bonus (Collection.items (BonusManager.bonuses m)) ->
  BonusManager.remove m bonus = (m', r) ->
  r = true /\ manager_wf m' /\
  ~ In (Bonus.id bonus) (Collection.ids (BonusManager.bonuses m')) /\
  (forall b, In b (Collection.items (BonusManager.bonuses m')) <->
             In b (Collection.items (BonusManager.bonuses m)) /\
             Bonus.id b <> Bonus.id bonus) /\
  (forall body, indexed (BonusManager.world m') body ->
                indexed (BonusManager.world m) body /\
                Body.cls body <> Body.Plain (Bonus.id bonus)).
Proof.
  intros (Hc & Hw & Hl) Hin. unfold BonusManager.remove, BonusManager.bonuses_remove,
    Collection.remove.
  destruct (Collection.remove_by_id Body.option_Z_eqb (BonusManager.bonuses m)
              (Bonus.id bonus)) as [c removed] eqn:E.
  destruct (coherent_remove_by_id Body.option_Z_eqb Bonus.id option_Z_eqb_eq _ _ _ _ Hc E)
    as (Hc' & Ht & Hf).
  destruct removed.
  2:{ exfalso. destruct (Hf eq_refl) as [_ Hn]. apply Hn.
      rewrite (proj1 Hc). apply in_map. exact Hin. }
  destruct (Ht eq_refl) as (_ & Hgone & Hitems). clear Ht Hf.
  destruct (World.remove_body (BonusManager.world m) (Bonus.body bonus)) as [w' body']
    eqn:Er.
  intros H. injection H as <- <-. split; [reflexivity|].
  cbn [BonusManager.bonuses BonusManager.world].
  assert (Hsh : shrunk (Body.id (Bonus.body bonus))
                  (if World.active (BonusManager.world m)
                   then Body.islands (Bonus.body bonus) else [])
                  (BonusManager.world m) w').
  { unfold World.remove_body in Er.
    destruct (World.active (BonusManager.world m)); cbn [negb] in Er.
    - eapply remove_fold_shrunk; eassumption.
    - injection Er as <- <-. apply shrunk_refl. exact Hw. }
  destruct Hsh as (Hw' & Hact & Hsh).
  (* what is still indexed belongs to another bonus *)
  assert (Hleft : forall i' body,
             In i' (Collection.items (World.islands w')) ->
             In body (Collection.items (Island.bodies i')) ->
             exists b, In b (Collection.items (BonusManager.bonuses m)) /\
                       Bonus.id b <> Bonus.id bonus /\
                       body_of (Island.id i') body b /\
                       indexed (BonusManager.world m) body).
  { intros i' body Hi' Hb.
    destruct (Hsh i' Hi') as (i & Hi & Hid & Hincl & Hno).
    destruct (Hl i body Hi (Hincl body Hb)) as (b & Hbin & Hof).
    exists b. split; [exact Hbin|]. split.
    - intros Heq.
      assert (b = bonus).
      { apply (NoDup_map_eq Bonus.id (Collection.items (BonusManager.bonuses m)));
          try assumption. rewrite <- (proj1 Hc). exact (proj2 Hc). }
      subst b. destruct Hof as (k & Hk & Hcls & Hbid & Hisl).
      destruct (World.active (BonusManager.world m)) eqn:Ea.
      + apply (Hno ltac:(rewrite <- Hid; exact Hisl) body Hb). symmetry. exact Hbid.
      + destruct Hw as (_ & _ & Hempty). rewrite (Hempty Ea i Hi) in Hincl.
        apply (Hincl body Hb).
    - split; [rewrite <- Hid; exact Hof|].
      exists i. split; [exact Hi | exact (Hincl body Hb)]. }
  split; [|split; [exact Hgone | split; [exact Hitems|]]].
  - split; [exact Hc'|]. split; [exact Hw'|].
    intros i' body Hi' Hb. destruct (Hleft i' body Hi' Hb) as (b & Hbin & Hne & Hof & _).
    exists b. split; [apply Hitems; split; assumption | exact Hof].
  - intros body (i' & Hi' & Hb).
    destruct (Hleft i' body Hi' Hb) as (b & Hbin & Hne & Hof & Hidx).
    split; [exact Hidx|]. destruct Hof as (k & Hk & Hcls & _).
    rewrite Hcls, <- Hk. intros Heq. injection Heq as Heq. congruence.
Qed.

Lemma remove_absent (m : BonusManager.t) (bonus : Bonus.t) :
  ~ In (Bonus.id bonus) (Collection.ids (BonusManager.bonuses m)) ->
  BonusManager.remove m bonus = (m, false).
Proof.
  intros Hn. unfold BonusManager.remove, BonusManager.bonuses_remove,
    Collection.remove, Collection.remove_by_id.
  rewrite (index_not_In Body.option_Z_eqb option_Z_eqb_eq _ _ Hn). reflexivity.
Qed.

Lemma test_catch_spec (m m' : BonusManager.t) (avatar_body : Body.t)
    (r : option Bonus.t) :
  manager_wf m ->
  BonusManager.test_catch m avatar_body = Ok (m', r) ->
  manager_wf m' /\
  match r with
  | Some bonus =>
      In bonus (Collection.items (BonusManager.bonuses m)) /\
      BonusManager.remove m bonus = (m', true) /\
      (exists body, indexed (BonusManager.world m) body /\
                    Body.cls body = Body.Plain (Bonus.id bonus) /\
                    Island.bodies_touch body avatar_body = true) /\
      ~ In (Bonus.id bonus) (Collection.ids (BonusManager.bonuses m')) /\
      (forall b, In b (Collection.items (BonusManager.bonuses m')) ->
                 In b (Collection.items (BonusManager.bonuses m))) /\
      (forall body, indexed (BonusManager.world m') body ->
                    Body.cls body <> Body.Plain (Bonus.id bonus)) /\
      BonusManager.remove m' bonus = (m', false)
  | None => m' = m
  end.
Proof.
  intros Hwf. unfold BonusManager.test_catch.
  destruct (World.get_body (BonusManager.world m) avatar_body) as [found|] eqn:Eg;
    cbn [bind]; [|discriminate].
  destruct found as [[bx by_ br [[k|] | d n] bid bisl]|];
    try (intros H; injection H as <- <-; split; [exact Hwf | reflexivity]).
  destruct (BonusManager.bonuses_get_by_id (BonusManager.bonuses m) (Some k))
    as [bonus|] eqn:Eb;
    [|intros H; injection H as <- <-; split; [exact Hwf | reflexivity]].
  destruct (get_by_id_In Body.option_Z_eqb Bonus.id option_Z_eqb_eq _ _ _
              (proj1 Hwf) Eb) as [Hin Hid].
  destruct (BonusManager.remove m bonus) as [m1 removed] eqn:Er.
  destruct (remove_spec m m1 bonus removed Hwf Hin Er)
    as (-> & Hwf1 & Hgone & Hitems & Hidx).
  intros H. injection H as <- <-. split; [exact Hwf1|].
  split; [exact Hin|]. split; [exact Er|]. split.
  - destruct (get_body_indexed _ _ _ Eg) as [Hi Ht].
    eexists. split; [exact Hi|]. split; [|exact Ht].
    cbn [Body.cls]. rewrite Hid. reflexivity.
  - split; [exact Hgone|]. split; [intros b Hb; apply Hitems in Hb; tauto|].
    split; [intros body Hb; apply (Hidx body Hb)|].
    apply remove_absent. exact Hgone.
Qed.

Lemma catch_all_spec (avatar_bodies : list Body.t) (m m' : BonusManager.t)
    (caught : list Bonus.t) :
  manager_wf m -> catch_all m avatar_bodies = Ok (m', caught) ->
  manager_wf m' /\
  NoDup (map Bonus.id caught) /\
  (forall b, In b (Collection.items (BonusManager.bonuses m')) ->
             In b (Collection.items (BonusManager.bonuses m))) /\
  (forall b, In b caught ->
     In b (Collection.items (BonusManager.bonuses m)) /\
     ~ In (Bonus.id b) (Collection.ids (BonusManager.bonuses m')) /\
     (forall body, indexed (BonusManager.world m') body ->
                   Body.cls body <> Body.Plain (Bonus.id b))).
Proof.
  revert m m' caught. induction avatar_bodies as [|body rest IH];
    intros m m' caught Hwf; cbn [catch_all].
  - intros H. injection H as <- <-. split; [exact Hwf|]. split; [constructor|].
    split; [auto | intros b []].
  - destruct (BonusManager.test_catch m body) as [[m1 r]|] eqn:E1; cbn [bind];
      [|discriminate].
    destruct (catch_all m1 rest) as [[m2 more]|] eqn:E2; cbn [bind]; [|discriminate].
    intros H. injection H as <- <-.
    destruct (test_catch_spec _ _ _ _ Hwf E1) as [Hwf1 Hr].
    destruct (IH _ _ _ Hwf1 E2) as (Hwf2 & Hnd & Hsub & Hmore).
    split; [exact Hwf2|].
    destruct r as [bonus|].
    + destruct Hr as (Hin & _ & _ & Hgone & Hsub1 & Hidx & _).
      assert (Hgone2 : ~ In (Bonus.id bonus) (Collection.ids (BonusManager.bonuses m2))).
      { intros Hc. rewrite (proj1 (proj1 Hwf2)) in Hc. apply in_map_iff in Hc.
        destruct Hc as (b & Hb & Hbin). apply Hgone.
        rewrite (proj1 (proj1 Hwf1)), <- Hb. apply in_map. apply Hsub. exact Hbin. }
      split; [|split].
      * cbn [map]. constructor; [|exact Hnd].
        intros Hc. apply in_map_iff in Hc. destruct Hc as (b & Hb & Hbin).
        destruct (Hmore b Hbin) as (Hb1 & _). apply Hgone.
        rewrite (proj1 (proj1 Hwf1)), <- Hb. apply in_map. exact Hb1.
      * intros b Hb. apply Hsub1, Hsub, Hb.
      * intros b [<- | Hb].
        -- split; [exact Hin|]. split; [exact Hgone2|].
           intros bd Hbd.
           destruct (Hwf2) as (_ & _ & Hl2). destruct Hbd as (i & Hi & Hbi).
           destruct (Hl2 i bd Hi Hbi) as (b' & Hb' & k & Hk & Hcls & _).
           rewrite Hcls, <- Hk. intros Heq. injection Heq as Heq.
           apply Hgone2. rewrite <- Heq, (proj1 (proj1 Hwf2)). apply in_map. exact Hb'.
        -- destruct (Hmore b Hb) as (Hb1 & Hb2 & Hb3).
           split; [apply Hsub1; exact Hb1 | split; assumption].
    + subst m1. split; [exact Hnd|]. split; [exact Hsub | exact Hmore].
Qed.

(** *** Well-formedness is established and preserved *)

Lemma world_wf_put_island' (w : World.t) (i i' : Island.t) :
  world_wf w -> In i (Collection.items (World.islands w)) ->
  Island.id i' = Island.id i -> island_wf i' ->
  (World.active w = false -> Collection.items (Island.bodies i') = []) ->
  world_wf (World.put_island w i').
Proof.
  intros (Hc & Hi & He) Hin Hid Hwf Hempty.
  destruct (put_island_spec w i') as (Hids & Hact & Hmap & Hitems).
  split; [|split].
  - destruct Hc as [Hc Hnd]. split.
    + rewrite Hids, (Hmap i Hin (eq_sym Hid)). exact Hc.
    + rewrite Hids. exact Hnd.
  - intros j' Hj'. destruct (Hitems j' Hj') as [[-> _] | [Hj _]]; auto.
  - rewrite Hact. intros Hf j' Hj'.
    destruct (Hitems j' Hj') as [[-> _] | [Hj _]]; auto.
Qed.

Lemma fold_islands_add (l : list Island.t) (c : Collection.t (Z * Z) Island.t) :
  coherent Island.id c ->
  let c' := fold_left (fun c i => fst (World.islands_add c i)) l c in
  coherent Island.id c' /\
  forall i, In i (Collection.items c') -> In i (Collection.items c) \/ In i l.
Proof.
  revert c. induction l as [|a l IH]; intros c Hc; cbn [fold_left].
  - split; [exact Hc | auto].
  - destruct (World.islands_add c a) as [c1 b] eqn:E.
    destruct (coherent_add Island.pair_eqb Island.id pair_eqb_eq _ _ _ _ Hc E)
      as (Hc1 & Ht & Hf).
    destruct (IH c1 Hc1) as [Hc' Hin]. cbn [fst]. split; [exact Hc'|].
    intros i Hi. destruct (Hin i Hi) as [H | H]; [|right; right; exact H].
    destruct b.
    + destruct (Ht eq_refl) as [Hit _]. rewrite Hit in H.
      apply in_app_or in H. destruct H as [H | [<- | []]]; auto. right; left; reflexivity.
    + destruct (Hf eq_refl) as [-> _]. auto.
Qed.

Lemma world_new_wf (size : Q) (n : option Z) (w : World.t) :
  World.new size n = Ok w -> world_wf w /\ World.active w = false.
Proof.
  unfold World.new. destruct (fdiv size _) as [isz|]; cbn [bind]; [|discriminate].
  set (k := match n with Some n => n | None => _ end).
  intros H. injection H as <-. split; [|reflexivity].
  cbn [World.islands World.active].
  set (mkisl := fun yx : Z * Z => let '(y, x) := yx in
                  Island.new (x, y) isz (inject_Z x * isz) (inject_Z y * isz)).
  assert (E : forall l c,
             fold_left (fun c yx => let '(y, x) := yx in
                          fst (World.islands_add c
                                 (Island.new (x, y) isz (inject_Z x * isz)
                                    (inject_Z y * isz)))) l c
             = fold_left (fun c i => fst (World.islands_add c i)) (map mkisl l) c).
  { induction l as [|[y x] l IH]; intros c; cbn [fold_left map]; [reflexivity|].
    rewrite IH. reflexivity. }
  rewrite E.
  destruct (fold_islands_add (map mkisl (list_prod (World.range_down k) (World.range_down k)))
              Collection.empty (coherent_empty Island.id)) as [Hc Hin].
  assert (Hnew : forall i, In i (Collection.items
                     (fold_left (fun c i => fst (World.islands_add c i))
                        (map mkisl (list_prod (World.range_down k) (World.range_down k)))
                        Collection.empty)) ->
                 Island.bodies i = Collection.empty).
  { intros i Hi. destruct (Hin i Hi) as [[] | H].
    apply in_map_iff in H. destruct H as ([y x] & <- & _). reflexivity. }
  split; [exact Hc|]. split.
  - intros i Hi. unfold island_wf. rewrite (Hnew i Hi). apply coherent_empty.
  - intros _ i Hi. rewrite (Hnew i Hi). reflexivity.
Qed.

Lemma world_clear_wf (w : World.t) :
  world_wf w ->
  world_wf (World.clear w) /\
  forall body, ~ indexed (World.clear w) body.
Proof.
  intros (Hc & Hi & He). unfold World.clear.
  assert (Hitems : forall i',
            In i' (map Island.clear (Collection.items (World.islands w))) ->
            Collection.items (Island.bodies i') = [] /\ island_wf i').
  { intros i' H. apply in_map_iff in H. destruct H as (i & <- & _).
    split; [reflexivity | apply coherent_empty]. }
  split.
  - split; [|split]; cbn [World.islands World.active Collection.ids Collection.items].
    + destruct Hc as [Hc Hnd]. split; [|exact Hnd].
      cbn [Collection.ids Collection.items]. rewrite map_map. exact Hc.
    + intros i' H. apply Hitems. exact H.
    + intros _ i' H. apply Hitems. exact H.
  - intros body (i' & Hi' & Hb). cbn [World.islands Collection.items] in Hi'.
    destruct (Hitems i' Hi') as [E _]. rewrite E in Hb. exact Hb.
Qed.

Lemma world_activate_wf (w : World.t) : world_wf w -> world_wf (World.activate w).
Proof.
  intros (Hc & Hi & He). split; [exact Hc|]. split; [exact Hi|].
  cbn [World.activate World.active]. discriminate.
Qed.

Lemma manager_new_wf (game_size : Q) (m : BonusManager.t) :
  BonusManager.new game_size = Ok m -> manager_wf m.
Proof.
  unfold BonusManager.new.
  destruct (World.new game_size (Some 1)) as [w|] eqn:E; cbn [bind]; [|discriminate].
  intros H. injection H as <-. destruct (world_new_wf _ _ _ E) as [Hw Ha].
  split; [apply coherent_empty|]. split; [exact Hw|].
  cbn [BonusManager.world]. intros i body Hi Hb.
  destruct Hw as (_ & _ & He). rewrite (He Ha i Hi) in Hb. destruct Hb.
Qed.

Lemma manager_clear_wf (m : BonusManager.t) :
  manager_wf m -> manager_wf (BonusManager.clear m).
Proof.
  intros (_ & Hw & _). destruct (world_clear_wf _ Hw) as [Hw' Hno].
  split; [apply coherent_empty|]. split; [exact Hw'|].
  intros i body Hi Hb. exfalso. apply (Hno body). exists i. auto.
Qed.

Lemma manager_start_wf (m : BonusManager.t) :
  manager_wf m -> manager_wf (BonusManager.start m).
Proof.
  intros H. apply manager_clear_wf in H. destruct H as (Hc & Hw & Hl).
  split; [exact Hc|]. split; [apply world_activate_wf; exact Hw | exact Hl].
Qed.

Lemma manager_set_size_wf (m m' : BonusManager.t) (game_size : Q) :
  manager_wf m -> BonusManager.set_size m game_size = Ok m' -> manager_wf m'.
Proof.
  intros (Hc & _ & _). unfold BonusManager.set_size.
  destruct (World.new game_size (Some 1)) as [w|] eqn:E; cbn [bind]; [|discriminate].
  intros H. injection H as <-. destruct (world_new_wf _ _ _ E) as [Hw Ha].
  split; [exact Hc|]. split; [exact Hw|].
  cbn [BonusManager.world]. intros i body Hi Hb.
  destruct Hw as (_ & _ & He). rewrite (He Ha i Hi) in Hb. destruct Hb.
Qed.

Lemma island_add_body_spec (i i' : Island.t) (body body' : Body.t) :
  island_wf i -> Island.add_body i body = (i', body') ->
  Island.id i' = Island.id i /\ island_wf i' /\
  Body.id body' = Body.id body /\ Body.cls body' = Body.cls body /\
  incl (Body.islands body) (Body.islands body') /\
  (forall b, In b (Collection.items (Island.bodies i')) ->
     In b (Collection.items (Island.bodies i)) \/
     (b = body /\ In (Island.id i) (Body.islands body'))).
Proof.
  intros Hwf. unfold Island.add_body, Island.bodies_add.
  destruct (Collection.add Body.option_Z_eqb Body.id (Island.bodies i) body)
    as [c added] eqn:E.
  destruct (coherent_add Body.option_Z_eqb Body.id option_Z_eqb_eq _ _ _ _ Hwf E)
    as (Hc & Ht & Hf).
  destruct added.
  - destruct (Ht eq_refl) as [Hit _].
    intros H. injection H as <- <-.
    cbn [Island.set_bodies Island.id Island.bodies].
    split; [reflexivity|]. split; [exact Hc|].
    destruct (existsb (Island.pair_eqb (Island.id i)) (Body.islands body)) eqn:Ex.
    + repeat split; try reflexivity; [apply incl_refl|].
      intros b Hb. rewrite Hit in Hb. apply in_app_or in Hb.
      destruct Hb as [Hb | [<- | []]]; [left; exact Hb | right].
      split; [reflexivity|]. apply existsb_exists in Ex.
      destruct Ex as (k & Hk & Ek). apply pair_eqb_eq in Ek. subst. exact Hk.
    + cbn [Body.set_islands Body.id Body.cls Body.islands].
      repeat split; try reflexivity; [apply incl_appl, incl_refl|].
      intros b Hb. rewrite Hit in Hb. apply in_app_or in Hb.
      destruct Hb as [Hb | [<- | []]]; [left; exact Hb | right].
      split; [reflexivity|]. apply in_or_app. right. left. reflexivity.
  - intros H. injection H as <- <-.
    split; [reflexivity|]. split; [exact Hwf|]. split; [reflexivity|].
    split; [reflexivity|]. split; [apply incl_refl | auto].
Qed.

Lemma add_body_by_point_entering (old : list Bonus.t) (w w' : World.t)
    (body body' : Body.t) (x y : Q) :
  entering old w body ->
  World.add_body_by_point w body x y = Ok (w', body') ->
  entering old w' body' /\
  Body.id body' = Body.id body /\ Body.cls body' = Body.cls body.
Proof.
  intros (Hw & Ha & Hl). unfold World.add_body_by_point.
  destruct (World.get_island_by_point w x y) as [[i|]|] eqn:E; cbn [bind];
    try discriminate.
  2:{ intros H. injection H as <- <-.
      split; [split; [exact Hw | split; [exact Ha | exact Hl]] | split; reflexivity]. }
  assert (Hin : In i (Collection.items (World.islands w))).
  { unfold World.get_island_by_point in E.
    destruct (fdiv x _); [|discriminate]. destruct (fdiv y _); [|discriminate].
    cbn [bind] in E. injection E as E.
    apply (get_by_id_In Island.pair_eqb Island.id pair_eqb_eq _ _ _ (proj1 Hw)) in E.
    tauto. }
  destruct (Island.add_body i body) as [i' body1] eqn:Ei.
  intros H. injection H as <- <-.
  destruct (island_add_body_spec _ _ _ _ (proj1 (proj2 Hw) i Hin) Ei)
    as (Hid & Hwf' & Hbid & Hcls & Hincl & Hitems).
  split; [|split; assumption].
  destruct (put_island_spec w i') as (Hids & Hact & Hmap & Hput).
  split; [|split].
  - apply (world_wf_put_island' w i i'); try assumption.
    intros Hf. congruence.
  - rewrite Hact. exact Ha.
  - intros j b Hj Hb. destruct (Hput j Hj) as [[-> _] | [Hj' Hne]].
    + destruct (Hitems b Hb) as [Hold | [-> Hisl]].
      * destruct (Hl i b Hin Hold) as [Hx | (Hc1 & Hc2 & Hc3)].
        -- left. rewrite Hid. exact Hx.
        -- right. rewrite Hid, Hcls, Hbid. repeat split; auto.
      * right. rewrite Hid, Hcls, Hbid. repeat split; auto.
    + destruct (Hl j b Hj' Hb) as [Hx | (Hc1 & Hc2 & Hc3)]; [left; exact Hx|].
      right. rewrite Hcls, Hbid. repeat split; auto.
Qed.

Lemma add_body_entering (old : list Bonus.t) (w w' : World.t) (body body' : Body.t) :
  world_wf w -> World.active w = true ->
  (forall i b, In i (Collection.items (World.islands w)) ->
               In b (Collection.items (Island.bodies i)) ->
               exists bonus, In bonus old /\ body_of (Island.id i) b bonus) ->
  World.add_body w body = Ok (w', body') ->
  entering old w' body' /\ Body.cls body' = Body.cls body.
Proof.
  intros Hw Ha Hl. unfold World.add_body. rewrite Ha. cbn [negb].
  set (b0 := Body.set_id body (World.body_count w)).
  set (w0 := World.mk _ _ _ _ _).
  assert (H0 : entering old w0 b0).
  { destruct Hw as (Hc & Hi & He).
    split; [split; [exact Hc | split; [exact Hi | discriminate]]|].
    split; [reflexivity|]. intros i b Hi' Hb. left. auto. }
  destruct (World.add_body_by_point w0 b0 _ _) as [[w1 b1]|] eqn:E1; cbn [bind];
    [|discriminate].
  destruct (add_body_by_point_entering _ _ _ _ _ _ _ H0 E1) as (H1 & I1 & C1).
  destruct (World.add_body_by_point w1 b1 _ _) as [[w2 b2]|] eqn:E2; cbn [bind];
    [|discriminate].
  destruct (add_body_by_point_entering _ _ _ _ _ _ _ H1 E2) as (H2 & I2 & C2).
  destruct (World.add_body_by_point w2 b2 _ _) as [[w3 b3]|] eqn:E3; cbn [bind];
    [|discriminate].
  destruct (add_body_by_point_entering _ _ _ _ _ _ _ H2 E3) as (H3 & I3 & C3).
  intros E4.
  destruct (add_body_by_point_entering _ _ _ _ _ _ _ H3 E4) as (H4 & I4 & C4).
  split; [exact H4|]. rewrite C4, C3, C2, C1. reflexivity.
Qed.

Lemma set_id_spec (c c1 : Collection.t (option Z) Bonus.t) (bonus bonus1 : Bonus.t) :
  Body.cls (Bonus.body bonus) = Body.Plain (Bonus.id bonus) ->
  BonusManager.set_id c bonus = (c1, bonus1) ->
  Collection.ids c1 = Collection.ids c /\
  Collection.items c1 = Collection.items c /\
  Body.cls (Bonus.body bonus1) = Body.Plain (Bonus.id bonus1) /\
  exists k, Bonus.id bonus1 = Some k.
Proof.
  intros Hself. unfold BonusManager.set_id.
  destruct (Bonus.id bonus) as [current|] eqn:Eid.
  - destruct (current =? 0).
    + intros H. injection H as <- <-. cbn. repeat split. eexists. reflexivity.
    + destruct (Collection.id_counter c <? current); intros H; injection H as <- <-;
        cbn; (split; [reflexivity|]); (split; [reflexivity|]);
        (split; [rewrite Hself, Eid; reflexivity|]); exists current; exact Eid.
  - intros H. injection H as <- <-. cbn. repeat split. eexists. reflexivity.
Qed.

Lemma put_bonus_spec (c : Collection.t (option Z) Bonus.t) (b : Bonus.t) :
  coherent Bonus.id c ->
  coherent Bonus.id (BonusManager.put_bonus c b) /\
  (forall x, In x (Collection.items c) -> Bonus.id x <> Bonus.id b ->
             In x (Collection.items (BonusManager.put_bonus c b))) /\
  (forall x, In x (Collection.items c) -> Bonus.id x = Bonus.id b ->
             In b (Collection.items (BonusManager.put_bonus c b))).
Proof.
  intros [Hc Hnd]. unfold BonusManager.put_bonus.
  cbn [Collection.ids Collection.items]. split; [split|split].
  - cbn [Collection.ids Collection.items]. rewrite map_map, Hc.
    apply map_ext. intros x.
    destruct (Body.option_Z_eqb (Bonus.id x) (Bonus.id b)) eqn:E; [|reflexivity].
    apply option_Z_eqb_eq in E. exact E.
  - exact Hnd.
  - intros x Hx Hne. apply in_map_iff. exists x. split; [|exact Hx].
    destruct (Body.option_Z_eqb (Bonus.id x) (Bonus.id b)) eqn:E; [|reflexivity].
    apply option_Z_eqb_eq in E. contradiction.
  - intros x Hx He. apply in_map_iff. exists x. split; [|exact Hx].
    apply option_Z_eqb_eq in He. rewrite He. reflexivity.
Qed.

Lemma manager_add_wf (m m' : BonusManager.t) (bonus : Bonus.t) (added : bool) :
  manager_wf m ->
  Body.cls (Bonus.body bonus) = Body.Plain (Bonus.id bonus) ->
  BonusManager.add m bonus = Ok (m', added) ->
  manager_wf m'.
Proof.
  intros (Hc & Hw & Hl) Hself. unfold BonusManager.add.
  destruct (BonusManager.set_id (BonusManager.bonuses m) bonus) as [c1 bonus1] eqn:Es.
  destruct (set_id_spec _ _ _ _ Hself Es) as (Hids1 & Hitems1 & Hself1 & k & Hk).
  assert (Hc1 : coherent Bonus.id c1).
  { destruct Hc as [Hc Hnd]. split; [rewrite Hids1, Hitems1; exact Hc|].
    rewrite Hids1. exact Hnd. }
  destruct (BonusManager.bonuses_add c1 bonus1) as [c2 a] eqn:Ea.
  destruct (coherent_add Body.option_Z_eqb Bonus.id option_Z_eqb_eq _ _ _ _ Hc1 Ea)
    as (Hc2 & Ht & Hf).
  destruct a.
  2:{ intros H. injection H as <- <-. destruct (Hf eq_refl) as [-> _].
      split; [exact Hc1|]. split; [exact Hw|].
      cbn [BonusManager.world BonusManager.bonuses]. rewrite Hitems1. exact Hl. }
  destruct (Ht eq_refl) as [Hitems2 Hfresh]. clear Ht Hf.
  destruct (World.add_body (BonusManager.world m) (Bonus.body bonus1)) as [[w body]|]
    eqn:Ew; cbn [bind]; [|discriminate].
  intros H. injection H as <- <-.
  set (b' := Bonus.set_body bonus1 body).
  destruct (put_bonus_spec c2 b' Hc2) as (Hc3 & Hkeep & Hnew).
  assert (Hold : forall x, In x (Collection.items (BonusManager.bonuses m)) ->
                           In x (Collection.items (BonusManager.put_bonus c2 b'))).
  { intros x Hx. apply Hkeep.
    - rewrite Hitems2, Hitems1. apply in_or_app. left. exact Hx.
    - intros He. apply Hfresh. rewrite Hids1, (proj1 Hc).
      change (Bonus.id b') with (Bonus.id bonus1) in He. rewrite <- He.
      apply in_map. exact Hx. }
  assert (Hb' : In b' (Collection.items (BonusManager.put_bonus c2 b'))).
  { apply (Hnew bonus1); [|reflexivity].
    rewrite Hitems2. apply in_or_app. right. left. reflexivity. }
  split; [exact Hc3|]. cbn [BonusManager.world BonusManager.bonuses].
  destruct (World.active (BonusManager.world m)) eqn:Eact.
  - destruct (add_body_entering (Collection.items (BonusManager.bonuses m))
                _ _ _ _ Hw Eact Hl Ew) as [(Hw' & _ & Hl') Hcls].
    split; [exact Hw'|]. intros i b Hi Hb.
    destruct (Hl' i b Hi Hb) as [(x & Hx & Hof) | (E1 & E2 & E3)].
    + exists x. split; [apply Hold; exact Hx | exact Hof].
    + exists b'. split; [exact Hb'|]. exists k. split; [exact Hk|].
      split; [rewrite E1, Hcls, Hself1, Hk; reflexivity|].
      split; [symmetry; exact E2 | exact E3].
  - unfold World.add_body in Ew. rewrite Eact in Ew. cbn [negb] in Ew.
    injection Ew as <- <-. split; [exact Hw|]. intros i b Hi Hb.
    destruct Hw as (_ & _ & He). rewrite (He Eact i Hi) in Hb. destruct Hb.
Qed.

Lemma reachable_wf (m : BonusManager.t) : reachable m -> manager_wf m.
Proof.
  induction 1 as [size m H | m _ IH | m _ IH | m _ IH | m m' size _ IH H
                 | m m' type x y added _ IH H | m m' body caught _ IH H].
  - eapply manager_new_wf; exact H.
  - apply manager_start_wf; exact IH.
  - apply manager_clear_wf; exact IH.
  - apply manager_clear_wf; exact IH.
  - eapply manager_set_size_wf; eassumption.
  - exact (manager_add_wf m m' (Bonus.new type x y) added IH eq_refl H).
  - eapply test_catch_spec; eassumption.
Qed.

(** C10.  [test_catch] calls [apply_to] on a bonus only when [remove]
    returned true for it, and the state in which the effect runs no longer
    holds the bonus, neither in the collection nor, through its body, in the
    spatial index; removing it once more returns false and changes nothing,
    and no later test catches it.  Hence over the tests of any list of
    avatar bodies the caught bonuses are pairwise distinct: each is applied
    at most once, however many avatars overlap it. *)
Theorem test_catch_applies_once (m : BonusManager.t) :
  reachable m ->
  (forall avatar_body m' caught,
     BonusManager.test_catch m avatar_body = Ok (m', caught) ->
     match caught with
     | Some bonus =>
         In bonus (Collection.items (BonusManager.bonuses m)) /\
         BonusManager.remove m bonus = (m', true) /\
         ~ In (Bonus.id bonus) (Collection.ids (BonusManager.bonuses m')) /\
         (forall body, indexed (BonusManager.world m') body ->
                       Body.cls body <> Body.Plain (Bonus.id bonus)) /\
         BonusManager.remove m' bonus = (m', false) /\
         (forall probe m'' again,
            BonusManager.test_catch m' probe = Ok (m'', Some again) ->
            Bonus.id again <> Bonus.id bonus)
     | None => m' = m
     end) /\
  (forall avatar_bodies m' caught,
     catch_all m avatar_bodies = Ok (m', caught) ->
     NoDup (map Bonus.id caught) /\
     forall bonus, In bonus caught ->
       In bonus (Collection.items (BonusManager.bonuses m)) /\
       ~ In (Bonus.id bonus) (Collection.ids (BonusManager.bonuses m')) /\
       (forall body, indexed (BonusManager.world m') body ->
                     Body.cls body <> Body.Plain (Bonus.id bonus))).
Proof.
  intros Hr. pose proof (reachable_wf m Hr) as Hwf. split.
  - intros avatar_body m' caught H.
    destruct (test_catch_spec _ _ _ _ Hwf H) as [Hwf' Hc].
    destruct caught as [bonus|]; [|exact Hc].
    destruct Hc as (Hin & Hrem & _ & Hgone & _ & Hidx & Hagain).
    repeat (split; [assumption|]).
    intros probe m'' again H2 Heq.
    destruct (test_catch_spec _ _ _ _ Hwf' H2) as [_ (Hin2 & _)].
    apply Hgone. rewrite <- Heq, (proj1 (proj1 Hwf')). apply in_map. exact Hin2.
  - intros avatar_bodies m' caught H.
    destruct (catch_all_spec _ _ _ _ Hwf H) as (_ & Hnd & _ & Hall).
    split; [exact Hnd | exact Hall].
Qed.

Lemma test_catch_applies_once_witness :
  exists m' bonus,
    catch_all manager80 [avatar_body_1; avatar_body_2] = Ok (m', [bonus]) /\
    Bonus.type bonus = Bonus.SelfFast /\
    Collection.count (BonusManager.bonuses manager80) = 1 /\
    Collection.count (BonusManager.bonuses m') = 0.
Proof.
  assert (Hr : reachable manager80).
  { apply (reach_add manager80_started manager80 Bonus.SelfFast 30 30 true).
    - apply (reach_start (BonusManager.mk Collection.empty
                           (World.clear (BonusManager.world manager80_started)))).
      apply (reach_new 80). vm_compute. reflexivity.
    - vm_compute. reflexivity. }
  destruct (test_catch_applies_once manager80 Hr) as [_ Hall].
  destruct (catch_all manager80 [avatar_body_1; avatar_body_2]) as [[m' caught]|] eqn:E;
    [|vm_compute in E; discriminate].
  destruct (Hall _ _ _ E) as [Hnd _].
  vm_compute in E. injection E as <- <-.
  do 2 eexists. repeat split.
Defined.

(** ** Avatar setters and the bonus stack *)

Section StackFacts.
Context {M : MathLib}.

Lemma with_angular_velocity_eta (a : Avatar.t) :
  Avatar.with_angular_velocity (Avatar.angular_velocity a) a = a.
Proof. destruct a; reflexivity. Qed.

(** Steering changes the angular velocity and nothing else. *)
Lemma update_angular_velocity_frame (a : Avatar.t) (f : option Q) :
  exists v, Avatar.update_angular_velocity a f = Avatar.with_angular_velocity v a.
Proof.
  unfold Avatar.update_angular_velocity, Avatar.set_angular_velocity.
  destruct f as [f|].
  - destruct (Avatar.Qneb _ _); eexists;
      [reflexivity | symmetry; apply with_angular_velocity_eta].
  - destruct (Qeq_bool _ _); [eexists; symmetry; apply with_angular_velocity_eta|].
    destruct (Avatar.Qneb _ _); eexists;
      [reflexivity | symmetry; apply with_angular_velocity_eta].
Qed.

Lemma Qltb_true (a b : Q) : (a < b)%Q -> Island.Qltb a b = true.
Proof.
  intros H. unfold Island.Qltb. destruct (Qlt_le_dec a b) as [_ | Hle];
    [reflexivity | exfalso; apply (Qlt_not_le _ _ H Hle)].
Qed.

(** With a positive velocity the base angular velocity is recomputed
    without exception. *)
Lemma update_base_angular_velocity_loop (a : Avatar.t) :
  Avatar.direction_in_loop a = true -> (0 < Avatar.velocity a)%Q ->
  exists base av,
    Avatar.update_base_angular_velocity a
    = Ok (Avatar.with_angular_velocity av
            (Avatar.with_angular_velocity_base base a)) /\
    (base == Avatar.velocity a / Default.VELOCITY * Default.ANGULAR_VELOCITY_BASE
             + log (Default.VELOCITY / Avatar.velocity a) / 1000)%Q.
Proof.
  intros Hd Hv. unfold Avatar.update_base_angular_velocity. rewrite Hd.
  set (ratio := (Avatar.velocity a / Default.VELOCITY)%Q).
  assert (Hr : (0 < ratio)%Q).
  { unfold ratio. apply Qlt_shift_div_l; [reflexivity | lra]. }
  unfold fdiv. destruct (Qeq_bool ratio 0) eqn:E.
  { apply Qeq_bool_iff in E. lra. }
  cbn [bind]. unfold Avatar.flog.
  assert (Hi : (0 < 1 / ratio)%Q).
  { apply Qlt_shift_div_l; [exact Hr | lra]. }
  rewrite (Qltb_true _ _ Hi). cbn [bind].
  destruct (update_angular_velocity_frame
              (Avatar.with_angular_velocity_base
                 (ratio * Default.ANGULAR_VELOCITY_BASE + log (1 / ratio) / 1000) a)
              None) as [av ->].
  do 2 eexists. split; [reflexivity|].
  assert (El : (1 / ratio == Default.VELOCITY / Avatar.velocity a)%Q).
  { unfold ratio. field. split; [lra | discriminate]. }
  rewrite (log_proper _ _ El). reflexivity.
Qed.

(** An effective velocity change, while the avatar turns in a loop. *)
Lemma set_velocity_changed (a : Avatar.t) (v : Q) :
  Avatar.direction_in_loop a = true ->
  Qeq_bool (Avatar.velocity a) v = false ->
  Qeq_bool (Avatar.velocity a) (Py.max v (Default.VELOCITY / 2)) = false ->
  exists vx vy base av,
    Avatar.set_velocity a v
    = Ok (Avatar.with_angular_velocity av
            (Avatar.with_angular_velocity_base base
               (Avatar.with_velocity_y vy
                  (Avatar.with_velocity_x vx
                     (Avatar.with_velocity (Py.max v (Default.VELOCITY / 2)) a))))) /\
    (base == Py.max v (Default.VELOCITY / 2) / Default.VELOCITY
             * Default.ANGULAR_VELOCITY_BASE
             + log (Default.VELOCITY / Py.max v (Default.VELOCITY / 2)) / 1000)%Q.
Proof.
  intros Hd E1 E2.
  unfold Avatar.set_velocity, Avatar.base_set_velocity, Avatar.Qneb.
  rewrite E1, E2. cbn [negb]. unfold Avatar.update_velocities.
  set (v' := Py.max v (Default.VELOCITY / 2)).
  assert (Hv' : (0 < v')%Q).
  { unfold v', Py.max. destruct (Qlt_le_dec v (Default.VELOCITY / 2)) as [_ | H].
    - reflexivity.
    - eapply Qlt_le_trans; [|exact H]. reflexivity. }
  match goal with
  | |- context [Avatar.update_base_angular_velocity ?x] =>
      destruct (update_base_angular_velocity_loop x Hd Hv') as (base & av & -> & Hb)
  end.
  do 4 eexists. split; [reflexivity | exact Hb].
Qed.

Lemma default_base_angular_velocity :
  (Default.VELOCITY / Default.VELOCITY * Default.ANGULAR_VELOCITY_BASE
   + log (Default.VELOCITY / Default.VELOCITY) / 1000
   == Default.ANGULAR_VELOCITY_BASE)%Q.
Proof.
  assert (E : (Default.VELOCITY / Default.VELOCITY == 1)%Q) by reflexivity.
  rewrite (log_proper _ _ E), log_1. rewrite E. field.
Qed.

End StackFacts.

Section StackRestore.
Context {M : MathLib}.

Lemma option_Z_eqb_refl (k : option Z) : Body.option_Z_eqb k k = true.
Proof. apply option_Z_eqb_eq. reflexivity. Qed.

Lemma Qeq_bool_false_l (x c y : Q) :
  (x == c)%Q -> Qeq_bool c y = false -> Qeq_bool x y = false.
Proof.
  intros Hx Hc. destruct (Qeq_bool x y) eqn:E; [|reflexivity].
  apply Qeq_bool_iff in E. rewrite Hx in E. apply Qeq_bool_iff in E. congruence.
Qed.

(** [stack.add(b)] on an empty stack lists [b] and resolves. *)
Lemma add_on_empty (a : Avatar.t) (b : Bonus.t) :
  Avatar.bonus_stack a = Collection.empty ->
  BonusStack.add a b
  = BonusStack.resolve
      (Avatar.with_bonus_stack (Collection.mk [Bonus.id b] [b] 0) a) None.
Proof.
  intros Hs. unfold BonusStack.add, BonusStack.bonuses_add, Collection.add,
    Collection.exists_, Collection.index_exists.
  rewrite Hs. reflexivity.
Qed.

(** [stack.remove(b)] on the stack that lists [b] alone empties it and
    resolves with [b]. *)
Lemma remove_last (a : Avatar.t) (b : Bonus.t) :
  Avatar.bonus_stack a = Collection.mk [Bonus.id b] [b] 0 ->
  BonusStack.remove a b
  = BonusStack.resolve (Avatar.with_bonus_stack Collection.empty a) (Some b).
Proof.
  intros Hs. unfold BonusStack.remove, BonusStack.bonuses_remove,
    Collection.remove, Collection.remove_by_id.
  rewrite Hs. cbn [Collection.ids Collection.index].
  rewrite option_Z_eqb_refl. reflexivity.
Qed.

Ltac open_resolve Ht :=
  unfold BonusStack.resolve, BonusStack.reset_effects, BonusStack.aggregate;
  cbn [Avatar.with_bonus_stack Avatar.bonus_stack Collection.items flat_map app
       Collection.empty];
  unfold BonusStack.get_effects at 1; rewrite Ht;
  cbn -[Avatar.set_velocity Avatar.set_radius Avatar.set_inverse
        Avatar.set_invincible Avatar.set_color Qplus Qmult Default.VELOCITY
        Default.RADIUS Py.max Qdiv Qpower].

Ltac project :=
  cbn [Avatar.velocity Avatar.radius Avatar.inverse Avatar.invincible Avatar.color
       Avatar.player_color Avatar.direction_in_loop Avatar.angular_velocity_base
       Avatar.bonus_stack Avatar.body
       Avatar.with_angular_velocity Avatar.with_angular_velocity_base
       Avatar.with_velocity_y Avatar.with_velocity_x Avatar.with_velocity
       Avatar.with_bonus_stack Avatar.with_radius Avatar.with_body
       Avatar.with_inverse Avatar.with_invincible Avatar.with_color].

(** A bonus whose one effect adds [delta] to the velocity. *)
Lemma velocity_bonus_restores (a : Avatar.t) (b : Bonus.t) (delta : Q) :
  BonusStack.get_effects b = [("velocity"%string, Value.Float delta)] ->
  Qeq_bool Default.VELOCITY
    (Py.max (Default.VELOCITY + delta) (Default.VELOCITY / 2)) = false ->
  Avatar.bonus_stack a = Collection.empty ->
  default_properties a ->
  exists a1,
    BonusStack.add a b = Ok a1 /\
    (Avatar.velocity a1 == Py.max (Default.VELOCITY + delta) (Default.VELOCITY / 2))%Q /\
    exists a2, BonusStack.remove a1 b = Ok a2 /\ default_properties a2.
Proof.
  intros He Hne Hs (Hv & Hr & Hi & Hn & Hc & Hd & Hb).
  assert (Hne' : Qeq_bool Default.VELOCITY (Default.VELOCITY + delta) = false).
  { destruct (Qeq_bool Default.VELOCITY (Default.VELOCITY + delta)) eqn:E;
      [|reflexivity].
    apply Qeq_bool_iff in E. rewrite <- Hne. symmetry. apply Qeq_bool_iff.
    unfold Py.max. destruct (Qlt_le_dec _ _) as [Hlt | _]; [|exact E].
    exfalso. rewrite <- E in Hlt. revert Hlt. compute. discriminate. }
  rewrite (add_on_empty a b Hs).
  unfold BonusStack.resolve, BonusStack.reset_effects, BonusStack.aggregate.
  cbn [Avatar.with_bonus_stack Avatar.bonus_stack Collection.items flat_map app].
  rewrite He.
  cbn -[Avatar.set_velocity Qplus Qmult Default.VELOCITY Py.max Qdiv].
  match goal with
  | |- context [Avatar.set_velocity ?x ?v] =>
      destruct (set_velocity_changed x v) as (vx & vy & base & av & E & _);
      [ exact Hd
      | cbn [Avatar.with_bonus_stack Avatar.velocity];
        apply (Qeq_bool_false_l _ _ _ Hv); exact Hne'
      | cbn [Avatar.with_bonus_stack Avatar.velocity];
        apply (Qeq_bool_false_l _ _ _ Hv); exact Hne
      | rewrite E ]
  end.
  eexists. split; [reflexivity|]. split; [project; reflexivity|].
  rewrite remove_last by reflexivity.
  unfold BonusStack.resolve, BonusStack.reset_effects, BonusStack.aggregate.
  cbn [Avatar.with_bonus_stack Avatar.bonus_stack Collection.items flat_map app
       Collection.empty].
  rewrite He.
  cbn -[Avatar.set_velocity Qplus Qmult Default.VELOCITY Py.max Qdiv].
  assert (Hsym : forall x y, Qeq_bool x y = false -> Qeq_bool y x = false).
  { intros x y H. destruct (Qeq_bool y x) eqn:E'; [|reflexivity].
    apply Qeq_bool_iff in E'. symmetry in E'. apply Qeq_bool_iff in E'. congruence. }
  match goal with
  | |- context [Avatar.set_velocity ?x ?v] =>
      destruct (set_velocity_changed x v) as (vx' & vy' & base' & av' & E' & Hb');
      [ exact Hd
      | project; apply Hsym; exact Hne
      | project; apply Hsym; exact Hne
      | rewrite E' ]
  end.
  eexists. split; [reflexivity|].
  unfold default_properties. project.
  repeat split; try assumption; try reflexivity.
  rewrite Hb'. apply default_base_angular_velocity.
Qed.

(** A bonus whose one effect adds [e] to the radius exponent. *)
Lemma radius_bonus_restores (a : Avatar.t) (b : Bonus.t) (e : Z) :
  BonusStack.get_effects b = [("radius"%string, Value.Int e)] ->
  Qeq_bool Default.RADIUS (Default.RADIUS * Qpower 2 e) = false ->
  Qeq_bool (Py.max (Default.RADIUS * Qpower 2 e) (Default.RADIUS / 8))
    Default.RADIUS = false ->
  Avatar.bonus_stack a = Collection.empty ->
  default_properties a ->
  exists a1,
    BonusStack.add a b = Ok a1 /\
    (Avatar.radius a1 == Py.max (Default.RADIUS * Qpower 2 e) (Default.RADIUS / 8))%Q /\
    exists a2, BonusStack.remove a1 b = Ok a2 /\ default_properties a2.
Proof.
  intros He Hne1 Hne2 Hs (Hv & Hr & Hi & Hn & Hc & Hd & Hb).
  rewrite (add_on_empty a b Hs).
  unfold BonusStack.resolve, BonusStack.reset_effects, BonusStack.aggregate.
  cbn [Avatar.with_bonus_stack Avatar.bonus_stack Collection.items flat_map app].
  rewrite He.
  cbn -[Avatar.set_radius Qplus Qmult Default.RADIUS Py.max Qdiv Qpower Z.add].
  unfold Avatar.set_radius at 1, Avatar.Qneb. project. rewrite Z.add_0_l.
  rewrite (Qeq_bool_false_l _ _ _ Hr Hne1). cbn [negb].
  eexists. split; [reflexivity|]. split; [project; reflexivity|].
  rewrite remove_last by reflexivity.
  unfold BonusStack.resolve, BonusStack.reset_effects, BonusStack.aggregate.
  cbn [Avatar.with_bonus_stack Avatar.bonus_stack Collection.items flat_map app
       Collection.empty].
  rewrite He.
  cbn -[Avatar.set_radius Qplus Qmult Default.RADIUS Py.max Qdiv Qpower Z.add].
  unfold Avatar.set_radius at 1, Avatar.Qneb. project.
  assert (E0 : Qeq_bool (Py.max (Default.RADIUS * Qpower 2 e) (Default.RADIUS / 8))
                 (Default.RADIUS * Qpower 2 0) = false) by exact Hne2.
  rewrite E0. cbn [negb].
  eexists. split; [reflexivity|].
  unfold default_properties. project.
  repeat split; try assumption; reflexivity.
Qed.

(** [EnemyInverse]: one [inverse] effect. *)
Lemma inverse_bonus_restores (a : Avatar.t) (b : Bonus.t) :
  BonusStack.get_effects b = [("inverse"%string, Value.Int 1)] ->
  Avatar.bonus_stack a = Collection.empty ->
  default_properties a ->
  exists a1,
    BonusStack.add a b = Ok a1 /\ Avatar.inverse a1 = true /\
    exists a2, BonusStack.remove a1 b = Ok a2 /\ default_properties a2.
Proof.
  intros He Hs (Hv & Hr & Hi & Hn & Hc & Hd & Hb).
  rewrite (add_on_empty a b Hs).
  unfold BonusStack.resolve, BonusStack.reset_effects, BonusStack.aggregate.
  cbn [Avatar.with_bonus_stack Avatar.bonus_stack Collection.items flat_map app].
  rewrite He. cbn -[Avatar.set_inverse].
  unfold Avatar.set_inverse at 1. project. rewrite Hi. cbn [Bool.eqb negb Default.INVERSE].
  match goal with
  | |- context [Avatar.update_angular_velocity ?x None] =>
      destruct (update_angular_velocity_frame x None) as [av ->]
  end.
  eexists. split; [reflexivity|]. split; [reflexivity|].
  rewrite remove_last by reflexivity.
  unfold BonusStack.resolve, BonusStack.reset_effects, BonusStack.aggregate.
  cbn [Avatar.with_bonus_stack Avatar.bonus_stack Collection.items flat_map app
       Collection.empty].
  rewrite He. cbn -[Avatar.set_inverse].
  unfold Avatar.set_inverse at 1. project. cbn [Bool.eqb negb].
  match goal with
  | |- context [Avatar.update_angular_velocity ?x None] =>
      destruct (update_angular_velocity_frame x None) as [av' ->]
  end.
  eexists. split; [reflexivity|].
  unfold default_properties. project.
  repeat split; try assumption; reflexivity.
Qed.

(** [SelfMaster]: one [invincible] effect. *)
Lemma invincible_bonus_restores (a : Avatar.t) (b : Bonus.t) :
  BonusStack.get_effects b = [("invincible"%string, Value.Int 1)] ->
  Avatar.bonus_stack a = Collection.empty ->
  default_properties a ->
  exists a1,
    BonusStack.add a b = Ok a1 /\ Avatar.invincible a1 = true /\
    exists a2, BonusStack.remove a1 b = Ok a2 /\ default_properties a2.
Proof.
  intros He Hs (Hv & Hr & Hi & Hn & Hc & Hd & Hb).
  rewrite (add_on_empty a b Hs).
  unfold BonusStack.resolve, BonusStack.reset_effects, BonusStack.aggregate.
  cbn [Avatar.with_bonus_stack Avatar.bonus_stack Collection.items flat_map app].
  rewrite He. cbn.
  eexists. split; [reflexivity|]. split; [reflexivity|].
  rewrite remove_last by reflexivity.
  unfold BonusStack.resolve, BonusStack.reset_effects, BonusStack.aggregate.
  cbn [Avatar.with_bonus_stack Avatar.bonus_stack Collection.items flat_map app
       Collection.empty].
  rewrite He. cbn.
  eexists. split; [reflexivity|].
  unfold default_properties. cbn.
  repeat split; try assumption; reflexivity.
Qed.

(** [AllColor]: one [color] effect, which replaces. *)
Lemma color_bonus_restores (a : Avatar.t) (b : Bonus.t) (c : string) :
  BonusStack.get_effects b = [("color"%string, Value.Str c)] ->
  Avatar.bonus_stack a = Collection.empty ->
  default_properties a ->
  exists a1,
    BonusStack.add a b = Ok a1 /\ Avatar.color a1 = c /\
    exists a2, BonusStack.remove a1 b = Ok a2 /\ default_properties a2.
Proof.
  intros He Hs (Hv & Hr & Hi & Hn & Hc & Hd & Hb).
  rewrite (add_on_empty a b Hs).
  unfold BonusStack.resolve, BonusStack.reset_effects, BonusStack.aggregate.
  cbn [Avatar.with_bonus_stack Avatar.bonus_stack Collection.items flat_map app].
  rewrite He. cbn.
  eexists. split; [reflexivity|]. split; [reflexivity|].
  rewrite remove_last by reflexivity.
  unfold BonusStack.resolve, BonusStack.reset_effects, BonusStack.aggregate.
  cbn [Avatar.with_bonus_stack Avatar.bonus_stack Collection.items flat_map app
       Collection.empty].
  rewrite He. cbn.
  eexists. split; [reflexivity|].
  unfold default_properties. cbn.
  repeat split; try assumption; reflexivity.
Qed.

End StackRestore.

Section StackClaim.
Context {M : MathLib}.

Lemma lookup_assign_eq (d : BonusStack.dict) (k : string) (v : Value.t) :
  BonusStack.lookup (BonusStack.assign d k v) k = Some v.
Proof.
  induction d as [|[k' v'] d IH]; cbn [BonusStack.assign BonusStack.lookup].
  - rewrite String.eqb_refl. reflexivity.
  - destruct (String.eqb k' k) eqn:E; cbn [BonusStack.lookup]; rewrite E;
      [reflexivity | exact IH].
Qed.

Lemma lookup_assign_neq (d : BonusStack.dict) (k k' : string) (v : Value.t) :
  String.eqb k' k = false ->
  BonusStack.lookup (BonusStack.assign d k' v) k = BonusStack.lookup d k.
Proof.
  intros Hne. induction d as [|[k0 v0] d IH]; cbn [BonusStack.assign BonusStack.lookup].
  - rewrite Hne. reflexivity.
  - destruct (String.eqb k0 k') eqn:E; cbn [BonusStack.lookup].
    + apply String.eqb_eq in E. subst k0. rewrite Hne. reflexivity.
    + destruct (String.eqb k0 k); [reflexivity | exact IH].
Qed.

(** Every bonus class whose effects the avatar stack knows by name: added
    to the empty stack of an avatar at its defaults and removed again, it
    leaves velocity, radius, inverse, invincible, colour, directionInLoop
    and angularVelocityBase at their defaults. *)
Lemma stack_add_remove_restores (a : Avatar.t) (b : Bonus.t) :
  named_by_stack (Bonus.type b) ->
  Avatar.bonus_stack a = Collection.empty ->
  default_properties a ->
  exists a1, BonusStack.add a b = Ok a1 /\
  exists a2, BonusStack.remove a1 b = Ok a2 /\ default_properties a2.
Proof.
  intros Hk Hs Hd.
  destruct (Bonus.type b) as [| | | | | | | | | | |c] eqn:Ht; try contradiction.
  - destruct (radius_bonus_restores a b (-1)) as (a1 & H1 & _ & H2); auto.
    + unfold BonusStack.get_effects. rewrite Ht. reflexivity.
    + exists a1. auto.
  - destruct (velocity_bonus_restores a b (- (5 # 10) * Default.VELOCITY))
      as (a1 & H1 & _ & H2); auto.
    + unfold BonusStack.get_effects. rewrite Ht. reflexivity.
    + exists a1. auto.
  - destruct (velocity_bonus_restores a b ((5 # 10) * Default.VELOCITY))
      as (a1 & H1 & _ & H2); auto.
    + unfold BonusStack.get_effects. rewrite Ht. reflexivity.
    + exists a1. auto.
  - destruct (invincible_bonus_restores a b) as (a1 & H1 & _ & H2); auto.
    + unfold BonusStack.get_effects. rewrite Ht. reflexivity.
    + exists a1. auto.
  - destruct (velocity_bonus_restores a b (- (75 # 100) * Default.VELOCITY))
      as (a1 & H1 & _ & H2); auto.
    + unfold BonusStack.get_effects. rewrite Ht. reflexivity.
    + exists a1. auto.
  - destruct (velocity_bonus_restores a b ((75 # 100) * Default.VELOCITY))
      as (a1 & H1 & _ & H2); auto.
    + unfold BonusStack.get_effects. rewrite Ht. reflexivity.
    + exists a1. auto.
  - destruct (radius_bonus_restores a b 1) as (a1 & H1 & _ & H2); auto.
    + unfold BonusStack.get_effects. rewrite Ht. reflexivity.
    + exists a1. auto.
  - destruct (inverse_bonus_restores a b) as (a1 & H1 & _ & H2); auto.
    + unfold BonusStack.get_effects. rewrite Ht. reflexivity.
    + exists a1. auto.
  - destruct (color_bonus_restores a b c) as (a1 & H1 & _ & H2); auto.
    + unfold BonusStack.get_effects. rewrite Ht. reflexivity.
    + exists a1. auto.
Qed.

(** [EnemyStraightAngle]: its effects name [directionInLoop] and
    [angularVelocityBase]; [apply] has no case for them and assigns
    attributes of these names, which the avatar does not read: while the
    bonus is active, and after it, [direction_in_loop] and
    [angular_velocity_base] keep their values.  On removal
    [get_default_property] answers 0 for both names, and the two
    attributes stay on the avatar with the value 0. *)
Lemma straight_angle_stray_attributes (a : Avatar.t) (b : Bonus.t) :
  Bonus.type b = Bonus.EnemyStraightAngle ->
  Avatar.bonus_stack a = Collection.empty ->
  exists a1,
    BonusStack.add a b = Ok a1 /\
    BonusStack.lookup (Avatar.attrs a1) "directionInLoop" = Some (Value.Bool false) /\
    BonusStack.lookup (Avatar.attrs a1) "angularVelocityBase"
    = Some (Value.Float BonusStack.half_pi) /\
    Avatar.direction_in_loop a1 = Avatar.direction_in_loop a /\
    Avatar.angular_velocity_base a1 = Avatar.angular_velocity_base a /\
    exists a2,
      BonusStack.remove a1 b = Ok a2 /\
      BonusStack.lookup (Avatar.attrs a2) "directionInLoop" = Some (Value.Int 0) /\
      BonusStack.lookup (Avatar.attrs a2) "angularVelocityBase" = Some (Value.Int 0) /\
      Value.Int 0 <> Value.Bool Default.DIRECTION_IN_LOOP /\
      Value.Int 0 <> Value.Float Default.ANGULAR_VELOCITY_BASE /\
      Avatar.direction_in_loop a2 = Avatar.direction_in_loop a /\
      Avatar.angular_velocity_base a2 = Avatar.angular_velocity_base a.
Proof.
  intros Ht Hs.
  rewrite (add_on_empty a b Hs).
  unfold BonusStack.resolve, BonusStack.reset_effects, BonusStack.aggregate.
  cbn [Avatar.with_bonus_stack Avatar.bonus_stack Collection.items flat_map app].
  unfold BonusStack.get_effects at 1. rewrite Ht.
  cbn -[BonusStack.assign BonusStack.half_pi].
  eexists. split; [reflexivity|].
  cbn [Avatar.attrs Avatar.with_attrs Avatar.direction_in_loop
       Avatar.angular_velocity_base Avatar.bonus_stack].
  split; [rewrite lookup_assign_neq by reflexivity; apply lookup_assign_eq|].
  split; [apply lookup_assign_eq|]. split; [reflexivity|]. split; [reflexivity|].
  rewrite remove_last by reflexivity.
  unfold BonusStack.resolve, BonusStack.reset_effects, BonusStack.aggregate.
  cbn [Avatar.with_bonus_stack Avatar.bonus_stack Collection.items flat_map app
       Collection.empty].
  unfold BonusStack.get_effects at 1. rewrite Ht.
  cbn -[BonusStack.assign BonusStack.half_pi].
  eexists. split; [reflexivity|].
  cbn [Avatar.attrs Avatar.with_attrs Avatar.direction_in_loop
       Avatar.angular_velocity_base Avatar.bonus_stack].
  split; [rewrite lookup_assign_neq by reflexivity; apply lookup_assign_eq|].
  split; [apply lookup_assign_eq|].
  repeat split; try reflexivity; discriminate.
Qed.

End StackClaim.

Lemma straight_angle_stray_attributes_example :
  exists a1 a2,
    BonusStack.add (M := coarse_math) avatar1 straight_bonus = Ok a1 /\
    BonusStack.remove (M := coarse_math) a1 straight_bonus = Ok a2 /\
    Avatar.attrs a2
    = [("directionInLoop"%string, Value.Int 0);
       ("angularVelocityBase"%string, Value.Int 0)] /\
    Avatar.direction_in_loop a1 = true /\ Avatar.direction_in_loop a2 = true.
Proof.
  destruct (straight_angle_stray_attributes (M := coarse_math) avatar1 straight_bonus
              eq_refl eq_refl)
    as (a1 & H1 & _ & _ & Hd1 & _ & a2 & H2 & _ & _ & _ & _ & Hd2 & _).
  exists a1, a2. split; [exact H1|]. split; [exact H2|].
  split; [|split; [exact Hd1 | exact Hd2]].
  vm_compute in H1. injection H1 as <-. vm_compute in H2. injection H2 as <-.
  reflexivity.
Defined.

(** ** Scores: the tick, the round and the operations *)

Lemma bind_ok {A B : Type} (m : result A) (k : A -> result B) (b : B) :
  bind m k = Ok b -> exists a, m = Ok a /\ k a = Ok b.
Proof. destruct m as [a|e]; [exists a; auto | discriminate]. Qed.

Lemma Ok_inj {A : Type} (a b : A) : Ok a = Ok b -> a = b.
Proof. intros H. injection H as H. exact H. Qed.

Lemma Some_inj {A : Type} (a b : A) : Some a = Some b -> a = b.
Proof. intros H. exact (f_equal (fun o => match o with Some x => x | None => a end) H). Qed.

Ltac ok H := apply Ok_inj in H; subst.

Section LedgerFacts.
Context {M : MathLib}.

Ltac keep :=
  repeat match goal with
         | |- context [if ?c then _ else _] => destruct c
         | |- context [match ?c with Some _ => _ | None => _ end] => destruct c
         | |- context [let '(_, _) := ?c in _] => destruct c
         end; try reflexivity.

Lemma ledger_set_position a x y : ledger (Avatar.set_position a x y) = ledger a.
Proof. reflexivity. Qed.

Lemma ledger_add_point a x y : ledger (Avatar.add_point a x y) = ledger a.
Proof. reflexivity. Qed.

Lemma ledger_set_angular_velocity a v : ledger (Avatar.set_angular_velocity a v) = ledger a.
Proof. unfold Avatar.set_angular_velocity. keep. Qed.

Lemma ledger_update_angular_velocity a f : ledger (Avatar.update_angular_velocity a f) = ledger a.
Proof.
  unfold Avatar.update_angular_velocity.
  destruct f; [apply ledger_set_angular_velocity|].
  destruct (Qeq_bool _ _); [reflexivity | apply ledger_set_angular_velocity].
Qed.

Lemma ledger_update_base_angular_velocity a a' :
  Avatar.update_base_angular_velocity a = Ok a' -> ledger a' = ledger a.
Proof.
  unfold Avatar.update_base_angular_velocity.
  destruct (Avatar.direction_in_loop a); [|intros [= <-]; reflexivity].
  intros H. apply bind_ok in H as (q & _ & H). apply bind_ok in H as (l & _ & H).
  apply Ok_inj in H; subst a'. rewrite ledger_update_angular_velocity. reflexivity.
Qed.

Lemma ledger_update_velocities a a' :
  Avatar.update_velocities a = Ok a' -> ledger a' = ledger a.
Proof.
  unfold Avatar.update_velocities. intros H.
  apply ledger_update_base_angular_velocity in H. exact H.
Qed.

Lemma ledger_set_angle a x a' : Avatar.set_angle a x = Ok a' -> ledger a' = ledger a.
Proof.
  unfold Avatar.set_angle. destruct (Avatar.Qneb _ _); [|intros [= <-]; reflexivity].
  intros H. apply ledger_update_velocities in H. exact H.
Qed.

Lemma ledger_set_velocity a v a' : Avatar.set_velocity a v = Ok a' -> ledger a' = ledger a.
Proof.
  unfold Avatar.set_velocity, Avatar.base_set_velocity.
  destruct (Avatar.Qneb _ v); [|intros [= <-]; reflexivity].
  destruct (Avatar.Qneb _ _); [|intros [= <-]; reflexivity].
  intros H. apply ledger_update_velocities in H. exact H.
Qed.

Lemma ledger_set_radius a r : ledger (Avatar.set_radius a r) = ledger a.
Proof. unfold Avatar.set_radius. keep. Qed.

Lemma ledger_set_inverse a b : ledger (Avatar.set_inverse a b) = ledger a.
Proof.
  unfold Avatar.set_inverse. destruct (negb _); [|reflexivity].
  rewrite ledger_update_angular_velocity. reflexivity.
Qed.

Lemma ledger_update_angle a step a' :
  Avatar.update_angle a step = Ok a' -> ledger a' = ledger a.
Proof.
  unfold Avatar.update_angle. destruct (Avatar.Qneb _ _); [|intros [= <-]; reflexivity].
  destruct (Avatar.direction_in_loop a); [apply ledger_set_angle|].
  intros H. apply bind_ok in H as (a1 & E & H). apply Ok_inj in H; subst a'.
  rewrite ledger_update_angular_velocity. eapply ledger_set_angle; eassumption.
Qed.

Lemma ledger_update a step a' : Avatar.update a step = Ok a' -> ledger a' = ledger a.
Proof.
  unfold Avatar.update. destruct (Avatar.alive a) eqn:Ha; [|intros [= <-]; reflexivity].
  intros H. apply bind_ok in H as (a1 & E & H). apply Ok_inj in H; subst a'.
  apply ledger_update_angle in E. rewrite <- E.
  destruct (_ && _); reflexivity.
Qed.

Lemma ledger_set_printing a p : ledger (Avatar.set_printing a p) = ledger a.
Proof. unfold Avatar.set_printing. keep. Qed.

Lemma ledger_print_manager_set_printing a p :
  ledger (Avatar.print_manager_set_printing a p) = ledger a.
Proof.
  unfold Avatar.print_manager_set_printing.
  destruct (Avatar.get_random_distance _) as [d r].
  change (ledger (Avatar.set_printing a p) = ledger a). apply ledger_set_printing.
Qed.

Lemma ledger_print_manager_start a : ledger (Avatar.print_manager_start a) = ledger a.
Proof.
  unfold Avatar.print_manager_start. destruct (negb _); [|reflexivity].
  rewrite ledger_print_manager_set_printing. reflexivity.
Qed.

Lemma ledger_print_manager_stop a : ledger (Avatar.print_manager_stop a) = ledger a.
Proof.
  unfold Avatar.print_manager_stop. destruct (PrintManager.active _); [|reflexivity].
  unfold Avatar.print_manager_clear.
  change (ledger (Avatar.print_manager_set_printing
       (Avatar.with_print_manager
          (PrintManager.mk false (PrintManager.last_x (Avatar.print_manager a))
             (PrintManager.last_y (Avatar.print_manager a))
             (PrintManager.distance (Avatar.print_manager a))
             (PrintManager.rnd (Avatar.print_manager a))) a) false) = ledger a).
  rewrite ledger_print_manager_set_printing. reflexivity.
Qed.

Lemma ledger_print_manager_test a : ledger (Avatar.print_manager_test a) = ledger a.
Proof.
  unfold Avatar.print_manager_test. destruct (PrintManager.active _); [|reflexivity].
  cbv zeta. destruct (Island.Qltb _ _); [reflexivity|].
  unfold Avatar.print_manager_toggle_printing.
  rewrite ledger_print_manager_set_printing. reflexivity.
Qed.

End LedgerFacts.

Lemma fold_raise {A B : Type} (f : A -> B -> result A) (l : list B) (e : exn) :
  fold_left (fun acc b => bind acc (fun a => f a b)) l (Raise e) = Raise e.
Proof. induction l as [|b l IH]; [reflexivity | exact IH]. Qed.

Lemma fold_result_inv {A B : Type} (R : A -> A -> Prop) (f : A -> B -> result A) :
  (forall a, R a a) -> (forall a b c, R a b -> R b c -> R a c) ->
  (forall a b a', f a b = Ok a' -> R a a') ->
  forall l a a',
    fold_left (fun acc b => bind acc (fun a => f a b)) l (Ok a) = Ok a' -> R a a'.
Proof.
  intros Hrefl Htrans Hf l. induction l as [|b l IH]; intros a a' H.
  - apply Ok_inj in H. subst a'. apply Hrefl.
  - cbn [fold_left bind] in H. destruct (f a b) as [a1|e] eqn:E.
    + apply (Htrans a a1 a'); [apply (Hf a b); exact E | apply IH; exact H].
    + rewrite fold_raise in H. discriminate.
Qed.

(** The same, for a step that holds only inside a set of elements. *)
Lemma fold_result_inv_in {A B : Type} (R : A -> A -> Prop) (f : A -> B -> result A) (l : list B) :
  (forall a, R a a) -> (forall a b c, R a b -> R b c -> R a c) ->
  (forall a b a', In b l -> f a b = Ok a' -> R a a') ->
  forall a a',
    fold_left (fun acc b => bind acc (fun a => f a b)) l (Ok a) = Ok a' -> R a a'.
Proof.
  intros Hrefl Htrans. induction l as [|b l IH]; intros Hf a a' H.
  - apply Ok_inj in H. subst a'. apply Hrefl.
  - cbn [fold_left bind] in H. destruct (f a b) as [a1|e] eqn:E.
    + apply (Htrans a a1 a'); [apply (Hf a b); [left; reflexivity | exact E]|].
      apply IH; [|exact H]. intros x y z Hin. apply Hf. right. exact Hin.
    + rewrite fold_raise in H. discriminate.
Qed.

(** ** Lists updated at one position *)

Lemma replace_nth_length {A : Type} (i : nat) (a : A) (l : list A) :
  List.length (Game.replace_nth i a l) = List.length l.
Proof.
  revert i. induction l as [|b l IH]; intros i; [destruct i; reflexivity|].
  destruct i; cbn [Game.replace_nth List.length]; [reflexivity | rewrite IH; reflexivity].
Qed.

Lemma map_replace_nth {A B : Type} (f : A -> B) (i : nat) (a : A) (l : list A) :
  map f (Game.replace_nth i a l) = Game.replace_nth i (f a) (map f l).
Proof.
  revert i. induction l as [|b l IH]; intros i; [destruct i; reflexivity|].
  destruct i; cbn [Game.replace_nth map]; [reflexivity | rewrite IH; reflexivity].
Qed.

Lemma replace_nth_same {A : Type} (i : nat) (a : A) (l : list A) :
  nth_error l i = Some a -> Game.replace_nth i a l = l.
Proof.
  revert i. induction l as [|b l IH]; intros i H; [destruct i; reflexivity|].
  destruct i; cbn [Game.replace_nth nth_error] in *.
  - injection H as ->. reflexivity.
  - rewrite IH by exact H. reflexivity.
Qed.

Lemma nth_error_replace_nth {A : Type} (i j : nat) (a : A) (l : list A) :
  nth_error (Game.replace_nth i a l) j
  = if (i =? j)%nat then option_map (fun _ => a) (nth_error l j) else nth_error l j.
Proof.
  revert i j. induction l as [|b l IH]; intros i j.
  - destruct i, j; cbn [Game.replace_nth nth_error option_map]; try reflexivity.
    destruct (_ =? _)%nat; reflexivity.
  - destruct i, j; cbn [Game.replace_nth nth_error Nat.eqb option_map]; try reflexivity.
    apply IH.
Qed.

Lemma replace_nth_twice {A : Type} (i : nat) (a b : A) (l : list A) :
  Game.replace_nth i b (Game.replace_nth i a l) = Game.replace_nth i b l.
Proof.
  revert i. induction l as [|c l IH]; intros i; [destruct i; reflexivity|].
  destruct i; cbn [Game.replace_nth]; [reflexivity | rewrite IH; reflexivity].
Qed.

(** ** The ledger of a game *)

Lemma ledgers_put g i a : ledgers (Game.put g i a) = Game.replace_nth i (ledger a) (ledgers g).
Proof. unfold ledgers, Game.put. cbn [Game.avatars Game.with_avatars Collection.items]. apply map_replace_nth. Qed.

Lemma nth_error_ledgers g i : nth_error (ledgers g) i = option_map ledger (Game.get g i).
Proof. unfold ledgers, Game.get. apply nth_error_map. Qed.

Lemma view_ledgers g g' : view g' = view g -> ledgers g' = ledgers g.
Proof. intros H. exact (f_equal (fun v => fst (fst v)) H). Qed.

Lemma view_frame g g' : view g' = view g -> frame g' = frame g.
Proof. intros H. exact (f_equal (fun v => snd (fst v)) H). Qed.

Lemma frame_in_round g g' : frame g' = frame g -> Game.in_round g' = Game.in_round g.
Proof. intros H. exact (f_equal fst H). Qed.

Lemma frame_ids g g' :
  frame g' = frame g -> Collection.ids (Game.avatars g') = Collection.ids (Game.avatars g).
Proof. intros H. exact (f_equal snd H). Qed.

Lemma view_in_round g g' : view g' = view g -> Game.in_round g' = Game.in_round g.
Proof. intros H. apply frame_in_round, view_frame, H. Qed.

Lemma view_deaths g g' : view g' = view g -> Game.deaths g' = Game.deaths g.
Proof. intros H. exact (f_equal snd H). Qed.

Lemma view_put g i a :
  view (Game.put g i a) = (Game.replace_nth i (ledger a) (ledgers g), frame g, Game.deaths g).
Proof. unfold view. rewrite ledgers_put. reflexivity. Qed.

Lemma view_put_same g i a a' :
  Game.get g i = Some a -> ledger a' = ledger a -> view (Game.put g i a') = view g.
Proof.
  intros Hg Hl. rewrite view_put, Hl. unfold view. f_equal. f_equal. apply replace_nth_same.
  rewrite nth_error_ledgers, Hg. reflexivity.
Qed.

Lemma get_put g i a a' : Game.get g i = Some a -> Game.get (Game.put g i a') i = Some a'.
Proof.
  intros Hg. unfold Game.get, Game.put in *.
  cbn [Game.avatars Game.with_avatars Collection.items].
  rewrite nth_error_replace_nth, Nat.eqb_refl, Hg. reflexivity.
Qed.

Lemma view_modify g i f :
  view (Game.modify g i f)
  = match Game.get g i with
    | Some a => (Game.replace_nth i (ledger (f a)) (ledgers g), frame g, Game.deaths g)
    | None => view g
    end.
Proof. unfold Game.modify. destruct (Game.get g i); [apply view_put | reflexivity]. Qed.

Lemma view_modify_same g i f :
  (forall a, ledger (f a) = ledger a) -> view (Game.modify g i f) = view g.
Proof.
  intros Hf. unfold Game.modify. destruct (Game.get g i) as [a|] eqn:E; [|reflexivity].
  eapply view_put_same; [exact E | apply Hf].
Qed.

Section GameLedger.
Context {M : MathLib}.

Lemma view_on_point g i x y g' : Game.on_point g i x y = Ok g' -> view g' = view g.
Proof.
  unfold Game.on_point. destruct (_ && _); [|intros H; apply Ok_inj in H; subst; reflexivity].
  destruct (Game.get g i) as [a|] eqn:E; [|intros H; apply Ok_inj in H; subst; reflexivity].
  cbv zeta. intros H. apply bind_ok in H as ([w b] & _ & H). apply Ok_inj in H. subst g'.
  change (view (Game.put g i (Avatar.with_body_count (Avatar.body_count a + 1) a)) = view g).
  eapply view_put_same; [exact E | reflexivity].
Qed.

Lemma view_on_points pts : forall g i g', Game.on_points g i pts = Ok g' -> view g' = view g.
Proof.
  induction pts as [|[x y] pts IH]; intros g i g' H; cbn [Game.on_points] in H.
  - apply Ok_inj in H. subst. reflexivity.
  - apply bind_ok in H as (g1 & H1 & H). apply view_on_point in H1. apply IH in H.
    congruence.
Qed.

Lemma view_deliver g i g' : Game.deliver g i = Ok g' -> view g' = view g.
Proof.
  unfold Game.deliver. destruct (Game.get g i) as [a|] eqn:E;
    [|intros H; apply Ok_inj in H; subst; reflexivity].
  intros H. apply view_on_points in H. rewrite H.
  eapply view_put_same; [exact E | reflexivity].
Qed.

(** A method call changes the ledger at the position of the avatar alone. *)
Lemma view_call g i f g' :
  Game.call g i f = Ok g' ->
  match Game.get g i with
  | Some a =>
      exists a', f a = Ok a' /\
                 view g' = (Game.replace_nth i (ledger a') (ledgers g), frame g, Game.deaths g)
  | None => g' = g
  end.
Proof.
  unfold Game.call. destruct (Game.get g i) as [a|] eqn:E;
    [|intros H; apply Ok_inj in H; subst; reflexivity].
  intros H. apply bind_ok in H as (a' & Hf & H). exists a'. split; [exact Hf|].
  apply view_deliver in H. rewrite H. apply view_put.
Qed.

Lemma view_call_same g i f g' :
  (forall a a', f a = Ok a' -> ledger a' = ledger a) ->
  Game.call g i f = Ok g' -> view g' = view g.
Proof.
  intros Hf H. apply view_call in H. destruct (Game.get g i) as [a|] eqn:E; [|subst; reflexivity].
  destruct H as (a' & Ha & ->). rewrite (Hf a a' Ha). unfold view. f_equal. f_equal.
  apply replace_nth_same. rewrite nth_error_ledgers, E. reflexivity.
Qed.

End GameLedger.

Section StackLedger.
Context {M : MathLib}.

Lemma ledger_apply a p v a' : BonusStack.apply a p v = Ok a' -> ledger a' = ledger a.
Proof.
  unfold BonusStack.apply, BonusStack.base_apply.
  destruct (String.eqb p "radius").
  { intros H. apply bind_ok in H as (e & _ & H). ok H. apply ledger_set_radius. }
  destruct (String.eqb p "velocity").
  { destruct (Value.as_float v); [apply ledger_set_velocity | discriminate]. }
  destruct (String.eqb p "inverse").
  { intros H. apply bind_ok in H as (e & _ & H). ok H. apply ledger_set_inverse. }
  destruct (String.eqb p "invincible").
  { intros H. ok H. reflexivity. }
  destruct (String.eqb p "printing").
  { intros H. apply bind_ok in H as (e & _ & H). ok H.
    destruct e; [apply ledger_print_manager_start | apply ledger_print_manager_stop]. }
  destruct (String.eqb p "color").
  { destruct v; try discriminate. intros H. ok H. reflexivity. }
  destruct (existsb _ _); [discriminate|]. intros H. ok H. reflexivity.
Qed.

Lemma ledger_apply_all properties a a' :
  BonusStack.apply_all a properties = Ok a' -> ledger a' = ledger a.
Proof.
  unfold BonusStack.apply_all.
  apply (fold_result_inv (fun a a' => ledger a' = ledger a)
           (fun a entry => BonusStack.apply a (fst entry) (snd entry))).
  - reflexivity.
  - intros x y z H1 H2. congruence.
  - intros x e x'. apply ledger_apply.
Qed.

Lemma ledger_resolve a b a' : BonusStack.resolve a b = Ok a' -> ledger a' = ledger a.
Proof.
  unfold BonusStack.resolve. intros H. apply bind_ok in H as (p & _ & H).
  eapply ledger_apply_all. exact H.
Qed.

Lemma ledger_stack_add a b a' : BonusStack.add a b = Ok a' -> ledger a' = ledger a.
Proof.
  unfold BonusStack.add. destruct (BonusStack.bonuses_add _ _) as [c []].
  - intros H. apply ledger_resolve in H. exact H.
  - intros H. ok H. reflexivity.
Qed.

Lemma ledger_stack_remove a b a' : BonusStack.remove a b = Ok a' -> ledger a' = ledger a.
Proof.
  unfold BonusStack.remove. destruct (BonusStack.bonuses_remove _ _) as [c []].
  - intros H. apply ledger_resolve in H. exact H.
  - intros H. ok H. reflexivity.
Qed.

(** The game's own stack *)

Lemma view_set_borderless g b : view (Game.set_borderless g b) = view g.
Proof. unfold Game.set_borderless. destruct (negb _); reflexivity. Qed.

Lemma view_stack_resolve g b g' : Game.stack_resolve g b = Ok g' -> view g' = view g.
Proof.
  unfold Game.stack_resolve. intros H. apply bind_ok in H as (p & _ & H). revert H.
  apply (fold_result_inv (fun g g' => view g' = view g)
           (fun g entry => Game.stack_apply g (fst entry) (snd entry))).
  - reflexivity.
  - intros x y z H1 H2. congruence.
  - intros x e x'. unfold Game.stack_apply. destruct (String.eqb _ _); [|discriminate].
    intros H. ok H. apply view_set_borderless.
Qed.

Lemma view_stack_add g b g' : Game.stack_add g b = Ok g' -> view g' = view g.
Proof.
  unfold Game.stack_add. destruct (BonusStack.bonuses_add _ _) as [c []].
  - intros H. apply view_stack_resolve in H. exact H.
  - intros H. ok H. reflexivity.
Qed.

Lemma view_stack_remove g b g' : Game.stack_remove g b = Ok g' -> view g' = view g.
Proof.
  unfold Game.stack_remove. destruct (BonusStack.bonuses_remove _ _) as [c []].
  - intros H. apply view_stack_resolve in H. exact H.
  - intros H. ok H. reflexivity.
Qed.

Lemma view_add_to_stacks b l : forall g g',
  Game.add_to_stacks g b l = Ok g' -> view g' = view g.
Proof.
  induction l as [|i l IH]; intros g g' H; cbn [Game.add_to_stacks] in H.
  - ok H. reflexivity.
  - apply bind_ok in H as (g1 & H1 & H). apply IH in H. rewrite H.
    eapply view_call_same; [|exact H1]. intros a a'. apply ledger_stack_add.
Qed.

Lemma view_remove_from_stacks b l : forall g g',
  Game.remove_from_stacks g b l = Ok g' -> view g' = view g.
Proof.
  induction l as [|i l IH]; intros g g' H; cbn [Game.remove_from_stacks] in H.
  - ok H. reflexivity.
  - apply bind_ok in H as (g1 & H1 & H). apply IH in H. rewrite H.
    eapply view_call_same; [|exact H1]. intros a a'. apply ledger_stack_remove.
Qed.

Lemma view_on g b tg g' : Game.on g b tg = Ok g' -> view g' = view g.
Proof.
  unfold Game.on. destruct tg.
  - intros H. ok H. reflexivity.
  - apply view_add_to_stacks.
  - apply view_add_to_stacks.
  - destruct (Bonus.type b); try apply view_stack_add.
    intros H. ok H. reflexivity.
Qed.

Lemma view_off g b tg g' : Game.off g b tg = Ok g' -> view g' = view g.
Proof.
  unfold Game.off. destruct tg.
  - intros H. ok H. reflexivity.
  - apply view_remove_from_stacks.
  - apply view_remove_from_stacks.
  - apply view_stack_remove.
Qed.

Lemma view_apply_to g b i g' : Game.apply_to g b i = Ok g' -> view g' = view g.
Proof.
  unfold Game.apply_to. intros H. apply view_on in H. rewrite H.
  destruct (negb _); reflexivity.
Qed.

Lemma view_test_catch g i g' : Game.test_catch g i = Ok g' -> view g' = view g.
Proof.
  unfold Game.test_catch. destruct (Game.get g i) as [a|]; [|intros H; ok H; reflexivity].
  intros H. apply bind_ok in H as ([m caught] & _ & H). destruct caught as [b|].
  - apply view_apply_to in H. exact H.
  - ok H. reflexivity.
Qed.

End StackLedger.

Lemma ticked_refl s l : ticked s l l.
Proof. left. reflexivity. Qed.

Lemma ticked_trans s l1 l2 l3 : ticked s l1 l2 -> ticked s l2 l3 -> ticked s l1 l3.
Proof.
  intros [->|[H1 ->]] [->|[H2 ->]].
  - left; reflexivity.
  - right; auto.
  - right; auto.
  - discriminate H2.
Qed.

Lemma Forall2_refl {A : Type} (R : A -> A -> Prop) (l : list A) :
  (forall a, R a a) -> Forall2 R l l.
Proof. intros H. induction l; constructor; auto. Qed.

Lemma Forall2_trans {A : Type} (R : A -> A -> Prop) :
  (forall a b c, R a b -> R b c -> R a c) ->
  forall l1 l2 l3, Forall2 R l1 l2 -> Forall2 R l2 l3 -> Forall2 R l1 l3.
Proof.
  intros Ht l1 l2 l3 H. revert l3. induction H; intros l3 H3; inversion H3; subst.
  - constructor.
  - constructor; eauto.
Qed.

Lemma Forall2_replace_nth {A : Type} (R : A -> A -> Prop) (i : nat) (a b : A) (l : list A) :
  (forall a, R a a) -> nth_error l i = Some a -> R a b ->
  Forall2 R l (Game.replace_nth i b l).
Proof.
  intros Hr. revert i. induction l as [|c l IH]; intros i Hn Hab.
  - destruct i; discriminate.
  - destruct i; cbn [Game.replace_nth nth_error] in *.
    + injection Hn as ->. constructor; [exact Hab | apply Forall2_refl; exact Hr].
    + constructor; [apply Hr | apply IH; assumption].
Qed.

Lemma Forall2_nth_error {A : Type} (R : A -> A -> Prop) (l l' : list A) (i : nat) (a : A) :
  Forall2 R l l' -> nth_error l i = Some a ->
  exists a', nth_error l' i = Some a' /\ R a a'.
Proof.
  intros H. revert i. induction H as [|x y l l' Hxy H IH]; intros i Hn.
  - destruct i; discriminate.
  - destruct i; cbn [nth_error] in *.
    + injection Hn as ->. exists y. auto.
    + apply IH. exact Hn.
Qed.

Lemma ticks_refl s g : ticks s g g.
Proof. split; [apply Forall2_refl; apply ticked_refl | reflexivity]. Qed.

Lemma ticks_trans s g1 g2 g3 : ticks s g1 g2 -> ticks s g2 g3 -> ticks s g1 g3.
Proof.
  intros [H1 E1] [H2 E2]. split; [|congruence].
  eapply Forall2_trans; [apply ticked_trans | exact H1 | exact H2].
Qed.

Lemma ticks_same s g g' : view g' = view g -> ticks s g g'.
Proof.
  intros H. split; [|apply view_frame; exact H].
  rewrite (view_ledgers _ _ H). apply Forall2_refl. apply ticked_refl.
Qed.

Section TickLedger.
Context {M : MathLib}.

Lemma ledger_die a :
  ledger (Avatar.die a)
  = Ledger.mk (Avatar.id a) false (Avatar.present a) (Avatar.score a) (Avatar.round_score a).
Proof.
  unfold Avatar.die. cbv zeta. rewrite ledger_print_manager_stop. reflexivity.
Qed.

(** [Game.kill] credits the avatar at [i], and no other. *)
Lemma view_kill g i killer s g' a :
  Game.get g i = Some a -> Game.kill g i killer s = Ok g' ->
  view g' = (Game.replace_nth i (credit s (ledger a)) (ledgers g), frame g,
             fst (Game.deaths_add (Game.deaths g) (Avatar.id a))).
Proof.
  intros Hg. unfold Game.kill. intros H. apply bind_ok in H as (g1 & H1 & H). ok H.
  apply view_call in H1. rewrite Hg in H1. destruct H1 as (a1 & Ha1 & V1).
  ok Ha1. rewrite ledger_die in V1.
  pose proof (f_equal (fun v => fst (fst v)) V1) as H1.
  pose proof (f_equal (fun v => snd (fst v)) V1) as R1.
  pose proof (f_equal snd V1) as D1.
  cbn [fst snd view] in H1, R1, D1.
  assert (Hn : nth_error (ledgers g1) i
               = Some (Ledger.mk (Avatar.id a) false (Avatar.present a)
                         (Avatar.score a) (Avatar.round_score a))).
  { rewrite H1, nth_error_replace_nth, Nat.eqb_refl, nth_error_ledgers, Hg. reflexivity. }
  rewrite nth_error_ledgers in Hn.
  destruct (Game.get g1 i) as [a1|] eqn:E1; [|discriminate].
  cbn [option_map] in Hn. apply (f_equal (fun o => match o with Some l => l | None => ledger a end)) in Hn.
  set (g2 := Game.modify g1 i (fun a0 => Avatar.add_score a0 s)).
  assert (H2 : view g2 = (Game.replace_nth i (credit s (ledger a)) (ledgers g),
                          frame g, Game.deaths g)).
  { unfold g2. rewrite view_modify, E1, H1, R1, D1, replace_nth_twice. f_equal. f_equal. f_equal.
    unfold credit, Avatar.add_score, Avatar.set_round_score.
    change (ledger (Avatar.with_round_score (Avatar.round_score a1 + s) a1))
      with (Ledger.mk (Ledger.id (ledger a1)) (Ledger.alive (ledger a1))
              (Ledger.present (ledger a1)) (Ledger.score (ledger a1))
              (Ledger.round_score (ledger a1) + s)).
    rewrite Hn. reflexivity. }
  assert (E2 : exists a2, Game.get g2 i = Some a2 /\ Avatar.id a2 = Avatar.id a).
  { pose proof (f_equal (fun v => nth_error (fst (fst v)) i) H2) as Hn2.
    cbn [fst view] in Hn2.
    rewrite nth_error_replace_nth, Nat.eqb_refl, !nth_error_ledgers, Hg in Hn2.
    destruct (Game.get g2 i) as [a2|]; [|discriminate]. exists a2. split; [reflexivity|].
    cbn [option_map] in Hn2. injection Hn2 as Hid _. exact Hid. }
  destruct E2 as (a2 & E2 & Hid). rewrite E2, Hid.
  pose proof (f_equal (fun v => fst (fst v)) H2) as L2.
  pose proof (f_equal (fun v => snd (fst v)) H2) as R2.
  pose proof (f_equal snd H2) as D2. cbn [fst snd view] in L2, R2, D2.
  unfold view. cbn [Game.with_death_in_frame Game.with_deaths Game.deaths].
  change (frame (Game.with_death_in_frame true (Game.with_deaths
            (fst (Game.deaths_add (Game.deaths g2) (Avatar.id a))) g2))) with (frame g2).
  change (ledgers (Game.with_death_in_frame true (Game.with_deaths
            (fst (Game.deaths_add (Game.deaths g2) (Avatar.id a))) g2))) with (ledgers g2).
  rewrite L2, R2, D2. reflexivity.
Qed.

Lemma ticks_kill g i killer s g' a :
  Game.get g i = Some a -> Avatar.alive a = true ->
  Game.kill g i killer s = Ok g' -> ticks s g g'.
Proof.
  intros Hg Ha H. pose proof (view_kill g i killer s g' a Hg H) as V.
  split; [|exact (f_equal (fun v => snd (fst v)) V)].
  rewrite (f_equal (fun v => fst (fst v)) V : ledgers g' = _).
  apply Forall2_replace_nth with (a := ledger a).
  - apply ticked_refl.
  - rewrite nth_error_ledgers, Hg. reflexivity.
  - right. split; [exact Ha | reflexivity].
Qed.

Lemma get_ledger_alive g g' i a a' :
  ledgers g' = ledgers g -> Game.get g i = Some a -> Game.get g' i = Some a' ->
  ledger a' = ledger a.
Proof.
  intros H Hg Hg'. apply (f_equal (fun l => nth_error l i)) in H.
  rewrite !nth_error_ledgers, Hg, Hg' in H. cbn [option_map] in H. congruence.
Qed.

(** The body of the loop, for one avatar. *)
Lemma ticks_update_avatar s step g i g' :
  Game.update_avatar s step g i = Ok g' -> ticks s g g'.
Proof.
  unfold Game.update_avatar.
  destruct (Game.get g i) as [a|] eqn:Hg; [|intros H; ok H; apply ticks_refl].
  destruct (Avatar.alive a) eqn:Ha; [|intros H; ok H; apply ticks_refl].
  intros H. apply bind_ok in H as (g1 & H1 & H). apply bind_ok in H as (g2 & H2 & H).
  assert (V1 : view g1 = view g).
  { eapply view_call_same; [|exact H1]. intros x x'. apply ledger_update. }
  pose proof (view_ledgers _ _ V1) as L1.
  assert (T2 : ticks s g1 g2).
  { destruct (Game.get g1 i) as [a1|] eqn:Hg1; [|ok H2; apply ticks_refl].
    assert (Ha1 : Avatar.alive a1 = true).
    { pose proof (get_ledger_alive g g1 i a a1 L1 Hg Hg1) as E.
      apply (f_equal Ledger.alive) in E. cbn in E. congruence. }
    destruct (World.get_bound_intersect _ _ _) as [[bx by_]|].
    - destruct (Game.borderless g1).
      + destruct (World.get_opposite _ _ _) as [px py]. ok H2. apply ticks_same.
        apply view_modify_same. intros x. reflexivity.
      + eapply ticks_kill; eassumption.
    - destruct (negb _); [|ok H2; apply ticks_refl].
      apply bind_ok in H2 as (killer & _ & H2). destruct killer as [k|].
      + eapply ticks_kill; eassumption.
      + ok H2. apply ticks_refl. }
  assert (T3 : ticks s g2 g').
  { destruct (Game.get g2 i) as [a2|]; [|ok H; apply ticks_refl].
    destruct (Avatar.alive a2); [|ok H; apply ticks_refl].
    apply bind_ok in H as (g3 & H3 & H). apply ticks_same.
    apply view_test_catch in H. rewrite H.
    eapply view_call_same; [|exact H3]. intros x x' Hx. ok Hx.
    apply ledger_print_manager_test. }
  eapply ticks_trans; [apply ticks_same; exact V1|].
  eapply ticks_trans; eassumption.
Qed.

(** The loop of [Game.update]. *)
Lemma ticks_update_loop g step g' :
  Game.update_loop g step = Ok g' -> ticks (Collection.count (Game.deaths g)) g g'.
Proof.
  unfold Game.update_loop. cbv zeta. intros H.
  change (ticks (Collection.count (Game.deaths g)) (Game.with_death_in_frame false g) g').
  revert H.
  apply (fold_result_inv (ticks (Collection.count (Game.deaths g)))
           (fun g0 i => Game.update_avatar (Collection.count (Game.deaths g)) step g0 i)).
  - apply ticks_refl.
  - apply ticks_trans.
  - intros x i x'. apply ticks_update_avatar.
Qed.

End TickLedger.

(** ** Positions *)

Lemma get_modify g i f j :
  Game.get (Game.modify g i f) j
  = if (i =? j)%nat then option_map f (Game.get g j) else Game.get g j.
Proof.
  unfold Game.modify. destruct (Game.get g i) as [a|] eqn:E.
  - unfold Game.get, Game.put in *. cbn [Game.avatars Game.with_avatars Collection.items].
    rewrite nth_error_replace_nth. destruct (Nat.eqb_spec i j) as [->|]; [|reflexivity].
    rewrite E. reflexivity.
  - destruct (Nat.eqb_spec i j) as [->|]; [|reflexivity]. rewrite E. reflexivity.
Qed.

Lemma get_modify_all f n : forall g j,
  Game.get (fold_left (fun g i => Game.modify g i f) (seq 0 n) g) j
  = if (j <? n)%nat then option_map f (Game.get g j) else Game.get g j.
Proof.
  induction n as [|n IH]; intros g j; [reflexivity|].
  rewrite seq_S, fold_left_app. cbn [fold_left Nat.add]. rewrite get_modify, IH.
  destruct (Nat.eqb_spec n j) as [->|Hne].
  - rewrite Nat.ltb_irrefl. replace (j <? S j)%nat with true by (symmetry; apply Nat.ltb_lt; lia).
    reflexivity.
  - destruct (Nat.ltb_spec j n); destruct (Nat.ltb_spec j (S n)); try reflexivity; lia.
Qed.

Lemma get_lt g j a : Game.get g j = Some a ->
  (j < List.length (Collection.items (Game.avatars g)))%nat.
Proof. unfold Game.get. intros H. apply nth_error_Some. congruence. Qed.

Lemma fold_modify_fields {A : Type} (p : Game.t -> A) f l :
  (forall g i, p (Game.modify g i f) = p g) ->
  forall g, p (fold_left (fun g i => Game.modify g i f) l g) = p g.
Proof.
  intros Hp. induction l as [|i l IH]; intros g; [reflexivity|].
  cbn [fold_left]. rewrite IH. apply Hp.
Qed.

Lemma modify_round_winner g i f : Game.round_winner (Game.modify g i f) = Game.round_winner g.
Proof. unfold Game.modify. destruct (Game.get g i); reflexivity. Qed.

Lemma modify_length g i f :
  List.length (Collection.items (Game.avatars (Game.modify g i f)))
  = List.length (Collection.items (Game.avatars g)).
Proof.
  unfold Game.modify. destruct (Game.get g i); [|reflexivity].
  unfold Game.put. cbn [Game.avatars Game.with_avatars Collection.items].
  apply replace_nth_length.
Qed.

Lemma modify_count g i f :
  Collection.count (Game.avatars (Game.modify g i f)) = Collection.count (Game.avatars g).
Proof. unfold Game.modify. destruct (Game.get g i); reflexivity. Qed.

(** The first position of a list of positions that satisfies a test. *)
Lemma hd_filter_seq (f : nat -> bool) (n : nat) : forall s,
  match hd_error (filter f (seq s n)) with
  | Some k => (s <= k < s + n)%nat /\ f k = true /\
              forall j, (s <= j < k)%nat -> f j = false
  | None => forall j, (s <= j < s + n)%nat -> f j = false
  end.
Proof.
  induction n as [|n IH]; intros s; cbn [seq filter].
  - cbn. intros j Hj. lia.
  - destruct (f s) eqn:E; cbn [hd_error].
    + split; [lia|]. split; [exact E|]. intros j Hj. lia.
    + specialize (IH (S s)). destruct (hd_error (filter f (seq (S s) n))) as [k|].
      * destruct IH as (Hk & Hf & Hlt). split; [lia|]. split; [exact Hf|].
        intros j Hj. destruct (Nat.eq_dec j s) as [->|]; [exact E | apply Hlt; lia].
      * intros j Hj. destruct (Nat.eq_dec j s) as [->|]; [exact E | apply IH; lia].
Qed.

Section Resolve.
Context {M : MathLib}.

Lemma resolve_scores_get g i :
  Game.get (Game.resolve_scores g) i
  = option_map
      (fun a =>
         Avatar.resolve_score
           (if match winner g with Some w => (w =? i)%nat | None => false end
            then Avatar.add_score a (Z.max (Collection.count (Game.avatars g) - 1) 1)
            else a))
      (Game.get g i).
Proof.
  unfold Game.resolve_scores. fold (winner g). cbv zeta.
  set (award := Z.max (Collection.count (Game.avatars g) - 1) 1).
  set (g1 := match winner g with Some w => _ | None => g end).
  assert (H1 : forall j, Game.get g1 j
               = option_map (fun a => if match winner g with Some w => (w =? j)%nat | None => false end
                                      then Avatar.add_score a award else a) (Game.get g j)).
  { intros j. unfold g1. destruct (winner g) as [w|].
    - change (Game.get (Game.modify g w (fun a => Avatar.add_score a award)) j = 
              option_map (fun a => if (w =? j)%nat then Avatar.add_score a award else a) (Game.get g j)).
      rewrite get_modify. destruct (w =? j)%nat; [reflexivity|].
      destruct (Game.get g j); reflexivity.
    - destruct (Game.get g j); reflexivity. }
  rewrite get_modify_all, H1.
  destruct (Game.get g i) as [a|] eqn:E.
  - assert (Hlt : (i <? List.length (Collection.items (Game.avatars g1)))%nat = true).
    { apply Nat.ltb_lt. apply (get_lt g1 i (if match winner g with Some w => (w =? i)%nat | None => false end
                                      then Avatar.add_score a award else a)).
      rewrite H1, E. reflexivity. }
    rewrite Hlt. reflexivity.
  - destruct (_ <? _)%nat; reflexivity.
Qed.

Lemma resolve_scores_round_winner g :
  Game.round_winner (Game.resolve_scores g)
  = match winner g with
    | Some w => option_map Avatar.id (Game.get g w)
    | None => Game.round_winner g
    end.
Proof.
  unfold Game.resolve_scores. fold (winner g). cbv zeta.
  rewrite (fold_modify_fields Game.round_winner) by (intros; apply modify_round_winner).
  destruct (winner g) as [w|]; [|reflexivity].
  cbn [Game.round_winner Game.with_round_winner]. rewrite get_modify, Nat.eqb_refl.
  destruct (Game.get g w); reflexivity.
Qed.

Lemma winner_Some g w :
  winner g = Some w ->
  exists a, Game.get g w = Some a /\
    ((Collection.count (Game.avatars g) = 1 /\ w = O) \/
     (Collection.count (Game.avatars g) <> 1 /\ Avatar.alive a = true /\
      forall j b, (j < w)%nat -> Game.get g j = Some b -> Avatar.alive b = false)).
Proof.
  unfold winner. destruct (Z.eqb_spec (Collection.count (Game.avatars g)) 1) as [E|E].
  - destruct (Game.get g 0) as [a|] eqn:E0; [|discriminate].
    intros H. injection H as <-. exists a. split; [exact E0 | left; auto].
  - unfold Game.positions.
    pose proof (hd_filter_seq
      (fun i => match Game.get g i with Some a => Avatar.alive a | None => false end)
      (List.length (Collection.items (Game.avatars g))) 0) as H.
    intros Hw. rewrite Hw in H. destruct H as (_ & Hf & Hlt).
    destruct (Game.get g w) as [a|] eqn:Ew; [|discriminate].
    exists a. split; [reflexivity|]. right. split; [exact E|]. split; [exact Hf|].
    intros j b Hj Hb. specialize (Hlt j (conj (Nat.le_0_l j) Hj)). rewrite Hb in Hlt. exact Hlt.
Qed.

Lemma winner_None g :
  winner g = None ->
  (Collection.count (Game.avatars g) = 1 /\ Game.get g 0 = None) \/
  (Collection.count (Game.avatars g) <> 1 /\
   forall j b, Game.get g j = Some b -> Avatar.alive b = false).
Proof.
  unfold winner. destruct (Z.eqb_spec (Collection.count (Game.avatars g)) 1) as [E|E].
  - destruct (Game.get g 0) as [a|] eqn:E0; [discriminate|]. left; auto.
  - unfold Game.positions.
    pose proof (hd_filter_seq
      (fun i => match Game.get g i with Some a => Avatar.alive a | None => false end)
      (List.length (Collection.items (Game.avatars g))) 0) as H.
    intros Hw. rewrite Hw in H. right. split; [exact E|].
    intros j b Hb. specialize (H j (conj (Nat.le_0_l j) (get_lt g j b Hb))).
    rewrite Hb in H. exact H.
Qed.

(** The unique survivor is the position awarded. *)
Lemma winner_survivor g k a :
  List.length (Collection.items (Game.avatars g))
  = List.length (Collection.ids (Game.avatars g)) ->
  Game.get g k = Some a -> Avatar.alive a = true ->
  (forall j b, j <> k -> Game.get g j = Some b -> Avatar.alive b = false) ->
  winner g = Some k.
Proof.
  intros Hlen Hk Ha Hothers. destruct (winner g) as [w|] eqn:Ew.
  - apply winner_Some in Ew as (b & Hb & [[Hn ->]|(Hn & Hb' & _)]).
    + pose proof (get_lt g k a Hk) as Hlt. unfold Collection.count in Hn.
      rewrite Hlen in Hlt. f_equal. lia.
    + destruct (Nat.eq_dec w k) as [->|Hne]; [reflexivity|].
      rewrite (Hothers w b Hne Hb) in Hb'. discriminate.
  - apply winner_None in Ew as [[Hn H0]|[_ Hall]].
    + pose proof (get_lt g k a Hk) as Hlt. unfold Collection.count in Hn.
      rewrite Hlen in Hlt. assert (k = O) by lia. subst k. congruence.
    + rewrite (Hall k a Hk) in Ha. discriminate.
Qed.

(** C4, amended.  [Game.resolve_scores] awards [max(count - 1, 1)] to at
    most one avatar and marks it as round winner, then every avatar adds
    its round score to its score and resets it to 0.  The avatar awarded
    is alive and the first such in list order, or it is the only avatar of
    the game.  If exactly one avatar is alive, it is the one awarded and
    no other is; a game of one avatar awards that avatar whether it is
    alive or not; with several avatars none of which is alive nobody is
    awarded and the round winner is left as it was. *)
Theorem resolve_scores_award (g : Game.t) :
  List.length (Collection.items (Game.avatars g))
  = List.length (Collection.ids (Game.avatars g)) ->
  let n := Collection.count (Game.avatars g) in
  let g' := Game.resolve_scores g in
  (forall i a, Game.get g i = Some a ->
     exists a', Game.get g' i = Some a' /\ Avatar.id a' = Avatar.id a /\
       Avatar.alive a' = Avatar.alive a /\ Avatar.round_score a' = 0 /\
       (Avatar.score a' = Avatar.score a + Avatar.round_score a \/
        Avatar.score a' = Avatar.score a + Avatar.round_score a + Z.max (n - 1) 1 /\
        Game.round_winner g' = Some (Avatar.id a) /\
        (n = 1 \/
         Avatar.alive a = true /\
         forall j b, (j < i)%nat -> Game.get g j = Some b -> Avatar.alive b = false))) /\
  (forall k a, Game.get g k = Some a -> Avatar.alive a = true ->
     (forall j b, j <> k -> Game.get g j = Some b -> Avatar.alive b = false) ->
     Game.round_winner g' = Some (Avatar.id a) /\
     forall i b, Game.get g i = Some b ->
       exists b', Game.get g' i = Some b' /\
         Avatar.score b'
         = Avatar.score b + Avatar.round_score b
           + (if (i =? k)%nat then Z.max (n - 1) 1 else 0)) /\
  (n = 1 -> forall a, Game.get g 0 = Some a ->
     Game.round_winner g' = Some (Avatar.id a) /\
     exists a', Game.get g' 0 = Some a' /\ Avatar.alive a' = Avatar.alive a /\
       Avatar.score a' = Avatar.score a + Avatar.round_score a + 1) /\
  (n <> 1 -> (forall j b, Game.get g j = Some b -> Avatar.alive b = false) ->
     Game.round_winner g' = Game.round_winner g /\
     forall i b, Game.get g i = Some b ->
       exists b', Game.get g' i = Some b' /\
         Avatar.score b' = Avatar.score b + Avatar.round_score b).
Proof.
  intros Hlen n g'. split; [|split; [|split]].
  - intros i a Ha. unfold g'. rewrite resolve_scores_get, Ha. cbn [option_map].
    eexists. split; [reflexivity|].
    destruct (winner g) as [w|] eqn:Ew.
    + destruct (Nat.eqb_spec w i) as [->|Hne].
      * repeat split. right. split; [cbn; fold n; lia|].
        rewrite resolve_scores_round_winner, Ew, Ha. split; [reflexivity|].
        apply winner_Some in Ew as (b & Hb & [[Hn _]|(_ & Hb' & Hlt)]); [left; exact Hn|].
        right. rewrite Ha in Hb. injection Hb as <-. auto.
      * repeat split. left. reflexivity.
    + repeat split. left. reflexivity.
  - intros k a Hk Ha Hothers.
    pose proof (winner_survivor g k a Hlen Hk Ha Hothers) as Ew. unfold g'.
    rewrite resolve_scores_round_winner, Ew, Hk. split; [reflexivity|].
    intros i b Hb. rewrite resolve_scores_get, Hb, Ew. cbn [option_map].
    eexists. split; [reflexivity|].
    rewrite (Nat.eqb_sym i k). destruct (k =? i)%nat; cbn; fold n; lia.
  - intros Hn a Ha.
    assert (Ew : winner g = Some O).
    { unfold winner. fold n. rewrite Hn, Ha. reflexivity. }
    unfold g'. rewrite resolve_scores_round_winner, Ew, Ha. split; [reflexivity|].
    rewrite resolve_scores_get, Ha, Ew. cbn [option_map Nat.eqb].
    eexists. split; [reflexivity|]. split; [reflexivity|]. cbn. fold n. rewrite Hn. lia.
  - intros Hn Hall.
    assert (Ew : winner g = None).
    { destruct (winner g) as [w|] eqn:Ew; [|reflexivity].
      apply winner_Some in Ew as (b & Hb & [[Hn' _]|(_ & Hb' & _)]); [contradiction|].
      rewrite (Hall w b Hb) in Hb'. discriminate. }
    unfold g'. rewrite resolve_scores_round_winner, Ew. split; [reflexivity|].
    intros i b Hb. rewrite resolve_scores_get, Hb, Ew. cbn [option_map].
    eexists. split; reflexivity.
Qed.

End Resolve.

Lemma resolve_scores_award_witness :
  exists g,
    quartet_last_standing = Ok g /\
    Game.round_winner (Game.resolve_scores g) = Some 3 /\
    map (fun a => (Avatar.id a, Avatar.alive a, Avatar.score a))
      (Collection.items (Game.avatars (Game.resolve_scores g)))
    = [(1, false, 1); (2, false, 2); (3, true, 3); (4, false, 0)].
Proof.
  destruct quartet_last_standing as [g|] eqn:E; [|vm_compute in E; discriminate].
  exists g. split; [reflexivity|].
  vm_compute in E. apply Ok_inj in E. subst g.
  match goal with |- Game.round_winner (Game.resolve_scores ?g) = _ /\ _ =>
    destruct (resolve_scores_award g eq_refl) as (_ & H & _) end.
  match type of H with forall k a, Game.get ?g k = Some a -> _ =>
    destruct (Game.get g 2) as [a|] eqn:Ea; [|vm_compute in Ea; discriminate];
    specialize (H 2%nat a Ea) end.
  assert (Halive : Avatar.alive a = true).
  { vm_compute in Ea. apply Some_inj in Ea. subst a. reflexivity. }
  destruct (H Halive) as (Hw & _).
  { intros j b Hne Hb. destruct j as [|[|[|[|j]]]].
    - vm_compute in Hb. apply Some_inj in Hb. subst b. reflexivity.
    - vm_compute in Hb. apply Some_inj in Hb. subst b. reflexivity.
    - exfalso. apply Hne. reflexivity.
    - vm_compute in Hb. apply Some_inj in Hb. subst b. reflexivity.
    - destruct j; vm_compute in Hb; discriminate. }
  split; [|vm_compute; reflexivity].
  rewrite Hw. vm_compute in Ea. apply Some_inj in Ea. subst a. reflexivity.
Defined.

(** In a game of one avatar the round ends when that avatar dies, and the
    dead avatar is awarded 1 and marked as round winner: nobody is alive,
    yet the award is given. *)
Lemma sole_avatar_awarded_dead :
  exists g g' a a',
    (g0 <- solo_game ;;
     Game.run (M := coarse_math) g0 [Game.NewRound; Game.Fire 0]) = Ok g /\
    Game.get g 0 = Some a /\ Avatar.alive a = true /\ Avatar.score a = 0 /\
    Game.update (M := coarse_math) g 10000 = Ok g' /\
    Game.get g' 0 = Some a' /\ Avatar.alive a' = false /\
    Game.positions g' Avatar.alive = [] /\
    Game.round_winner g' = Some (Avatar.id a') /\ Avatar.score a' = 1.
Proof.
  destruct (g0 <- solo_game ;; Game.run (M := coarse_math) g0 [Game.NewRound; Game.Fire 0])
    as [g|] eqn:E; [|vm_compute in E; discriminate].
  vm_compute in E. apply Ok_inj in E. subst g.
  match goal with |- exists g0 g' a a', Ok ?g = Ok g0 /\ _ =>
    destruct (Game.update (M := coarse_math) g 10000) as [g'|] eqn:E';
      [|vm_compute in E'; discriminate];
    destruct (Game.get g 0) as [a|] eqn:Ea; [|vm_compute in Ea; discriminate];
    exists g, g', a end.
  vm_compute in E'. apply Ok_inj in E'. subst g'.
  vm_compute in Ea. apply Some_inj in Ea. subst a.
  eexists. split; [reflexivity|]. split; [reflexivity|]. split; [reflexivity|].
  split; [reflexivity|]. split; [reflexivity|]. split; [vm_compute; reflexivity|].
  split; [reflexivity|]. split; [reflexivity|]. split; reflexivity.
Qed.

Section RoundEnd.
Context {M : MathLib}.

Lemma ledgers_resolve_scores g i :
  nth_error (ledgers (Game.resolve_scores g)) i
  = option_map
      (fun l => resolved (if match winner g with Some w => (w =? i)%nat | None => false end
                          then Z.max (Collection.count (Game.avatars g) - 1) 1 else 0) l)
      (nth_error (ledgers g) i).
Proof.
  rewrite !nth_error_ledgers, resolve_scores_get.
  destruct (Game.get g i) as [a|]; [|reflexivity]. cbn [option_map]. f_equal.
  destruct (match winner g with Some w => (w =? i)%nat | None => false end).
  - unfold resolved, ledger. cbn. f_equal.
  - unfold resolved, ledger. cbn. f_equal. lia.
Qed.

Lemma resolve_scores_fields {A : Type} (p : Game.t -> A) :
  (forall g v, p (Game.with_avatars v g) = p g) ->
  (forall g v, p (Game.with_round_winner v g) = p g) ->
  forall g, p (Game.resolve_scores g) = p g.
Proof.
  intros Ha Hw g. unfold Game.resolve_scores. cbv zeta.
  assert (Hm : forall g i f, p (Game.modify g i f) = p g).
  { intros g0 i f. unfold Game.modify. destruct (Game.get g0 i); [apply Ha | reflexivity]. }
  rewrite (fold_modify_fields p) by (intros; apply Hm).
  destruct (if Collection.count (Game.avatars g) =? 1 then _ else _); [|reflexivity].
  rewrite Hw. apply Hm.
Qed.

Lemma resolve_scores_ids g :
  Collection.ids (Game.avatars (Game.resolve_scores g)) = Collection.ids (Game.avatars g).
Proof.
  assert (Hm : forall g i f, Collection.ids (Game.avatars (Game.modify g i f))
                             = Collection.ids (Game.avatars g)).
  { intros g0 i f. unfold Game.modify. destruct (Game.get g0 i); reflexivity. }
  unfold Game.resolve_scores. cbv zeta.
  rewrite (fold_modify_fields (fun g => Collection.ids (Game.avatars g))) by (intros; apply Hm).
  destruct (if Collection.count (Game.avatars g) =? 1 then _ else _); [|reflexivity].
  apply Hm.
Qed.

Lemma round_end_end_round g : Game.in_round g = true -> round_end g (Game.end_round g).
Proof.
  intros Hr. right. split; [exact Hr|].
  unfold Game.end_round, Game.on_round_end. rewrite Hr. cbv zeta.
  set (g0 := Game.with_in_round false g).
  split; [exact (resolve_scores_fields Game.in_round (fun _ _ => eq_refl) (fun _ _ => eq_refl) g0)|].
  split; [exact (resolve_scores_fields Game.deaths (fun _ _ => eq_refl) (fun _ _ => eq_refl) g0)|].
  split; [exact (resolve_scores_ids g0)|].
  intros i.
  exact (ledgers_resolve_scores g0 i).
Qed.

Lemma round_end_check g : round_end g (Game.check_round_end g).
Proof.
  unfold Game.check_round_end. destruct (Game.in_round g) eqn:Hr; cbn [negb].
  - destruct (_ <? _)%nat; [left; reflexivity | apply round_end_end_round; exact Hr].
  - left. reflexivity.
Qed.

(** With two avatars or more, an avatar that is not alive has no award. *)
Lemma winner_alive g w a :
  winner g = Some w -> Game.get g w = Some a ->
  Collection.count (Game.avatars g) = 1 \/ Avatar.alive a = true.
Proof.
  intros Hw Ha. apply winner_Some in Hw as (b & Hb & [[Hn _]|(_ & Hb' & _)]).
  - left. exact Hn.
  - right. congruence.
Qed.

End RoundEnd.

Lemma fold_seq_S {A : Type} (f : A -> nat -> result A) (n : nat) (a : A) :
  fold_left (fun acc i => bind acc (fun a => f a i)) (seq 0 (S n)) (Ok a)
  = bind (fold_left (fun acc i => bind acc (fun a => f a i)) (seq 0 n) (Ok a))
      (fun a => f a n).
Proof. rewrite seq_S, fold_left_app. reflexivity. Qed.

Lemma firstn_S_nth {A : Type} (l : list A) : forall n x,
  nth_error l n = Some x -> firstn (S n) l = firstn n l ++ [x].
Proof.
  induction l as [|y l IH]; intros n x H; [destruct n; discriminate|].
  destruct n; cbn [nth_error] in H.
  - injection H as ->. reflexivity.
  - change (y :: firstn (S n) l = y :: (firstn n l ++ [x])). rewrite (IH n x H). reflexivity.
Qed.

Lemma NoDup_nth_firstn {A B : Type} (f : A -> B) (l : list A) : forall n x,
  NoDup (map f l) -> nth_error l n = Some x -> ~ In (f x) (map f (firstn n l)).
Proof.
  induction l as [|y l IH]; intros n x Hnd H; [destruct n; discriminate|].
  destruct n; cbn [nth_error] in H; [intros []|].
  cbn [map] in Hnd. inversion Hnd as [|? ? Hy Hnd']; subst.
  cbn [firstn map]. intros [E|Hin].
  - apply Hy. rewrite E. apply in_map. eapply nth_error_In. exact H.
  - exact (IH n x Hnd' H Hin).
Qed.

Section RoundStart.
Context {M : MathLib}.

Lemma ledger_clear a :
  ledger (Avatar.print_manager_stop (Avatar.base_clear a)) = cleared (ledger a).
Proof. rewrite ledger_print_manager_stop. reflexivity. Qed.

Lemma view_clear_avatar g i g' a :
  Game.get g i = Some a -> Game.clear_avatar g i = Ok g' ->
  view g' = (Game.replace_nth i (cleared (ledger a)) (ledgers g), frame g,
             Game.deaths g).
Proof.
  intros Hg. unfold Game.clear_avatar. intros H. apply bind_ok in H as (g1 & H1 & H). ok H.
  apply view_call in H1. rewrite Hg in H1. destruct H1 as (a1 & Ha1 & V1). ok Ha1.
  rewrite view_modify_same by reflexivity. rewrite V1, ledger_clear. reflexivity.
Qed.

(** A loop over the positions, each step of which rewrites the entry at
    its position with [F]. *)
Lemma fold_positions (F : Ledger.t -> Ledger.t) (step : Game.t -> nat -> result Game.t) :
  (forall g i g', step g i = Ok g' ->
     view g' = (match nth_error (ledgers g) i with
                | Some l => Game.replace_nth i (F l) (ledgers g)
                | None => ledgers g
                end, frame g, Game.deaths g)) ->
  forall n g g',
    fold_left (fun acc i => bind acc (fun g => step g i)) (seq 0 n) (Ok g) = Ok g' ->
    frame g' = frame g /\ Game.deaths g' = Game.deaths g /\
    forall j, nth_error (ledgers g') j
              = if (j <? n)%nat then option_map F (nth_error (ledgers g) j)
                else nth_error (ledgers g) j.
Proof.
  intros Hstep. induction n as [|n IH]; intros g g' H.
  - ok H. auto.
  - rewrite fold_seq_S in H. apply bind_ok in H as (g1 & H1 & H).
    destruct (IH g g1 H1) as (R1 & D1 & L1). apply Hstep in H.
    pose proof (f_equal (fun v => fst (fst v)) H) as L.
    pose proof (f_equal (fun v => snd (fst v)) H) as R.
    pose proof (f_equal snd H) as D. cbn [fst snd view] in L, R, D.
    split; [congruence|]. split; [congruence|]. intros j. rewrite L.
    pose proof (L1 n) as Ln. rewrite Nat.ltb_irrefl in Ln. rewrite Ln.
    destruct (Nat.eq_dec j n) as [->|Hne].
    + replace (n <? S n)%nat with true by (symmetry; apply Nat.ltb_lt; lia).
      destruct (nth_error (ledgers g) n) as [l|] eqn:E.
      * rewrite nth_error_replace_nth, Nat.eqb_refl, Ln. reflexivity.
      * rewrite Ln. reflexivity.
    + assert (Hj : nth_error (match nth_error (ledgers g) n with
                              | Some l => Game.replace_nth n (F l) (ledgers g1)
                              | None => ledgers g1 end) j = nth_error (ledgers g1) j).
      { destruct (nth_error (ledgers g) n); [|reflexivity].
        rewrite nth_error_replace_nth.
        destruct (Nat.eqb_spec n j); [congruence | reflexivity]. }
      rewrite Hj, L1.
      destruct (Nat.ltb_spec j n); destruct (Nat.ltb_spec j (S n)); try reflexivity; lia.
Qed.

Lemma base_on_round_new_spec g g' :
  Game.base_on_round_new g = Ok g' ->
  frame g' = frame g /\ Game.deaths g' = Game.deaths g /\
  forall j, nth_error (ledgers g') j
            = option_map (fun l => if Ledger.present l then cleared l else l)
                (nth_error (ledgers g) j).
Proof.
  unfold Game.base_on_round_new. cbv zeta. intros H.
  apply (fold_positions (fun l => if Ledger.present l then cleared l else l)
           (fun g i => match Game.get g i with
                       | Some a => if Avatar.present a then Game.clear_avatar g i else Ok g
                       | None => Ok g
                       end)) in H.
  - destruct H as (R & D & L). split; [exact R|]. split; [exact D|]. intros j. rewrite L.
    match goal with |- (if (j <? ?n)%nat then _ else _) = _ => destruct (Nat.ltb_spec j n) as [Hlt|Hge] end;
      [reflexivity|].
    assert (E : nth_error (ledgers g) j = None).
    { apply nth_error_None. unfold ledgers. rewrite length_map. exact Hge. }
    rewrite E. exact E.
  - intros g0 i g1. rewrite nth_error_ledgers.
    destruct (Game.get g0 i) as [a|] eqn:E; cbn [option_map]; [|intros H1; ok H1; reflexivity].
    change (Ledger.present (ledger a)) with (Avatar.present a).
    destruct (Avatar.present a).
    + apply view_clear_avatar. exact E.
    + intros H1. ok H1. unfold view. f_equal. f_equal. symmetry. apply replace_nth_same.
      rewrite nth_error_ledgers, E. reflexivity.
Qed.

(** [Game.on_round_new] places a present avatar and enters an absent one
    in [deaths]. *)
Lemma view_place_avatar g i g' a :
  Game.get g i = Some a -> Game.place_avatar g i = Ok g' ->
  view g' = (ledgers g, frame g,
             if Avatar.present a then Game.deaths g
             else fst (Game.deaths_add (Game.deaths g) (Avatar.id a))).
Proof.
  intros Hg. unfold Game.place_avatar. rewrite Hg. destruct (Avatar.present a).
  - intros H. apply bind_ok in H as ([position r] & _ & H). cbv zeta in H.
    apply bind_ok in H as (g1 & H1 & H).
    assert (V1 : view g1 = view g).
    { apply view_call_same in H1; [exact H1|]. intros x x' Hx. ok Hx. reflexivity. }
    destruct (Game.get g1 i) as [a1|]; [|ok H; exact V1].
    destruct (World.get_random_direction _ _ _ _ _) as [direction r1].
    apply view_call_same in H; [|intros x x'; apply ledger_set_angle].
    rewrite H. exact V1.
  - intros H. ok H. reflexivity.
Qed.

Lemma place_all n : forall g g',
  NoDup (map Ledger.id (ledgers g)) -> Collection.ids (Game.deaths g) = [] ->
  Collection.items (Game.deaths g) = [] ->
  (n <= List.length (ledgers g))%nat ->
  fold_left (fun acc i => bind acc (fun g => Game.place_avatar g i)) (seq 0 n) (Ok g) = Ok g' ->
  ledgers g' = ledgers g /\ frame g' = frame g /\
  Collection.ids (Game.deaths g')
  = map Ledger.id (filter (fun l => negb (Ledger.present l)) (firstn n (ledgers g))).
Proof.
  induction n as [|n IH]; intros g g' Hnd Hd Hi Hn H.
  - ok H. auto.
  - rewrite fold_seq_S in H. apply bind_ok in H as (g1 & H1 & H).
    destruct (IH g g1 Hnd Hd Hi ltac:(lia) H1) as (L1 & R1 & D1).
    destruct (nth_error (ledgers g) n) as [l|] eqn:El;
      [|apply nth_error_None in El; lia].
    assert (Hg1 : exists a, Game.get g1 n = Some a /\ ledger a = l).
    { rewrite <- L1, nth_error_ledgers in El. destruct (Game.get g1 n) as [a|]; [|discriminate].
      exists a. split; [reflexivity|]. cbn [option_map] in El. congruence. }
    destruct Hg1 as (a & Ha & Hl).
    apply (view_place_avatar g1 n g' a Ha) in H.
    pose proof (f_equal (fun v => fst (fst v)) H) as L.
    pose proof (f_equal (fun v => snd (fst v)) H) as R.
    pose proof (f_equal snd H) as D. cbn [fst snd view] in L, R, D.
    split; [congruence|]. split; [congruence|].
    rewrite (firstn_S_nth _ n l El), filter_app, map_app, D. cbn [filter].
    rewrite <- Hl. change (Ledger.present (ledger a)) with (Avatar.present a).
    destruct (Avatar.present a); cbn [negb map].
    + rewrite app_nil_r. exact D1.
    + unfold Game.deaths_add, Collection.add, Collection.exists_, Collection.index_exists.
      destruct (existsb _ _) eqn:Ex.
      * exfalso. apply existsb_exists in Ex as (k & Hk & Hkey).
        apply Z.eqb_eq in Hkey. subst k. rewrite D1 in Hk.
        apply (NoDup_nth_firstn Ledger.id (ledgers g) n l Hnd El).
        rewrite <- Hl. change (Ledger.id (ledger a)) with (Avatar.id a).
        apply in_map_iff in Hk as (l0 & Hid & Hin). apply filter_In in Hin as [Hin _].
        apply in_map_iff. exists l0. split; [exact Hid | exact Hin].
      * cbn [fst Collection.ids]. rewrite D1. reflexivity.
Qed.

End RoundStart.

Lemma filter_map_comm {A B : Type} (f : A -> B) (p : B -> bool) (l : list A) :
  filter p (map f l) = map f (filter (fun a => p (f a)) l).
Proof.
  induction l as [|a l IH]; [reflexivity|]. cbn [map filter].
  destruct (p (f a)); cbn [map]; rewrite IH; reflexivity.
Qed.

Lemma absent_ledgers g :
  absent g = Z.of_nat (List.length (filter (fun l => negb (Ledger.present l)) (ledgers g))).
Proof.
  unfold absent, ledgers. rewrite filter_map_comm, length_map. reflexivity.
Qed.

Section RoundStart2.
Context {M : MathLib}.

Lemma on_round_new_spec g g' :
  Game.on_round_new g = Ok g' ->
  frame g' = frame g /\
  ledgers g' = map (fun l => if Ledger.present l then cleared l else l) (ledgers g) /\
  (NoDup (map Ledger.id (ledgers g)) -> Collection.count (Game.deaths g') = absent g).
Proof.
  unfold Game.on_round_new. intros H. apply bind_ok in H as (g1 & H1 & H). cbv zeta in H.
  apply base_on_round_new_spec in H1 as (R1 & _ & L1).
  assert (E1 : ledgers g1 = map (fun l => if Ledger.present l then cleared l else l) (ledgers g)).
  { apply nth_error_ext. intros j. rewrite L1, nth_error_map. reflexivity. }
  set (g2 := Game.with_bonus_stack _ _) in H.
  assert (Hids : map Ledger.id (ledgers g1) = map Ledger.id (ledgers g)).
  { rewrite E1, map_map. apply map_ext. intros l. destruct (Ledger.present l); reflexivity. }
  assert (Hlen : List.length (Collection.items (Game.avatars g2)) = List.length (ledgers g2)).
  { unfold ledgers. rewrite length_map. reflexivity. }
  rewrite Hlen in H.
  assert (Hframe : ledgers g' = ledgers g2 /\ frame g' = frame g2).
  { revert H. generalize (List.length (ledgers g2)). intros n.
    revert g'. induction n as [|n IH]; intros g' H.
    - ok H. auto.
    - rewrite fold_seq_S in H. apply bind_ok in H as (g3 & H3 & H).
      destruct (IH g3 H3) as (L3 & R3).
      destruct (Game.get g3 n) as [a|] eqn:Ea.
      + apply (view_place_avatar g3 n g' a Ea) in H.
        pose proof (f_equal (fun v => fst (fst v)) H) as L.
        pose proof (f_equal (fun v => snd (fst v)) H) as R.
        cbn [fst snd view] in L, R. split; congruence.
      + unfold Game.place_avatar in H. rewrite Ea in H. ok H. auto. }
  destruct Hframe as (L & R).
  split; [rewrite R; exact R1|]. split; [rewrite L; exact E1|].
  intros Hnd.
  apply place_all in H; [| |reflexivity|reflexivity|lia].
  - destruct H as (_ & _ & D). unfold Collection.count. rewrite D, firstn_all, length_map.
    rewrite absent_ledgers. change (ledgers g2) with (ledgers g1). rewrite E1.
    rewrite filter_map_comm, length_map. f_equal. f_equal.
    apply filter_ext. intros l. destruct (Ledger.present l) eqn:E; cbn; rewrite ?E; reflexivity.
  - change (ledgers g2) with (ledgers g1). rewrite Hids. exact Hnd.
Qed.

Lemma new_round_spec g g' :
  Game.in_round g = false -> Game.new_round g = Ok g' ->
  Game.in_round g' = true /\
  Collection.ids (Game.avatars g') = Collection.ids (Game.avatars g) /\
  ledgers g' = map (fun l => if Ledger.present l then cleared l else l) (ledgers g) /\
  (NoDup (map Ledger.id (ledgers g)) -> Collection.count (Game.deaths g') = absent g).
Proof.
  intros Hr. unfold Game.new_round. cbv zeta.
  change (Game.in_round (Game.with_started true g)) with (Game.in_round g). rewrite Hr.
  cbn [negb]. intros H. apply bind_ok in H as (g1 & H1 & H). ok H.
  apply on_round_new_spec in H1 as (R & L & D).
  split; [exact (frame_in_round _ _ R)|]. split; [exact (frame_ids _ _ R)|]. auto.
Qed.

Lemma view_new_round_running g g' :
  Game.in_round g = true -> Game.new_round g = Ok g' -> view g' = view g.
Proof.
  intros Hr. unfold Game.new_round. cbv zeta.
  change (Game.in_round (Game.with_started true g)) with (Game.in_round g). rewrite Hr.
  cbn [negb]. intros H. ok H. reflexivity.
Qed.

Lemma view_start g : view (Game.start g) = view g.
Proof. unfold Game.start. destruct (Game.frame_task g); reflexivity. Qed.

End RoundStart2.

Section TickClaim.
Context {M : MathLib}.

(** C1, amended.  The loop of [Game.update] credits every avatar it kills
    with the count of [deaths] taken before the loop, and changes the
    score, the round score and the life of no other avatar: avatars killed
    in the same tick receive the same value.  Over the whole tick, which
    may end the round and commit the round scores, the score and round
    score of a killed avatar grow together by that count (in a game of
    several avatars, where a dead avatar has no award).  In the first tick
    of a round the count is the number of avatars absent when the round
    started: it is what a present avatar killed in that tick receives, 0
    only if every avatar is present. *)
Theorem tick_credits_snapshot :
  (forall g step g',
     Game.update_loop g step = Ok g' ->
     forall i a, Game.get g i = Some a ->
       exists a', Game.get g' i = Some a' /\ Avatar.id a' = Avatar.id a /\
         Avatar.score a' = Avatar.score a /\
         (Avatar.alive a' = Avatar.alive a /\
          Avatar.round_score a' = Avatar.round_score a \/
          Avatar.alive a = true /\ Avatar.alive a' = false /\
          Avatar.round_score a'
          = Avatar.round_score a + Collection.count (Game.deaths g))) /\
  (forall g step g',
     Game.update g step = Ok g' ->
     Collection.count (Game.avatars g) <> 1 ->
     forall i a, Game.get g i = Some a -> Avatar.alive a = true ->
       exists a', Game.get g' i = Some a' /\
         (Avatar.alive a' = false ->
          Avatar.score a' + Avatar.round_score a'
          = Avatar.score a + Avatar.round_score a + Collection.count (Game.deaths g))) /\
  (forall g g1 step g2,
     Game.in_round g = false ->
     NoDup (map Avatar.id (Collection.items (Game.avatars g))) ->
     Game.new_round g = Ok g1 ->
     Game.update_loop (Game.start g1) step = Ok g2 ->
     forall i a2, Game.get g2 i = Some a2 ->
       Avatar.present a2 = true -> Avatar.alive a2 = false ->
       Avatar.round_score a2 = absent g).
Proof.
  assert (Hloop : forall g step g', Game.update_loop g step = Ok g' ->
     frame g' = frame g /\
     forall i a, Game.get g i = Some a ->
       exists a', Game.get g' i = Some a' /\
         ticked (Collection.count (Game.deaths g)) (ledger a) (ledger a')).
  { intros g step g' H. apply ticks_update_loop in H as [H R]. split; [exact R|].
    intros i a Ha.
    destruct (Forall2_nth_error _ _ _ i (ledger a) H) as (l' & Hl' & Ht).
    { rewrite nth_error_ledgers, Ha. reflexivity. }
    rewrite nth_error_ledgers in Hl'. destruct (Game.get g' i) as [a'|]; [|discriminate].
    exists a'. split; [reflexivity|]. cbn [option_map] in Hl'. congruence. }
  split; [|split].
  - intros g step g' H i a Ha. destruct (Hloop g step g' H) as (_ & Hl).
    destruct (Hl i a Ha) as (a' & Ha' & [E|[Halive E]]); exists a'; (split; [exact Ha'|]).
    + pose proof (f_equal Ledger.id E). pose proof (f_equal Ledger.score E).
      pose proof (f_equal Ledger.alive E). pose proof (f_equal Ledger.round_score E).
      cbn in *. auto.
    + pose proof (f_equal Ledger.id E). pose proof (f_equal Ledger.score E).
      pose proof (f_equal Ledger.alive E). pose proof (f_equal Ledger.round_score E).
      cbn in *. split; [auto|]. split; [auto|]. right. auto.
  - intros g step g' H Hn i a Ha Halive. unfold Game.update in H.
    apply bind_ok in H as (g1 & H1 & H). ok H.
    destruct (Hloop g step g1 H1) as (R1 & Hl). destruct (Hl i a Ha) as (a1 & Ha1 & Ht).
    assert (Hend : round_end g1 (if Game.death_in_frame g1 then Game.check_round_end g1 else g1)).
    { destruct (Game.death_in_frame g1); [apply round_end_check | left; reflexivity]. }
    set (g' := if Game.death_in_frame g1 then _ else _) in *.
    destruct Hend as [V|(_ & _ & _ & _ & Hres)].
    + pose proof (f_equal (fun l => nth_error l i) (view_ledgers _ _ V)) as E.
      cbn beta in E. rewrite !nth_error_ledgers, Ha1 in E.
      destruct (Game.get g' i) as [a'|]; [|discriminate]. exists a'. split; [reflexivity|].
      cbn [option_map] in E. intros Hdead.
      assert (E' : ledger a' = ledger a1) by congruence.
      destruct Ht as [Et|[_ Et]].
      * rewrite Et in E'. apply (f_equal Ledger.alive) in E'. cbn in E'. congruence.
      * rewrite Et in E'. pose proof (f_equal Ledger.score E').
        pose proof (f_equal Ledger.round_score E'). cbn in *. lia.
    + specialize (Hres i). rewrite !nth_error_ledgers, Ha1 in Hres.
      destruct (Game.get g' i) as [a'|]; [|discriminate]. exists a'. split; [reflexivity|].
      cbn [option_map] in Hres. intros Hdead.
      assert (E' : ledger a' = resolved (if match winner g1 with Some w => (w =? i)%nat | None => false end
                    then Z.max (Collection.count (Game.avatars g1) - 1) 1 else 0) (ledger a1))
        by congruence.
      assert (Hw : match winner g1 with Some w => (w =? i)%nat | None => false end = false).
      { destruct (winner g1) as [w|] eqn:Ew; [|reflexivity].
        destruct (Nat.eqb_spec w i) as [->|]; [|reflexivity]. exfalso.
        destruct (winner_alive g1 i a1 Ew Ha1) as [Hc|Hal].
        - apply Hn. unfold Collection.count in *. rewrite <- (frame_ids _ _ R1). exact Hc.
        - pose proof (f_equal Ledger.alive E') as Hal'. cbn in Hal'. congruence. }
      rewrite Hw in E'.
      destruct Ht as [Et|[_ Et]].
      * rewrite Et in E'. apply (f_equal Ledger.alive) in E'. cbn in E'. congruence.
      * rewrite Et in E'. pose proof (f_equal Ledger.score E').
        pose proof (f_equal Ledger.round_score E'). cbn in *. lia.
  - intros g g1 step g2 Hr Hnd Hnew H i a2 Ha2 Hpresent Hdead.
    apply new_round_spec in Hnew as (_ & _ & L1 & D1); [|exact Hr].
    assert (Hnd' : NoDup (map Ledger.id (ledgers g))).
    { unfold ledgers. rewrite map_map. exact Hnd. }
    specialize (D1 Hnd').
    destruct (Hloop _ _ _ H) as (_ & Hl).
    change (Game.deaths (Game.start g1)) with (snd (view (Game.start g1))) in Hl.
    rewrite view_start in Hl. cbn [snd view] in Hl. rewrite D1 in Hl.
    pose proof (f_equal (fun l => nth_error l i) (view_ledgers _ _ (view_start g1))) as Es.
    cbn beta in Es. rewrite !nth_error_ledgers in Es.
    destruct (Game.get (Game.start g1) i) as [as_|] eqn:Eas.
    + destruct (Hl i as_ Eas) as (a2' & Ha2' & Ht). rewrite Ha2 in Ha2'.
      apply (f_equal (fun o => match o with Some x => x | None => a2 end)) in Ha2'. subst a2'.
      destruct (Game.get g1 i) as [a1|] eqn:Ea1; [|discriminate]. cbn [option_map] in Es.
      assert (El : ledger as_ = ledger a1) by congruence.
      pose proof (f_equal (fun l => nth_error l i) L1) as E1. cbn beta in E1.
      rewrite nth_error_map, !nth_error_ledgers, Ea1 in E1.
      destruct (Game.get g i) as [a0|]; [|discriminate]. cbn [option_map] in E1.
      assert (E1' : ledger a1 = if Avatar.present a0 then cleared (ledger a0) else ledger a0).
      { apply Some_inj. exact E1. }
      destruct Ht as [Et|[_ Et]]; rewrite El, E1' in Et.
      * destruct (Avatar.present a0) eqn:Ep.
        -- apply (f_equal Ledger.alive) in Et. cbn in Et. congruence.
        -- apply (f_equal Ledger.present) in Et. cbn in Et. congruence.
      * destruct (Avatar.present a0) eqn:Ep.
        -- apply (f_equal Ledger.round_score) in Et. cbn in Et. exact Et.
        -- apply (f_equal Ledger.present) in Et. cbn in Et. congruence.
    + exfalso. destruct (Game.get g1 i) as [a1|] eqn:Ea1; [discriminate|].
      destruct (Hloop _ _ _ H) as (_ & _).
      apply ticks_update_loop in H as [H _].
      pose proof (Forall2_length H) as Hlen. unfold ledgers in Hlen. rewrite !length_map in Hlen.
      pose proof (get_lt g2 i a2 Ha2) as Hlt. rewrite <- Hlen in Hlt.
      unfold Game.get in Eas. apply nth_error_None in Eas. lia.
Qed.

End TickClaim.

Lemma tick_credits_snapshot_witness :
  exists g g1 g2 a2,
    (g0 <- trio_game ;; Game.exec (M := coarse_math) g0 (Game.RemoveAvatar 2)) = Ok g /\
    Game.new_round (M := coarse_math) g = Ok g1 /\
    Game.update_loop (M := coarse_math) (Game.start g1) 10000 = Ok g2 /\
    Game.get g2 0 = Some a2 /\ Avatar.round_score a2 = absent g.
Proof.
  destruct (g0 <- trio_game ;; Game.exec (M := coarse_math) g0 (Game.RemoveAvatar 2))
    as [g|] eqn:E; [|vm_compute in E; discriminate].
  vm_compute in E. apply Ok_inj in E. subst g.
  match goal with |- exists g0 g1 g2 a2, Ok ?g = Ok g0 /\ _ =>
    destruct (Game.new_round (M := coarse_math) g) as [g1|] eqn:E1;
      [|vm_compute in E1; discriminate];
    destruct (Game.update_loop (M := coarse_math) (Game.start g1) 10000) as [g2|] eqn:E2;
      [|vm_compute in E1; apply Ok_inj in E1; subst g1; vm_compute in E2; discriminate];
    destruct (Game.get g2 0) as [a2|] eqn:Ea2;
      [|vm_compute in E1; apply Ok_inj in E1; subst g1;
        vm_compute in E2; apply Ok_inj in E2; subst g2; vm_compute in Ea2; discriminate];
    exists g, g1, g2, a2;
    pose proof (proj2 (proj2 (tick_credits_snapshot (M := coarse_math))) g g1 10000%Q g2
                  eq_refl) as H
  end.
  split; [reflexivity|]. split; [exact E1|]. split; [exact E2|]. split; [exact Ea2|].
  apply (fun Hnd => H Hnd E1 E2 0%nat a2 Ea2).
  - repeat constructor; cbn; intuition discriminate.
  - vm_compute in E1; apply Ok_inj in E1; subst g1.
    vm_compute in E2; apply Ok_inj in E2; subst g2.
    vm_compute in Ea2. apply Some_inj in Ea2. subst a2. reflexivity.
  - vm_compute in E1; apply Ok_inj in E1; subst g1.
    vm_compute in E2; apply Ok_inj in E2; subst g2.
    vm_compute in Ea2. apply Some_inj in Ea2. subst a2. reflexivity.
Defined.

(** Three avatars, the third of which has left before the round starts:
    [on_round_new] enters it in [deaths], and the two others, dying
    together in the first tick of the round, are credited 1 each, not 0. *)
Lemma first_tick_credits_absent_avatar :
  exists g g' a1 a2 b1 b2,
    (g0 <- trio_game ;;
     Game.run (M := coarse_math) g0
       [Game.RemoveAvatar 2; Game.NewRound; Game.Fire 0]) = Ok g /\
    Collection.count (Game.deaths g) = 1 /\
    Game.get g 0 = Some a1 /\ Game.get g 1 = Some a2 /\
    Avatar.alive a1 = true /\ Avatar.alive a2 = true /\
    Avatar.round_score a1 = 0 /\ Avatar.round_score a2 = 0 /\
    Game.update_loop (M := coarse_math) g 10000 = Ok g' /\
    Game.get g' 0 = Some b1 /\ Game.get g' 1 = Some b2 /\
    Avatar.alive b1 = false /\ Avatar.alive b2 = false /\
    Avatar.round_score b1 = 1 /\ Avatar.round_score b2 = 1.
Proof.
  destruct (g0 <- trio_game ;;
            Game.run (M := coarse_math) g0
              [Game.RemoveAvatar 2; Game.NewRound; Game.Fire 0])
    as [g|] eqn:E; [|vm_compute in E; discriminate].
  vm_compute in E. apply Ok_inj in E. subst g.
  match goal with |- exists g0 g' a1 a2 b1 b2, Ok ?g = Ok g0 /\ _ =>
    destruct (Game.update_loop (M := coarse_math) g 10000) as [g'|] eqn:E';
      [|vm_compute in E'; discriminate];
    exists g, g' end.
  vm_compute in E'. apply Ok_inj in E'. subst g'.
  do 4 eexists. split; [reflexivity|]. split; [reflexivity|].
  split; [vm_compute; reflexivity|]. split; [vm_compute; reflexivity|].
  do 4 (split; [reflexivity|]). split; [reflexivity|].
  split; [vm_compute; reflexivity|]. split; [vm_compute; reflexivity|].
  repeat split.
Qed.

Lemma settled_same c l : settled c l l.
Proof. split; [reflexivity|]. intros H. repeat split; try lia. Qed.

Lemma settled_credit c s l : 0 <= s -> settled c l (credit s l).
Proof. intros Hs. split; [reflexivity|]. intros H. cbn. repeat split; try lia. Qed.

Lemma settled_ticked c s l l' : 0 <= s -> ticked s l l' -> settled c l l'.
Proof. intros Hs [->|[_ ->]]; [apply settled_same | apply settled_credit; exact Hs]. Qed.

Lemma settled_resolved (c : Prop) award l l1 :
  0 <= award -> c -> settled c l l1 -> settled c l (resolved award l1).
Proof.
  intros Ha Hc [Hid H]. split; [exact Hid|]. intros Hl. destruct (H Hl) as (H1 & H2 & _).
  cbn. repeat split; try lia. right. split; [reflexivity | exact Hc].
Qed.

Lemma settled_cleared (c : Prop) l : c -> settled c l (cleared l).
Proof.
  intros Hc. split; [reflexivity|]. intros Hl. cbn. repeat split; try lia. right. auto.
Qed.

Lemma op_settled_same o g g' : view g' = view g -> op_settled o g g'.
Proof.
  intros V i l' Hl'. rewrite (view_ledgers _ _ V) in Hl'. exists l'. split; [exact Hl'|].
  apply settled_same.
Qed.

Lemma count_nonneg {K T : Type} (c : Collection.t K T) : 0 <= Collection.count c.
Proof. unfold Collection.count. lia. Qed.

Section Operations.
Context {M : MathLib}.

(** The end of a round after a stage that settled every entry. *)
Lemma op_settled_round_end o g g1 g' :
  frame g1 = frame g ->
  (forall i l1, nth_error (ledgers g1) i = Some l1 ->
     exists l, nth_error (ledgers g) i = Some l /\
               forall c : Prop, (o = Game.RemoveAvatar i -> c) ->
                                settled c l l1) ->
  round_end g1 g' -> op_settled o g g'.
Proof.
  intros R H1 [V|(Hr1 & Hr' & _ & _ & Hres)] i l' Hl'.
  - rewrite (view_ledgers _ _ V) in Hl'. destruct (H1 i l' Hl') as (l & Hl & Hs).
    exists l. split; [exact Hl|]. apply Hs. intros E. right. right. exact E.
  - rewrite Hres in Hl'. destruct (nth_error (ledgers g1) i) as [l1|] eqn:E1; [|discriminate].
    cbn [option_map] in Hl'. apply Some_inj in Hl'. subst l'.
    destruct (H1 i l1 E1) as (l & Hl & Hs). exists l. split; [exact Hl|].
    assert (Hc : reset_cause o g g' i).
    { right. left. split; [|exact Hr']. rewrite <- (frame_in_round _ _ R). exact Hr1. }
    apply settled_resolved; [|exact Hc|apply Hs; intros; exact Hc].
    destruct (match winner g1 with Some w => (w =? i)%nat | None => false end); lia.
Qed.

Lemma op_settled_new_round o g g' :
  Game.new_round g = Ok g' -> op_settled o g g'.
Proof.
  intros H. destruct (Game.in_round g) eqn:Hr.
  - apply op_settled_same. apply view_new_round_running; assumption.
  - apply new_round_spec in H as (Hr' & _ & L & _); [|exact Hr].
    intros i l' Hl'. rewrite L, nth_error_map in Hl'.
    destruct (nth_error (ledgers g) i) as [l|]; [|discriminate].
    cbn [option_map] in Hl'. apply Some_inj in Hl'. subst l'.
    exists l. split; [reflexivity|].
    destruct (Ledger.present l); [|apply settled_same].
    apply settled_cleared. left. auto.
Qed.

Lemma op_settled_update o g step g' :
  Game.update g step = Ok g' -> op_settled o g g'.
Proof.
  unfold Game.update. intros H. apply bind_ok in H as (g1 & H1 & H). ok H.
  apply ticks_update_loop in H1 as [T R].
  apply (op_settled_round_end o g g1).
  - exact R.
  - intros i l1 Hl1.
    assert (Hex : exists l, nth_error (ledgers g) i = Some l /\
                            ticked (Collection.count (Game.deaths g)) l l1).
    { clear - T Hl1. revert i Hl1. induction T as [|x y L L' Hxy T IH]; intros i Hl1.
      - destruct i; discriminate.
      - destruct i; cbn [nth_error] in *.
        + apply Some_inj in Hl1. subst. exists x. auto.
        + apply IH. exact Hl1. }
    destruct Hex as (l & Hl & Ht). exists l. split; [exact Hl|]. intros c _.
    apply (settled_ticked c _ l l1 (count_nonneg (Game.deaths g)) Ht).
  - destruct (Game.death_in_frame g1); [apply round_end_check | left; reflexivity].
Qed.

Lemma view_set_size g size' g' : Game.set_size g size' = Ok g' -> view g' = view g.
Proof.
  unfold Game.set_size. cbv zeta. intros H. apply bind_ok in H as (w & _ & H).
  apply bind_ok in H as (m & _ & H). ok H. reflexivity.
Qed.

Lemma view_base_on_stop g g' : Game.base_on_stop g = Ok g' -> view g' = view g.
Proof.
  unfold Game.base_on_stop. cbv zeta. destruct (Avatar.Qneb _ _).
  - intros H. apply view_set_size in H. exact H.
  - intros H. ok H. reflexivity.
Qed.

Lemma op_settled_end o g g0 :
  view g0 = view g -> op_settled o g (Game.end_ g0).
Proof.
  intros V. unfold Game.end_. destruct (Game.started g0).
  - intros i l' Hl'. destruct i; discriminate.
  - apply op_settled_same. exact V.
Qed.

Lemma op_settled_view o g g0 g' :
  view g0 = view g -> op_settled o g0 g' -> op_settled o g g'.
Proof.
  intros V H i l' Hl'. destruct (H i l' Hl') as (l & Hl & Hs).
  rewrite (view_ledgers _ _ V) in Hl. exists l. split; [exact Hl|].
  unfold reset_cause in *. rewrite (view_in_round _ _ V) in Hs. exact Hs.
Qed.

Lemma op_settled_on_stop o g g' : Game.on_stop g = Ok g' -> op_settled o g g'.
Proof.
  unfold Game.on_stop. intros H. apply bind_ok in H as (g1 & H1 & H).
  apply view_base_on_stop in H1. destruct (Game.is_won g1) as [a| |].
  - ok H. apply op_settled_end. exact H1.
  - ok H. apply op_settled_end. exact H1.
  - apply (op_settled_view o g g1 g' H1). apply op_settled_new_round. exact H.
Qed.

Lemma op_settled_stop o g g' : Game.stop g = Ok g' -> op_settled o g g'.
Proof.
  unfold Game.stop. destruct (Game.frame_task g).
  - intros H. apply (op_settled_view o g (Game.with_frame_task false g) g' eq_refl).
    apply op_settled_on_stop. exact H.
  - intros H. ok H. apply op_settled_same. reflexivity.
Qed.

Lemma op_settled_fire o g k g' : Game.fire g k = Ok g' -> op_settled o g g'.
Proof.
  unfold Game.fire. destruct (nth_error (Game.timers g) k) as [c|];
    [|intros H; ok H; apply op_settled_same; reflexivity].
  cbv zeta. set (g0 := Game.with_timers _ g). destruct c as [b tg| | |i].
  - intros H. apply view_off in H. apply op_settled_same. rewrite H. reflexivity.
  - intros H. ok H. apply op_settled_same. rewrite view_start. reflexivity.
  - intros H. apply (op_settled_view o g g0 g' eq_refl). apply op_settled_stop. exact H.
  - intros H. apply op_settled_same.
    apply view_call_same in H; [rewrite H; reflexivity|]. intros x x' Hx. ok Hx.
    apply ledger_print_manager_start.
Qed.

Lemma view_leave g i a g' :
  Game.get g i = Some a ->
  (g1 <- Game.call g i (fun a => Ok (Avatar.die a)) ;;
   g2 <- Game.clear_avatar g1 i ;;
   Ok (Game.modify g2 i (fun a => Avatar.with_alive false (Avatar.with_present false a))))
  = Ok g' ->
  view g' = (Game.replace_nth i (left_game (ledger a)) (ledgers g), frame g, Game.deaths g).
Proof.
  intros Hg H. apply bind_ok in H as (g1 & H1 & H). apply bind_ok in H as (g2 & H2 & H). ok H.
  apply view_call in H1. rewrite Hg in H1. destruct H1 as (a1 & Ha1 & V1). ok Ha1.
  rewrite ledger_die in V1.
  assert (E1 : exists a1, Game.get g1 i = Some a1 /\
                 ledger a1 = Ledger.mk (Avatar.id a) false (Avatar.present a)
                               (Avatar.score a) (Avatar.round_score a)).
  { pose proof (f_equal (fun v => nth_error (fst (fst v)) i) V1) as E. cbn [fst view] in E.
    rewrite nth_error_replace_nth, Nat.eqb_refl, !nth_error_ledgers, Hg in E.
    destruct (Game.get g1 i) as [a1|]; [|discriminate]. exists a1. split; [reflexivity|].
    apply Some_inj. exact E. }
  destruct E1 as (a1 & Ea1 & La1).
  apply (view_clear_avatar g1 i g2 a1 Ea1) in H2.
  assert (E2 : exists a2, Game.get g2 i = Some a2 /\ ledger a2 = cleared (ledger a1)).
  { pose proof (f_equal (fun v => nth_error (fst (fst v)) i) H2) as E. cbn [fst view] in E.
    rewrite nth_error_replace_nth, Nat.eqb_refl, !nth_error_ledgers, Ea1 in E.
    destruct (Game.get g2 i) as [a2|]; [|discriminate]. exists a2. split; [reflexivity|].
    apply Some_inj. exact E. }
  destruct E2 as (a2 & Ea2 & La2).
  rewrite view_modify, Ea2.
  pose proof (f_equal (fun v => fst (fst v)) H2) as L2.
  pose proof (f_equal (fun v => snd (fst v)) H2) as R2.
  pose proof (f_equal snd H2) as D2. cbn [fst snd view] in L2, R2, D2.
  pose proof (f_equal (fun v => fst (fst v)) V1) as L1.
  pose proof (f_equal (fun v => snd (fst v)) V1) as R1.
  pose proof (f_equal snd V1) as D1. cbn [fst snd view] in L1, R1, D1.
  rewrite L2, R2, D2, L1, R1, D1, !replace_nth_twice. f_equal. f_equal. f_equal.
  change (ledger (Avatar.with_alive false (Avatar.with_present false a2)))
    with (Ledger.mk (Ledger.id (ledger a2)) false false (Ledger.score (ledger a2))
            (Ledger.round_score (ledger a2))).
  rewrite La2, La1. reflexivity.
Qed.

Lemma op_settled_remove_avatar g i g' :
  Game.remove_avatar g i = Ok g' -> op_settled (Game.RemoveAvatar i) g g'.
Proof.
  unfold Game.remove_avatar. destruct (Game.get g i) as [a|] eqn:Hg;
    [|intros H; ok H; apply op_settled_same; reflexivity].
  intros H. apply bind_ok in H as (g1 & H1 & H). ok H.
  destruct (Collection.exists_ _ _ _ _).
  - apply (view_leave g i a g1 Hg) in H1.
    pose proof (f_equal (fun v => fst (fst v)) H1) as L1.
    pose proof (f_equal (fun v => snd (fst v)) H1) as R1. cbn [fst snd view] in L1, R1.
    apply (op_settled_round_end _ g g1); [exact R1| |apply round_end_check].
    intros j l1 Hl1. rewrite L1, nth_error_replace_nth in Hl1.
    destruct (Nat.eqb_spec i j) as [<-|Hne].
    + rewrite nth_error_ledgers, Hg in *. cbn [option_map] in *. apply Some_inj in Hl1. subst l1.
      exists (ledger a). split; [reflexivity|]. intros c Hc.
      split; [reflexivity|]. intros Hl. cbn. repeat split; try lia. right. auto.
    + exists l1. split; [exact Hl1|]. intros c _. apply settled_same.
  - ok H1. apply (op_settled_round_end _ g1 g1); [reflexivity| |apply round_end_check].
    intros j l1 Hl1. exists l1. split; [exact Hl1|]. intros c _. apply settled_same.
Qed.

Lemma op_settled_exec g o g' : Game.exec g o = Ok g' -> op_settled o g g'.
Proof.
  destruct o as [|step|k|i|i move|i|type x y]; cbn [Game.exec].
  - apply op_settled_new_round.
  - destruct (Game.frame_task g); [apply op_settled_update|].
    intros H. ok H. apply op_settled_same. reflexivity.
  - apply op_settled_fire.
  - apply op_settled_remove_avatar.
  - intros H. ok H. apply op_settled_same. apply view_modify_same.
    intros a. apply ledger_update_angular_velocity.
  - intros H. ok H. apply op_settled_same. destruct (Game.started g); [reflexivity|].
    apply view_modify_same. reflexivity.
  - intros H. apply bind_ok in H as ([m added] & _ & H). ok H. apply op_settled_same. reflexivity.
Qed.

Lemma nonneg_exec g o g' :
  round_scores_nonneg g -> Game.exec g o = Ok g' -> round_scores_nonneg g'.
Proof.
  intros Hg H i l' Hl'. destruct (op_settled_exec g o g' H i l' Hl') as (l & Hl & _ & Hs).
  apply Hs. exact (Hg i l Hl).
Qed.

Lemma nonneg_run ops : forall g g',
  round_scores_nonneg g -> Game.run g ops = Ok g' -> round_scores_nonneg g'.
Proof.
  induction ops as [|o ops IH]; intros g g' Hg H; cbn [Game.run] in H.
  - ok H. exact Hg.
  - apply bind_ok in H as (g1 & H1 & H). eapply IH; [|exact H].
    eapply nonneg_exec; eassumption.
Qed.

Lemma score_run ops : forall g g',
  round_scores_nonneg g -> Game.run g ops = Ok g' ->
  forall i l', nth_error (ledgers g') i = Some l' ->
    exists l, nth_error (ledgers g) i = Some l /\ Ledger.id l' = Ledger.id l /\
              Ledger.score l <= Ledger.score l'.
Proof.
  induction ops as [|o ops IH]; intros g g' Hg H i l' Hl'; cbn [Game.run] in H.
  - ok H. exists l'. split; [exact Hl'|]. split; [reflexivity | lia].
  - apply bind_ok in H as (g1 & H1 & H).
    destruct (IH g1 g' (nonneg_exec g o g1 Hg H1) H i l' Hl') as (l1 & Hl1 & Hid1 & Hs1).
    destruct (op_settled_exec g o g1 H1 i l1 Hl1) as (l & Hl & Hid & Hs).
    exists l. split; [exact Hl|]. split; [congruence|].
    destruct (Hs (Hg i l Hl)) as (Hle & _). lia.
Qed.

Lemma ledger_with_emitted e a : ledger (Avatar.with_emitted e a) = ledger a.
Proof. reflexivity. Qed.

Lemma ledger_with_body_count n a : ledger (Avatar.with_body_count n a) = ledger a.
Proof. reflexivity. Qed.

Lemma ledger_avatar_clear a : ledger (Avatar.clear a) = cleared (ledger a).
Proof. unfold Avatar.clear. rewrite ledger_with_body_count. apply ledger_clear. Qed.

Lemma nonneg_new players max_score rnd g :
  Game.new players max_score rnd = Ok g -> round_scores_nonneg g.
Proof.
  unfold Game.new. cbv zeta. intros H. apply bind_ok in H as (w & _ & H).
  apply bind_ok in H as (m & _ & H). ok H. intros i l.
  unfold ledgers. cbn [Game.avatars Collection.items]. rewrite map_map, nth_error_map.
  destruct (nth_error _ i) as [a|]; [|discriminate]. cbn [option_map]. intros E.
  apply Some_inj in E. subst l.
  rewrite ledger_with_emitted, ledger_avatar_clear. cbn. lia.
Qed.

End Operations.

Section ScoreClaim.
Context {M : MathLib}.

(** C5, amended.  From a game as constructed, over every sequence of
    operations the score of every avatar never decreases.  Over one
    operation the round score of an avatar, never negative, does not
    decrease either unless it is reset to 0, and then a round has started
    ([clear]), a round has ended ([resolve_score], after the round score
    was added to the score) or the avatar itself was removed from the game
    ([destroy]). *)
Theorem score_monotone (players : list Avatar.t) (max_score : Z) (rnd : Random.t)
    (g0 : Game.t) :
  Game.new players max_score rnd = Ok g0 ->
  (forall ops1 g1 ops2 g2,
     Game.run g0 ops1 = Ok g1 -> Game.run g1 ops2 = Ok g2 ->
     forall i a2, Game.get g2 i = Some a2 ->
       exists a1, Game.get g1 i = Some a1 /\ Avatar.id a2 = Avatar.id a1 /\
                  Avatar.score a1 <= Avatar.score a2) /\
  (forall ops g o g',
     Game.run g0 ops = Ok g -> Game.exec g o = Ok g' ->
     forall i a', Game.get g' i = Some a' ->
       exists a, Game.get g i = Some a /\ Avatar.id a' = Avatar.id a /\
         0 <= Avatar.round_score a /\ 0 <= Avatar.round_score a' /\
         (Avatar.round_score a <= Avatar.round_score a' \/
          Avatar.round_score a' = 0 /\
          (Game.in_round g = false /\ Game.in_round g' = true \/
           Game.in_round g = true /\ Game.in_round g' = false \/
           o = Game.RemoveAvatar i))).
Proof.
  intros Hnew. pose proof (nonneg_new _ _ _ _ Hnew) as H0. split.
  - intros ops1 g1 ops2 g2 H1 H2 i a2 Ha2.
    pose proof (nonneg_run ops1 g0 g1 H0 H1) as Hg1.
    destruct (score_run ops2 g1 g2 Hg1 H2 i (ledger a2)) as (l1 & Hl1 & Hid & Hs).
    { rewrite nth_error_ledgers, Ha2. reflexivity. }
    rewrite nth_error_ledgers in Hl1. destruct (Game.get g1 i) as [a1|]; [|discriminate].
    exists a1. split; [reflexivity|]. apply Some_inj in Hl1. subst l1. auto.
  - intros ops g o g' H1 H2 i a' Ha'.
    pose proof (nonneg_run ops g0 g H0 H1) as Hg.
    destruct (op_settled_exec g o g' H2 i (ledger a')) as (l & Hl & Hid & Hs).
    { rewrite nth_error_ledgers, Ha'. reflexivity. }
    pose proof (Hg i l Hl) as Hnn.
    rewrite nth_error_ledgers in Hl. destruct (Game.get g i) as [a|]; [|discriminate].
    exists a. split; [reflexivity|]. apply Some_inj in Hl. subst l.
    destruct (Hs Hnn) as (_ & Hnn' & Hrs). auto.
Qed.

End ScoreClaim.

Lemma score_monotone_witness :
  exists g0 g1 g2 a1 a2,
    quartet_game = Ok g0 /\
    Game.run (M := coarse_math) g0 [Game.RemoveAvatar 3; Game.NewRound; Game.Fire 0] = Ok g1 /\
    Game.run (M := coarse_math) g1 [Game.Frame 3200; Game.Frame 10000] = Ok g2 /\
    Game.get g1 0 = Some a1 /\ Game.get g2 0 = Some a2 /\
    Avatar.score a1 <= Avatar.score a2.
Proof.
  destruct quartet_game as [g0|] eqn:E0; [|vm_compute in E0; discriminate].
  destruct (Game.run (M := coarse_math) g0 [Game.RemoveAvatar 3; Game.NewRound; Game.Fire 0])
    as [g1|] eqn:E1;
    [|vm_compute in E0; apply Ok_inj in E0; subst g0; vm_compute in E1; discriminate].
  destruct (Game.run (M := coarse_math) g1 [Game.Frame 3200; Game.Frame 10000])
    as [g2|] eqn:E2;
    [|vm_compute in E0; apply Ok_inj in E0; subst g0;
      vm_compute in E1; apply Ok_inj in E1; subst g1; vm_compute in E2; discriminate].
  destruct (Game.get g2 0) as [a2|] eqn:Ea2;
    [|vm_compute in E0; apply Ok_inj in E0; subst g0;
      vm_compute in E1; apply Ok_inj in E1; subst g1;
      vm_compute in E2; apply Ok_inj in E2; subst g2; vm_compute in Ea2; discriminate].
  destruct (proj1 (score_monotone (M := coarse_math) _ _ _ g0 E0) _ g1 _ g2 E1 E2 0%nat a2 Ea2)
    as (a1 & Ha1 & _ & Hle).
  exists g0, g1, g2, a1, a2. auto 10.
Defined.

(** A tick that ends a round resets a round score: the first avatar was
    credited 1 when it died; two ticks later the last deaths end the round,
    [resolve_score] moves the 1 into the score and the round score is 0,
    while no round has started. *)
Lemma round_score_reset_at_round_end :
  exists g g' a a',
    (g0 <- quartet_game ;;
     Game.run (M := coarse_math) g0
       [Game.RemoveAvatar 3; Game.NewRound; Game.Fire 0; Game.Frame 3200]) = Ok g /\
    Game.exec (M := coarse_math) g (Game.Frame 10000) = Ok g' /\
    Game.get g 0 = Some a /\ Game.get g' 0 = Some a' /\
    Avatar.round_score a = 1 /\ Avatar.round_score a' = 0 /\
    Game.in_round g = true /\ Game.in_round g' = false.
Proof.
  destruct (g0 <- quartet_game ;;
            Game.run (M := coarse_math) g0
              [Game.RemoveAvatar 3; Game.NewRound; Game.Fire 0; Game.Frame 3200])
    as [g|] eqn:E; [|vm_compute in E; discriminate].
  vm_compute in E. apply Ok_inj in E. subst g.
  match goal with |- exists g0 g' a a', Ok ?g = Ok g0 /\ _ =>
    destruct (Game.exec (M := coarse_math) g (Game.Frame 10000)) as [g'|] eqn:E';
      [|vm_compute in E'; discriminate];
    exists g, g' end.
  vm_compute in E'. apply Ok_inj in E'. subst g'.
  do 2 eexists. split; [reflexivity|]. split; [reflexivity|].
  split; [vm_compute; reflexivity|]. split; [vm_compute; reflexivity|].
  repeat split.
Qed.

(** ** Collections: insertion, removal, lookup and filtering *)

Section CollectionLaws.
Context {K T : Type} (eqb : K -> K -> bool) (key : T -> K).
Hypothesis eqb_eq : forall a b, eqb a b = true <-> a = b.

Lemma index_app_in (k : K) (l l' : list K) :
  In k l -> Collection.index eqb k (l ++ l') = Collection.index eqb k l.
Proof.
  induction l as [|x l IH]; intros Hin; [destruct Hin|].
  cbn [app Collection.index]. destruct (eqb x k) eqn:E; [reflexivity|].
  destruct Hin as [->|Hin]; [rewrite (eqb_refl' eqb eqb_eq) in E; discriminate|].
  rewrite IH by exact Hin. reflexivity.
Qed.

Lemma index_app_notin (k : K) (l l' : list K) :
  ~ In k l ->
  Collection.index eqb k (l ++ l')
  = option_map (fun i => (List.length l + i)%nat) (Collection.index eqb k l').
Proof.
  induction l as [|x l IH]; intros Hn.
  - cbn [app List.length]. destruct (Collection.index eqb k l'); reflexivity.
  - cbn [app Collection.index]. destruct (eqb x k) eqn:E.
    + apply eqb_eq in E. subst x. exfalso. apply Hn. left. reflexivity.
    + rewrite IH by (intros H; apply Hn; right; exact H).
      destruct (Collection.index eqb k l'); reflexivity.
Qed.

Lemma index_lt (k : K) (l : list K) (i : nat) :
  Collection.index eqb k l = Some i -> (i < List.length l)%nat.
Proof.
  intros H. apply (index_Some_nth eqb eqb_eq) in H.
  apply nth_error_Some. congruence.
Qed.

(** Lookup in two parallel lists, and what deleting a position does to
    it. *)
Lemma lookup_delete (k k' : K) : forall (ids : list K) (items : list T) (i : nat),
  Collection.index eqb k ids = Some i -> k' <> k ->
  match Collection.index eqb k' (Collection.delete i ids) with
  | Some j => nth_error (Collection.delete i items) j
  | None => None
  end
  = match Collection.index eqb k' ids with
    | Some j => nth_error items j
    | None => None
    end.
Proof.
  induction ids as [|x ids IH]; intros items i Hi Hne; [discriminate|].
  cbn [Collection.index] in Hi. destruct (eqb x k) eqn:Exk.
  - injection Hi as <-. apply eqb_eq in Exk. subst x.
    cbn [Collection.index]. rewrite (eqb_neq eqb eqb_eq k k') by congruence.
    destruct items as [|e items]; cbn [Collection.delete].
    + destruct (Collection.index eqb k' ids) as [j|]; [destruct j|]; reflexivity.
    + destruct (Collection.index eqb k' ids) as [j|]; reflexivity.
  - destruct (Collection.index eqb k ids) as [i0|] eqn:Ei; [|discriminate].
    injection Hi as <-. cbn [Collection.delete Collection.index].
    destruct (eqb x k') eqn:Exk'.
    + destruct items as [|e items]; reflexivity.
    + specialize (IH (tl items) i0 eq_refl Hne).
      destruct items as [|e items]; cbn [tl] in IH; cbn [Collection.delete].
      * destruct (Collection.index eqb k' (Collection.delete i0 ids)) as [j|];
          destruct (Collection.index eqb k' ids) as [j'|]; cbn [option_map];
          try reflexivity; destruct j; reflexivity || (destruct j'; reflexivity).
      * destruct (Collection.index eqb k' (Collection.delete i0 ids)) as [j|];
          destruct (Collection.index eqb k' ids) as [j'|]; cbn [option_map nth_error];
          exact IH.
Qed.

(** [add] then [get_by_id]: in a coherent collection an element whose id
    is new is appended, is found again under its id, and no other lookup
    changes; an element whose id is taken is refused and the collection is
    left as it was.  Coherence is kept. *)
Theorem add_then_get_by_id (c : Collection.t K T) (e : T) :
  coherent key c ->
  let c' := fst (Collection.add eqb key c e) in
  coherent key c' /\
  (Collection.get_by_id eqb c (key e) = None ->
   snd (Collection.add eqb key c e) = true /\
   Collection.get_by_id eqb c' (key e) = Some e /\
   Collection.count c' = Collection.count c + 1 /\
   forall k, k <> key e ->
     Collection.get_by_id eqb c' k = Collection.get_by_id eqb c k) /\
  (forall e0, Collection.get_by_id eqb c (key e) = Some e0 ->
   snd (Collection.add eqb key c e) = false /\ c' = c).
Proof.
  intros Hc c'.
  destruct (Collection.add eqb key c e) as [c1 b] eqn:E.
  destruct (coherent_add eqb key eqb_eq c c1 e b Hc E) as (Hc1 & Hadd & Hrej).
  change c' with c1. cbn [fst snd]. clear c'.
  split; [exact Hc1|]. split.
  - intros Hnone. apply (get_by_id_None eqb key eqb_eq c _ Hc) in Hnone.
    destruct b; [|destruct (Hrej eq_refl) as [_ Hin]; contradiction].
    split; [reflexivity|]. destruct (Hadd eq_refl) as (Hitems & _).
    destruct Hc as [Hids _]. destruct Hc1 as [Hids1 _].
    assert (Hids1' : Collection.ids c1 = Collection.ids c ++ [key e]).
    { rewrite Hids1, Hitems, map_app, <- Hids. reflexivity. }
    assert (Hlen : List.length (Collection.items c) = List.length (Collection.ids c)).
    { rewrite Hids, length_map. reflexivity. }
    split; [|split].
    + unfold Collection.get_by_id. rewrite Hids1', index_app_notin by exact Hnone.
      cbn [Collection.index]. rewrite (eqb_refl' eqb eqb_eq). cbn [option_map].
      rewrite Hitems, Nat.add_0_r, <- Hlen, nth_error_app2, Nat.sub_diag by lia.
      reflexivity.
    + unfold Collection.count. rewrite Hids1', length_app. cbn [List.length]. lia.
    + intros k Hk. unfold Collection.get_by_id. rewrite Hids1'.
      destruct (Collection.index eqb k (Collection.ids c)) as [i|] eqn:Ei.
      * assert (Hin : In k (Collection.ids c)).
        { eapply nth_error_In. apply (index_Some_nth eqb eqb_eq). exact Ei. }
        rewrite index_app_in, Ei, Hitems by exact Hin.
        apply nth_error_app1. rewrite Hlen. eapply index_lt. exact Ei.
      * assert (Hnin : ~ In k (Collection.ids c)).
        { intros Hin. apply (index_In eqb eqb_eq) in Hin as [i Hi]. congruence. }
        rewrite index_app_notin by exact Hnin. cbn [Collection.index].
        rewrite (eqb_neq eqb eqb_eq) by congruence. reflexivity.
  - intros e0 Hsome. apply (get_by_id_In eqb key eqb_eq c _ _ Hc) in Hsome as [Hin Hkey].
    destruct b.
    + destruct (Hadd eq_refl) as (_ & Hnin). exfalso. apply Hnin.
      rewrite (proj1 Hc), <- Hkey. apply in_map. exact Hin.
    + destruct (Hrej eq_refl) as [-> _]. auto.
Qed.

(** [remove_by_id] then [get_by_id]: removing an id that is listed takes
    its item out, leaves every other lookup as it was and keeps the
    collection coherent; removing an id that is not listed returns False
    and changes nothing. *)
Theorem remove_then_get_by_id (c : Collection.t K T) (k : K) :
  coherent key c ->
  let c' := fst (Collection.remove_by_id eqb c k) in
  coherent key c' /\
  Collection.get_by_id eqb c' k = None /\
  (forall k', k' <> k ->
     Collection.get_by_id eqb c' k' = Collection.get_by_id eqb c k') /\
  (forall e, Collection.get_by_id eqb c k = Some e ->
     snd (Collection.remove_by_id eqb c k) = true /\
     Collection.count c' = Collection.count c - 1) /\
  (Collection.get_by_id eqb c k = None ->
     snd (Collection.remove_by_id eqb c k) = false /\ c' = c).
Proof.
  intros Hc c'.
  destruct (Collection.remove_by_id eqb c k) as [c1 b] eqn:E.
  destruct (coherent_remove_by_id eqb key eqb_eq c c1 k b Hc E) as (Hc1 & Hrem & Hkeep).
  change c' with c1. cbn [fst snd]. clear c'.
  split; [exact Hc1|].
  unfold Collection.remove_by_id in E.
  destruct (Collection.index eqb k (Collection.ids c)) as [i|] eqn:Ei.
  - injection E as <- <-. destruct (Hrem eq_refl) as (Hin & Hnin & _).
    split; [|split; [|split]].
    + unfold Collection.get_by_id. rewrite (index_not_In eqb eqb_eq) by exact Hnin.
      reflexivity.
    + intros k' Hk'. unfold Collection.get_by_id, Collection.delete_index.
      cbn [Collection.ids Collection.items]. apply (lookup_delete k k'); assumption.
    + intros e _. split; [reflexivity|].
      unfold Collection.count, Collection.delete_index. cbn [Collection.ids].
      pose proof (index_lt k _ i Ei) as Hlt. clear - Hlt.
      revert i Hlt. induction (Collection.ids c) as [|x l IH]; intros i Hlt;
        [cbn in Hlt; lia|].
      destruct i; cbn [Collection.delete List.length] in *; [lia|].
      specialize (IH i ltac:(lia)). lia.
    + unfold Collection.get_by_id. rewrite Ei. intros Hnone. exfalso.
      destruct Hc as [Hids _].
      pose proof (index_lt k _ i Ei) as Hlt. rewrite Hids, length_map in Hlt.
      apply nth_error_None in Hnone. lia.
  - injection E as <- <-.
    split; [|split; [|split]].
    + unfold Collection.get_by_id. rewrite Ei. reflexivity.
    + reflexivity.
    + unfold Collection.get_by_id. rewrite Ei. discriminate.
    + auto.
Qed.

End CollectionLaws.

Lemma add_then_get_by_id_witness :
  let c := Collection.mk [1; 2] [1; 2] 0 in
  coherent (fun id : Z => id) c /\
  Collection.get_by_id Z.eqb (fst (Collection.add Z.eqb (fun id : Z => id) c 3)) 3
  = Some 3.
Proof.
  assert (Hc : coherent (fun id : Z => id) (Collection.mk [1; 2] [1; 2] 0)).
  { split; [reflexivity|]. repeat constructor; cbn; intuition discriminate. }
  split; [exact Hc|].
  destruct (add_then_get_by_id Z.eqb (fun id : Z => id) Z.eqb_eq
              (Collection.mk [1; 2] [1; 2] 0) 3 Hc) as (_ & H & _).
  apply H. reflexivity.
Defined.

Lemma remove_then_get_by_id_witness :
  let c := Collection.mk [1; 2; 3] [1; 2; 3] 0 in
  coherent (fun id : Z => id) c /\
  Collection.get_by_id Z.eqb (fst (Collection.remove_by_id Z.eqb c 2)) 2 = None /\
  Collection.get_by_id Z.eqb (fst (Collection.remove_by_id Z.eqb c 2)) 3 = Some 3.
Proof.
  assert (Hc : coherent (fun id : Z => id) (Collection.mk [1; 2; 3] [1; 2; 3] 0)).
  { split; [reflexivity|]. repeat constructor; cbn; intuition discriminate. }
  split; [exact Hc|].
  destruct (remove_then_get_by_id Z.eqb (fun id : Z => id) Z.eqb_eq
              (Collection.mk [1; 2; 3] [1; 2; 3] 0) 2 Hc) as (_ & H1 & H2 & _).
  split; [exact H1|]. rewrite H2 by discriminate. reflexivity.
Defined.


(** ** The compressor, the other way round *)


(** Compression undoes decompression, up to the truncation toward zero: a
    decompressed integer of at most 50 bits compresses to itself when it
    is not negative, to its successor when it is. *)
Theorem compress_decompress (n : Z) :
  - 2 ^ 50 <= n <= 2 ^ 50 ->
  Compressor.compress (Compressor.decompress n) = (if 0 <=? n then n else n + 1).
Proof.
  intros [Hlo Hhi].
  unfold Compressor.decompress, Compressor.compress, Compressor.precision,
    B64.add, B64.mul, B64.div.
  rewrite Zle_Qle in Hlo, Hhi.
  change (inject_Z (- 2 ^ 50)) with (- (1125899906842624))%Q in Hlo.
  change (inject_Z (2 ^ 50)) with 1125899906842624%Q in Hhi.
  assert (Ed : (inject_Z n / 100 == inject_Z n * (1 # 100))%Q) by field.
  destruct (0 <=? n) eqn:E.
  - apply Z.leb_le in E. rewrite Zle_Qle in E. change (inject_Z 0) with 0%Q in E.
    set (N := inject_Z n) in *.
    assert (Hd : (0 <= N / 100)%Q) by lra.
    pose proof (rnd_between _ Hd) as [Hd1 Hd2].
    assert (Hd0 : (0 <= B64.rnd (N / 100))%Q) by (apply rnd_nonneg; exact Hd).
    set (d := (N / 100)%Q) in *. set (d' := B64.rnd d) in *.
    assert (Ht : (0 <= d' * 100)%Q) by lra.
    pose proof (rnd_between _ Ht) as [Ht1 Ht2].
    assert (Ht0 : (0 <= B64.rnd (d' * 100))%Q) by (apply rnd_nonneg; exact Ht).
    set (t := B64.rnd (d' * 100)) in *.
    assert (Hu : (0 <= (1 # 2) + t)%Q) by lra.
    pose proof (rnd_between _ Hu) as [Hu1 Hu2].
    assert (Hu0 : (0 <= B64.rnd ((1 # 2) + t))%Q) by (apply rnd_nonneg; exact Hu).
    set (u := B64.rnd ((1 # 2) + t)) in *.
    rewrite (Py_int_nonneg u Hu0). apply Qfloor_between; fold N; lra.
  - apply Z.leb_gt in E. assert (E1 : n <= -1) by lia.
    rewrite Zle_Qle in E1. change (inject_Z (-1)) with (- (1))%Q in E1.
    set (N := inject_Z n) in *.
    assert (Hd : (N / 100 <= 0)%Q) by lra.
    pose proof (rnd_between_neg _ Hd) as [Hd1 Hd2].
    set (d := (N / 100)%Q) in *. set (d' := B64.rnd d) in *.
    assert (Ht : (d' * 100 <= 0)%Q) by lra.
    pose proof (rnd_between_neg _ Ht) as [Ht1 Ht2].
    set (t := B64.rnd (d' * 100)) in *.
    assert (Hu : ((1 # 2) + t <= 0)%Q) by lra.
    pose proof (rnd_between_neg _ Hu) as [Hu1 Hu2].
    set (u := B64.rnd ((1 # 2) + t)) in *.
    assert (Hu0 : (u <= 0)%Q) by lra.
    rewrite (Py_int_nonpos u Hu0). apply Qceiling_between.
    + rewrite inject_Z_plus. change (inject_Z 1) with 1%Q. fold N. lra.
    + rewrite inject_Z_plus. change (inject_Z 1) with 1%Q. fold N. lra.
Qed.

Lemma compress_decompress_witness :
  Compressor.compress (Compressor.decompress 123) = 123 /\
  Compressor.compress (Compressor.decompress (-7)) = -6.
Proof.
  split.
  - apply (compress_decompress 123). vm_compute. split; discriminate.
  - apply (compress_decompress (-7)). vm_compute. split; discriminate.
Defined.

(** ** The world: construction, borders and wrap-around *)

Lemma Qltb_lt (a b : Q) : Island.Qltb a b = true <-> (a < b)%Q.
Proof.
  unfold Island.Qltb. destruct (Qlt_le_dec a b) as [H|H]; split; intros H'; auto;
    [discriminate | exfalso; apply (Qlt_not_le _ _ H'); exact H].
Qed.

Lemma Qltb_ge (a b : Q) : Island.Qltb a b = false <-> (b <= a)%Q.
Proof.
  unfold Island.Qltb. destruct (Qlt_le_dec a b) as [H|H]; split; intros H'; auto;
    [discriminate | exfalso; apply (Qlt_not_le _ _ H); exact H'].
Qed.

(** [round(x) == 0] exactly on [[-1/2, 1/2]]: both ties go to the even
    integer 0. *)
Lemma Py_round_zero (x : Q) : Py.round x = 0 <-> (- (1 # 2) <= x <= 1 # 2)%Q.
Proof.
  unfold Py.round.
  pose proof (Qfloor_le x) as Hlo. pose proof (Qlt_floor x) as Hhi.
  set (f := Qfloor x) in *.
  rewrite inject_Z_plus in Hhi. change (inject_Z 1) with 1%Q in Hhi.
  destruct ((x - inject_Z f ?= 1 # 2)%Q) eqn:C.
  - apply Qeq_alt in C.
    assert (Ex : (x == inject_Z f + (1 # 2))%Q) by (rewrite <- C; ring).
    destruct (Z.even f) eqn:Ev.
    + split.
      * intros ->. change (inject_Z 0) with 0%Q in Ex. rewrite Ex. split; discriminate.
      * intros [H1 H2]. rewrite Ex in H1, H2.
        assert (Hf : (inject_Z (-1) <= inject_Z f <= inject_Z 0)%Q).
        { change (inject_Z (-1)) with (-1)%Q. change (inject_Z 0) with 0%Q. split; lra. }
        destruct Hf as [Hf1 Hf2]. rewrite <- Zle_Qle in Hf1, Hf2.
        assert (f = -1 \/ f = 0) as [->| ->] by lia; [discriminate Ev | reflexivity].
    + split.
      * intros Hf. assert (f = -1) by lia. subst f. replace (Qfloor x) with (-1) in Ex.
        change (inject_Z (-1)) with (-1)%Q in Ex. rewrite Ex. split; discriminate.
      * intros [H1 H2]. rewrite Ex in H1, H2.
        assert (Hf : (inject_Z (-1) <= inject_Z f <= inject_Z 0)%Q).
        { change (inject_Z (-1)) with (-1)%Q. change (inject_Z 0) with 0%Q. split; lra. }
        destruct Hf as [Hf1 Hf2]. rewrite <- Zle_Qle in Hf1, Hf2.
        assert (f = -1 \/ f = 0) as [->| ->] by lia; [reflexivity | discriminate Ev].
  - apply Qlt_alt in C. split.
    + intros ->. change (inject_Z 0) with 0%Q in *. split; lra.
    + intros [H1 H2].
      assert (Hf : (inject_Z (-1) < inject_Z f + 1 /\ inject_Z f < inject_Z 1)%Q).
      { change (inject_Z (-1)) with (-1)%Q. change (inject_Z 1) with 1%Q. split; lra. }
      destruct Hf as [Hf1 Hf2]. rewrite <- Zlt_Qlt in Hf2.
      assert (Hf3 : (inject_Z (-2) < inject_Z f)%Q).
      { change (inject_Z (-2)) with (-2)%Q. change (inject_Z (-1)) with (-1)%Q in Hf1. lra. }
      rewrite <- Zlt_Qlt in Hf3.
      assert (f = -1 \/ f = 0) as [E| E] by lia; [|exact E].
      rewrite E in C. change (inject_Z (-1)) with (-1)%Q in C. lra.
  - apply Qgt_alt in C. split.
    + intros Hf. assert (E : f = -1) by lia. rewrite E in *.
      change (inject_Z (-1)) with (-1)%Q in *. split; lra.
    + intros [H1 H2].
      assert (Hf : (inject_Z (-2) < inject_Z f /\ inject_Z f < inject_Z 0)%Q).
      { change (inject_Z (-2)) with (-2)%Q. change (inject_Z 0) with 0%Q. split; lra. }
      destruct Hf as [Hf1 Hf2]. rewrite <- Zlt_Qlt in Hf1, Hf2. lia.
Qed.

(** [World(size)] divides by [round(size / 40)] islands per side: it
    raises [ZeroDivisionError] exactly for the sizes in [[-20, 20]], and
    otherwise returns an inactive world without bodies whose islands have
    the side [size / round(size / 40)]. *)
Theorem world_new_zero_division (size : Q) :
  (World.new size None = Raise ZeroDivisionError <-> (- (20) <= size <= 20)%Q) /\
  (~ (- (20) <= size <= 20)%Q ->
   exists w, World.new size None = Ok w /\
     World.size w = size /\ World.active w = false /\ World.body_count w = 0 /\
     (World.island_size w
      == size / inject_Z (Py.round (size / World.island_grid_size)))%Q).
Proof.
  assert (Hz : Py.round (size / World.island_grid_size) = 0 <-> (- (20) <= size <= 20)%Q).
  { rewrite Py_round_zero. unfold World.island_grid_size.
    assert (E : (size / 40 == size * (1 # 40))%Q) by field.
    rewrite E. split; intros [H1 H2]; split; lra. }
  unfold World.new, fdiv. cbv zeta.
  destruct (Qeq_bool (inject_Z (Py.round (size / World.island_grid_size))) 0) eqn:E;
    cbn [bind].
  - apply Qeq_bool_iff in E. change 0%Q with (inject_Z 0) in E. apply (proj1 (inject_Z_injective _ _)) in E.
    split; [split; [intros _; apply Hz; exact E | reflexivity]|].
    intros Hn. exfalso. apply Hn, Hz, E.
  - split.
    + split; [discriminate|]. intros H. apply Hz in H. rewrite H in E. discriminate.
    + intros _. eexists. split; [reflexivity|]. cbn. repeat split; reflexivity.
Qed.

(** The four tests of [World.get_bound_intersect], in their order. *)
Lemma bound_intersect_cases (w : World.t) (body : Body.t) (margin : Q) :
  (World.get_bound_intersect w body margin = None <->
   (margin <= Body.x body /\ Body.x body + margin <= World.size w /\
    margin <= Body.y body /\ Body.y body + margin <= World.size w)%Q) /\
  (forall px py, World.get_bound_intersect w body margin = Some (px, py) ->
     (px = 0%Q \/ px = World.size w) /\ py = Body.y body /\
     ~ (margin <= Body.x body /\ Body.x body + margin <= World.size w)%Q
     \/
     (margin <= Body.x body /\ Body.x body + margin <= World.size w)%Q /\
     px = Body.x body /\ (py = 0%Q \/ py = World.size w)).
Proof.
  unfold World.get_bound_intersect.
  destruct (Island.Qltb (Body.x body - margin) 0) eqn:E1.
  { apply Qltb_lt in E1. split.
    - split; [discriminate|]. intros (H & _). lra.
    - intros px py H. injection H as <- <-. left. split; [auto|]. split; [reflexivity|].
      intros (H & _). lra. }
  apply Qltb_ge in E1.
  destruct (Island.Qltb (World.size w) (Body.x body + margin)) eqn:E2.
  { apply Qltb_lt in E2. split.
    - split; [discriminate|]. intros (_ & H & _). lra.
    - intros px py H. injection H as <- <-. left. split; [auto|]. split; [reflexivity|].
      intros (_ & H). lra. }
  apply Qltb_ge in E2.
  destruct (Island.Qltb (Body.y body - margin) 0) eqn:E3.
  { apply Qltb_lt in E3. split.
    - split; [discriminate|]. intros (_ & _ & H & _). lra.
    - intros px py H. injection H as <- <-. right. split; [split; lra|]. auto. }
  apply Qltb_ge in E3.
  destruct (Island.Qltb (World.size w) (Body.y body + margin)) eqn:E4.
  { apply Qltb_lt in E4. split.
    - split; [discriminate|]. intros (_ & _ & _ & H). lra.
    - intros px py H. injection H as <- <-. right. split; [split; lra|]. auto. }
  apply Qltb_ge in E4. split.
  - split; [intros _; repeat split; lra | reflexivity].
  - intros px py H. discriminate.
Qed.

(** [World.get_bound_intersect] returns no point exactly when the body,
    enlarged by the margin, lies within the field; a point it returns lies
    on a border, on the left or right one when the body sticks out there,
    on the top or bottom one otherwise. *)
Theorem bound_intersect_spec (w : World.t) (body : Body.t) (margin : Q) :
  (World.get_bound_intersect w body margin = None <->
   (margin <= Body.x body /\ Body.x body + margin <= World.size w /\
    margin <= Body.y body /\ Body.y body + margin <= World.size w)%Q) /\
  (forall px py, World.get_bound_intersect w body margin = Some (px, py) ->
     (px = 0%Q \/ px = World.size w) /\ py = Body.y body /\
     ~ (margin <= Body.x body /\ Body.x body + margin <= World.size w)%Q
     \/
     (margin <= Body.x body /\ Body.x body + margin <= World.size w)%Q /\
     px = Body.x body /\ (py = 0%Q \/ py = World.size w)).
Proof.
  unfold World.get_bound_intersect.
  destruct (Island.Qltb (Body.x body - margin) 0) eqn:E1.
  { apply Qltb_lt in E1. split.
    - split; [discriminate|]. intros (H & _). lra.
    - intros px py H. injection H as <- <-. left. split; [auto|]. split; [reflexivity|].
      intros (H & _). lra. }
  apply Qltb_ge in E1.
  destruct (Island.Qltb (World.size w) (Body.x body + margin)) eqn:E2.
  { apply Qltb_lt in E2. split.
    - split; [discriminate|]. intros (_ & H & _). lra.
    - intros px py H. injection H as <- <-. left. split; [auto|]. split; [reflexivity|].
      intros (_ & H). lra. }
  apply Qltb_ge in E2.
  destruct (Island.Qltb (Body.y body - margin) 0) eqn:E3.
  { apply Qltb_lt in E3. split.
    - split; [discriminate|]. intros (_ & _ & H & _). lra.
    - intros px py H. injection H as <- <-. right. split; [split; lra|]. auto. }
  apply Qltb_ge in E3.
  destruct (Island.Qltb (World.size w) (Body.y body + margin)) eqn:E4.
  { apply Qltb_lt in E4. split.
    - split; [discriminate|]. intros (_ & _ & _ & H). lra.
    - intros px py H. injection H as <- <-. right. split; [split; lra|]. auto. }
  apply Qltb_ge in E4. split.
  - split; [intros _; repeat split; lra | reflexivity].
  - intros px py H. discriminate.
Qed.

(** Wrap-around in a borderless game: a body that has left the field in
    one direction only is, once moved to the point opposite to the border
    point, within the field again. *)
Theorem wrap_lands_inside (w : World.t) (body : Body.t) (px py : Q) :
  (0 <= World.size w)%Q ->
  World.get_bound_intersect w body 0 = Some (px, py) ->
  ((0 <= Body.x body <= World.size w)%Q \/ (0 <= Body.y body <= World.size w)%Q) ->
  let '(ox, oy) := World.get_opposite w px py in
  World.get_bound_intersect w (Body.set_xy body ox oy) 0 = None.
Proof.
  intros Hs H Hone.
  destruct (proj2 (bound_intersect_cases w body 0) px py H) as
    [([Hpx|Hpx] & Hpy & Hout)|(Hin & Hpx & [Hpy|Hpy])]; subst px py.
  - destruct Hone as [Hx|Hy]; [exfalso; apply Hout; lra|].
    unfold World.get_opposite, World.Qeqb. try change (Qeq_bool 0 0) with true; cbv iota.
    apply (proj1 (bound_intersect_cases w _ 0)). cbn [Body.set_xy Body.x Body.y]. lra.
  - destruct Hone as [Hx|Hy]; [exfalso; apply Hout; lra|].
    unfold World.get_opposite, World.Qeqb.
    destruct (Qeq_bool (World.size w) 0) eqn:E0.
    + apply Qeq_bool_iff in E0.
      apply (proj1 (bound_intersect_cases w _ 0)). cbn [Body.set_xy Body.x Body.y]. lra.
    + rewrite (proj2 (Qeq_bool_iff _ _) (Qeq_refl (World.size w))).
      apply (proj1 (bound_intersect_cases w _ 0)). cbn [Body.set_xy Body.x Body.y]. lra.
  - unfold World.get_opposite, World.Qeqb.
    destruct (Qeq_bool (Body.x body) 0) eqn:Ex0;
      [|destruct (Qeq_bool (Body.x body) (World.size w)) eqn:Exs];
      try apply Qeq_bool_iff in Ex0; try apply Qeq_bool_iff in Exs;
      try change (Qeq_bool 0 0) with true; cbv iota;
      apply (proj1 (bound_intersect_cases w _ 0)); cbn [Body.set_xy Body.x Body.y]; lra.
  - unfold World.get_opposite, World.Qeqb.
    destruct (Qeq_bool (Body.x body) 0) eqn:Ex0;
      [|destruct (Qeq_bool (Body.x body) (World.size w)) eqn:Exs;
        [|destruct (Qeq_bool (World.size w) 0) eqn:Es0;
          [|rewrite (proj2 (Qeq_bool_iff _ _) (Qeq_refl (World.size w)))]]];
      try apply Qeq_bool_iff in Ex0; try apply Qeq_bool_iff in Exs;
      try apply Qeq_bool_iff in Es0;
      apply (proj1 (bound_intersect_cases w _ 0)); cbn [Body.set_xy Body.x Body.y]; lra.
Qed.

Lemma wrap_lands_inside_witness :
  exists w, World.new 100 None = Ok w /\
    World.get_bound_intersect w (Body.new (-1) 50 (6 # 10) None) 0 = Some (0%Q, 50%Q) /\
    World.get_bound_intersect w (Body.new 100 50 (6 # 10) None) 0 = None.
Proof.
  destruct (World.new 100 None) as [w|e] eqn:E; [|vm_compute in E; discriminate E].
  assert (Hs : World.size w = 100%Q).
  { unfold World.new, fdiv in E. vm_compute Qeq_bool in E. cbn [bind] in E.
    apply Ok_inj in E. rewrite <- E. reflexivity. }
  exists w. split; [reflexivity|].
  assert (Hb : World.get_bound_intersect w (Body.new (-1) 50 (6 # 10) None) 0
               = Some (0%Q, 50%Q)).
  { unfold World.get_bound_intersect. reflexivity. }
  split; [exact Hb|].
  assert (H0 : (0 <= World.size w)%Q) by (rewrite Hs; discriminate).
  assert (H1 : (0 <= Body.x (Body.new (-1) 50 (6 # 10) None) <= World.size w)%Q \/
               (0 <= Body.y (Body.new (-1) 50 (6 # 10) None) <= World.size w)%Q).
  { right. rewrite Hs. split; discriminate. }
  pose proof (wrap_lands_inside w (Body.new (-1) 50 (6 # 10) None) 0 50 H0 Hb H1) as H.
  unfold World.get_opposite, World.Qeqb in H. change (Qeq_bool 0 0) with true in H.
  cbv iota in H. rewrite Hs in H. exact H.
Defined.

(** ** Avatars: movement and the collision body *)

Lemma motion_fields (a a' : Avatar.t) :
  motion a' = motion a ->
  Avatar.angle a' = Avatar.angle a /\ Avatar.velocity a' = Avatar.velocity a /\
  Avatar.velocity_x a' = Avatar.velocity_x a /\ Avatar.velocity_y a' = Avatar.velocity_y a.
Proof. unfold motion. intros H. injection H. auto. Qed.

Lemma hull_fields (a a' : Avatar.t) :
  hull a' = hull a ->
  Avatar.x a' = Avatar.x a /\ Avatar.y a' = Avatar.y a /\
  Avatar.radius a' = Avatar.radius a /\ Avatar.body a' = Avatar.body a.
Proof. unfold hull. intros H. injection H. auto. Qed.

Section AvatarFrames.
Context {M : MathLib}.

Lemma kinematic_motion (a a' : Avatar.t) :
  motion a' = motion a -> kinematic a -> kinematic a'.
Proof.
  intros H [H1 H2]. apply motion_fields in H as (Ha & Hv & Hx & Hy).
  unfold kinematic. rewrite Ha, Hv, Hx, Hy. split; assumption.
Qed.

Lemma body_synced_hull (a a' : Avatar.t) :
  hull a' = hull a -> body_synced a -> body_synced a'.
Proof.
  intros H (H1 & H2 & H3). apply hull_fields in H as (Hx & Hy & Hr & Hb).
  unfold body_synced. rewrite Hx, Hy, Hr, Hb. auto.
Qed.

(** The methods that leave movement and the collision body alone. *)
Lemma frame_set_angular_velocity a v :
  motion (Avatar.set_angular_velocity a v) = motion a /\
  hull (Avatar.set_angular_velocity a v) = hull a.
Proof. unfold Avatar.set_angular_velocity. destruct (Avatar.Qneb _ _); split; reflexivity. Qed.

Lemma frame_update_angular_velocity a f :
  motion (Avatar.update_angular_velocity a f) = motion a /\
  hull (Avatar.update_angular_velocity a f) = hull a.
Proof.
  unfold Avatar.update_angular_velocity.
  destruct f; [apply frame_set_angular_velocity|].
  destruct (Qeq_bool _ _); [split; reflexivity | apply frame_set_angular_velocity].
Qed.

Lemma frame_update_base_angular_velocity a a' :
  Avatar.update_base_angular_velocity a = Ok a' ->
  motion a' = motion a /\ hull a' = hull a.
Proof.
  unfold Avatar.update_base_angular_velocity.
  destruct (Avatar.direction_in_loop a); [|intros H; ok H; split; reflexivity].
  intros H. apply bind_ok in H as (q & _ & H). apply bind_ok in H as (l & _ & H).
  apply Ok_inj in H. subst a'.
  match goal with
  | |- context [Avatar.update_angular_velocity ?b None] =>
      destruct (frame_update_angular_velocity b None) as [H1 H2]
  end.
  rewrite H1, H2. split; reflexivity.
Qed.

Lemma frame_set_inverse a b :
  motion (Avatar.set_inverse a b) = motion a /\ hull (Avatar.set_inverse a b) = hull a.
Proof.
  unfold Avatar.set_inverse. destruct (negb _); [|split; reflexivity].
  destruct (frame_update_angular_velocity (Avatar.with_inverse b a) None) as [H1 H2].
  rewrite H1, H2. split; reflexivity.
Qed.

Lemma frame_set_printing a p :
  motion (Avatar.set_printing a p) = motion a /\ hull (Avatar.set_printing a p) = hull a.
Proof.
  unfold Avatar.set_printing. destruct (negb (Bool.eqb _ _)); [|split; reflexivity].
  cbv zeta. destruct (negb _); split; reflexivity.
Qed.

Lemma frame_print_manager_set_printing a p :
  motion (Avatar.print_manager_set_printing a p) = motion a /\
  hull (Avatar.print_manager_set_printing a p) = hull a.
Proof.
  unfold Avatar.print_manager_set_printing.
  destruct (Avatar.get_random_distance _) as [d r].
  change (motion (Avatar.set_printing a p) = motion a /\
          hull (Avatar.set_printing a p) = hull a).
  apply frame_set_printing.
Qed.

Lemma frame_print_manager_start a :
  motion (Avatar.print_manager_start a) = motion a /\
  hull (Avatar.print_manager_start a) = hull a.
Proof.
  unfold Avatar.print_manager_start. destruct (negb _); [|split; reflexivity].
  match goal with
  | |- context [Avatar.print_manager_set_printing ?b true] =>
      destruct (frame_print_manager_set_printing b true) as [H1 H2]
  end.
  rewrite H1, H2. split; reflexivity.
Qed.

Lemma frame_print_manager_stop a :
  motion (Avatar.print_manager_stop a) = motion a /\
  hull (Avatar.print_manager_stop a) = hull a.
Proof.
  unfold Avatar.print_manager_stop. destruct (PrintManager.active _); [|split; reflexivity].
  unfold Avatar.print_manager_clear.
  match goal with
  | |- context [Avatar.print_manager_set_printing ?b false] =>
      destruct (frame_print_manager_set_printing b false) as [H1 H2];
      change (motion (Avatar.print_manager_set_printing b false) = motion a /\
              hull (Avatar.print_manager_set_printing b false) = hull a)
  end.
  rewrite H1, H2. split; reflexivity.
Qed.

Lemma frame_print_manager_test a :
  motion (Avatar.print_manager_test a) = motion a /\
  hull (Avatar.print_manager_test a) = hull a.
Proof.
  unfold Avatar.print_manager_test. destruct (PrintManager.active _); [|split; reflexivity].
  cbv zeta. destruct (Island.Qltb _ _); [split; reflexivity|].
  unfold Avatar.print_manager_toggle_printing.
  match goal with
  | |- context [Avatar.print_manager_set_printing ?b ?p] =>
      destruct (frame_print_manager_set_printing b p) as [H1 H2]
  end.
  rewrite H1, H2. split; reflexivity.
Qed.

Lemma frame_die a :
  motion (Avatar.die a) = motion a /\ hull (Avatar.die a) = hull a.
Proof.
  unfold Avatar.die. cbv zeta.
  match goal with
  | |- context [Avatar.print_manager_stop ?b] =>
      destruct (frame_print_manager_stop b) as [H1 H2]
  end.
  rewrite H1, H2. split; reflexivity.
Qed.

(** [update_velocities] computes the components from the angle and the
    velocity, which it leaves as they are. *)
Lemma update_velocities_spec a a' :
  Avatar.update_velocities a = Ok a' ->
  kinematic a' /\ Avatar.angle a' = Avatar.angle a /\
  Avatar.velocity a' = Avatar.velocity a /\ hull a' = hull a.
Proof.
  unfold Avatar.update_velocities. cbv zeta. intros H.
  apply frame_update_base_angular_velocity in H as [Hm Hh].
  apply motion_fields in Hm as (Ha & Hv & Hx & Hy).
  cbn [Avatar.angle Avatar.velocity Avatar.velocity_x Avatar.velocity_y
       Avatar.with_velocity_x Avatar.with_velocity_y] in Ha, Hv, Hx, Hy.
  split; [|split; [exact Ha | split; [exact Hv | exact Hh]]].
  unfold kinematic. rewrite Ha, Hv, Hx, Hy. split; reflexivity.
Qed.

Lemma set_angle_spec a x a' :
  Avatar.set_angle a x = Ok a' ->
  hull a' = hull a /\ Avatar.velocity a' = Avatar.velocity a /\
  (kinematic a -> kinematic a') /\
  (Qeq_bool (Avatar.angle a) x = false -> kinematic a' /\ Avatar.angle a' = x).
Proof.
  unfold Avatar.set_angle, Avatar.Qneb.
  destruct (Qeq_bool (Avatar.angle a) x); cbn [negb].
  - intros H. ok H. split; [reflexivity|]. split; [reflexivity|].
    split; [auto | discriminate].
  - intros H. apply update_velocities_spec in H as (Hk & Ha & Hv & Hh).
    split; [exact Hh|]. split; [exact Hv|]. split; [intros _; exact Hk|].
    intros _. split; [exact Hk | exact Ha].
Qed.

Lemma set_velocity_spec a v a' :
  Avatar.set_velocity a v = Ok a' ->
  hull a' = hull a /\ Avatar.angle a' = Avatar.angle a /\
  (kinematic a -> kinematic a') /\
  (a' = a \/ kinematic a' /\ Avatar.velocity a' = Py.max v (Default.VELOCITY / 2)).
Proof.
  unfold Avatar.set_velocity, Avatar.base_set_velocity.
  destruct (Avatar.Qneb _ v);
    [|intros H; ok H; split; [reflexivity|]; split; [reflexivity|]; split; auto].
  cbv zeta. destruct (Avatar.Qneb _ _);
    [|intros H; ok H; split; [reflexivity|]; split; [reflexivity|]; split; auto].
  intros H. apply update_velocities_spec in H as (Hk & Ha & Hv & Hh).
  split; [exact Hh|]. split; [exact Ha|]. split; [intros _; exact Hk|].
  right. split; [exact Hk | exact Hv].
Qed.

Lemma update_angle_spec a step a' :
  Avatar.update_angle a step = Ok a' ->
  hull a' = hull a /\ (kinematic a -> kinematic a').
Proof.
  unfold Avatar.update_angle. destruct (Avatar.Qneb _ _); [|intros H; ok H; auto].
  destruct (Avatar.direction_in_loop a).
  - intros H. apply set_angle_spec in H as (Hh & _ & Hk & _). auto.
  - intros H. apply bind_ok in H as (a1 & E & H). apply Ok_inj in H. subst a'.
    apply set_angle_spec in E as (Hh & _ & Hk & _).
    destruct (frame_update_angular_velocity a1 (Some 0%Q)) as [H1 H2].
    split; [rewrite H2; exact Hh|].
    intros K. apply (kinematic_motion a1); [exact H1 | apply Hk; exact K].
Qed.

Lemma body_synced_set_position a x y :
  body_synced a -> body_synced (Avatar.set_position a x y).
Proof. intros (_ & _ & H). repeat split. exact H. Qed.

Lemma body_synced_set_radius a r :
  body_synced a -> body_synced (Avatar.set_radius a r).
Proof.
  intros (H1 & H2 & H3). unfold Avatar.set_radius.
  destruct (Avatar.Qneb _ _); repeat split; assumption.
Qed.

Lemma motion_set_radius a r : motion (Avatar.set_radius a r) = motion a.
Proof. unfold Avatar.set_radius. destruct (Avatar.Qneb _ _); reflexivity. Qed.

Lemma update_spec a step a' :
  Avatar.update a step = Ok a' ->
  (kinematic a -> kinematic a') /\ (body_synced a -> body_synced a').
Proof.
  unfold Avatar.update. destruct (Avatar.alive a); [|intros H; ok H; auto].
  intros H. apply bind_ok in H as (a1 & E & H). apply Ok_inj in H. subst a'.
  apply update_angle_spec in E as (Hh & Hk).
  split.
  - intros K. apply (kinematic_motion a1); [|apply Hk; exact K].
    cbv zeta. destruct (_ && _); reflexivity.
  - intros S. apply (body_synced_hull a a1 Hh) in S.
    apply (body_synced_set_position a1 (Avatar.x a1 + Avatar.velocity_x a1 * step)
             (Avatar.y a1 + Avatar.velocity_y a1 * step)) in S.
    cbv zeta. fold (Avatar.update_position a1 step) in *.
    destruct (_ && _); exact S.
Qed.

Lemma apply_spec a p v a' :
  BonusStack.apply a p v = Ok a' ->
  (kinematic a -> kinematic a') /\ (body_synced a -> body_synced a').
Proof.
  unfold BonusStack.apply, BonusStack.base_apply.
  destruct (String.eqb p "radius").
  { intros H. apply bind_ok in H as (e & _ & H). ok H. split.
    - apply kinematic_motion, motion_set_radius.
    - apply body_synced_set_radius. }
  destruct (String.eqb p "velocity").
  { destruct (Value.as_float v); [|discriminate].
    intros H. apply set_velocity_spec in H as (Hh & _ & Hk & _).
    split; [exact Hk | apply body_synced_hull; exact Hh]. }
  destruct (String.eqb p "inverse").
  { intros H. apply bind_ok in H as (e & _ & H). ok H.
    destruct (frame_set_inverse a e) as [H1 H2].
    split; [apply kinematic_motion; exact H1 | apply body_synced_hull; exact H2]. }
  destruct (String.eqb p "invincible").
  { intros H. ok H. auto. }
  destruct (String.eqb p "printing").
  { intros H. apply bind_ok in H as (e & _ & H). ok H.
    destruct e.
    - destruct (frame_print_manager_start a) as [H1 H2].
      split; [apply kinematic_motion; exact H1 | apply body_synced_hull; exact H2].
    - destruct (frame_print_manager_stop a) as [H1 H2].
      split; [apply kinematic_motion; exact H1 | apply body_synced_hull; exact H2]. }
  destruct (String.eqb p "color").
  { destruct v; try discriminate. intros H. ok H. auto. }
  destruct (existsb _ _); [discriminate|]. intros H. ok H. auto.
Qed.

Lemma resolve_spec a b a' :
  BonusStack.resolve a b = Ok a' ->
  (kinematic a -> kinematic a') /\ (body_synced a -> body_synced a').
Proof.
  unfold BonusStack.resolve. intros H. apply bind_ok in H as (p & _ & H).
  revert H. unfold BonusStack.apply_all.
  apply (fold_result_inv
           (fun a a' => (kinematic a -> kinematic a') /\ (body_synced a -> body_synced a'))
           (fun a entry => BonusStack.apply a (fst entry) (snd entry))).
  - auto.
  - intros x y z [H1 H2] [H3 H4]. auto.
  - intros x e x'. apply apply_spec.
Qed.

(** Every method but [clear] and [destroy] keeps the two relations. *)
Lemma mutate_spec a m a' :
  resets m = false -> mutate a m = Ok a' ->
  (kinematic a -> kinematic a') /\ (body_synced a -> body_synced a').
Proof.
  intros Hr. destruct m; try discriminate Hr; cbn [mutate]; intros H;
    try (apply Ok_inj in H; subst a').
  - split; [apply kinematic_motion; reflexivity | apply body_synced_set_position].
  - split; [apply kinematic_motion | apply body_synced_hull]; reflexivity.
  - destruct (frame_set_angular_velocity a angular_velocity) as [H1 H2].
    split; [apply kinematic_motion; exact H1 | apply body_synced_hull; exact H2].
  - destruct (frame_update_angular_velocity a factor) as [H1 H2].
    split; [apply kinematic_motion; exact H1 | apply body_synced_hull; exact H2].
  - apply set_angle_spec in H as (Hh & _ & Hk & _).
    split; [exact Hk | apply body_synced_hull; exact Hh].
  - apply set_velocity_spec in H as (Hh & _ & Hk & _).
    split; [exact Hk | apply body_synced_hull; exact Hh].
  - split; [apply kinematic_motion, motion_set_radius | apply body_synced_set_radius].
  - destruct (frame_set_inverse a inverse) as [H1 H2].
    split; [apply kinematic_motion; exact H1 | apply body_synced_hull; exact H2].
  - auto.
  - auto.
  - apply update_spec in H. exact H.
  - destruct (frame_set_printing a printing) as [H1 H2].
    split; [apply kinematic_motion; exact H1 | apply body_synced_hull; exact H2].
  - destruct (frame_print_manager_start a) as [H1 H2].
    split; [apply kinematic_motion; exact H1 | apply body_synced_hull; exact H2].
  - destruct (frame_print_manager_stop a) as [H1 H2].
    split; [apply kinematic_motion; exact H1 | apply body_synced_hull; exact H2].
  - destruct (frame_print_manager_test a) as [H1 H2].
    split; [apply kinematic_motion; exact H1 | apply body_synced_hull; exact H2].
  - destruct (frame_die a) as [H1 H2].
    split; [apply kinematic_motion; exact H1 | apply body_synced_hull; exact H2].
  - auto.
  - auto.
  - auto.
  - auto.
  - revert H. unfold BonusStack.add. destruct (BonusStack.bonuses_add _ _) as [c []].
    + intros H. apply resolve_spec in H. exact H.
    + intros H. ok H. auto.
  - revert H. unfold BonusStack.remove. destruct (BonusStack.bonuses_remove _ _) as [c []].
    + intros H. apply resolve_spec in H. exact H.
    + intros H. ok H. auto.
Qed.

End AvatarFrames.

Lemma no_reset_In (ms : list mutation) (m : mutation) :
  no_reset ms = true -> In m ms -> resets m = false.
Proof.
  unfold no_reset. rewrite forallb_forall. intros H Hin. specialize (H m Hin).
  destruct (resets m); [discriminate | reflexivity].
Qed.

Lemma motion_fields' (a : Avatar.t) (t : Q * Q * Q * Q) :
  motion a = t ->
  Avatar.angle a = fst (fst (fst t)) /\ Avatar.velocity a = snd (fst (fst t)) /\
  Avatar.velocity_x a = snd (fst t) /\ Avatar.velocity_y a = snd t.
Proof. intros <-. repeat split. Qed.

Lemma hull_fields' (a : Avatar.t) (t : Q * Q * Q * Body.t) :
  hull a = t ->
  Avatar.x a = fst (fst (fst t)) /\ Avatar.y a = snd (fst (fst t)) /\
  Avatar.radius a = snd (fst t) /\ Avatar.body a = snd t.
Proof. intros <-. repeat split. Qed.

Section AvatarLaws.
Context {M : MathLib}.

(** The relation between the velocity, the angle and the velocity
    components, once it holds, is kept by every sequence of avatar methods
    in which [clear] and [destroy] do not occur. *)
Theorem kinematic_kept (a : Avatar.t) (ms : list mutation) (a' : Avatar.t) :
  kinematic a -> no_reset ms = true -> mutate_all a ms = Ok a' -> kinematic a'.
Proof.
  intros K Hn H. revert K. revert H. unfold mutate_all.
  apply (fold_result_inv_in (fun a a' => kinematic a -> kinematic a')
           (fun a m => mutate a m) ms).
  - auto.
  - auto.
  - intros x m x' Hin E. apply (mutate_spec x m x'); [|exact E].
    apply (no_reset_In ms); assumption.
Qed.

(** From its construction on, and as long as it is not cleared, the
    collision body of an avatar is at the avatar's position and has the
    avatar's radius. *)
Theorem body_follows_avatar (id : Z) (color : string) (rnd : Random.t)
    (ms : list mutation) (a' : Avatar.t) :
  no_reset ms = true -> mutate_all (Avatar.new id color rnd) ms = Ok a' ->
  body_synced a'.
Proof.
  intros Hn H.
  assert (S : body_synced (Avatar.new id color rnd)) by (repeat split).
  revert S. revert H. unfold mutate_all.
  apply (fold_result_inv_in (fun a a' => body_synced a -> body_synced a')
           (fun a m => mutate a m) ms).
  - auto.
  - auto.
  - intros x m x' Hin E. apply (mutate_spec x m x'); [|exact E].
    apply (no_reset_In ms); assumption.
Qed.

Lemma print_manager_stop_steer (a : Avatar.t) :
  Avatar.alive (Avatar.print_manager_stop a) = Avatar.alive a /\
  Avatar.angular_velocity (Avatar.print_manager_stop a) = Avatar.angular_velocity a.
Proof.
  unfold Avatar.print_manager_stop. destruct (PrintManager.active _); [|split; reflexivity].
  unfold Avatar.print_manager_clear, Avatar.print_manager_set_printing.
  destruct (Avatar.get_random_distance _) as [d r].
  cbn [Avatar.alive Avatar.angular_velocity Avatar.with_print_manager].
  unfold Avatar.set_printing. destruct (negb (Bool.eqb _ _)); [|split; reflexivity].
  cbv zeta. destruct (negb _); split; reflexivity.
Qed.

Lemma motion_with_body_count (n : Z) (a : Avatar.t) :
  motion (Avatar.with_body_count n a) = motion a.
Proof. reflexivity. Qed.

Lemma hull_with_body_count (n : Z) (a : Avatar.t) :
  hull (Avatar.with_body_count n a) = hull a.
Proof. reflexivity. Qed.

Lemma motion_base_clear (a : Avatar.t) :
  motion (Avatar.base_clear a) = (0%Q, Default.VELOCITY, 0%Q, 0%Q).
Proof. reflexivity. Qed.

Lemma hull_base_clear (a : Avatar.t) :
  hull (Avatar.base_clear a)
  = (Avatar.radius a, Avatar.radius a, Default.RADIUS, Avatar.body a).
Proof. reflexivity. Qed.

Lemma clear_motion (a : Avatar.t) :
  motion (Avatar.clear a) = (0%Q, Default.VELOCITY, 0%Q, 0%Q).
Proof.
  unfold Avatar.clear. cbv zeta. rewrite motion_with_body_count.
  rewrite (proj1 (frame_print_manager_stop (Avatar.base_clear a))).
  apply motion_base_clear.
Qed.

Lemma clear_hull (a : Avatar.t) :
  hull (Avatar.clear a) = (Avatar.radius a, Avatar.radius a, Default.RADIUS, Avatar.body a).
Proof.
  unfold Avatar.clear. cbv zeta. rewrite hull_with_body_count.
  rewrite (proj2 (frame_print_manager_stop (Avatar.base_clear a))).
  apply hull_base_clear.
Qed.

Lemma alive_with_body_count (n : Z) (a : Avatar.t) :
  Avatar.alive (Avatar.with_body_count n a) = Avatar.alive a.
Proof. reflexivity. Qed.

Lemma angular_velocity_with_body_count (n : Z) (a : Avatar.t) :
  Avatar.angular_velocity (Avatar.with_body_count n a) = Avatar.angular_velocity a.
Proof. reflexivity. Qed.

Lemma steer_base_clear (a : Avatar.t) :
  Avatar.alive (Avatar.base_clear a) = true /\
  Avatar.angular_velocity (Avatar.base_clear a) = 0%Q.
Proof. split; reflexivity. Qed.

Lemma clear_steer (a : Avatar.t) :
  Avatar.alive (Avatar.clear a) = true /\ Avatar.angular_velocity (Avatar.clear a) = 0%Q.
Proof.
  unfold Avatar.clear. cbv zeta.
  rewrite alive_with_body_count, angular_velocity_with_body_count.
  destruct (print_manager_stop_steer (Avatar.base_clear a)) as [H1 H2].
  rewrite H1, H2. apply steer_base_clear.
Qed.

(** [clear()] zeroes the velocity components and the angle but resets the
    velocity to 16: where [cos(0) = 1] the relation of [update_velocities]
    does not hold for a cleared avatar.  [set_angle(0)] does not restore
    it, the angle being 0 already; [set_angle] of any other angle does. *)
Theorem clear_breaks_kinematic (a : Avatar.t) :
  (cos 0 == 1)%Q ->
  motion (Avatar.clear a) = (0%Q, Default.VELOCITY, 0%Q, 0%Q) /\
  ~ kinematic (Avatar.clear a) /\
  Avatar.set_angle (Avatar.clear a) 0 = Ok (Avatar.clear a) /\
  forall x a', Qeq_bool 0 x = false ->
    Avatar.set_angle (Avatar.clear a) x = Ok a' -> kinematic a' /\ Avatar.angle a' = x.
Proof.
  intros Hcos. pose proof (clear_motion a) as Hm.
  generalize dependent (Avatar.clear a). intros a0 Hm.
  split; [exact Hm|].
  apply motion_fields' in Hm. cbn [fst snd] in Hm. destruct Hm as (Ha & Hv & Hx & Hy).
  split; [|split].
  - intros [K _]. rewrite Hx, Ha, Hv, Hcos in K. revert K. compute. discriminate.
  - unfold Avatar.set_angle, Avatar.Qneb. rewrite Ha. reflexivity.
  - intros x a' Hne H. apply set_angle_spec in H as (_ & _ & _ & H).
    apply H. rewrite Ha. exact Hne.
Qed.

(** A cleared avatar does not move: [update(step)] succeeds and leaves it
    where it is, with the velocity 16 and the velocity components 0, for
    every step. *)
Theorem cleared_avatar_stalls (a : Avatar.t) (step : Q) :
  exists a1,
    Avatar.update (Avatar.clear a) step = Ok a1 /\
    (Avatar.x a1 == Avatar.x (Avatar.clear a))%Q /\
    (Avatar.y a1 == Avatar.y (Avatar.clear a))%Q /\
    motion a1 = (0%Q, Default.VELOCITY, 0%Q, 0%Q).
Proof.
  pose proof (clear_motion a) as Hm. destruct (clear_steer a) as [Hal Hav].
  generalize dependent (Avatar.clear a). intros a0 Hm Hal Hav.
  apply motion_fields' in Hm. cbn [fst snd] in Hm. destruct Hm as (Ha & Hv & Hx & Hy).
  unfold Avatar.update. rewrite Hal.
  unfold Avatar.update_angle, Avatar.Qneb. rewrite Hav.
  change (Qeq_bool 0 0) with true. cbn [negb bind].
  unfold Avatar.update_position. rewrite Hx, Hy.
  eexists. split; [reflexivity|].
  destruct (_ && _);
    cbn [Avatar.x Avatar.y Avatar.add_point Avatar.set_position Avatar.with_x Avatar.with_y
         Avatar.with_body Avatar.with_trail Avatar.with_emitted];
    (split; [ring|]; split; [ring|]);
    unfold motion;
    cbn [Avatar.angle Avatar.velocity Avatar.velocity_x Avatar.velocity_y
         Avatar.add_point Avatar.set_position Avatar.with_x Avatar.with_y
         Avatar.with_body Avatar.with_trail Avatar.with_emitted];
    rewrite Ha, Hv, Hx, Hy; reflexivity.
Qed.

(** [clear()] resets the radius without telling the collision body, which
    also stays where it was: once the avatar has been placed again the body
    is back at its position, but it has the radius of before the [clear()].
    The two agree again only if that radius was the default one. *)
Theorem clear_leaves_body_radius (a : Avatar.t) (x y : Q) :
  body_synced a ->
  let a' := Avatar.set_position (Avatar.clear a) x y in
  Avatar.radius a' = Default.RADIUS /\
  Body.radius (Avatar.body a') = Avatar.radius a /\
  (body_synced a' <-> Avatar.radius a = Default.RADIUS).
Proof.
  intros (S1 & S2 & S3). pose proof (clear_hull a) as Hh.
  generalize dependent (Avatar.clear a). intros a0 Hh a'.
  apply hull_fields' in Hh. cbn [fst snd] in Hh. destruct Hh as (_ & _ & Hr & Hb).
  assert (R1 : Avatar.radius a' = Default.RADIUS) by exact Hr.
  assert (R2 : Body.radius (Avatar.body a') = Avatar.radius a).
  { unfold a'. cbn [Avatar.set_position Avatar.body Avatar.with_body Body.radius
                    Avatar.with_x Avatar.with_y].
    rewrite Hb. exact S3. }
  split; [exact R1|]. split; [exact R2|]. split.
  - intros (_ & _ & H). rewrite R1, R2 in H. exact H.
  - intros H. split; [reflexivity|]. split; [reflexivity|]. rewrite R1, R2. exact H.
Qed.

Lemma max_half_velocity (v : Q) :
  (Default.VELOCITY / 2 <= Py.max v (Default.VELOCITY / 2))%Q.
Proof.
  unfold Py.max. destruct (Qlt_le_dec v (Default.VELOCITY / 2)) as [_|H];
    [apply Qle_refl | exact H].
Qed.

Lemma set_velocity_returns (a : Avatar.t) (v : Q) :
  exists a', Avatar.set_velocity a v = Ok a'.
Proof.
  unfold Avatar.set_velocity, Avatar.base_set_velocity.
  destruct (Avatar.Qneb _ v); [|eexists; reflexivity].
  cbv zeta. destruct (Avatar.Qneb _ _); [|eexists; reflexivity].
  unfold Avatar.update_velocities. cbv zeta.
  match goal with
  | |- context [Avatar.update_base_angular_velocity ?b] =>
      destruct (Avatar.direction_in_loop b) eqn:Hd;
        [destruct (update_base_angular_velocity_loop b Hd) as (base & av & -> & _);
           [|eexists; reflexivity]
        |unfold Avatar.update_base_angular_velocity; rewrite Hd; eexists; reflexivity]
  end.
  cbn [Avatar.velocity Avatar.with_velocity_y Avatar.with_velocity_x Avatar.with_velocity].
  eapply Qlt_le_trans; [|apply max_half_velocity]. reflexivity.
Qed.

(** [set_velocity] with a finite argument never raises ([inf] and [nan]
    are no rational numbers; [inf] makes [math.log] raise).  It leaves the
    avatar as it is, or sets the velocity to [max(velocity, 8)] and
    recomputes the components; the position, the radius and the body are
    untouched, and a velocity of at least 8 stays at least 8. *)
Theorem set_velocity_total (a : Avatar.t) (v : Q) :
  exists a',
    Avatar.set_velocity a v = Ok a' /\
    (a' = a \/ kinematic a' /\ Avatar.velocity a' = Py.max v (Default.VELOCITY / 2)) /\
    hull a' = hull a /\ Avatar.angle a' = Avatar.angle a /\
    ((Default.VELOCITY / 2 <= Avatar.velocity a)%Q ->
     (Default.VELOCITY / 2 <= Avatar.velocity a')%Q).
Proof.
  pose proof (max_half_velocity v) as Hmax.
  destruct (set_velocity_returns a v) as [a' E]. exists a'. split; [exact E|].
  destruct (set_velocity_spec a v a' E) as (Hh & Ha & _ & Hc).
  split; [exact Hc|]. split; [exact Hh|]. split; [exact Ha|].
  intros Hv. destruct Hc as [->|[_ ->]]; [exact Hv | exact Hmax].
Qed.

(** [PrintManager.set_printing(p)] leaves [avatar.printing] equal to [p],
    consumes one random draw and sets the distance to the next toggle
    within fixed bounds, the draw being a multiple of [2^-53] in [[0, 1)]
    as [random.random()] returns them: from 18 to less than 60 when
    printing, from 4 to 6.5 for a hole.  The draw [1 - 2^-53] gives a hole
    of 6.5 exactly. *)
Theorem stretch_length_bounds (a : Avatar.t) (p : bool) (k : Z) :
  let rnd := PrintManager.rnd (Avatar.print_manager a) in
  let u := Random.draws rnd (Random.next rnd) in
  0 <= k < 2 ^ 53 -> (u == inject_Z k / inject_Z (2 ^ 53))%Q ->
  let a' := Avatar.print_manager_set_printing a p in
  let d := PrintManager.distance (Avatar.print_manager a') in
  Avatar.printing a' = p /\
  Random.next (PrintManager.rnd (Avatar.print_manager a')) = S (Random.next rnd) /\
  if p then (18 <= d)%Q /\ (d < 60)%Q else (4 <= d)%Q /\ (d <= 13 # 2)%Q.
Proof.
  intros rnd u Hk Eu a' d.
  assert (Hu0 : (0 <= u)%Q).
  { rewrite Eu. apply Qle_shift_div_l; [reflexivity|]. rewrite Qmult_0_l.
    change 0%Q with (inject_Z 0). rewrite <- Zle_Qle. lia. }
  assert (Hu1 : (u <= 9007199254740991 # 9007199254740992)%Q).
  { rewrite Eu. apply Qle_shift_div_r; [reflexivity|].
    assert (H : k <= 2 ^ 53 - 1) by lia. rewrite Zle_Qle in H.
    change (inject_Z (2 ^ 53 - 1)) with 9007199254740991%Q in H.
    change (inject_Z (2 ^ 53)) with 9007199254740992%Q. lra. }
  assert (Hp : Avatar.printing (Avatar.set_printing a p) = p).
  { unfold Avatar.set_printing. destruct (Avatar.printing a) eqn:E, p; cbn; auto;
      rewrite E; reflexivity. }
  assert (Hpm : Avatar.print_manager (Avatar.set_printing a p) = Avatar.print_manager a).
  { unfold Avatar.set_printing. destruct (negb (Bool.eqb _ _)); [|reflexivity].
    cbv zeta. destruct (negb _); reflexivity. }
  unfold d, a', Avatar.print_manager_set_printing, Avatar.get_random_distance,
    Random.random.
  rewrite Hpm, Hp. fold rnd. fold u.
  cbn [Avatar.printing Avatar.print_manager Avatar.with_print_manager
       PrintManager.distance PrintManager.rnd Random.next].
  split; [exact Hp|]. split; [reflexivity|].
  unfold PrintManager.print_distance, PrintManager.hole_distance, B64.mul, B64.add.
  clearbody u. clear Eu.
  destruct p.
  - set (f := fun v : Q =>
                B64.rnd (60 * B64.rnd (B64.rnd (3 # 10) + B64.rnd (v * B64.rnd (7 # 10))))).
    assert (Hf : forall v w : Q, (v <= w)%Q -> (f v <= f w)%Q).
    { intros v w Hvw. unfold f. apply rnd_mono.
      assert (H7 : (0 <= B64.rnd (7 # 10))%Q) by (vm_compute; discriminate).
      assert (H : (B64.rnd (v * B64.rnd (7 # 10)) <= B64.rnd (w * B64.rnd (7 # 10)))%Q).
      { apply rnd_mono. apply Qmult_le_compat_r; assumption. }
      assert (H' : (B64.rnd (B64.rnd (3 # 10) + B64.rnd (v * B64.rnd (7 # 10)))
                    <= B64.rnd (B64.rnd (3 # 10) + B64.rnd (w * B64.rnd (7 # 10))))%Q).
      { apply rnd_mono. lra. }
      lra. }
    change (18 <= f u /\ f u < 60)%Q.
    assert (L : (18 <= f 0)%Q) by (vm_compute; discriminate).
    assert (U : (f (9007199254740991 # 9007199254740992) < 60)%Q)
      by (vm_compute; reflexivity).
    pose proof (Hf _ _ Hu0). pose proof (Hf _ _ Hu1). split; lra.
  - set (f := fun v : Q =>
                B64.rnd (5 * B64.rnd (B64.rnd (8 # 10) + B64.rnd (v * (1 # 2))))).
    assert (Hf : forall v w : Q, (v <= w)%Q -> (f v <= f w)%Q).
    { intros v w Hvw. unfold f. apply rnd_mono.
      assert (H : (B64.rnd (v * (1 # 2)) <= B64.rnd (w * (1 # 2)))%Q).
      { apply rnd_mono. lra. }
      assert (H' : (B64.rnd (B64.rnd (8 # 10) + B64.rnd (v * (1 # 2)))
                    <= B64.rnd (B64.rnd (8 # 10) + B64.rnd (w * (1 # 2))))%Q).
      { apply rnd_mono. lra. }
      lra. }
    change (4 <= f u /\ f u <= 13 # 2)%Q.
    assert (L : (4 <= f 0)%Q) by (vm_compute; discriminate).
    assert (U : (f (9007199254740991 # 9007199254740992) <= 13 # 2)%Q)
      by (vm_compute; discriminate).
    pose proof (Hf _ _ Hu0). pose proof (Hf _ _ Hu1). split; lra.
Qed.

End AvatarLaws.

Lemma kinematic_kept_witness :
  exists a1 a',
    Avatar.set_angle (M := coarse_math) avatar1 1 = Ok a1 /\
    mutate_all (M := coarse_math) a1 [SetVelocity 24; Update 10; SetRadius (12 # 10)]
    = Ok a' /\
    kinematic (M := coarse_math) a'.
Proof.
  destruct (Avatar.set_angle (M := coarse_math) avatar1 1) as [a1|e] eqn:E1;
    [|vm_compute in E1; discriminate E1].
  destruct (mutate_all (M := coarse_math) a1
              [SetVelocity 24; Update 10; SetRadius (12 # 10)]) as [a'|e] eqn:E2.
  - exists a1, a'. split; [reflexivity|]. split; [exact E2|].
    assert (K : kinematic (M := coarse_math) a1).
    { vm_compute in E1. apply Ok_inj in E1. rewrite <- E1. vm_compute. split; reflexivity. }
    exact (kinematic_kept (M := coarse_math) a1
             [SetVelocity 24; Update 10; SetRadius (12 # 10)] a' K eq_refl E2).
  - exfalso. vm_compute in E1. apply Ok_inj in E1. rewrite <- E1 in E2.
    vm_compute in E2. discriminate E2.
Defined.

Lemma body_follows_avatar_witness :
  exists a',
    mutate_all (M := coarse_math) (Avatar.new 1 "#ff0000" zero_draws)
      [SetPosition 3 4; SetRadius (12 # 10); SetAngle 1; Update 10] = Ok a' /\
    body_synced a'.
Proof.
  destruct (mutate_all (M := coarse_math) (Avatar.new 1 "#ff0000" zero_draws)
              [SetPosition 3 4; SetRadius (12 # 10); SetAngle 1; Update 10])
    as [a'|e] eqn:E; [|vm_compute in E; discriminate E].
  exists a'. split; [reflexivity|].
  exact (body_follows_avatar (M := coarse_math) 1 "#ff0000" zero_draws
           [SetPosition 3 4; SetRadius (12 # 10); SetAngle 1; Update 10] a' eq_refl E).
Defined.

Lemma clear_breaks_kinematic_witness :
  (cos (MathLib := coarse_math) 0 == 1)%Q /\
  ~ kinematic (M := coarse_math) (Avatar.clear avatar1).
Proof.
  assert (H : (cos (MathLib := coarse_math) 0 == 1)%Q) by reflexivity.
  split; [exact H|].
  exact (proj1 (proj2 (clear_breaks_kinematic (M := coarse_math) avatar1 H))).
Defined.

Lemma clear_leaves_body_radius_witness :
  let a := Avatar.set_radius avatar1 (12 # 10) in
  body_synced a /\
  Body.radius (Avatar.body (Avatar.set_position (Avatar.clear a) 3 4)) = (12 # 10)%Q /\
  Avatar.radius (Avatar.set_position (Avatar.clear a) 3 4) = (6 # 10)%Q.
Proof.
  set (a := Avatar.set_radius avatar1 (12 # 10)).
  assert (S : body_synced a) by (vm_compute; repeat split).
  split; [exact S|].
  destruct (clear_leaves_body_radius a 3 4 S) as (H1 & H2 & _).
  split; [rewrite H2; reflexivity | exact H1].
Defined.

Lemma stretch_length_bounds_witness :
  let d := PrintManager.distance
             (Avatar.print_manager (Avatar.print_manager_set_printing avatar1 true)) in
  (18 <= d)%Q /\ (d < 60)%Q.
Proof.
  assert (Hk : 0 <= 0 < 2 ^ 53) by (split; [lia | reflexivity]).
  assert (Eu : (Random.draws (PrintManager.rnd (Avatar.print_manager avatar1))
                  (Random.next (PrintManager.rnd (Avatar.print_manager avatar1)))
                == inject_Z 0 / inject_Z (2 ^ 53))%Q) by (vm_compute; reflexivity).
  exact (proj2 (proj2 (stretch_length_bounds avatar1 true 0 Hk Eu))).
Defined.

(** ** The winner of a game *)

Lemma filter_positions_length {A : Type} (p : A -> bool) (l : list A) : forall s,
  List.length
    (filter (fun i => match nth_error l (i - s) with Some a => p a | None => false end)
       (seq s (List.length l)))
  = List.length (filter p l).
Proof.
  induction l as [|a l IH]; intros s; [reflexivity|].
  cbn [List.length seq filter]. rewrite Nat.sub_diag. cbn [nth_error].
  assert (E : filter (fun i => match nth_error (a :: l) (i - s) with
                               | Some a => p a | None => false end)
                (seq (S s) (List.length l))
              = filter (fun i => match nth_error l (i - S s) with
                                 | Some a => p a | None => false end)
                  (seq (S s) (List.length l))).
  { apply filter_ext_in. intros i Hi. apply in_seq in Hi.
    replace (i - s)%nat with (S (i - S s)) by lia. reflexivity. }
  rewrite E. destruct (p a); cbn [List.length]; rewrite IH; reflexivity.
Qed.

Lemma positions_length (g : Game.t) (p : Avatar.t -> bool) :
  List.length (Game.positions g p)
  = List.length (filter p (Collection.items (Game.avatars g))).
Proof.
  unfold Game.positions, Game.get.
  rewrite <- (filter_positions_length p (Collection.items (Game.avatars g)) 0).
  f_equal. apply filter_ext. intros i. rewrite Nat.sub_0_r. reflexivity.
Qed.

Lemma insert_by_score_perm (a : Avatar.t) (l : list Avatar.t) :
  Permutation (Game.insert_by_score a l) (a :: l).
Proof.
  induction l as [|b l IH]; cbn [Game.insert_by_score]; [apply Permutation_refl|].
  destruct (Avatar.score b <? Avatar.score a); [apply Permutation_refl|].
  apply perm_trans with (b :: a :: l); [apply perm_skip; exact IH | apply perm_swap].
Qed.

Lemma insert_by_score_sorted (a : Avatar.t) (l : list Avatar.t) :
  StronglySorted by_score l -> StronglySorted by_score (Game.insert_by_score a l).
Proof.
  induction l as [|b l IH]; intros Hs; cbn [Game.insert_by_score].
  - constructor; constructor.
  - destruct (Z.ltb_spec (Avatar.score b) (Avatar.score a)) as [Hlt|Hge].
    + constructor; [exact Hs|]. inversion Hs as [|? ? Hs' Hall]; subst.
      constructor; [unfold by_score; lia|].
      rewrite Forall_forall in *. intros x Hx. specialize (Hall x Hx).
      unfold by_score in *. lia.
    + inversion Hs as [|? ? Hs' Hall]; subst. constructor; [apply IH; exact Hs'|].
      rewrite Forall_forall in *. intros x Hx.
      apply (Permutation_in _ (insert_by_score_perm a l)) in Hx.
      destruct Hx as [<-|Hx]; [exact Hge | apply Hall; exact Hx].
Qed.

(** [list.sort(key=lambda a: -a.score)] orders by descending score and
    keeps every entry. *)
Lemma sort_avatars_spec (l : list Avatar.t) :
  Permutation (Game.sort_avatars l) l /\ StronglySorted by_score (Game.sort_avatars l).
Proof.
  unfold Game.sort_avatars.
  assert (H : forall acc, StronglySorted by_score acc ->
            Permutation (fold_left (fun sorted a => Game.insert_by_score a sorted) l acc)
              (l ++ acc) /\
            StronglySorted by_score
              (fold_left (fun sorted a => Game.insert_by_score a sorted) l acc)).
  { induction l as [|a l IH]; intros acc Hacc; cbn [fold_left app].
    - split; [apply Permutation_refl | exact Hacc].
    - destruct (IH (Game.insert_by_score a acc) (insert_by_score_sorted a acc Hacc))
        as [Hp Hs].
      split; [|exact Hs]. apply perm_trans with (l ++ Game.insert_by_score a acc);
        [exact Hp|].
      apply perm_trans with (l ++ a :: acc);
        [apply Permutation_app_head, insert_by_score_perm|].
      apply Permutation_sym, Permutation_middle. }
  destruct (H [] (SSorted_nil _)) as [Hp Hs]. rewrite app_nil_r in Hp. auto.
Qed.

Lemma leads_perm (a : Avatar.t) (l l' : list Avatar.t) :
  Permutation l l' -> leads a l -> leads a l'.
Proof.
  intros Hp (l1 & l2 & -> & Hlt).
  assert (Hin : In a l').
  { apply (Permutation_in _ Hp). apply in_or_app. right. left. reflexivity. }
  apply in_split in Hin as (r1 & r2 & ->). exists r1, r2. split; [reflexivity|].
  intros b Hb. apply Hlt.
  apply Permutation_app_inv in Hp. apply (Permutation_in _ (Permutation_sym Hp)). exact Hb.
Qed.

(** The decision of [is_won] among its candidates. *)
Lemma won_among_spec (l : list Avatar.t) :
  match
    match l with
    | [] => Game.NotWon
    | [a] => Game.WonBy a
    | _ =>
        match Game.sort_avatars l with
        | a :: b :: _ =>
            if Avatar.score a =? Avatar.score b then Game.NotWon else Game.WonBy a
        | _ => Game.NotWon
        end
    end
  with
  | Game.WonBy a => leads a l
  | Game.NotWon => forall a, ~ leads a l
  | Game.WonTrue => False
  end.
Proof.
  destruct l as [|x [|y l]].
  - intros a (l1 & l2 & H & _). destruct l1; discriminate.
  - exists [], []. split; [reflexivity|]. intros b [].
  - destruct (sort_avatars_spec (x :: y :: l)) as [Hp Hs].
    destruct (Game.sort_avatars (x :: y :: l)) as [|a [|b rest]] eqn:E.
    + apply Permutation_length in Hp. discriminate.
    + apply Permutation_length in Hp. discriminate.
    + inversion Hs as [|? ? Hs' Hall]; subst.
      inversion Hs' as [|? ? Hs'' Hall']; subst.
      rewrite Forall_forall in Hall, Hall'. unfold by_score in Hall, Hall'.
      destruct (Z.eqb_spec (Avatar.score a) (Avatar.score b)) as [Heq|Hne].
      * intros c Hc. apply (leads_perm c _ _ (Permutation_sym Hp)) in Hc.
        destruct Hc as (l1 & l2 & Hl & Hlt). destruct l1 as [|a' l1].
        -- cbn [app] in Hl. injection Hl as <- <-.
           specialize (Hlt b (or_introl eq_refl)). lia.
        -- cbn [app] in Hl. injection Hl as <- Hl.
           specialize (Hlt a (or_introl eq_refl)).
           assert (Hc : In c (b :: rest)).
           { rewrite Hl. apply in_or_app. right. left. reflexivity. }
           specialize (Hall c Hc). lia.
      * apply (leads_perm a _ _ Hp). exists [], (b :: rest). split; [reflexivity|].
        intros c Hc. cbn [app] in Hc. specialize (Hall b (or_introl eq_refl)).
        destruct Hc as [<-|Hc]; [lia|]. specialize (Hall' c Hc). lia.
Qed.

Lemma leads_rev (a : Avatar.t) (l : list Avatar.t) : leads a (rev l) -> leads a l.
Proof. apply leads_perm, Permutation_sym, Permutation_rev. Qed.

(** [Game.is_won] returns [True] exactly when the game is deserted;
    otherwise it returns an avatar exactly when that avatar is present, has
    reached the maximal score and has strictly more points than every other
    such avatar, and [None] when there is no such avatar: nobody has
    reached the maximal score, or the best ones are tied. *)
Theorem is_won_spec (g : Game.t) :
  let candidates := filter (qualifies g) (Collection.items (Game.avatars g)) in
  match Game.is_won g with
  | Game.WonTrue => deserted g
  | Game.WonBy a =>
      ~ deserted g /\ leads a candidates /\
      Avatar.present a = true /\ Game.max_score g <= Avatar.score a
  | Game.NotWon => ~ deserted g /\ forall a, ~ leads a candidates
  end.
Proof.
  intros candidates. unfold Game.is_won, deserted. cbv zeta.
  rewrite positions_length.
  change (filter (fun a : Avatar.t =>
                    Avatar.present a && (Game.max_score g <=? Avatar.score a))
            (Collection.items (Game.avatars g))) with candidates.
  set (present := List.length (filter Avatar.present (Collection.items (Game.avatars g)))).
  destruct (Z.leb_spec (Z.of_nat present) 0) as [H0|H0]; [cbv iota; left; lia|].
  destruct (Z.ltb_spec 1 (Collection.count (Game.avatars g))) as [H1|H1];
    cbn [andb].
  - destruct (Z.leb_spec (Z.of_nat present) 1) as [H2|H2];
      [cbv iota; right; split; lia|].
    assert (Hn : ~ (present = 0%nat \/
                    1 < Collection.count (Game.avatars g) /\ (present <= 1)%nat)) by lia.
    pose proof (won_among_spec (rev candidates)) as Hw.
    destruct (match rev candidates with
              | [] => Game.NotWon
              | [a] => Game.WonBy a
              | _ => _
              end) as [a| |]; cbv beta iota in *; [|contradiction|].
    + apply leads_rev in Hw. split; [exact Hn|]. split; [exact Hw|].
      destruct Hw as (l1 & l2 & Hl & _).
      assert (Hin : In a candidates).
      { rewrite Hl. apply in_or_app. right. left. reflexivity. }
      apply filter_In in Hin as [_ Hq]. unfold qualifies in Hq.
      apply andb_prop in Hq as [Hp Hs]. split; [exact Hp | lia].
    + split; [exact Hn|]. intros a Ha. apply (Hw a).
      apply (leads_perm a candidates); [apply Permutation_rev | exact Ha].
  - assert (Hn : ~ (present = 0%nat \/
                    1 < Collection.count (Game.avatars g) /\ (present <= 1)%nat)) by lia.
    pose proof (won_among_spec (rev candidates)) as Hw.
    destruct (match rev candidates with
              | [] => Game.NotWon
              | [a] => Game.WonBy a
              | _ => _
              end) as [a| |]; cbv beta iota in *; [|contradiction|].
    + apply leads_rev in Hw. split; [exact Hn|]. split; [exact Hw|].
      destruct Hw as (l1 & l2 & Hl & _).
      assert (Hin : In a candidates).
      { rewrite Hl. apply in_or_app. right. left. reflexivity. }
      apply filter_In in Hin as [_ Hq]. unfold qualifies in Hq.
      apply andb_prop in Hq as [Hp Hs]. split; [exact Hp | lia].
    + split; [exact Hn|]. intros a Ha. apply (Hw a).
      apply (leads_perm a candidates); [apply Permutation_rev | exact Ha].
Qed.

(** ** The end of a round, the targets of a bonus *)

Section RoundEndOnce.
Context {M : MathLib}.

(** A round ends once: [check_round_end] leaves a game alone unless a
    round is on with one avatar alive at most; then it ends the round,
    which schedules one [stop], and a second call changes nothing, so the
    scores of a round are resolved once. *)
Theorem check_round_end_once (g : Game.t) :
  Game.check_round_end (Game.check_round_end g) = Game.check_round_end g /\
  (Game.in_round g = false \/ (1 < List.length (Game.positions g Avatar.alive))%nat ->
   Game.check_round_end g = g) /\
  (Game.in_round g = true -> (List.length (Game.positions g Avatar.alive) <= 1)%nat ->
   Game.in_round (Game.check_round_end g) = false /\
   Game.timers (Game.check_round_end g) = Game.timers g ++ [Game.Stop] /\
   Game.check_round_end g = Game.end_round g).
Proof.
  assert (Hend : Game.in_round g = true ->
                 Game.in_round (Game.end_round g) = false /\
                 Game.timers (Game.end_round g) = Game.timers g ++ [Game.Stop]).
  { intros Hr. unfold Game.end_round, Game.on_round_end. rewrite Hr. cbv zeta.
    set (g0 := Game.with_in_round false g).
    pose proof (resolve_scores_fields Game.in_round (fun _ _ => eq_refl)
                  (fun _ _ => eq_refl) g0) as H1.
    pose proof (resolve_scores_fields Game.timers (fun _ _ => eq_refl)
                  (fun _ _ => eq_refl) g0) as H2.
    split.
    - change (Game.in_round (Game.resolve_scores g0) = false). rewrite H1. reflexivity.
    - change (Game.timers (Game.resolve_scores g0) ++ [Game.Stop]
              = Game.timers g ++ [Game.Stop]).
      rewrite H2. reflexivity. }
  assert (Hoff : forall g0, Game.in_round g0 = false -> Game.check_round_end g0 = g0).
  { intros g0 H0. unfold Game.check_round_end. rewrite H0. reflexivity. }
  destruct (Game.in_round g) eqn:Hr.
  - destruct (Nat.ltb_spec 1 (List.length (Game.positions g Avatar.alive))) as [Hlt|Hle].
    + assert (E : Game.check_round_end g = g).
      { unfold Game.check_round_end. rewrite Hr. cbn [negb].
        destruct (Nat.ltb_spec 1 (List.length (Game.positions g Avatar.alive)));
          [reflexivity | lia]. }
      rewrite !E. split; [reflexivity|]. split; [reflexivity|]. intros _ H. lia.
    + assert (E : Game.check_round_end g = Game.end_round g).
      { unfold Game.check_round_end. rewrite Hr. cbn [negb].
        destruct (Nat.ltb_spec 1 (List.length (Game.positions g Avatar.alive)));
          [lia | reflexivity]. }
      destruct (Hend eq_refl) as [H1 H2]. rewrite !E. split; [|split].
      * apply Hoff. exact H1.
      * intros [H|H]; [discriminate | lia].
      * intros _ _. split; [exact H1|]. split; [exact H2 | reflexivity].
  - rewrite !(Hoff g Hr). split; [reflexivity|]. split; [reflexivity|].
    discriminate.
Qed.

End RoundEndOnce.

Lemma positions_In (g : Game.t) (p : Avatar.t -> bool) (i : nat) :
  In i (Game.positions g p) <-> exists a, Game.get g i = Some a /\ p a = true.
Proof.
  unfold Game.positions. rewrite filter_In, in_seq. split.
  - intros [_ H]. destruct (Game.get g i) as [a|]; [|discriminate]. exists a. auto.
  - intros (a & Ha & Hp). split; [|rewrite Ha; exact Hp].
    unfold Game.get in Ha. assert (nth_error (Collection.items (Game.avatars g)) i <> None)
      by congruence.
    apply nth_error_Some in H. lia.
Qed.

(** Whom a bonus reaches, when the avatar at position [i] catches it: a
    bonus of the game classes the game; a self bonus the catcher, if it is
    alive; an enemy bonus every alive avatar whose id is not the catcher's;
    a bonus for all every alive avatar.  A dead avatar is never a
    target. *)
Theorem get_target_spec (g : Game.t) (bonus : Bonus.t) (i : nat) (catcher : Avatar.t) :
  Game.get g i = Some catcher ->
  match Game.get_target g bonus i with
  | Game.TheGame =>
      Bonus.type bonus = Bonus.GameBorderless \/ Bonus.type bonus = Bonus.GameClear
  | Game.OneAvatar j =>
      j = i /\ Avatar.alive catcher = true /\
      In (Bonus.type bonus)
        [Bonus.SelfSmall; Bonus.SelfSlow; Bonus.SelfFast; Bonus.SelfMaster]
  | Game.NoTarget =>
      Avatar.alive catcher = false /\
      In (Bonus.type bonus)
        [Bonus.SelfSmall; Bonus.SelfSlow; Bonus.SelfFast; Bonus.SelfMaster]
  | Game.Avatars l =>
      (forall j, In j l <->
         exists a, Game.get g j = Some a /\ Avatar.alive a = true /\
           ((exists c, Bonus.type bonus = Bonus.AllColor c) \/
            Avatar.id a <> Avatar.id catcher)) /\
      NoDup l /\
      ((exists c, Bonus.type bonus = Bonus.AllColor c) \/
       In (Bonus.type bonus)
         [Bonus.EnemySlow; Bonus.EnemyFast; Bonus.EnemyBig; Bonus.EnemyInverse;
          Bonus.EnemyStraightAngle])
  end.
Proof.
  intros Hc. unfold Game.get_target. rewrite Hc.
  assert (Hnd : forall p, NoDup (Game.positions g p)).
  { intros p. unfold Game.positions. apply NoDup_filter, seq_NoDup. }
  assert (Henemy :
    forall j, In j (Game.positions g
                      (fun a => Avatar.alive a && negb (Avatar.equal a catcher))) <->
      exists a, Game.get g j = Some a /\ Avatar.alive a = true /\
                Avatar.id a <> Avatar.id catcher).
  { intros j. rewrite positions_In. split; intros (a & Ha & H); exists a; (split; [exact Ha|]).
    - apply andb_prop in H as [H1 H2]. split; [exact H1|].
      unfold Avatar.equal in H2. destruct (Z.eqb_spec (Avatar.id a) (Avatar.id catcher));
        [discriminate | assumption].
    - destruct H as [H1 H2]. rewrite H1. unfold Avatar.equal.
      destruct (Z.eqb_spec (Avatar.id a) (Avatar.id catcher)); [contradiction | reflexivity]. }
  assert (Hcases : forall l,
    (forall j, In j l <-> exists a, Game.get g j = Some a /\ Avatar.alive a = true /\
                                    Avatar.id a <> Avatar.id catcher) ->
    (forall c, Bonus.type bonus <> Bonus.AllColor c) ->
    forall j, In j l <->
      exists a, Game.get g j = Some a /\ Avatar.alive a = true /\
        ((exists c, Bonus.type bonus = Bonus.AllColor c) \/
         Avatar.id a <> Avatar.id catcher)).
  { intros l Hl Hno j. rewrite Hl. split; intros (a & Ha & Hal & H); exists a;
      (split; [exact Ha|]; split; [exact Hal|]).
    - right. exact H.
    - destruct H as [[c Hcol]|H]; [exfalso; apply (Hno c Hcol) | exact H]. }
  destruct (Bonus.type bonus) eqn:Ht;
    try (destruct (Avatar.alive catcher) eqn:Hal;
         [split; [reflexivity|]; split; [reflexivity|]; cbn; auto 6
         |split; [reflexivity|]; cbn; auto 6]);
    try (split; [apply Hcases; [apply Henemy | intros c; discriminate]|];
         split; [apply Hnd|]; right; cbn; auto 8);
    try (cbn; auto).
  split; [|split; [apply Hnd | left; eexists; reflexivity]].
  intros j. rewrite positions_In. split; intros (a & Ha & H); exists a.
  - split; [exact Ha|]. split; [exact H|]. left. eexists. reflexivity.
  - split; [exact Ha|]. destruct H as [H _]. exact H.
Qed.

(** ** Bonuses that add up *)

Lemma stack_not_listed (c : Collection.t (option Z) Bonus.t) (b : Bonus.t) :
  ~ In (Bonus.id b) (Collection.ids c) ->
  Collection.index_exists Body.option_Z_eqb c (Bonus.id b) = false.
Proof.
  intros Hnew. destruct (Collection.index_exists Body.option_Z_eqb c (Bonus.id b)) eqn:E;
    [|reflexivity].
  exfalso. apply Hnew. apply (index_exists_In Body.option_Z_eqb option_Z_eqb_eq). exact E.
Qed.

Section StackSums.
Context {M : MathLib}.

(** The second loop of [resolve] over effects that all name the velocity:
    one entry, the running total. *)
Lemma aggregate_velocity (a : Avatar.t) (effects : list (string * Value.t)) :
  Forall (fun e => exists d, e = ("velocity"%string, Value.Float d)) effects ->
  forall x,
    fold_left
      (fun acc effect =>
         properties <- acc ;;
         let '(prop, value) := effect in
         let properties :=
           match BonusStack.lookup properties prop with
           | Some _ => properties
           | None =>
               BonusStack.assign properties prop (BonusStack.get_default_property a prop)
           end in
         BonusStack.append properties prop value)
      effects (Ok [("velocity"%string, Value.Float x)])
    = Ok [("velocity"%string,
           Value.Float
             (fold_left
                (fun total effect =>
                   if String.eqb (fst effect) "velocity"
                   then match Value.as_float (snd effect) with
                        | Some q => (total + q)%Q
                        | None => total
                        end
                   else total)
                effects x))].
Proof.
  induction 1 as [|e effects [d ->] _ IH]; intros x; [reflexivity|].
  cbn [fold_left]. rewrite <- IH. reflexivity.
Qed.

Lemma velocity_effects (l : list Bonus.t) :
  forallb velocity_bonus l = true ->
  Forall (fun e => exists d, e = ("velocity"%string, Value.Float d))
    (flat_map BonusStack.get_effects l).
Proof.
  induction l as [|b l IH]; cbn [forallb flat_map]; intros H; [constructor|].
  apply andb_prop in H as [Hb Hl]. apply Forall_app. split; [|apply IH; exact Hl].
  unfold velocity_bonus in Hb. unfold BonusStack.get_effects.
  destruct (Bonus.type b); try discriminate Hb;
    (constructor; [eexists; reflexivity | constructor]).
Qed.

(** With velocity bonuses alone on a stack that is not empty, [resolve]
    calls [set_velocity] with 16 plus the total of their effects. *)
Lemma resolve_velocity (a : Avatar.t) :
  forallb velocity_bonus (Collection.items (Avatar.bonus_stack a)) = true ->
  Collection.items (Avatar.bonus_stack a) <> [] ->
  BonusStack.resolve a None
  = Avatar.set_velocity a
      (effect_total "velocity" Default.VELOCITY (Collection.items (Avatar.bonus_stack a))).
Proof.
  intros Hv Hne. unfold BonusStack.resolve, BonusStack.aggregate, effect_total.
  cbn [BonusStack.reset_effects].
  pose proof (velocity_effects _ Hv) as Hf.
  destruct (flat_map BonusStack.get_effects (Collection.items (Avatar.bonus_stack a)))
    as [|e effects] eqn:E.
  - exfalso. destruct (Collection.items (Avatar.bonus_stack a)) as [|b l]; [congruence|].
    cbn [flat_map forallb] in E, Hv. apply andb_prop in Hv as [Hb _].
    unfold velocity_bonus in Hb. unfold BonusStack.get_effects in E.
    destruct (Bonus.type b); try discriminate Hb; discriminate E.
  - inversion Hf as [|? ? [d ->] Hf']; subst. cbn [fold_left].
    change (bind (Ok []) _) with
      (Ok [("velocity"%string, Value.Float (Default.VELOCITY + d))] : result BonusStack.dict).
    rewrite (aggregate_velocity a effects Hf'). cbn [bind].
    unfold BonusStack.apply_all. cbn [fold_left bind fst snd].
    unfold BonusStack.apply.
    change (String.eqb "velocity" "radius") with false.
    change (String.eqb "velocity" "velocity") with true.
    cbn [Value.as_float]. reflexivity.
Qed.

Lemma set_velocity_value (a : Avatar.t) (v : Q) (a' : Avatar.t) :
  Avatar.set_velocity a v = Ok a' ->
  (Default.VELOCITY / 2 <= Avatar.velocity a)%Q ->
  (Avatar.velocity a' == Py.max v (Default.VELOCITY / 2))%Q /\
  Avatar.bonus_stack a' = Avatar.bonus_stack a.
Proof.
  intros H Hge. revert H. unfold Avatar.set_velocity, Avatar.base_set_velocity, Avatar.Qneb.
  destruct (Qeq_bool (Avatar.velocity a) v) eqn:E1; cbn [negb].
  - intros H. ok H. apply Qeq_bool_iff in E1. split; [|reflexivity].
    unfold Py.max. destruct (Qlt_le_dec v (Default.VELOCITY / 2)) as [Hlt|_]; [|exact E1].
    exfalso. rewrite <- E1 in Hlt. apply (Qlt_not_le _ _ Hlt Hge).
  - cbv zeta. destruct (Qeq_bool (Avatar.velocity a) (Py.max v (Default.VELOCITY / 2))) eqn:E2;
      cbn [negb].
    + intros H. ok H. apply Qeq_bool_iff in E2. split; [exact E2 | reflexivity].
    + unfold Avatar.update_velocities. cbv zeta. intros H.
      assert (Hb : forall x y, Avatar.update_base_angular_velocity x = Ok y ->
                   Avatar.velocity y = Avatar.velocity x /\
                   Avatar.bonus_stack y = Avatar.bonus_stack x).
      { intros x y. unfold Avatar.update_base_angular_velocity.
        destruct (Avatar.direction_in_loop x); [|intros Hx; ok Hx; split; reflexivity].
        intros Hx. apply bind_ok in Hx as (q & _ & Hx). apply bind_ok in Hx as (l & _ & Hx).
        apply Ok_inj in Hx. subst y.
        match goal with
        | |- context [Avatar.update_angular_velocity ?b None] =>
            destruct (update_angular_velocity_frame b None) as [av ->]
        end.
        split; reflexivity. }
      apply Hb in H as [H1 H2]. rewrite H1, H2. split; reflexivity.
Qed.

(** Velocity bonuses add up: when a velocity bonus is added to a stack of
    velocity bonuses, the avatar's velocity becomes 16 plus the total of
    the effects of all of them, the new one included, and not less than
    8. *)
Theorem velocity_bonuses_add_up (a : Avatar.t) (b : Bonus.t) :
  let stack := Collection.items (Avatar.bonus_stack a) in
  forallb velocity_bonus (stack ++ [b]) = true ->
  ~ In (Bonus.id b) (Collection.ids (Avatar.bonus_stack a)) ->
  (Default.VELOCITY / 2 <= Avatar.velocity a)%Q ->
  exists a',
    BonusStack.add a b = Ok a' /\
    Collection.items (Avatar.bonus_stack a') = stack ++ [b] /\
    (Avatar.velocity a'
     == Py.max (effect_total "velocity" Default.VELOCITY (stack ++ [b]))
          (Default.VELOCITY / 2))%Q.
Proof.
  intros stack Hv Hnew Hge.
  unfold BonusStack.add, BonusStack.bonuses_add, Collection.add, Collection.exists_.
  unfold Collection.exists_. rewrite (stack_not_listed _ _ Hnew).
  set (a0 := Avatar.with_bonus_stack _ a).
  assert (Hitems : Collection.items (Avatar.bonus_stack a0) = stack ++ [b]) by reflexivity.
  rewrite resolve_velocity; rewrite Hitems;
    [|exact Hv | intros H; destruct stack; discriminate H].
  destruct (set_velocity_returns a0
              (effect_total "velocity" Default.VELOCITY (stack ++ [b]))) as [a' E].
  exists a'. split; [exact E|].
  destruct (set_velocity_value a0 _ a' E Hge) as [H1 H2].
  split; [rewrite H2; exact Hitems | exact H1].
Qed.

Lemma odd_of_nat (n : nat) : Z.odd (Z.of_nat n) = Nat.odd n.
Proof.
  induction n as [|n IH]; [reflexivity|].
  rewrite Nat2Z.inj_succ, Z.odd_succ, Nat.odd_succ, <- Z.negb_odd, <- Nat.negb_odd, IH.
  reflexivity.
Qed.

Lemma inverse_effects (l : list Bonus.t) :
  forallb (fun b => match Bonus.type b with Bonus.EnemyInverse => true | _ => false end) l
  = true ->
  flat_map BonusStack.get_effects l
  = repeat ("inverse"%string, Value.Int 1) (List.length l).
Proof.
  induction l as [|b l IH]; cbn [forallb flat_map List.length repeat]; intros H;
    [reflexivity|].
  apply andb_prop in H as [Hb Hl]. rewrite (IH Hl).
  unfold BonusStack.get_effects. destruct (Bonus.type b); try discriminate Hb. reflexivity.
Qed.

Lemma aggregate_inverse (a : Avatar.t) (n : nat) : forall x,
  fold_left
    (fun acc effect =>
       properties <- acc ;;
       let '(prop, value) := effect in
       let properties :=
         match BonusStack.lookup properties prop with
         | Some _ => properties
         | None =>
             BonusStack.assign properties prop (BonusStack.get_default_property a prop)
         end in
       BonusStack.append properties prop value)
    (repeat ("inverse"%string, Value.Int 1) n) (Ok [("inverse"%string, Value.Int x)])
  = Ok [("inverse"%string, Value.Int (x + Z.of_nat n))].
Proof.
  induction n as [|n IH]; intros x.
  - cbn [repeat fold_left]. rewrite Z.add_0_r. reflexivity.
  - cbn [repeat fold_left].
    change (bind (Ok [("inverse"%string, Value.Int x)]) _) with
      (Ok [("inverse"%string, Value.Int (x + 1))] : result BonusStack.dict).
    rewrite IH. replace (x + Z.of_nat (S n)) with (x + 1 + Z.of_nat n) by lia. reflexivity.
Qed.

Lemma set_inverse_value (a : Avatar.t) (b : bool) :
  Avatar.inverse (Avatar.set_inverse a b) = b /\
  Avatar.bonus_stack (Avatar.set_inverse a b) = Avatar.bonus_stack a.
Proof.
  unfold Avatar.set_inverse. destruct (Bool.eqb (Avatar.inverse a) b) eqn:E; cbn [negb].
  - apply Bool.eqb_prop in E. auto.
  - destruct (update_angular_velocity_frame (Avatar.with_inverse b a) None) as [av ->].
    split; reflexivity.
Qed.

(** Inverse bonuses cancel in pairs: when an [EnemyInverse] bonus is added
    to a stack of such bonuses, the controls are inverted exactly when the
    stack then holds an odd number of them. *)
Theorem inverse_bonuses_cancel (a : Avatar.t) (b : Bonus.t) :
  let stack := Collection.items (Avatar.bonus_stack a) in
  forallb (fun b => match Bonus.type b with Bonus.EnemyInverse => true | _ => false end)
    (stack ++ [b]) = true ->
  ~ In (Bonus.id b) (Collection.ids (Avatar.bonus_stack a)) ->
  exists a',
    BonusStack.add a b = Ok a' /\
    Collection.items (Avatar.bonus_stack a') = stack ++ [b] /\
    Avatar.inverse a' = Nat.odd (List.length (stack ++ [b])).
Proof.
  intros stack Hv Hnew.
  unfold BonusStack.add, BonusStack.bonuses_add, Collection.add, Collection.exists_.
  unfold Collection.exists_. rewrite (stack_not_listed _ _ Hnew).
  set (a0 := Avatar.with_bonus_stack _ a).
  assert (Hitems : Collection.items (Avatar.bonus_stack a0) = stack ++ [b]) by reflexivity.
  unfold BonusStack.resolve, BonusStack.aggregate. cbn [BonusStack.reset_effects].
  rewrite Hitems, (inverse_effects _ Hv).
  destruct (List.length (stack ++ [b])) as [|n] eqn:En.
  { rewrite length_app in En. cbn [List.length] in En. lia. }
  cbn [repeat fold_left].
  change (bind (Ok []) _) with
    (Ok [("inverse"%string, Value.Int (0 + 1))] : result BonusStack.dict).
  rewrite aggregate_inverse. cbn [bind].
  unfold BonusStack.apply_all. cbn [fold_left bind fst snd].
  unfold BonusStack.apply.
  change (String.eqb "inverse" "radius") with false.
  change (String.eqb "inverse" "velocity") with false.
  change (String.eqb "inverse" "inverse") with true.
  cbn [Value.odd Value.as_int bind].
  destruct (set_inverse_value a0 (negb ((0 + 1 + Z.of_nat n) mod 2 =? 0))) as [H1 H2].
  eexists. split; [reflexivity|]. split; [rewrite H2; exact Hitems|].
  rewrite H1. replace (0 + 1 + Z.of_nat n) with (Z.of_nat (S n)) by lia.
  rewrite Zmod_odd, odd_of_nat. destruct (Nat.odd (S n)); reflexivity.
Qed.

End StackSums.

Lemma velocity_bonuses_add_up_witness :
  exists a1 a2,
    BonusStack.add (M := coarse_math) avatar1 fast_bonus = Ok a1 /\
    BonusStack.add (M := coarse_math) a1 slow_bonus = Ok a2 /\
    (Avatar.velocity a1 == 24)%Q /\ (Avatar.velocity a2 == 12)%Q.
Proof.
  destruct (BonusStack.add (M := coarse_math) avatar1 fast_bonus) as [a1|e] eqn:E1;
    [|vm_compute in E1; discriminate E1].
  assert (Ha1 : Collection.items (Avatar.bonus_stack a1) = [fast_bonus] /\
                Collection.ids (Avatar.bonus_stack a1) = [Some 1] /\
                (Avatar.velocity a1 == 24)%Q).
  { vm_compute in E1. apply Ok_inj in E1. rewrite <- E1. vm_compute. repeat split. }
  destruct Ha1 as (Hi & Hd & Hv).
  assert (H1 : forallb velocity_bonus
                 (Collection.items (Avatar.bonus_stack a1) ++ [slow_bonus]) = true).
  { rewrite Hi. reflexivity. }
  assert (H2 : ~ In (Bonus.id slow_bonus) (Collection.ids (Avatar.bonus_stack a1))).
  { rewrite Hd. cbn. intros [H|[]]. discriminate H. }
  assert (H3 : (Default.VELOCITY / 2 <= Avatar.velocity a1)%Q).
  { rewrite Hv. discriminate. }
  destruct (velocity_bonuses_add_up (M := coarse_math) a1 slow_bonus H1 H2 H3)
    as (a2 & E2 & _ & Hv2).
  exists a1, a2. split; [reflexivity|]. split; [exact E2|]. split; [exact Hv|].
  rewrite Hv2, Hi. reflexivity.
Defined.

Lemma inverse_bonuses_cancel_witness :
  exists a1 a2,
    BonusStack.add (M := coarse_math) avatar1 (inverse_bonus 4) = Ok a1 /\
    BonusStack.add (M := coarse_math) a1 (inverse_bonus 5) = Ok a2 /\
    Avatar.inverse a1 = true /\ Avatar.inverse a2 = false.
Proof.
  assert (H1 : forallb (fun b => match Bonus.type b with
                                 | Bonus.EnemyInverse => true | _ => false end)
                 (Collection.items (Avatar.bonus_stack avatar1) ++ [inverse_bonus 4])
               = true) by reflexivity.
  assert (H2 : ~ In (Bonus.id (inverse_bonus 4))
                 (Collection.ids (Avatar.bonus_stack avatar1))) by (intros []).
  destruct (inverse_bonuses_cancel (M := coarse_math) avatar1 (inverse_bonus 4) H1 H2)
    as (a1 & E1 & Hi1 & Hv1).
  assert (Hd1 : Collection.ids (Avatar.bonus_stack a1) = [Some 4]).
  { vm_compute in E1. apply Ok_inj in E1. rewrite <- E1. reflexivity. }
  assert (H3 : forallb (fun b => match Bonus.type b with
                                 | Bonus.EnemyInverse => true | _ => false end)
                 (Collection.items (Avatar.bonus_stack a1) ++ [inverse_bonus 5]) = true).
  { rewrite Hi1. reflexivity. }
  assert (H4 : ~ In (Bonus.id (inverse_bonus 5)) (Collection.ids (Avatar.bonus_stack a1))).
  { rewrite Hd1. cbn. intros [H|[]]. discriminate H. }
  destruct (inverse_bonuses_cancel (M := coarse_math) a1 (inverse_bonus 5) H3 H4)
    as (a2 & E2 & Hi2 & Hv2).
  exists a1, a2. split; [exact E1|]. split; [exact E2|].
  split; [rewrite Hv1; reflexivity|]. rewrite Hv2, Hi1. reflexivity.
Defined.

Lemma get_target_spec_witness :
  exists g catcher,
    trio_game = Ok g /\ Game.get g 0 = Some catcher /\
    Game.get_target g slow_bonus 0 = Game.Avatars [1; 2]%nat /\
    forall j, In j [1; 2]%nat <->
      exists a, Game.get g j = Some a /\ Avatar.alive a = true /\
        ((exists c, Bonus.type slow_bonus = Bonus.AllColor c) \/
         Avatar.id a <> Avatar.id catcher).
Proof.
  destruct trio_game as [g|e] eqn:E; [|vm_compute in E; discriminate E].
  destruct (Game.get g 0) as [catcher|] eqn:Ec.
  - exists g, catcher. split; [reflexivity|]. split; [exact Ec|].
    pose proof (get_target_spec g slow_bonus 0 catcher Ec) as H.
    assert (Ht : Game.get_target g slow_bonus 0 = Game.Avatars [1; 2]%nat).
    { vm_compute in E. apply Ok_inj in E. rewrite <- E. vm_compute. reflexivity. }
    rewrite Ht in H. split; [exact Ht|]. destruct H as (H & _). exact H.
  - exfalso. vm_compute in E. apply Ok_inj in E. rewrite <- E in Ec.
    vm_compute in Ec. discriminate Ec.
Defined.

Lemma stack_add_remove_restores_witness :
  default_properties avatar1 /\
  exists a1 a2,
    BonusStack.add (M := coarse_math) avatar1 fast_bonus = Ok a1 /\
    BonusStack.remove (M := coarse_math) a1 fast_bonus = Ok a2 /\
    default_properties a2.
Proof.
  assert (Hd : default_properties avatar1).
  { unfold default_properties. vm_compute. repeat split. }
  split; [exact Hd|].
  destruct (stack_add_remove_restores (M := coarse_math) avatar1 fast_bonus I eq_refl Hd)
    as (a1 & H1 & a2 & H2 & H3).
  exists a1, a2. auto.
Defined.

(** ** Bonus ids over the rounds *)

Lemma add_body_by_point_ok (w : World.t) (body : Body.t) (x y : Q) :
  ~ (World.island_size w == 0)%Q ->
  exists w' body',
    World.add_body_by_point w body x y = Ok (w', body') /\
    World.island_size w' = World.island_size w.
Proof.
  intros Hs. unfold World.add_body_by_point.
  destruct (get_island_by_point_ok w Hs x y) as [o ->]. cbn [bind].
  destruct o as [i|]; [destruct (Island.add_body i body) as [i' b']|];
    do 2 eexists; split; reflexivity.
Qed.

Lemma add_body_ok (w : World.t) (body : Body.t) :
  ~ (World.island_size w == 0)%Q ->
  exists w' body', World.add_body w body = Ok (w', body').
Proof.
  intros Hs. unfold World.add_body.
  destruct (negb (World.active w)); [do 2 eexists; reflexivity|]. cbv zeta.
  match goal with
  | |- context [World.add_body_by_point ?w0 ?b ?x ?y] =>
      destruct (add_body_by_point_ok w0 b x y Hs) as (w1 & b1 & -> & Hs1)
  end.
  cbn [bind].
  assert (H1 : ~ (World.island_size w1 == 0)%Q) by (rewrite Hs1; exact Hs).
  match goal with
  | |- context [World.add_body_by_point ?w0 ?b ?x ?y] =>
      destruct (add_body_by_point_ok w0 b x y H1) as (w2 & b2 & -> & Hs2)
  end.
  cbn [bind].
  assert (H2 : ~ (World.island_size w2 == 0)%Q) by (rewrite Hs2; exact H1).
  match goal with
  | |- context [World.add_body_by_point ?w0 ?b ?x ?y] =>
      destruct (add_body_by_point_ok w0 b x y H2) as (w3 & b3 & -> & Hs3)
  end.
  cbn [bind].
  assert (H3 : ~ (World.island_size w3 == 0)%Q) by (rewrite Hs3; exact H2).
  match goal with
  | |- context [World.add_body_by_point ?w0 ?b ?x ?y] =>
      destruct (add_body_by_point_ok w0 b x y H3) as (w4 & b4 & -> & Hs4)
  end.
  do 2 eexists. reflexivity.
Qed.

(** Bonus ids start again with every round: [start()] clears the
    collection, which resets its id counter, so the first bonus added
    after it has the id 1, whatever was added before. *)
Theorem bonus_ids_restart (m : BonusManager.t) (type : Bonus.kind) (x y : Q) :
  ~ (World.island_size (BonusManager.world m) == 0)%Q ->
  exists m' b,
    BonusManager.add (BonusManager.start m) (Bonus.new type x y) = Ok (m', true) /\
    Collection.items (BonusManager.bonuses m') = [b] /\
    Collection.ids (BonusManager.bonuses m') = [Some 1] /\
    Bonus.id b = Some 1 /\ Bonus.type b = type.
Proof.
  intros Hs. unfold BonusManager.add, BonusManager.start, BonusManager.clear.
  cbn [BonusManager.bonuses BonusManager.world BonusManager.set_id Bonus.new Bonus.id
       Collection.clear Collection.id_counter Collection.ids Collection.items Z.add].
  unfold BonusManager.bonuses_add, Collection.add, Collection.exists_,
    Collection.index_exists.
  cbn [Collection.ids existsb].
  match goal with
  | |- context [World.add_body ?w0 ?b0] =>
      destruct (add_body_ok w0 b0 Hs) as (w' & body' & E); rewrite E
  end.
  cbn [bind].
  do 2 eexists. split; [reflexivity|].
  cbn [BonusManager.bonuses BonusManager.put_bonus Collection.items Collection.ids map
       Bonus.id Bonus.set_body Bonus.set_id Bonus.type Body.option_Z_eqb app].
  rewrite Z.eqb_refl. repeat split.
Qed.

Lemma bonus_ids_restart_witness :
  exists m1 m2 b1 b2,
    BonusManager.add (BonusManager.start manager80) (Bonus.new Bonus.SelfFast 10 10)
    = Ok (m1, true) /\
    BonusManager.add (BonusManager.start m1) (Bonus.new Bonus.EnemyBig 60 60)
    = Ok (m2, true) /\
    Collection.items (BonusManager.bonuses m1) = [b1] /\
    Collection.items (BonusManager.bonuses m2) = [b2] /\
    Bonus.id b1 = Some 1 /\ Bonus.id b2 = Some 1.
Proof.
  assert (H0 : ~ (World.island_size (BonusManager.world manager80) == 0)%Q).
  { vm_compute. discriminate. }
  destruct (bonus_ids_restart manager80 Bonus.SelfFast 10 10 H0)
    as (m1 & b1 & E1 & Hi1 & _ & Hb1 & _).
  assert (H1 : ~ (World.island_size (BonusManager.world m1) == 0)%Q).
  { vm_compute in E1. injection E1 as <-. vm_compute. discriminate. }
  destruct (bonus_ids_restart m1 Bonus.EnemyBig 60 60 H1)
    as (m2 & b2 & E2 & Hi2 & _ & Hb2 & _).
  exists m1, m2, b1, b2. auto 10.
Defined.

Section StaleOff.
Context {M : MathLib}.

(** The stack tells bonuses apart by their id alone, and ids recur.  Let
    an avatar at its defaults carry an [EnemyBig] bonus, and let [off()]
    run for a [SelfFast] bonus of an earlier round with the same id: the
    [remove] takes the [EnemyBig] bonus off the stack but resets the
    velocity only, so the avatar keeps the doubled radius with an empty
    stack, and the [off()] of the [EnemyBig] bonus itself finds nothing
    to remove and changes nothing. *)
Theorem stale_off_keeps_effect (a : Avatar.t) (old current : Bonus.t) :
  Bonus.id old = Bonus.id current ->
  Bonus.type current = Bonus.EnemyBig -> Bonus.type old = Bonus.SelfFast ->
  Avatar.bonus_stack a = Collection.empty -> default_properties a ->
  exists a1 a2,
    BonusStack.add a current = Ok a1 /\ (Avatar.radius a1 == 12 # 10)%Q /\
    BonusStack.remove a1 old = Ok a2 /\
    Avatar.bonus_stack a2 = Collection.empty /\
    (Avatar.radius a2 == 12 # 10)%Q /\
    BonusStack.remove a2 current = Ok a2.
Proof.
  intros Hid Hc Ho Hs (Hv & Hr & Hi & Hn & Hcol & Hd & Hb).
  rewrite (add_on_empty a current Hs).
  unfold BonusStack.resolve, BonusStack.reset_effects, BonusStack.aggregate.
  cbn [Avatar.with_bonus_stack Avatar.bonus_stack Collection.items flat_map app].
  unfold BonusStack.get_effects at 1. rewrite Hc.
  cbn -[Avatar.set_radius Qplus Qmult Default.RADIUS Py.max Qdiv Qpower Z.add].
  unfold Avatar.set_radius at 1, Avatar.Qneb.
  cbn [Avatar.radius Avatar.with_bonus_stack]. rewrite Z.add_0_l.
  assert (Hne : Qeq_bool (Avatar.radius a) (Default.RADIUS * Qpower 2 1) = false).
  { apply (Qeq_bool_false_l _ _ _ Hr). reflexivity. }
  rewrite Hne. cbn [negb].
  set (a1 := Avatar.with_body _ _).
  assert (Hr1 : (Avatar.radius a1 == 12 # 10)%Q) by reflexivity.
  assert (Hs1 : Avatar.bonus_stack a1 = Collection.mk [Bonus.id current] [current] 0)
    by reflexivity.
  assert (Hv1 : (Avatar.velocity a1 == Default.VELOCITY)%Q) by exact Hv.
  exists a1, (Avatar.with_bonus_stack Collection.empty a1).
  split; [reflexivity|]. split; [exact Hr1|].
  assert (Hrem : BonusStack.remove a1 old
                 = Ok (Avatar.with_bonus_stack Collection.empty a1)).
  { unfold BonusStack.remove, BonusStack.bonuses_remove, Collection.remove,
      Collection.remove_by_id.
    rewrite Hs1. cbn [Collection.ids Collection.index]. rewrite Hid, option_Z_eqb_refl.
    unfold Collection.delete_index.
    cbn [Collection.delete Collection.ids Collection.items Collection.id_counter].
    unfold BonusStack.resolve, BonusStack.reset_effects, BonusStack.aggregate.
    cbn [Avatar.with_bonus_stack Avatar.bonus_stack Collection.items flat_map app].
    unfold BonusStack.get_effects at 1. rewrite Ho.
    cbn -[Avatar.set_velocity Qplus Qmult Default.VELOCITY Py.max Qdiv].
    unfold Avatar.set_velocity, Avatar.Qneb.
    cbn [Avatar.velocity Avatar.with_bonus_stack].
    rewrite (proj2 (Qeq_bool_iff _ _) Hv1). reflexivity. }
  split; [exact Hrem|]. split; [reflexivity|]. split; [exact Hr1|].
  unfold BonusStack.remove, BonusStack.bonuses_remove, Collection.remove,
    Collection.remove_by_id.
  reflexivity.
Qed.

End StaleOff.

Lemma stale_off_keeps_effect_witness :
  default_properties avatar1 /\
  exists a1 a2,
    BonusStack.add (M := coarse_math) avatar1 big_bonus = Ok a1 /\
    BonusStack.remove (M := coarse_math) a1 fast_bonus = Ok a2 /\
    Collection.items (Avatar.bonus_stack a2) = [] /\
    (Avatar.radius a2 == 12 # 10)%Q.
Proof.
  assert (Hd : default_properties avatar1).
  { unfold default_properties. vm_compute. repeat split. }
  split; [exact Hd|].
  destruct (stale_off_keeps_effect (M := coarse_math) avatar1 fast_bonus big_bonus
              eq_refl eq_refl eq_refl eq_refl Hd)
    as (a1 & a2 & H1 & _ & H2 & H3 & H4 & _).
  exists a1, a2. split; [exact H1|]. split; [exact H2|]. split; [rewrite H3; reflexivity|].
  exact H4.
Defined.

(** ** The choice of a bonus class *)


Lemma fill_spec (g : Game.t) (types : list Bonus.kind) :
  forall pot bonuses,
    BonusTypes.fill g types pot bonuses
    = (pot ++ running_totals g (last pot 0%Q) (positive g types),
       bonuses ++ positive g types).
Proof.
  induction types as [|t types IH]; intros pot bonuses.
  - cbn [BonusTypes.fill positive filter running_totals]. rewrite !app_nil_r. reflexivity.
  - cbn [BonusTypes.fill]. unfold positive. cbn [filter].
    destruct (Island.Qltb 0 (BonusTypes.get_probability g t)) eqn:E.
    + rewrite IH. rewrite last_last. cbn [running_totals].
      rewrite <- !app_assoc. reflexivity.
    + apply IH.
Qed.

Lemma positive_In (g : Game.t) (types : list Bonus.kind) (t : Bonus.kind) :
  In t (positive g types) <-> In t types /\ (0 < BonusTypes.get_probability g t)%Q.
Proof.
  unfold positive. rewrite filter_In. split; intros [H1 H2]; split; auto.
  - apply Qltb_lt. exact H2.
  - apply Qltb_lt. exact H2.
Qed.

Lemma scan_In (value : Q) (bonuses : list Bonus.kind) (t : Bonus.kind) :
  forall pot i, BonusTypes.scan value pot i bonuses = BonusTypes.Chosen t -> In t bonuses.
Proof.
  induction pot as [|c pot IH]; intros i H; cbn [BonusTypes.scan] in H; [discriminate|].
  destruct (Island.Qltb value c).
  - destruct (nth_error bonuses i) as [b|] eqn:E; [|discriminate].
    injection H as ->. apply (nth_error_In _ _ E).
  - apply (IH _ H).
Qed.

(** A class that is chosen is one of the list, with a positive
    probability. *)
Lemma chosen_positive (g : Game.t) (types : list Bonus.kind) (u : Q) (t : Bonus.kind) :
  BonusTypes.get_random_bonus_type g types u = BonusTypes.Chosen t ->
  In t types /\ (0 < BonusTypes.get_probability g t)%Q.
Proof.
  unfold BonusTypes.get_random_bonus_type. intros H.
  destruct types as [|t0 types]; [discriminate|].
  rewrite fill_spec in H. cbn [app] in H.
  destruct (running_totals g (last [] 0%Q) (positive g (t0 :: types))); [discriminate|].
  apply scan_In in H. apply positive_In in H. exact H.
Qed.







(** With fewer than one in twenty alive the probability is 0. *)
Lemma get_probability_few_alive (alive_count present_count : Z) :
  0 <= alive_count -> 0 < present_count <= 2 ^ 40 ->
  20 * alive_count < present_count ->
  BonusGameClear.get_probability alive_count present_count = 0%Q.
Proof.
  intros Ha [Hp Hb] Hlt.
  assert (HP : (0 < inject_Z present_count)%Q).
  { change 0%Q with (inject_Z 0). rewrite <- Zlt_Qlt. exact Hp. }
  assert (Hs : (inject_Z alive_count / inject_Z present_count < 1 # 20)%Q).
  { apply Qlt_shift_div_r; [exact HP|].
    rewrite Zlt_Qlt, inject_Z_mult in Hlt. change (inject_Z 20) with 20%Q in Hlt. lra. }
  assert (Hs0 : (0 <= inject_Z alive_count / inject_Z present_count)%Q).
  { apply Qle_shift_div_l; [exact HP|]. rewrite Qmult_0_l.
    change 0%Q with (inject_Z 0). rewrite <- Zle_Qle. exact Ha. }
  pose proof (get_probability_nearest alive_count present_count Ha Hp Hb) as Hn.
  set (s := (inject_Z alive_count / inject_Z present_count)%Q) in *.
  rewrite Hn by lra.
  assert (E : Py.round (s * 10) = 0) by (apply Py_round_near; change (inject_Z 0) with 0%Q; lra).
  rewrite E. reflexivity.
Qed.

(** [BonusGameClear] is drawn only while somebody is present and at least
    one in twenty of the present avatars is alive: whatever the list of
    classes and the random number, [get_random_bonus_type] does not return
    it otherwise. *)
Theorem clear_bonus_needs_survivors (g : Game.t) (types : list Bonus.kind) (u : Q) :
  let alive_count := Z.of_nat (List.length (Game.positions g Avatar.alive)) in
  let present_count := Z.of_nat (List.length (Game.positions g Avatar.present)) in
  present_count <= 2 ^ 40 ->
  BonusTypes.get_random_bonus_type g types u = BonusTypes.Chosen Bonus.GameClear ->
  0 < present_count /\ present_count <= 20 * alive_count.
Proof.
  intros alive_count present_count Hb H.
  apply chosen_positive in H. destruct H as [_ H].
  cbn [BonusTypes.get_probability] in H.
  fold alive_count present_count in H.
  assert (Ha : 0 <= alive_count) by apply Nat2Z.is_nonneg.
  assert (Hp : 0 <= present_count) by apply Nat2Z.is_nonneg.
  assert (Hp' : 0 < present_count).
  { destruct (Z.eq_dec present_count 0) as [E|E]; [|lia].
    exfalso. unfold BonusGameClear.get_probability in H. rewrite E in H.
    revert H. apply Qlt_irrefl. }
  split; [exact Hp'|].
  destruct (Z_lt_le_dec (20 * alive_count) present_count) as [Hlt|Hle]; [|exact Hle].
  exfalso.
  rewrite (get_probability_few_alive alive_count present_count Ha (conj Hp' Hb) Hlt) in H.
  revert H. apply Qlt_irrefl.
Qed.

Lemma clear_bonus_needs_survivors_witness :
  exists g,
    quartet_last_standing = Ok g /\
    BonusTypes.get_random_bonus_type g all_bonus_types (99 # 100)
    = BonusTypes.Chosen Bonus.GameClear /\
    Z.of_nat (List.length (Game.positions g Avatar.alive)) = 1 /\
    0 < Z.of_nat (List.length (Game.positions g Avatar.present)) <= 20.
Proof.
  destruct quartet_last_standing as [g|e] eqn:E; [|vm_compute in E; discriminate E].
  exists g. split; [reflexivity|].
  assert (Hc : BonusTypes.get_random_bonus_type g all_bonus_types (99 # 100)
               = BonusTypes.Chosen Bonus.GameClear).
  { vm_compute in E. apply Ok_inj in E. rewrite <- E. vm_compute. reflexivity. }
  assert (Ha : Z.of_nat (List.length (Game.positions g Avatar.alive)) = 1).
  { vm_compute in E. apply Ok_inj in E. rewrite <- E. vm_compute. reflexivity. }
  assert (Hb : Z.of_nat (List.length (Game.positions g Avatar.present)) <= 2 ^ 40).
  { vm_compute in E. apply Ok_inj in E. rewrite <- E. vm_compute. discriminate. }
  pose proof (clear_bonus_needs_survivors g all_bonus_types (99 # 100) Hb Hc) as H.
  cbv zeta in H. rewrite Ha in H. split; [exact Hc|]. split; [exact Ha|]. lia.
Defined.

Section StackEvery.
Context {M : MathLib}.

(** A bonus whose effects name no property that [BonusStack.apply] knows:
    [apply] assigns attributes of these names and nothing else changes. *)
Lemma stray_bonus_restores (a : Avatar.t) (b : Bonus.t) :
  In (Bonus.type b) [Bonus.EnemyStraightAngle; Bonus.GameBorderless; Bonus.GameClear] ->
  Avatar.bonus_stack a = Collection.empty ->
  default_properties a ->
  exists a1, BonusStack.add a b = Ok a1 /\
  exists a2, BonusStack.remove a1 b = Ok a2 /\ default_properties a2.
Proof.
  intros Hk Hs (Hv & Hr & Hi & Hn & Hc & Hd & Hb).
  rewrite (add_on_empty a b Hs).
  destruct Hk as [Ht|[Ht|[Ht|[]]]]; symmetry in Ht.
  all: unfold BonusStack.resolve, BonusStack.reset_effects, BonusStack.aggregate;
    cbn [Avatar.with_bonus_stack Avatar.bonus_stack Collection.items flat_map app];
    unfold BonusStack.get_effects at 1; rewrite Ht;
    cbn -[BonusStack.assign BonusStack.half_pi];
    eexists; (split; [reflexivity|]);
    rewrite remove_last by reflexivity;
    unfold BonusStack.resolve, BonusStack.reset_effects, BonusStack.aggregate;
    cbn [Avatar.with_bonus_stack Avatar.bonus_stack Collection.items flat_map app
         Collection.empty];
    unfold BonusStack.get_effects at 1; rewrite Ht;
    cbn -[BonusStack.assign BonusStack.half_pi];
    eexists; (split; [reflexivity|]);
    unfold default_properties;
    cbn [Avatar.velocity Avatar.radius Avatar.inverse Avatar.invincible Avatar.color
         Avatar.player_color Avatar.direction_in_loop Avatar.angular_velocity_base
         Avatar.with_attrs Avatar.with_bonus_stack];
    repeat split; assumption.
Qed.

(** C3.  Every bonus, added to the empty stack of an avatar at its defaults
    and removed again: both calls succeed, and velocity, radius, inverse,
    invincible, colour, [direction_in_loop] and [angular_velocity_base] are
    at their defaults afterwards. *)
Theorem add_remove_restores_defaults (a : Avatar.t) (b : Bonus.t) :
  Avatar.bonus_stack a = Collection.empty ->
  default_properties a ->
  exists a1, BonusStack.add a b = Ok a1 /\
  exists a2, BonusStack.remove a1 b = Ok a2 /\ default_properties a2.
Proof.
  intros Hs Hd.
  destruct (Bonus.type b) as [| | | | | | | | | | |c] eqn:Ht.
  - destruct (radius_bonus_restores a b (-1)) as (a1 & H1 & _ & H2); auto.
    + unfold BonusStack.get_effects. rewrite Ht. reflexivity.
    + exists a1. auto.
  - destruct (velocity_bonus_restores a b (- (5 # 10) * Default.VELOCITY))
      as (a1 & H1 & _ & H2); auto.
    + unfold BonusStack.get_effects. rewrite Ht. reflexivity.
    + exists a1. auto.
  - destruct (velocity_bonus_restores a b ((5 # 10) * Default.VELOCITY))
      as (a1 & H1 & _ & H2); auto.
    + unfold BonusStack.get_effects. rewrite Ht. reflexivity.
    + exists a1. auto.
  - destruct (invincible_bonus_restores a b) as (a1 & H1 & _ & H2); auto.
    + unfold BonusStack.get_effects. rewrite Ht. reflexivity.
    + exists a1. auto.
  - destruct (velocity_bonus_restores a b (- (75 # 100) * Default.VELOCITY))
      as (a1 & H1 & _ & H2); auto.
    + unfold BonusStack.get_effects. rewrite Ht. reflexivity.
    + exists a1. auto.
  - destruct (velocity_bonus_restores a b ((75 # 100) * Default.VELOCITY))
      as (a1 & H1 & _ & H2); auto.
    + unfold BonusStack.get_effects. rewrite Ht. reflexivity.
    + exists a1. auto.
  - destruct (radius_bonus_restores a b 1) as (a1 & H1 & _ & H2); auto.
    + unfold BonusStack.get_effects. rewrite Ht. reflexivity.
    + exists a1. auto.
  - destruct (inverse_bonus_restores a b) as (a1 & H1 & _ & H2); auto.
    + unfold BonusStack.get_effects. rewrite Ht. reflexivity.
    + exists a1. auto.
  - apply stray_bonus_restores; [rewrite Ht; cbn; auto | exact Hs | exact Hd].
  - apply stray_bonus_restores; [rewrite Ht; cbn; auto | exact Hs | exact Hd].
  - apply stray_bonus_restores; [rewrite Ht; cbn; auto | exact Hs | exact Hd].
  - destruct (color_bonus_restores a b c) as (a1 & H1 & _ & H2); auto.
    + unfold BonusStack.get_effects. rewrite Ht. reflexivity.
    + exists a1. auto.
Qed.

End StackEvery.

Lemma add_remove_restores_defaults_witness :
  default_properties avatar1 /\
  exists a1 a2,
    BonusStack.add (M := coarse_math) avatar1 straight_bonus = Ok a1 /\
    BonusStack.remove (M := coarse_math) a1 straight_bonus = Ok a2 /\
    default_properties a2.
Proof.
  assert (Hd : default_properties avatar1).
  { unfold default_properties. vm_compute. repeat split. }
  split; [exact Hd|].
  destruct (add_remove_restores_defaults (M := coarse_math) avatar1 straight_bonus
              eq_refl Hd)
    as (a1 & H1 & a2 & H2 & H3).
  exists a1, a2. auto.
Defined.

(** ** Collections: the constructor and [filter] *)

Section CollectionFilter.
Context {K T : Type} (eqb : K -> K -> bool) (key : T -> K).
Context (as_int : K -> option Z) (set_key : T -> Z -> T).
Hypothesis eqb_eq : forall a b, eqb a b = true <-> a = b.

(** An element that has a non-zero id keeps it; the counter rises to it. *)
Lemma set_id_kept (ids : list K) (items : list T) (n id : Z) (e : T) :
  as_int (key e) = Some id -> id <> 0 ->
  Collection.set_id key as_int set_key true (Collection.mk ids items n) e
  = (Collection.mk ids items (Z.max n id), e).
Proof.
  intros Hid Hnz. unfold Collection.set_id. rewrite Hid.
  destruct (Z.eqb_spec id 0) as [E|_]; [contradiction|].
  cbn [Collection.id_counter Collection.ids Collection.items].
  destruct (Z.ltb_spec n id) as [H|H].
  - rewrite Z.max_r by lia. reflexivity.
  - rewrite Z.max_l by lia. reflexivity.
Qed.

Lemma fold_add_with (index : bool) (l : list T) : forall l0 n,
  NoDup (map key (l0 ++ l)) ->
  (index = true ->
   forall e, In e l -> exists id, as_int (key e) = Some id /\ id <> 0) ->
  fold_left (fun c element =>
               fst (Collection.add_with eqb key as_int set_key index c element))
    l (Collection.mk (map key l0) l0 n)
  = Collection.mk (map key (l0 ++ l)) (l0 ++ l)
      (if index
       then fold_left
              (fun m element =>
                 match as_int (key element) with
                 | Some id => Z.max m id
                 | None => m
                 end) l n
       else n).
Proof.
  induction l as [|e l IH]; intros l0 n Hnd Hids.
  - cbn [fold_left]. rewrite app_nil_r. destruct index; reflexivity.
  - cbn [fold_left].
    assert (Hfresh : existsb (eqb (key e)) (map key l0) = false).
    { destruct (existsb (eqb (key e)) (map key l0)) eqn:Ex; [|reflexivity].
      exfalso. apply existsb_exists in Ex as (k & Hk & Hkey). apply eqb_eq in Hkey.
      subst k. rewrite map_app in Hnd. apply NoDup_remove_2 in Hnd. apply Hnd.
      apply in_or_app. left. exact Hk. }
    assert (Hl : map key l0 ++ [key e] = map key (l0 ++ [e]))
      by (rewrite map_app; reflexivity).
    destruct index.
    + destruct (Hids eq_refl e (or_introl eq_refl)) as (id & Hid & Hnz).
      unfold Collection.add_with at 2. rewrite (set_id_kept _ _ _ _ _ Hid Hnz).
      unfold Collection.add, Collection.exists_, Collection.index_exists.
      cbn [Collection.ids Collection.items Collection.id_counter].
      rewrite Hfresh. cbn [fst]. rewrite Hl, IH.
      * rewrite <- app_assoc. cbn [app]. rewrite Hid. reflexivity.
      * rewrite <- app_assoc. exact Hnd.
      * intros _ e' He'. apply (Hids eq_refl). right. exact He'.
    + unfold Collection.add_with at 2, Collection.set_id.
      unfold Collection.add, Collection.exists_, Collection.index_exists.
      cbn [Collection.ids Collection.items Collection.id_counter].
      rewrite Hfresh. cbn [fst]. rewrite Hl, IH.
      * rewrite <- app_assoc. reflexivity.
      * rewrite <- app_assoc. exact Hnd.
      * discriminate.
Qed.

(** [filter] keeps the order of the items: the reversal of [filter] and
    the reversal of the constructor cancel.  An auto-indexing collection,
    whose items all have a non-zero id, hands its ids on unchanged, and the
    id counter of the new collection is the largest id kept; without
    auto-indexing the counter is 0. *)
Theorem filter_keeps_order (index : bool) (c : Collection.t K T) (p : T -> bool) :
  coherent key c ->
  (index = true ->
   forall e, In e (Collection.items c) ->
             exists id, as_int (key e) = Some id /\ id <> 0) ->
  let c' := Collection.filter eqb key as_int set_key index c p in
  Collection.items c' = List.filter p (Collection.items c) /\
  Collection.ids c' = map key (List.filter p (Collection.items c)) /\
  Collection.id_counter c'
  = (if index
     then Collection.top_id key as_int (List.filter p (Collection.items c))
     else 0) /\
  coherent key c'.
Proof.
  intros [Hids Hnd] Hint c'.
  assert (Hf : NoDup (map key (List.filter p (Collection.items c)))).
  { rewrite Hids in Hnd. clear Hids Hint c'.
    induction (Collection.items c) as [|e l IH]; [constructor|].
    cbn [map] in Hnd. inversion Hnd as [|? ? Hn Hnd']; subst. cbn [List.filter].
    destruct (p e); [|apply IH; exact Hnd'].
    cbn [map]. constructor; [|apply IH; exact Hnd'].
    intros Hin. apply Hn. apply in_map_iff in Hin as (e' & He' & Hin).
    apply filter_In in Hin as [Hin _]. apply in_map_iff. exists e'. auto. }
  assert (E : c' = Collection.mk (map key (List.filter p (Collection.items c)))
                     (List.filter p (Collection.items c))
                     (if index
                      then Collection.top_id key as_int
                             (List.filter p (Collection.items c))
                      else 0)).
  { unfold c', Collection.filter, Collection.of_list.
    rewrite filter_rev, rev_involutive.
    apply (fold_add_with index (List.filter p (Collection.items c)) [] 0).
    - exact Hf.
    - intros Hi e He. apply filter_In in He as [He _]. exact (Hint Hi e He). }
  rewrite E. cbn [Collection.items Collection.ids Collection.id_counter].
  split; [reflexivity|]. split; [reflexivity|]. split; [reflexivity|].
  split; [reflexivity | exact Hf].
Qed.

End CollectionFilter.

Lemma filter_keeps_order_witness :
  let c := Collection.mk [Some 1; Some 2; Some 3; Some 4] [1; 2; 3; 4] 7 in
  let c' := Collection.filter Body.option_Z_eqb Some (fun k => k) (fun _ n => n)
              true c Z.odd in
  coherent Some c /\
  Collection.items c' = [1; 3] /\ Collection.id_counter c' = 3.
Proof.
  cbv zeta.
  assert (Hc : coherent Some
                 (Collection.mk [Some 1; Some 2; Some 3; Some 4] [1; 2; 3; 4] 7)).
  { split; [reflexivity|]. repeat constructor; cbn; intuition discriminate. }
  split; [exact Hc|].
  assert (Hi : true = true ->
               forall e, In e [1; 2; 3; 4] ->
                         exists id, (fun k : option Z => k) (Some e) = Some id /\ id <> 0).
  { intros _ e He. exists e. split; [reflexivity|]. cbn in He. lia. }
  destruct (filter_keeps_order Body.option_Z_eqb Some (fun k => k) (fun _ n => n)
              option_Z_eqb_eq true
              (Collection.mk [Some 1; Some 2; Some 3; Some 4] [1; 2; 3; 4] 7) Z.odd Hc Hi)
    as (H1 & _ & H3 & _).
  split; [rewrite H1; reflexivity | rewrite H3; reflexivity].
Defined.

(** ** The velocity components and the speed *)



Section Speed.
Context {M : MathLib}.









Hypothesis circle : forall x : Q, (cos x * cos x + sin x * sin x == 1)%Q.
Hypothesis sqrt_square :
  forall x y : Q, (0 <= y)%Q -> (x == y * y)%Q -> (sqrt x == y)%Q.



End Speed.


